(** * fjord.js: structured concurrency over promises

    A shallow embedding of [src/fjord.js] (classes [TideToken], [Estuary]
    and [Fjord]) over a small model of the host: a promise store, the
    FIFO microtask queue and the timer list.  Asynchronous functions are
    written in continuation style: every [await] and every callback passed
    to [then]/[finally]/[setTimeout] is a constructor of [Handler] (or
    [TimerCb]) whose body is given by [run_handler] ([run_timer]).

    Caller code (the scope callback and the undertakings handed to
    [flow]) is the environment: it is represented by the [Action]s it can
    perform between two jobs of the host. *)

From stdpp Require Import base tactics option list strings pretty.
From Stdlib Require Import ZArith Lia.

Open Scope Z_scope.
Open Scope string_scope.
Open Scope list_scope.

(** ** JavaScript values *)

Inductive JSValue : Type :=
| VUndefined
| VNum (n : Z)
| VStr (s : string)
| VArray (len : nat)          (* an array; only its length is kept *)
| VError (message : string).  (* [new Error(message)] *)

(** [error instanceof Error] *)
Definition instanceof_Error (v : JSValue) : bool :=
  match v with
  | VError _ => true
  | _ => false
  end.

(** How a promise settles: [Ful v] is resolve(v), [Rej e] is reject(e). *)
Inductive Outcome : Type :=
| Ful (v : JSValue)
| Rej (e : JSValue).

(** The policy tag handed to the failure observer. *)
Inductive Mode : Type := Cascade | Tributary.

Definition mode_tag (m : Mode) : string :=
  match m with
  | Cascade => "cascade"
  | Tributary => "tributary"
  end.

(** ** class TideToken *)

Module TideToken.

(** [signal.aborted] of the wrapped AbortController. *)
Record t : Type := Build { aborted : bool }.

Definition new : t := {| aborted := false |}.

Definition isFrozen (tok : t) : bool := aborted tok.

(** [abortController.abort()]: sets the flag; aborting an aborted
    signal does nothing. *)
Definition freeze (tok : t) : t :=
  if aborted tok then tok else {| aborted := true |}.

End TideToken.

(** ** The host: promises, reactions, jobs *)

(** What an undertaking does when it is finally invoked: return a plain
    value or throw synchronously ([USync]), or return a promise that its
    own code settles later ([UAsync], an [async] arrow function). *)
Inductive Undertaking : Type :=
| USync (o : Outcome)
| UAsync.

(** The callbacks of the source, one constructor per closure. *)
Inductive Handler : Type :=
| HInvoke (u : Undertaking)          (* [() => undertaking()] in flow *)
| HFlowThen                          (* the two arrows of [.then(...)] in flow *)
| HFlowFinally (flowPromise : nat)   (* the arrow of [.finally(...)] in flow *)
| HValueThunk (o : Outcome)          (* [() => value] / thrower made by finally *)
| HForward (target : nat)            (* the resolving functions of [target] *)
| HElement (agg : nat) (index : nat)  (* element functions of Promise.allSettled *)
| HSettleResume (ps : nat)           (* settle, after its await *)
| HCascadeBody (pc : nat)            (* cascade, after [await _executeWithTimeout] *)
| HCascadeSettled (result : JSValue) (pc : nat) (* cascade, after await settle in try *)
| HCascadeCaught (error : JSValue) (pc : nat)   (* cascade, after await settle in catch *)
| HTributaryBody (pc : nat)
| HTributarySettled (result : JSValue) (pc : nat)
| HTributaryCaught (error : JSValue) (pc : nat).

(** A reaction registered by [then]: the handler and the promise derived
    by [then] ([None] for an [await] and for the internal reactions of the
    combinators, whose derived promise nobody can reach). *)
Record Reaction : Type := { handler : Handler; derived : option nat }.

(** Which expression of the source created a promise.  An annotation
    only: no definition below reads it. *)
Inductive Role : Type :=
| RCall                    (* the promise of the cascade/tributary call *)
| RBody                    (* [scopeCallback(estuary)] *)
| RDeadline                (* [new Promise((_, reject) => setTimeout(...))] *)
| RRace                    (* [Promise.race([...])] *)
| RSettle                  (* a call of [settle] *)
| RAllSettled              (* [Promise.allSettled(...)] *)
| RResolved                (* [Promise.resolve()] *)
| RClosed                  (* [Promise.reject(new Error('Estuary frozen...'))] *)
| RFlow                    (* [flowPromise] *)
| ROperation               (* the promise an async undertaking returned *)
| RFlowThen (fp : nat)     (* [flowPromise.then(...)] *)
| RFinallyUnit             (* [Promise.resolve(onFinally())] inside finally *)
| RFinallyValue (fp : nat) (* [....then(() => value)] inside finally *)
| RFlowResult (fp : nat).  (* what [flow] returns: [....finally(...)] *)

Inductive PState : Type :=
| Pending
| Settled (o : Outcome).

Record Promise : Type :=
  { role : Role; pstate : PState; reactions : list Reaction }.

Inductive Job : Type :=
| JReact (r : Reaction) (o : Outcome)     (* PromiseReactionJob *)
| JThenable (target : nat) (src : nat).   (* NewPromiseResolveThenableJob *)

(** The one callback given to [setTimeout]. *)
Inductive TimerCb : Type :=
| CbDeadline (deadline : nat).

Record Timer : Type := { delay : Z; callback : TimerCb }.

(** The record of one [Promise.allSettled] call: the promises given, the
    slots of the result array ([None] until the element functions of that
    index have been called), the count of slots still empty and the
    promise the call returned. *)
Record Aggregate : Type :=
  { elements : list nat; values : list (option Outcome);
    remaining : nat; result : nat }.

(** The trace of a run.  The first two events are what caller code
    observes; the third one records, for the statements below, which
    call of [settle] started to wait and for which operations. *)
Inductive Event : Type :=
| EvInvoke (u : Undertaking)              (* an undertaking was called *)
| EvObserver (error : JSValue) (tag : string) (* onError(error, tag) *)
| EvWait (ps : nat) (snapshot : list nat). (* [settle] reached its await *)

(** The state of one orchestrator call: its token, its estuary (fields
    [flows] and [settled]) and the host. *)
Record State : Type :=
  { tideToken : TideToken.t;
    flows : list nat;
    settled : bool;
    heap : list Promise;
    aggs : list Aggregate;
    queue : list Job;
    timers : list Timer;
    log : list Event }.

Definition with_token (f : TideToken.t -> TideToken.t) (s : State) : State :=
  {| tideToken := f (tideToken s); flows := flows s; settled := settled s;
     heap := heap s; aggs := aggs s; queue := queue s; timers := timers s;
     log := log s |}.

Definition with_flows (f : list nat -> list nat) (s : State) : State :=
  {| tideToken := tideToken s; flows := f (flows s); settled := settled s;
     heap := heap s; aggs := aggs s; queue := queue s; timers := timers s;
     log := log s |}.

Definition with_settled (b : bool) (s : State) : State :=
  {| tideToken := tideToken s; flows := flows s; settled := b;
     heap := heap s; aggs := aggs s; queue := queue s; timers := timers s;
     log := log s |}.

Definition with_heap (f : list Promise -> list Promise) (s : State) : State :=
  {| tideToken := tideToken s; flows := flows s; settled := settled s;
     heap := f (heap s); aggs := aggs s; queue := queue s; timers := timers s;
     log := log s |}.

Definition with_aggs (f : list Aggregate -> list Aggregate) (s : State) : State :=
  {| tideToken := tideToken s; flows := flows s; settled := settled s;
     heap := heap s; aggs := f (aggs s); queue := queue s; timers := timers s;
     log := log s |}.

Definition with_queue (f : list Job -> list Job) (s : State) : State :=
  {| tideToken := tideToken s; flows := flows s; settled := settled s;
     heap := heap s; aggs := aggs s; queue := f (queue s); timers := timers s;
     log := log s |}.

Definition with_timers (f : list Timer -> list Timer) (s : State) : State :=
  {| tideToken := tideToken s; flows := flows s; settled := settled s;
     heap := heap s; aggs := aggs s; queue := queue s; timers := f (timers s);
     log := log s |}.

Definition with_log (f : list Event -> list Event) (s : State) : State :=
  {| tideToken := tideToken s; flows := flows s; settled := settled s;
     heap := heap s; aggs := aggs s; queue := queue s; timers := timers s;
     log := f (log s) |}.

(** ** A state monad for the synchronous code *)

Definition M (A : Type) : Type := State -> A * State.

Definition ret {A} (a : A) : M A := fun s => (a, s).

Definition bind {A B} (m : M A) (k : A -> M B) : M B :=
  fun s => let (a, s') := m s in k a s'.

Notation "x <- m ;; k" := (bind m (fun x => k))
  (at level 100, m at next level, right associativity).
Notation "m ;; k" := (bind m (fun _ => k))
  (at level 100, right associativity).

Definition get {A} (f : State -> A) : M A := fun s => (f s, s).
Definition modify (f : State -> State) : M unit := fun s => (tt, f s).

Fixpoint for_each {A} (l : list A) (f : A -> M unit) : M unit :=
  match l with
  | [] => ret tt
  | x :: l' => f x ;; for_each l' f
  end.

(** ** Promise primitives of the host *)

(** A new promise object; its identity is its index in the store. *)
Definition new_promise (r : Role) (st : PState) : M nat :=
  fun s =>
    (length (heap s),
     with_heap (fun h => h ++ [{| role := r; pstate := st; reactions := [] |}]) s).

Definition enqueue (j : Job) : M unit :=
  modify (with_queue (fun q => q ++ [j])).

Definition log_event (e : Event) : M unit :=
  modify (with_log (fun l => l ++ [e])).

(** A new counter for [Promise.allSettled]. *)
Definition aggs_push (ag : Aggregate) : M nat :=
  fun s => (length (aggs s), with_aggs (fun l => l ++ [ag]) s).

(** An element function of an [allSettled] call: the first call for an
    index fills the slot and decrements the counter (the updated record is
    returned); a later call does nothing. *)
Definition count_down (a i : nat) (o : Outcome) : M (option Aggregate) :=
  fun s =>
    match aggs s !! a with
    | Some ag =>
        match values ag !! i with
        | Some None =>
            let ag' := {| elements := elements ag;
                          values := <[i := Some o]> (values ag);
                          remaining := pred (remaining ag);
                          result := result ag |} in
            (Some ag', with_aggs <[a := ag']> s)
        | _ => (None, s)
        end
    | None => (None, s)
    end.

Definition state_of (p : nat) (s : State) : option PState :=
  pstate <$> heap s !! p.

(** FulfillPromise / RejectPromise behind the resolving functions of [p]:
    the first call settles [p] and queues one job per reaction, in
    registration order; later calls are ignored. *)
Definition settle_promise (p : nat) (o : Outcome) : M unit :=
  fun s =>
    match heap s !! p with
    | Some pr =>
        match pstate pr with
        | Pending =>
            (tt,
             with_queue (fun q => q ++ map (fun r => JReact r o) (reactions pr))
               (with_heap
                  <[p := {| role := role pr; pstate := Settled o; reactions := [] |}]>
                  s))
        | Settled _ => (tt, s)
        end
    | None => (tt, s)
    end.

(** PerformPromiseThen: register on a pending promise, queue a job at
    once on a settled one. *)
Definition perform_then (p : nat) (r : Reaction) : M unit :=
  fun s =>
    match heap s !! p with
    | Some pr =>
        match pstate pr with
        | Pending =>
            (tt,
             with_heap
               <[p := {| role := role pr; pstate := Pending;
                         reactions := reactions pr ++ [r] |}]>
               s)
        | Settled o => enqueue (JReact r o) s
        end
    | None => (tt, s)
    end.

(** [p.then(h)] with its derived promise. *)
Definition then_ (p : nat) (h : Handler) (r : Role) : M nat :=
  d <- new_promise r Pending ;;
  perform_then p {| handler := h; derived := Some d |} ;;
  ret d.

(** [await p] inside an async function whose continuation is [h]. *)
Definition await (p : nat) (h : Handler) : M unit :=
  perform_then p {| handler := h; derived := None |}.

(** How a callback ends. *)
Inductive Completion : Type :=
| Normal (v : JSValue)
| Thrown (e : JSValue)
| Returned (q : nat).   (* it returned the promise [q] *)

(** The resolve function of a derived promise applied to what the
    callback produced: a promise is adopted through a thenable job. *)
Definition resolve_with (d : nat) (c : Completion) : M unit :=
  match c with
  | Normal v => settle_promise d (Ful v)
  | Thrown e => settle_promise d (Rej e)
  | Returned q => enqueue (JThenable d q)
  end.

(** [Promise.race(ps)] *)
Definition Promise_race (ps : list nat) : M nat :=
  r <- new_promise RRace Pending ;;
  for_each ps (fun p => perform_then p {| handler := HForward r; derived := None |}) ;;
  ret r.

(** The loop of [Promise.allSettled]: element functions for index [i],
    [i+1], ... are registered on the promises in turn. *)
Fixpoint register_elements (a i : nat) (ps : list nat) : M unit :=
  match ps with
  | [] => ret tt
  | p :: rest =>
      perform_then p {| handler := HElement a i; derived := None |} ;;
      register_elements a (S i) rest
  end.

(** [Promise.allSettled(ps)]: resolves once every element has settled,
    at once for the empty list. *)
Definition Promise_allSettled (ps : list nat) : M nat :=
  r <- new_promise RAllSettled Pending ;;
  a <- aggs_push {| elements := ps; values := replicate (length ps) None;
                    remaining := length ps; result := r |} ;;
  register_elements a 0 ps ;;
  (if decide (length ps = 0%nat) then settle_promise r (Ful (VArray 0)) else ret tt) ;;
  ret r.

Definition setTimeout (cb : TimerCb) (ms : Z) : M unit :=
  modify (with_timers (fun l => l ++ [{| delay := ms; callback := cb |}])).

(** ** class Estuary *)

Module Estuary.

Definition ScopeClosed : JSValue :=
  VError "Estuary frozen: scope closed or task error occurred".

(** [this.tideToken.freeze()] *)
Definition freeze_token : M unit := modify (with_token TideToken.freeze).

(** [this.settled = true] *)
Definition mark_settled : M unit := modify (with_settled true).

(** [this.flows.add(p)] / [this.flows.delete(p)] on a JavaScript [Set],
    which keeps insertion order and no duplicates. *)
Definition flows_add (p : nat) : M unit :=
  modify (with_flows (fun l => if decide (p ∈ l) then l else l ++ [p])).

Definition flows_delete (p : nat) : M unit :=
  modify (with_flows (filter (fun x => x ≠ p))).

Definition isFrozen : M bool :=
  get (fun s => TideToken.isFrozen (tideToken s)).

Definition flow (undertaking : Undertaking) : M nat :=
  frozen <- isFrozen ;;
  if frozen then
    new_promise RClosed (Settled (Rej ScopeClosed))
  else
    p0 <- new_promise RResolved (Settled (Ful VUndefined)) ;;
    flowPromise <- then_ p0 (HInvoke undertaking) RFlow ;;
    flows_add flowPromise ;;
    p2 <- then_ flowPromise HFlowThen (RFlowThen flowPromise) ;;
    then_ p2 (HFlowFinally flowPromise) (RFlowResult flowPromise).

(** [async settle()]: [ps] is the promise of the call; a [return]
    before the first await resolves it at once.  The call that reaches
    the await records it in the trace ([EvWait], which nothing reads). *)
Definition settle : M nat :=
  ps <- new_promise RSettle Pending ;;
  done <- get settled ;;
  if done : bool then
    settle_promise ps (Ful VUndefined) ;;
    ret ps
  else
    mark_settled ;;
    fl <- get flows ;;
    pall <- Promise_allSettled fl ;;
    await pall (HSettleResume ps) ;;
    log_event (EvWait ps fl) ;;
    ret ps.

End Estuary.

(** ** class Fjord *)

(** The values [options.timeout] may hold. *)
Inductive TimeoutValue : Type :=
| TUndefined
| TNull
| TNumber (ms : Z)
| TNaN.

(** JavaScript truthiness of such a value. *)
Definition truthy (t : TimeoutValue) : bool :=
  match t with
  | TNumber ms => negb (Z.eqb ms 0)
  | _ => false
  end.

(** Its rendering inside a template string. *)
Definition show (t : TimeoutValue) : string :=
  match t with
  | TUndefined => "undefined"
  | TNull => "null"
  | TNumber ms => pretty ms
  | TNaN => "NaN"
  end.

Definition millis (t : TimeoutValue) : Z :=
  match t with
  | TNumber ms => ms
  | _ => 0
  end.

(** A failure observer: what it is called with, and whether it returns
    ([None]) or throws ([Some x]). *)
Definition Observer : Type := JSValue -> string -> option JSValue.

Module Fjord.

Record Options : Type :=
  { opt_timeout : TimeoutValue; opt_onError : option Observer }.

Record t : Type := { timeout : TimeoutValue; onError : option Observer }.

(** [constructor(options = {})] *)
Definition new (options : Options) : t :=
  {| timeout := if truthy (opt_timeout options) then opt_timeout options else TNull;
     onError := opt_onError options |}.

Definition no_options : Options :=
  {| opt_timeout := TUndefined; opt_onError := None |}.

Definition timeout_error (this : t) : JSValue :=
  VError ("Fjord timeout exceeded: " +:+ show (timeout this) +:+ "ms").

Definition _executeWithTimeout (this : t) (promise : nat) : M nat :=
  if negb (truthy (timeout this)) then
    ret promise
  else
    deadline <- new_promise RDeadline Pending ;;
    setTimeout (CbDeadline deadline) (millis (timeout this)) ;;
    Promise_race [promise; deadline].

(** [new TideToken()] and [new Estuary(tideToken)]. *)
Definition new_scope : M unit :=
  modify (fun s => with_settled false
                     (with_flows (fun _ => []) (with_token (fun _ => TideToken.new) s))).

(** [scopeCallback(estuary)]: the promise of the caller's async body. *)
Definition scopeCallback : M nat := new_promise RBody Pending.

Definition cascade (this : t) : M nat :=
  pc <- new_promise RCall Pending ;;
  new_scope ;;
  body <- scopeCallback ;;
  raced <- _executeWithTimeout this body ;;
  await raced (HCascadeBody pc) ;;
  ret pc.

Definition tributary (this : t) : M nat :=
  pc <- new_promise RCall Pending ;;
  new_scope ;;
  body <- scopeCallback ;;
  raced <- _executeWithTimeout this body ;;
  await raced (HTributaryBody pc) ;;
  ret pc.

(** [if (this.onError && error instanceof Error) this.onError(error, tag)]:
    yields what the observer threw, if it was called and threw. *)
Definition report (this : t) (error : JSValue) (tag : string) : M (option JSValue) :=
  match onError this with
  | Some observer =>
      if instanceof_Error error then
        log_event (EvObserver error tag) ;;
        ret (observer error tag)
      else ret None
  | None => ret None
  end.

(** The [catch] blocks, up to their await. *)
Definition cascade_catch (error : JSValue) (pc : nat) : M unit :=
  Estuary.freeze_token ;;
  ps <- Estuary.settle ;;
  await ps (HCascadeCaught error pc).

Definition tributary_catch (error : JSValue) (pc : nat) : M unit :=
  Estuary.freeze_token ;;
  ps <- Estuary.settle ;;
  await ps (HTributaryCaught error pc).

(** The end of a [catch] block: report, then [throw error]. *)
Definition rethrow (this : t) (error : JSValue) (tag : string) (pc : nat) : M unit :=
  thrown <- report this error tag ;;
  match thrown with
  | Some x => settle_promise pc (Rej x)
  | None => settle_promise pc (Rej error)
  end.

End Fjord.

(** ** The callbacks *)

Definition run_handler (this : Fjord.t) (h : Handler) (o : Outcome) : M Completion :=
  match h with
  | HInvoke u =>
      log_event (EvInvoke u) ;;
      match u with
      | USync (Ful v) => ret (Normal v)
      | USync (Rej e) => ret (Thrown e)
      | UAsync => q <- new_promise ROperation Pending ;; ret (Returned q)
      end
  | HFlowThen =>
      match o with
      | Ful result => ret (Normal result)
      | Rej error => Estuary.freeze_token ;; ret (Thrown error)
      end
  | HFlowFinally flowPromise =>
      Estuary.flows_delete flowPromise ;;
      a <- new_promise RFinallyUnit (Settled (Ful VUndefined)) ;;
      b <- then_ a (HValueThunk o) (RFinallyValue flowPromise) ;;
      ret (Returned b)
  | HValueThunk (Ful value) => ret (Normal value)
  | HValueThunk (Rej reason) => ret (Thrown reason)
  | HForward target =>
      settle_promise target o ;;
      ret (Normal VUndefined)
  | HElement a i =>
      counted <- count_down a i o ;;
      match counted with
      | Some ag =>
          (if decide (remaining ag = 0%nat)
           then settle_promise (result ag) (Ful (VArray (length (elements ag))))
           else ret tt) ;;
          ret (Normal VUndefined)
      | None => ret (Normal VUndefined)
      end
  | HSettleResume ps =>
      (* both arms of try/catch fall through to the end of settle *)
      settle_promise ps (Ful VUndefined) ;;
      ret (Normal VUndefined)
  | HCascadeBody pc =>
      match o with
      | Ful result =>
          ps <- Estuary.settle ;;
          await ps (HCascadeSettled result pc)
      | Rej error => Fjord.cascade_catch error pc
      end ;;
      ret (Normal VUndefined)
  | HCascadeSettled result pc =>
      match o with
      | Ful _ => settle_promise pc (Ful result)
      | Rej error => Fjord.cascade_catch error pc
      end ;;
      ret (Normal VUndefined)
  | HCascadeCaught error pc =>
      match o with
      | Ful _ => Fjord.rethrow this error "cascade" pc
      | Rej e => settle_promise pc (Rej e)
      end ;;
      ret (Normal VUndefined)
  | HTributaryBody pc =>
      match o with
      | Ful result =>
          Estuary.freeze_token ;;
          ps <- Estuary.settle ;;
          await ps (HTributarySettled result pc)
      | Rej error => Fjord.tributary_catch error pc
      end ;;
      ret (Normal VUndefined)
  | HTributarySettled result pc =>
      match o with
      | Ful _ => settle_promise pc (Ful result)
      | Rej error => Fjord.tributary_catch error pc
      end ;;
      ret (Normal VUndefined)
  | HTributaryCaught error pc =>
      match o with
      | Ful _ => Fjord.rethrow this error "tributary" pc
      | Rej e => settle_promise pc (Rej e)
      end ;;
      ret (Normal VUndefined)
  end.

(** The arrow given to [setTimeout] in [_executeWithTimeout]. *)
Definition run_timer (this : Fjord.t) (cb : TimerCb) : M unit :=
  match cb with
  | CbDeadline deadline =>
      Estuary.freeze_token ;;
      settle_promise deadline (Rej (Fjord.timeout_error this))
  end.

Definition run_job (this : Fjord.t) (j : Job) : M unit :=
  match j with
  | JReact r o =>
      c <- run_handler this (handler r) o ;;
      match derived r with
      | Some d => resolve_with d c
      | None => ret tt
      end
  | JThenable target src =>
      perform_then src {| handler := HForward target; derived := None |}
  end.

(** ** The event loop and the environment *)

Inductive Action : Type :=
| AFlow (u : Undertaking)          (* caller code calls [estuary.flow(u)] *)
| ASettle                          (* caller code calls [estuary.settle()] *)
| AResolve (p : nat) (o : Outcome) (* a promise of caller code settles *)
| ATick                            (* the host runs the next microtask *)
| ATimer.                          (* the host fires the next timer *)

(** Promises that caller code settles: the body's and those returned by
    async undertakings. *)
Definition caller_owned (p : nat) (s : State) : bool :=
  match heap s !! p with
  | Some {| role := RBody; pstate := Pending |}
  | Some {| role := ROperation; pstate := Pending |} => true
  | _ => false
  end.

(** The host takes the job at the head of the microtask queue. *)
Definition pop_job : M unit := modify (with_queue tail).

(** The host takes the first timer. *)
Definition pop_timer : M unit := modify (with_timers tail).

(** One action; [None] when it is not enabled: no job to run, a timer
    while microtasks are waiting, a promise caller code cannot settle. *)
Definition step (this : Fjord.t) (a : Action) (s : State) : option State :=
  match a with
  | AFlow u => Some (snd (Estuary.flow u s))
  | ASettle => Some (snd (Estuary.settle s))
  | AResolve p o =>
      if caller_owned p s then Some (snd (settle_promise p o s)) else None
  | ATick =>
      match queue s with
      | j :: _ => Some (snd ((pop_job ;; run_job this j) s))
      | [] => None
      end
  | ATimer =>
      match queue s, timers s with
      | [], tm :: _ => Some (snd ((pop_timer ;; run_timer this (callback tm)) s))
      | _, _ => None
      end
  end.

Fixpoint exec (this : Fjord.t) (acts : list Action) (s : State) : option State :=
  match acts with
  | [] => Some s
  | a :: rest =>
      match step this a s with
      | Some s' => exec this rest s'
      | None => None
      end
  end.

Definition empty : State :=
  {| tideToken := TideToken.new; flows := []; settled := false; heap := [];
     aggs := []; queue := []; timers := []; log := [] |}.

(** A call of [fjord.cascade(cb)] or [fjord.tributary(cb)], up to its
    first await. *)
Definition call (this : Fjord.t) (m : Mode) : M nat :=
  match m with
  | Cascade => Fjord.cascade this
  | Tributary => Fjord.tributary this
  end.

Definition start (this : Fjord.t) (m : Mode) : State := snd (call this m empty).

(** The promises of a call: [pc] is the call, [body] the callback's. *)
Definition pc : nat := 0%nat.
Definition body : nat := 1%nat.

(** * Specification vocabulary *)

Definition frozen (s : State) : bool := TideToken.isFrozen (tideToken s).

(** The calls of the failure observer made so far. *)
Definition is_report (e : Event) : bool :=
  match e with
  | EvObserver _ _ => true
  | _ => false
  end.

Definition reports (s : State) : list Event := List.filter is_report (log s).

(** [m] relates every state to the state it leaves. *)
Definition keeps {A} (R : State -> State -> Prop) (m : M A) : Prop :=
  forall s, R s (snd (m s)).

(** A relation between an earlier and a later state that every primitive
    of the host and of the estuary respects. *)
Class Frame (R : State -> State -> Prop) : Prop :=
  { frame_refl : forall s, R s s;
    frame_trans : forall s1 s2 s3, R s1 s2 -> R s2 s3 -> R s1 s3;
    frame_new_promise : forall r st, keeps R (new_promise r st);
    frame_enqueue : forall j, keeps R (enqueue j);
    frame_log_event : forall e, keeps R (log_event e);
    frame_aggs_push : forall ag, keeps R (aggs_push ag);
    frame_count_down : forall a i o, keeps R (count_down a i o);
    frame_settle_promise : forall p o, keeps R (settle_promise p o);
    frame_perform_then : forall p r, keeps R (perform_then p r);
    frame_mark_settled : keeps R Estuary.mark_settled;
    frame_flows_delete : forall p, keeps R (Estuary.flows_delete p) }.

(** Such a relation that arming the token respects too: it holds across
    every callback of the source. *)
Class FreezeFrame (R : State -> State -> Prop) : Prop :=
  { freeze_frame :: Frame R;
    frame_freeze_token : keeps R Estuary.freeze_token }.

(** Such a relation that the host's own bookkeeping respects too. *)
Class HostFrame (R : State -> State -> Prop) : Prop :=
  { host_frame :: FreezeFrame R;
    frame_flow : forall u, keeps R (Estuary.flow u);
    frame_pop_job : keeps R pop_job;
    frame_pop_timer : keeps R pop_timer }.

(** Microtasks are only ever appended. *)
Definition queue_grows (s s' : State) : Prop :=
  exists l, queue s' = queue s ++ l.

(** The token is left as it was. *)
Definition same_token (s s' : State) : Prop := tideToken s' = tideToken s.

(** Once settlement has begun, it has begun. *)
Definition stays_settled (s s' : State) : Prop :=
  settled s = true -> settled s' = true.

(** Once armed, armed. *)
Definition stays_frozen (s s' : State) : Prop :=
  frozen s = true -> frozen s' = true.

(** No timer appears where there was none. *)
Definition no_new_timer (s s' : State) : Prop :=
  timers s = [] -> timers s' = [].

(** A scope whose token is armed, nothing else. *)
Definition frozen_scope : State := with_token TideToken.freeze empty.

(** [await estuary.settle()] with continuation [h]. *)
Definition settle_then (h : Handler) : M unit :=
  ps <- Estuary.settle ;; await ps h.

(** The continuation a call registers on the awaited result of its body,
    and the one its [catch] block registers on the settlement. *)
Definition on_body (m : Mode) (pcx : nat) : Handler :=
  match m with
  | Cascade => HCascadeBody pcx
  | Tributary => HTributaryBody pcx
  end.

Definition on_caught (m : Mode) (error : JSValue) (pcx : nat) : Handler :=
  match m with
  | Cascade => HCascadeCaught error pcx
  | Tributary => HTributaryCaught error pcx
  end.

(** Whether the [catch] block calls the observer on [error]. *)
Definition reported (this : Fjord.t) (error : JSValue) : bool :=
  match Fjord.onError this with
  | Some _ => instanceof_Error error
  | None => false
  end.

(** What the [catch] block finally throws: [error], unless the observer
    was called and threw. *)
Definition raised (this : Fjord.t) (error : JSValue) (tag : string) : JSValue :=
  match Fjord.onError this with
  | Some observer =>
      if instanceof_Error error then
        match observer error tag with
        | Some x => x
        | None => error
        end
      else error
  | None => error
  end.

(** The observer, if any, returns normally on [error]. *)
Definition observer_returns (this : Fjord.t) (error : JSValue) (tag : string) : Prop :=
  forall observer, Fjord.onError this = Some observer -> observer error tag = None.

(** An orchestrator whose observer records and returns. *)
Definition observed : Fjord.t :=
  Fjord.new {| Fjord.opt_timeout := TUndefined;
               Fjord.opt_onError := Some (fun _ _ => None) |}.

(** The reaction [Promise.race] and a thenable job register: the
    resolving functions of [r]. *)
Definition forward_to (r : nat) : Reaction :=
  {| handler := HForward r; derived := None |}.

(** An orchestrator with a deadline of 100 ms and no observer. *)
Definition timed : Fjord.t :=
  Fjord.new {| Fjord.opt_timeout := TNumber 100; Fjord.opt_onError := None |}.

(** An orchestrator without deadline and without observer. *)
Definition plain : Fjord.t := Fjord.new Fjord.no_options.

(** Caller code launches an operation that stays pending and calls
    [estuary.settle()] twice in a row. *)
Definition settle_twice : list Action := [AFlow UAsync; ASettle; ASettle].

(** A cascade whose body launches [f1] and returns [1] at once; [f1]
    launches a second operation after a first await and then ends:
    [cascade(async est => { est.flow(async () => { await tick();
    est.flow(() => never()); }); return 1; })]. *)
Definition launch_while_settling : list Action :=
  [ AFlow UAsync; AResolve body (Ful (VNum 1)); ATick; ATick; ATick;
    AFlow UAsync; AResolve 6%nat (Ful VUndefined);
    ATick; ATick; ATick; ATick; ATick; ATick; ATick ].

(** ** The typing invariant *)

Definition role_of (p : nat) (s : State) : option Role :=
  role <$> heap s !! p.

Definition settled_as (p : nat) (o : Outcome) (s : State) : Prop :=
  state_of p s = Some (Settled o).

(** What holds from the then-callbacks of [flow] on: the handle [fp] has
    settled with [o], and the token is armed if [o] is a rejection. *)
Definition Delivered (fp : nat) (o : Outcome) (s : State) : Prop :=
  settled_as fp o s /\ (forall e, o = Rej e -> frozen s = true).

(** What holds from the finally-callback of [flow] on: moreover the
    handle is no longer tracked. *)
Definition Cleaned (fp : nat) (o : Outcome) (s : State) : Prop :=
  Delivered fp o s /\ fp ∉ flows s.

(** From an earlier to a later state: promises keep their role and, once
    settled, their outcome; an armed token stays armed; a settled handle
    that is not tracked stays untracked. *)
Definition evolves (s s' : State) : Prop :=
  (forall p pr, heap s !! p = Some pr ->
     exists pr', heap s' !! p = Some pr' /\ role pr' = role pr
                 /\ (forall o, pstate pr = Settled o -> pstate pr' = Settled o))
  /\ (frozen s = true -> frozen s' = true)
  /\ (forall fp o, settled_as fp o s -> fp ∉ flows s -> fp ∉ flows s').

(** The promises whose resolving functions are handed around. *)
Definition target_ok (s : State) (t : nat) : Prop :=
  role_of t s = Some RFlow \/ role_of t s = Some RRace
  \/ exists fp, role_of t s = Some (RFlowResult fp).

(** What must hold for a promise of role [r] to settle with [o]. *)
Definition settle_ok (s : State) (r : Role) (o : Outcome) : Prop :=
  match r with
  | RFlowThen fp => Delivered fp o s
  | RFinallyValue fp | RFlowResult fp => Cleaned fp o s
  | RSettle => o = Ful VUndefined
  | _ => True
  end.

(** A reaction [r] registered on the promise [p] is one the source
    registers there. *)
Definition reaction_ok (s : State) (p : nat) (r : Reaction) : Prop :=
  match handler r, derived r with
  | HInvoke _, Some d => role_of d s = Some RFlow
  | HFlowThen, Some d => role_of d s = Some (RFlowThen p)
  | HFlowFinally fp, Some d =>
      role_of d s = Some (RFlowResult fp) /\ role_of p s = Some (RFlowThen fp)
  | HValueThunk o, Some d =>
      exists fp, role_of d s = Some (RFinallyValue fp) /\ Cleaned fp o s
  | HForward t, None =>
      target_ok s t
      /\ forall fp, role_of t s = Some (RFlowResult fp) ->
                    role_of p s = Some (RFinallyValue fp)
  | HElement _ _, None => True
  | HSettleResume ps, None => role_of ps s = Some RSettle
  | HCascadeBody pcx, None | HCascadeSettled _ pcx, None
  | HCascadeCaught _ pcx, None | HTributaryBody pcx, None
  | HTributarySettled _ pcx, None | HTributaryCaught _ pcx, None =>
      role_of pcx s = Some RCall
  | _, _ => False
  end.

(** A queued job is one the source queues, and carries what its
    callback may rely on. *)
Definition job_ok (s : State) (j : Job) : Prop :=
  match j with
  | JReact r o =>
      match handler r, derived r with
      | HInvoke _, Some d => role_of d s = Some RFlow
      | HFlowThen, Some d =>
          exists fp, role_of d s = Some (RFlowThen fp) /\ settled_as fp o s
      | HFlowFinally fp, Some d =>
          role_of d s = Some (RFlowResult fp) /\ Delivered fp o s
      | HValueThunk o', Some d =>
          exists fp, role_of d s = Some (RFinallyValue fp) /\ Cleaned fp o' s
      | HForward t, None =>
          target_ok s t
          /\ forall fp, role_of t s = Some (RFlowResult fp) -> Cleaned fp o s
      | HElement _ _, None => True
      | HSettleResume ps, None => role_of ps s = Some RSettle
      | HCascadeBody pcx, None | HCascadeSettled _ pcx, None
      | HCascadeCaught _ pcx, None | HTributaryBody pcx, None
      | HTributarySettled _ pcx, None | HTributaryCaught _ pcx, None =>
          role_of pcx s = Some RCall
      | _, _ => False
      end
  | JThenable t src =>
      (role_of t s = Some RFlow /\ role_of src s = Some ROperation)
      \/ exists fp, role_of t s = Some (RFlowResult fp)
                    /\ role_of src s = Some (RFinallyValue fp)
  end.

Record Typed (s : State) : Prop :=
  { typed_reactions : forall p pr r,
      heap s !! p = Some pr -> r ∈ reactions pr -> reaction_ok s p r;
    typed_settled : forall p pr o,
      heap s !! p = Some pr -> pstate pr = Settled o -> settle_ok s (role pr) o;
    typed_queue : forall j, j ∈ queue s -> job_ok s j;
    typed_timers : forall tm d,
      tm ∈ timers s -> callback tm = CbDeadline d -> role_of d s = Some RDeadline;
    typed_aggs : forall a ag,
      aggs s !! a = Some ag -> role_of (result ag) s = Some RAllSettled }.

(** The handle [fp], once untracked, stays so, and the token is left as
    it was. *)
Definition stays_untracked (fp : nat) (s s' : State) : Prop :=
  (fp ∉ flows s -> fp ∉ flows s') /\ tideToken s' = tideToken s.

(** ** The order of the callbacks *)

(** The reactions waiting on [p]. *)
Definition rx (p : nat) (s : State) : list Reaction :=
  match heap s !! p with
  | Some pr => reactions pr
  | None => []
  end.

Definition is_settled (p : nat) (s : State) : Prop := exists o, settled_as p o s.

(** The reaction [flow] registers on the handle [fp] with its [then]:
    the promise derived by that [then] is created right after the
    handle. *)
Definition then_reaction (fp : nat) : Reaction :=
  {| handler := HFlowThen; derived := Some (S fp) |}.

(** Among the first [k] jobs of the queue there is the then-callback
    (the finally-callback) of the handle [fp]. *)
Definition then_queued (fp k : nat) (s : State) : Prop :=
  exists k' o, (k' < k)%nat /\ queue s !! k' = Some (JReact (then_reaction fp) o).

Definition finally_queued (fp k : nat) (s : State) : Prop :=
  exists k' dd o, (k' < k)%nat
    /\ queue s !! k' = Some (JReact {| handler := HFlowFinally fp; derived := dd |} o).

(** The slots of an [allSettled] result array that are still empty. *)
Fixpoint empty_slots (vs : list (option Outcome)) : nat :=
  match vs with
  | [] => 0
  | None :: rest => S (empty_slots rest)
  | Some _ :: rest => empty_slots rest
  end.

(** The operation behind the handle [fp] is over for the scope: the
    then-callbacks of its launch have run, and its finally-callback has
    run (the handle is not tracked) or is among the first [k] jobs. *)
Definition finished (fp k : nat) (s : State) : Prop :=
  is_settled (S fp) s /\ ((fp ∉ flows s) \/ finally_queued fp k s).

(** [m] does not look at the microtask queue: it only appends to it. *)
Definition oblivious {A} (m : M A) : Prop :=
  forall j s,
    m (with_queue (cons j) s) = (fst (m s), with_queue (cons j) (snd (m s))).

(** What the job [j] has achieved once it has run. *)
Definition achieved (j : Job) (s : State) : Prop :=
  match j with
  | JReact r _ =>
      match handler r with
      | HFlowThen => forall d, derived r = Some d -> is_settled d s
      | HFlowFinally fp => fp ∉ flows s
      | _ => True
      end
  | JThenable _ _ => True
  end.

(** A reaction at position [k] of the reactions of [p] is where the
    source registers it: the then-callback of [flow] derives the promise
    created right after the handle; an element function of [allSettled]
    sits on its element, behind the then-callback of [flow]; the
    continuation of [settle] sits on the promise [allSettled] returned. *)
Definition reaction_placed (p k : nat) (s : State) (r : Reaction) : Prop :=
  match handler r with
  | HFlowThen => derived r = Some (S p)
  | HElement a i =>
      (exists ag, aggs s !! a = Some ag /\ elements ag !! i = Some p)
      /\ exists k', (k' < k)%nat /\ rx p s !! k' = Some (then_reaction p)
  | HSettleResume _ => exists ag, aggs s !! 0%nat = Some ag /\ p = result ag
  | _ => True
  end.

(** A job at position [k] of the queue comes in order: an element
    function after the then-callback of its element; the continuation
    of [settle] when every operation of the snapshot is finished. *)
Definition job_placed (k : nat) (s : State) (j : Job) : Prop :=
  match j with
  | JReact r _ =>
      match handler r with
      | HElement a i =>
          exists ag fp, aggs s !! a = Some ag /\ elements ag !! i = Some fp
            /\ (is_settled (S fp) s \/ then_queued fp k s)
      | HSettleResume _ =>
          exists ag, aggs s !! 0%nat = Some ag
            /\ forall fp, fp ∈ elements ag -> finished fp k s
      | _ => True
      end
  | JThenable _ _ => True
  end.

(** From an earlier to a later state of a run in which no job was taken
    off the queue. *)
Definition later (s s' : State) : Prop :=
  evolves s s'
  /\ (exists l, queue s' = queue s ++ l)
  /\ (forall fp, is_settled (S fp) s -> fp ∉ flows s -> fp ∉ flows s')
  /\ (forall a ag, aggs s !! a = Some ag ->
        exists ag', aggs s' !! a = Some ag' /\ elements ag' = elements ag
                    /\ result ag' = result ag).

(** The order in which the callbacks of the launches and of [settle]
    are registered and queued. *)
Record Ordered (s : State) : Prop :=
  { ord_quiet : forall p, is_settled p s -> rx p s = [];
    ord_reactions : forall p k r, rx p s !! k = Some r -> reaction_placed p k s r;
    ord_jobs : forall k j, queue s !! k = Some j -> job_placed k s j;
    ord_values : forall a ag i o,
      aggs s !! a = Some ag -> values ag !! i = Some (Some o) ->
      exists fp, elements ag !! i = Some fp /\ is_settled (S fp) s;
    ord_remaining : forall a ag,
      aggs s !! a = Some ag ->
      remaining ag = empty_slots (values ag)
      /\ length (values ag) = length (elements ag)
      /\ forall fp, fp ∈ elements ag -> role_of (S fp) s = Some (RFlowThen fp);
    ord_finally : forall d fp,
      role_of d s = Some (RFlowThen fp) ->
      d = S fp
      /\ (state_of d s = Some Pending ->
          exists dd, {| handler := HFlowFinally fp; derived := dd |} ∈ rx d s)
      /\ (is_settled d s -> (fp ∉ flows s) \/ finally_queued fp (length (queue s)) s);
    ord_tracked : forall fp,
      fp ∈ flows s ->
      role_of (S fp) s = Some (RFlowThen fp)
      /\ (state_of fp s = Some Pending -> then_reaction fp ∈ rx fp s)
      /\ (is_settled fp s -> is_settled (S fp) s \/ then_queued fp (length (queue s)) s);
    ord_once :
      (length (aggs s) <= 1)%nat
      /\ (settled s = false -> aggs s = [] /\ forall ps snap, EvWait ps snap ∉ log s);
    ord_wait : forall ps snap,
      EvWait ps snap ∈ log s ->
      role_of ps s = Some RSettle
      /\ exists ag, aggs s !! 0%nat = Some ag /\ elements ag = snap
           /\ (is_settled ps s -> forall fp, fp ∈ snap -> finished fp 0 s);
    ord_since : forall ps snap fp,
      EvWait ps snap ∈ log s -> fp ∈ flows s -> fp ∈ snap \/ (ps < fp)%nat }.

(** The promise an [allSettled] call returned has that role. *)
Definition aggs_typed (s : State) : Prop :=
  forall a ag, aggs s !! a = Some ag -> role_of (result ag) s = Some RAllSettled.

(** What was logged stays logged. *)
Definition log_grows (s s' : State) : Prop := forall e, e ∈ log s -> e ∈ log s'.

(** A closed scope stays closed and tracks nothing new. *)
Definition stays_closed (s s' : State) : Prop :=
  frozen s = true -> frozen s' = true /\ forall fp, fp ∈ flows s' -> fp ∈ flows s.

(** Caller code launches an operation that ends at once and calls
    [estuary.settle()] twice in a row; the host then runs five jobs. *)
Definition settle_after_launch (o : Outcome) : list Action :=
  [AFlow (USync o); ASettle; ASettle; ATick; ATick; ATick; ATick; ATick].

(** ** Progress *)

(** A property of the states of a run that no step undoes. *)
Definition stable (this : Fjord.t) (P : State -> Prop) : Prop :=
  forall a s s', Typed s -> Ordered s -> P s -> step this a s = Some s' -> P s'.

(** Once the job [j] has run, [P] holds. *)
Definition yields (this : Fjord.t) (j : Job) (P : State -> Prop) : Prop :=
  forall q s, Typed s -> Ordered s -> queue s = j :: q ->
    P (with_queue tail (snd (run_job this j s))).

(** The job [j] is waiting in the queue, unless [P] holds already. *)
Definition job_alive (j : Job) (P : State -> Prop) (s : State) : Prop :=
  j ∈ queue s \/ P s.

(** The reaction [r] is registered on [d] or queued, unless [P] holds
    already. *)
Definition reaction_alive (r : Reaction) (d : nat) (P : State -> Prop) (s : State) : Prop :=
  r ∈ rx d s \/ (exists o, JReact r o ∈ queue s) \/ P s.

(** After finitely many jobs of the host, [P]. *)
Definition eventually (this : Fjord.t) (P : State -> Prop) (s : State) : Prop :=
  exists n s', exec this (repeat ATick n) s = Some s' /\ P s'.

(** Reactions stay registered until they are queued, and jobs stay
    queued. *)
Definition persists (s s' : State) : Prop :=
  (exists l, queue s' = queue s ++ l)
  /\ forall d r, r ∈ rx d s -> r ∈ rx d s' \/ exists o, JReact r o ∈ queue s'.


(** The reaction [flow] registers with its [finally]; [p] is the promise
    [flow] returns. *)
Definition finally_reaction (fp p : nat) : Reaction :=
  {| handler := HFlowFinally fp; derived := Some p |}.

(** The job of the thunk by which [finally] passes the outcome [o] on
    to its promise [b]. *)
Definition thunk_job (o : Outcome) (b : nat) : Job :=
  JReact {| handler := HValueThunk o; derived := Some b |} (Ful VUndefined).

(** The promise [p] is about to take the outcome of [b] over. *)
Definition forwarding (p b : nat) : State -> Prop :=
  reaction_alive (forward_to p) b (is_settled p).

(** The finally-callback of the handle [fp] has run: the handle is
    settled and untracked, and the two jobs that carry its outcome to
    the promise [p] are on their way. *)
Definition handed_over (fp p : nat) (s : State) : Prop :=
  (is_settled fp s /\ fp ∉ flows s)
  /\ exists o b, job_alive (thunk_job o b) (is_settled b) s
                 /\ job_alive (JThenable p b) (forwarding p b) s.

(** The promise a call with a deadline awaits, [Promise.race([...])],
    and the promise only the timer settles. *)
Definition raced : nat := 3%nat.
Definition deadline : nat := 2%nat.

(** The timer [_executeWithTimeout] arms. *)
Definition deadline_timer (this : Fjord.t) : Timer :=
  {| delay := millis (Fjord.timeout this); callback := CbDeadline deadline |}.

(** No step of the run is the firing of a timer. *)
Definition no_timer_fired (acts : list Action) : Prop := ATimer ∉ acts.

(** The timers are left as they were. *)
Definition same_timers (s s' : State) : Prop := timers s' = timers s.

(** ** What a call answers, and when *)

(** The orchestrator was built with a timeout. *)
Definition has_deadline (this : Fjord.t) : Prop := truthy (Fjord.timeout this) = true.

(** The promise a call awaits: the body's, or the race against the
    deadline when a timeout is set. *)
Definition awaited (this : Fjord.t) : nat :=
  if truthy (Fjord.timeout this) then raced else body.

(** The continuation a call registers on the settlement in its [try]
    block. *)
Definition on_settled (m : Mode) (result : JSValue) (pcx : nat) : Handler :=
  match m with
  | Cascade => HCascadeSettled result pcx
  | Tributary => HTributarySettled result pcx
  end.

(** The continuation after [await this._executeWithTimeout(...)], and
    those after [await estuary.settle()]. *)
Definition is_body (h : Handler) : bool :=
  match h with
  | HCascadeBody _ | HTributaryBody _ => true
  | _ => false
  end.

Definition is_after (h : Handler) : bool :=
  match h with
  | HCascadeSettled _ _ | HCascadeCaught _ _
  | HTributarySettled _ _ | HTributaryCaught _ _ => true
  | _ => false
  end.

(** A continuation of the async function [cascade] or [tributary]. *)
Definition is_cont (h : Handler) : bool := is_body h || is_after h.

(** A call of [settle] that reached its await has returned. *)
Definition waited (s : State) : Prop :=
  exists ps snap, EvWait ps snap ∈ log s /\ is_settled ps s.

(** How a race against the deadline can end with [o]: the body's
    promise settled with [o], or the timer fired. *)
Definition won (this : Fjord.t) (o : Outcome) (s : State) : Prop :=
  settled_as body o s
  \/ (o = Rej (Fjord.timeout_error this) /\ settled_as deadline o s).

(** The calls of [settle] that reached their await. *)
Definition is_wait (e : Event) : bool :=
  match e with
  | EvWait _ _ => true
  | _ => false
  end.

Definition waits (s : State) : list Event := List.filter is_wait (log s).

(** The call arms the token before it settles the scope: a tributary
    always does, a cascade when the awaited promise was rejected. *)
Definition sealed (this : Fjord.t) (m : Mode) (s : State) : Prop :=
  m = Tributary \/ exists e, settled_as (awaited this) (Rej e) s.

(** Why a token can be armed: a launched operation failed, the
    deadline fired, or the call armed it itself. *)
Definition cause (this : Fjord.t) (m : Mode) (s : State) : Prop :=
  (exists fp d e, role_of d s = Some (RFlowThen fp) /\ settled_as fp (Rej e) s)
  \/ (has_deadline this /\ is_settled deadline s)
  \/ (is_settled (awaited this) s /\ sealed this m s).

(** What a continuation of the call stands for: it belongs to this call,
    and the value or error it carries is what the awaited promise
    settled with. *)
Definition pledge (this : Fjord.t) (m : Mode) (h : Handler) (s : State) : Prop :=
  match h with
  | HCascadeBody _ | HTributaryBody _ => h = on_body m pc
  | HCascadeSettled v _ | HTributarySettled v _ =>
      h = on_settled m v pc
      /\ settled_as (awaited this) (Ful v) s
      /\ (m = Tributary -> frozen s = true)
  | HCascadeCaught e _ | HTributaryCaught e _ =>
      h = on_caught m e pc
      /\ settled_as (awaited this) (Rej e) s
      /\ frozen s = true
  | _ => True
  end.

(** What the outcome [o] of the call says about the awaited promise, the
    token and the calls of the observer. *)
Definition verdict (this : Fjord.t) (m : Mode) (o : Outcome) (s : State) : Prop :=
  match o with
  | Ful v =>
      settled_as (awaited this) (Ful v) s
      /\ (m = Tributary -> frozen s = true)
      /\ reports s = []
  | Rej x =>
      frozen s = true
      /\ exists e, settled_as (awaited this) (Rej e) s
           /\ x = raised this e (mode_tag m)
           /\ reports s = if reported this e then [EvObserver e (mode_tag m)] else []
  end.

(** How many continuations of the call are registered or queued. *)
Definition cont_rx (l : list Reaction) : nat :=
  length (List.filter (fun r => is_cont (handler r)) l).

Definition is_cont_job (j : Job) : bool :=
  match j with
  | JReact r _ => is_cont (handler r)
  | JThenable _ _ => false
  end.

Definition cont_jobs (q : list Job) : nat := length (List.filter is_cont_job q).

Fixpoint heap_conts (h : list Promise) : nat :=
  match h with
  | [] => 0
  | pr :: rest => cont_rx (reactions pr) + heap_conts rest
  end.

Definition conts (s : State) : nat := (heap_conts (heap s) + cont_jobs (queue s))%nat.

(** The continuation of the body is neither registered nor queued. *)
Definition no_body (s : State) : Prop :=
  (forall p r, r ∈ rx p s -> is_body (handler r) = false)
  /\ (forall r o, JReact r o ∈ queue s -> is_body (handler r) = false).

(** What holds of a registered reaction, of a queued job and of a
    settled promise.  [g] tells whether caller code has left
    [estuary.settle] to the orchestrator so far. *)
Definition rx_fact (this : Fjord.t) (m : Mode) (g : bool)
    (p : nat) (r : Reaction) (s : State) : Prop :=
  pledge this m (handler r) s
  /\ (is_body (handler r) = true -> p = awaited this)
  /\ (is_after (handler r) = true ->
      role_of p s = Some RSettle /\ (g = true -> exists snap, EvWait p snap ∈ log s))
  /\ (has_deadline this -> handler r = HForward raced -> p = body \/ p = deadline).

Definition job_fact (this : Fjord.t) (m : Mode) (g : bool)
    (r : Reaction) (o : Outcome) (s : State) : Prop :=
  pledge this m (handler r) s
  /\ (is_body (handler r) = true -> settled_as (awaited this) o s)
  /\ (is_after (handler r) = true -> o = Ful VUndefined /\ (g = true -> waited s))
  /\ (has_deadline this -> handler r = HForward raced -> won this o s).

Definition settled_fact (this : Fjord.t) (m : Mode) (g : bool)
    (p : nat) (o : Outcome) (s : State) : Prop :=
  (p = pc -> verdict this m o s /\ (g = true -> waited s))
  /\ (has_deadline this -> p = raced -> won this o s)
  /\ (has_deadline this -> p = deadline -> o = Rej (Fjord.timeout_error this)).

(** The invariant of a call. *)
Record Conducted (this : Fjord.t) (m : Mode) (g : bool) (s : State) : Prop :=
  { cd_call : role_of pc s = Some RCall;
    cd_cast :
      has_deadline this ->
      role_of raced s = Some RRace /\ role_of deadline s = Some RDeadline;
    cd_unique : forall p,
      (role_of p s = Some RRace -> has_deadline this /\ p = raced)
      /\ (role_of p s = Some RDeadline -> has_deadline this /\ p = deadline);
    cd_reactions : forall p r, r ∈ rx p s -> rx_fact this m g p r s;
    cd_jobs : forall r o, JReact r o ∈ queue s -> job_fact this m g r o s;
    cd_settled : forall p o, settled_as p o s -> settled_fact this m g p o s;
    cd_quiet : state_of pc s = Some Pending -> (1 <= conts s)%nat -> reports s = [];
    cd_conts : (conts s <= 1)%nat /\ (is_settled pc s -> conts s = 0%nat);
    cd_single : g = true -> settled s = true -> no_body s;
    cd_frozen : frozen s = true -> cause this m s;
    cd_late : g = true -> forall ps snap,
      EvWait ps snap ∈ log s ->
      is_settled (awaited this) s
      /\ (sealed this m s ->
          frozen s = true /\ forall fp, fp ∈ flows s -> fp ∈ snap) }.

(** From an earlier to a later state: promises keep their role and,
    once settled, their outcome; an armed token stays armed. *)
Definition steady (s s' : State) : Prop :=
  (forall p r, role_of p s = Some r -> role_of p s' = Some r)
  /\ (forall p o, settled_as p o s -> settled_as p o s')
  /\ (frozen s = true -> frozen s' = true).

(** The trace grows, by no call of the observer and no wait. *)
Definition quiet_log (s s' : State) : Prop :=
  log_grows s s' /\ reports s' = reports s /\ waits s' = waits s.

(** The steps of caller code other than a call of [estuary.settle]. *)
Definition is_settle (a : Action) : bool :=
  match a with
  | ASettle => true
  | _ => false
  end.

Definition settle_left_alone (acts : list Action) : bool :=
  forallb (fun a => negb (is_settle a)) acts.

(** Neither a continuation of the call nor the resolving functions of
    the race. *)
Definition plain_handler (this : Fjord.t) (h : Handler) : Prop :=
  is_body h = false /\ is_after h = false
  /\ (has_deadline this -> h <> HForward raced).

(** The promises of the call itself. *)
Definition reserved (this : Fjord.t) (p : nat) : Prop :=
  p = pc \/ (has_deadline this /\ (p = raced \/ p = deadline)).

(** [c] keeps the invariant of the call. *)
Definition safe (this : Fjord.t) (m : Mode) (g : bool) {A} (c : M A) : Prop :=
  forall s, Conducted this m g s -> Conducted this m g (snd (c s)).

(** No continuation of the call is lost by a callback. *)
Definition conts_grow (s s' : State) : Prop := (conts s <= conts s')%nat.

(** While the call is pending, exactly one continuation of it is
    registered or queued. *)
Definition busy (s : State) : Prop :=
  state_of pc s = Some Pending -> conts s = 1%nat.

(** A cascade whose body launches an operation that ends at once and
    then returns: the host runs the nine jobs this takes. *)
Definition launch_and_return : list Action :=
  [ AFlow (USync (Ful (VNum 1))); AResolve body (Ful (VNum 2));
    ATick; ATick; ATick; ATick; ATick; ATick; ATick; ATick; ATick ].

(** ** Promises the library never settles *)

(** The promises of caller code: the body's and those returned by async
    undertakings. *)
Definition callers (ρ : Role) : Prop := ρ = ROperation \/ ρ = RBody.

(** Caller code does not settle [q] during [acts]. *)
Definition left_alone (q : nat) (acts : list Action) : Prop :=
  forall o, AResolve q o ∉ acts.

(** A cascade whose body launches an operation that stays pending
    (its promise is 6); then a second operation fails at once and the
    body fails too; the host runs every job there is. *)
Definition launch_pending : list Action := [AFlow UAsync; ATick].

Definition fail_around : list Action :=
  [ AFlow (USync (Rej (VStr "no"))); AResolve body (Rej (VStr "no"));
    ATick; ATick; ATick; ATick; ATick; ATick; ATick; ATick; ATick ].

(** ** The wait of [settle] *)

(** The element function of slot [i] of the scope's [allSettled] call,
    and the continuation of [settle] after its await. *)
Definition element_reaction (i : nat) : Reaction :=
  {| handler := HElement 0 i; derived := None |}.

Definition resume_reaction (ps : nat) : Reaction :=
  {| handler := HSettleResume ps; derived := None |}.

(** Slot [i] of the result array of the scope's [allSettled] call is
    filled. *)
Definition filled (i : nat) (s : State) : Prop :=
  exists ag o, aggs s !! 0%nat = Some ag /\ values ag !! i = Some (Some o).

(** The records of [allSettled] keep their elements, their promise and
    the slots that are filled. *)
Definition aggs_kept (s s' : State) : Prop :=
  forall a ag, aggs s !! a = Some ag ->
    exists ag', aggs s' !! a = Some ag'
      /\ elements ag' = elements ag /\ result ag' = result ag
      /\ forall i o, values ag !! i = Some (Some o) -> values ag' !! i = Some (Some o).

(** The promise of the scope's [allSettled] call is resolved as soon as
    no slot is empty. *)
Definition drained (s : State) : Prop :=
  forall ag, aggs s !! 0%nat = Some ag -> remaining ag = 0%nat -> is_settled (result ag) s.

(** The wait of the call [ps] of [settle] for the operations [snap] is
    under way: the element function of every slot and the continuation of
    [settle] are registered or queued, unless they have run. *)
Definition waiting (ps : nat) (snap : list nat) (s : State) : Prop :=
  exists ag, aggs s !! 0%nat = Some ag /\ elements ag = snap
    /\ (forall i fp, snap !! i = Some fp ->
          reaction_alive (element_reaction i) fp (filled i) s)
    /\ reaction_alive (resume_reaction ps) (result ag) (is_settled ps) s.

(** Every wait recorded in the trace is under way. *)
Record Waiting (s : State) : Prop :=
  { wt_drained : drained s;
    wt_waits : forall ps snap, EvWait ps snap ∈ log s -> waiting ps snap s }.

(** Between two states of one callback in which [allSettled] is not
    called. *)
Definition calm (s s' : State) : Prop :=
  persists s s' /\ evolves s s' /\ aggs s' = aggs s
  /\ forall ps snap, EvWait ps snap ∈ log s' -> EvWait ps snap ∈ log s.

(** Before the first call of [settle] there is no record of
    [allSettled] and no wait. *)
Definition fresh (s : State) : Prop :=
  settled s = false -> aggs s = [] /\ forall ps snap, EvWait ps snap ∉ log s.

(** What the scope tracks are promises of the heap. *)
Definition bounded (s : State) : Prop :=
  forall fp, fp ∈ flows s -> (fp < length (heap s))%nat.

(** Neither an element function nor a continuation of the call. *)
Definition ordinary (j : Job) : Prop :=
  match j with
  | JReact r _ =>
      match handler r with
      | HElement _ _ => False
      | h => is_cont h = false
      end
  | JThenable _ _ => True
  end.

(** A wait whose operations have all settled. *)
Definition ripe (ps : nat) (snap : list nat) (s : State) : Prop :=
  Waiting s /\ EvWait ps snap ∈ log s /\ forall fp, fp ∈ snap -> is_settled fp s.

(** Caller code launches an operation and calls [settle] before the
    operation has run; the host then runs the operation. *)
Definition settle_early : list Action :=
  [AFlow (USync (Ful (VNum 1))); ASettle; ATick].

(** ** The call returns *)

(** A property of the states of a run that no job of the host undoes. *)
Definition tick_stable (this : Fjord.t) (P : State -> Prop) : Prop :=
  forall s s', Typed s -> Ordered s -> P s -> step this ATick s = Some s' -> P s'.

(** The continuation [r] of the call, registered on the promise [p] of
    [settle], is registered or queued with the value [settle] resolves
    with, unless the call has returned. *)
Definition after_alive (r : Reaction) (p : nat) (s : State) : Prop :=
  r ∈ rx p s \/ JReact r (Ful VUndefined) ∈ queue s \/ is_settled pc s.

(** Nothing new is tracked. *)
Definition no_new_flow (s s' : State) : Prop :=
  forall fp, fp ∈ flows s' -> fp ∈ flows s.

(** Every operation the scope tracks or a call of [settle] waits for
    has settled. *)
Definition operations_settled (s : State) : Prop :=
  (forall fp, fp ∈ flows s -> is_settled fp s)
  /\ (forall ps snap, EvWait ps snap ∈ log s -> forall fp, fp ∈ snap -> is_settled fp s).

(** What holds from the moment the operations have settled, in a run
    that leaves [settle] to the orchestrator, and from the moment the
    awaited promise has settled too. *)
Definition tending (this : Fjord.t) (m : Mode) (s : State) : Prop :=
  Waiting s /\ Conducted this m true s /\ busy s /\ operations_settled s.

Definition closing (this : Fjord.t) (m : Mode) (s : State) : Prop :=
  tending this m s /\ is_settled (awaited this) s.

(** The body's promise has settled, or the timer has fired. *)
Definition body_over (this : Fjord.t) (s : State) : Prop :=
  is_settled body s \/ (has_deadline this /\ is_settled deadline s).

(** The body launches an operation and is still at work when the host
    has run the operation and the timer fires. *)
Definition deadline_first : list Action :=
  [AFlow (USync (Ful (VNum 1))); ATick; ATick; ATick; ATick; ATick; ATick; ATimer].

(** ** The order of the operations *)

Definition invoke_of_event (e : Event) : option Undertaking :=
  match e with
  | EvInvoke u => Some u
  | _ => None
  end.

(** The operations the host has called so far, in the order of the
    calls. *)
Definition invoked (s : State) : list Undertaking := omap invoke_of_event (log s).

Definition invoke_of_handler (h : Handler) : option Undertaking :=
  match h with
  | HInvoke u => Some u
  | _ => None
  end.

Definition invoke_of (j : Job) : option Undertaking :=
  match j with
  | JReact r _ => invoke_of_handler (handler r)
  | JThenable _ _ => None
  end.

(** The operations whose call is waiting in the queue, in the order of
    the queue. *)
Definition awaiting (s : State) : list Undertaking := omap invoke_of (queue s).

(** The operations the scope accepts in a run from [s]: those launched
    while the token is not armed. *)
Fixpoint accepted (this : Fjord.t) (acts : list Action) (s : State) : list Undertaking :=
  match acts with
  | [] => []
  | a :: rest =>
      match step this a s with
      | Some s' =>
          match a with
          | AFlow u => if frozen s then accepted this rest s' else u :: accepted this rest s'
          | _ => accepted this rest s'
          end
      | None => []
      end
  end.

(** The callback that calls an operation is never left registered on a
    promise: [flow] registers it on a resolved promise, which queues
    it. *)
Definition no_invoke_rx (s : State) : Prop :=
  forall p r, r ∈ rx p s -> invoke_of_handler (handler r) = None.

(** Between two states of a callback that neither launches nor calls an
    operation. *)
Definition hushed (s s' : State) : Prop :=
  no_invoke_rx s ->
  no_invoke_rx s' /\ invoked s' = invoked s /\ awaiting s' = awaiting s.

(** Three launches, the second one after the first operation has
    failed. *)
Definition three_launches : list Action :=
  [ AFlow (USync (Ful (VNum 1))); AFlow (USync (Rej (VStr "no")));
    ATick; ATick; ATick; ATick; AFlow (USync (Ful (VNum 3))) ].

(** ** FjordPresets *)

Module FjordPresets.




End FjordPresets.


(** * Lemmas *)

Section Frames.

Context (R : State -> State -> Prop) `{!Frame R}.

Lemma keeps_ret {A} (a : A) : keeps R (ret a).
Proof. intros s. apply frame_refl. Qed.

Lemma keeps_get {A} (f : State -> A) : keeps R (get f).
Proof. intros s. apply frame_refl. Qed.

Lemma keeps_bind {A B} (m : M A) (k : A -> M B) :
  keeps R m -> (forall a, keeps R (k a)) -> keeps R (bind m k).
Proof.
  intros Hm Hk s. unfold bind.
  specialize (Hm s). destruct (m s) as [a s1]. simpl in *.
  eapply frame_trans; [exact Hm | apply Hk].
Qed.

Lemma keeps_for_each {A} (l : list A) (f : A -> M unit) :
  (forall a, keeps R (f a)) -> keeps R (for_each l f).
Proof.
  intros Hf. induction l as [|x l IH]; simpl.
  - apply keeps_ret.
  - apply keeps_bind; auto.
Qed.

Ltac frame :=
  repeat first
    [ progress intros
    | simple apply keeps_ret | simple apply keeps_get | simple apply keeps_bind
    | simple apply keeps_for_each
    | apply frame_new_promise | apply frame_enqueue | apply frame_log_event
    | apply frame_aggs_push | apply frame_count_down
    | apply frame_settle_promise | apply frame_perform_then
    | apply frame_mark_settled
    | apply frame_flows_delete
    | match goal with
      | |- keeps _ (match ?x with _ => _ end) => destruct x
      end ].

Lemma keeps_then_ p h r : keeps R (then_ p h r).
Proof. unfold then_. frame. Qed.

Lemma keeps_await p h : keeps R (await p h).
Proof. unfold await. frame. Qed.

Lemma keeps_resolve_with d c : keeps R (resolve_with d c).
Proof. unfold resolve_with. frame. Qed.

Lemma keeps_register_elements a ps : forall i, keeps R (register_elements a i ps).
Proof. induction ps as [|p ps IH]; intros i; simpl; frame. apply IH. Qed.

Lemma keeps_allSettled ps : keeps R (Promise_allSettled ps).
Proof. unfold Promise_allSettled. frame. apply keeps_register_elements. Qed.

Lemma keeps_flow u :
  (forall p, keeps R (Estuary.flows_add p)) -> keeps R (Estuary.flow u).
Proof.
  intros Hadd. unfold Estuary.flow, Estuary.isFrozen.
  frame; first [apply keeps_then_ | apply Hadd].
Qed.

Lemma keeps_settle : keeps R Estuary.settle.
Proof.
  unfold Estuary.settle.
  frame; first [apply keeps_allSettled | apply keeps_await].
Qed.

End Frames.

Section FreezeFrames.

Context (R : State -> State -> Prop) `{!FreezeFrame R}.

Ltac frame :=
  repeat first
    [ progress intros
    | simple apply keeps_ret | simple apply keeps_get | simple apply keeps_bind
    | apply frame_freeze_token
    | apply frame_settle_promise | apply frame_perform_then
    | apply frame_new_promise | apply frame_log_event | apply frame_count_down
    | apply frame_flows_delete
    | apply keeps_then_ | apply keeps_settle | apply keeps_await
    | apply _
    | match goal with
      | |- keeps _ (match ?x with _ => _ end) => destruct x
      end ].

Lemma keeps_report this error tag : keeps R (Fjord.report this error tag).
Proof. unfold Fjord.report. frame. Qed.

Lemma keeps_rethrow this error tag pcx : keeps R (Fjord.rethrow this error tag pcx).
Proof. unfold Fjord.rethrow. frame. apply keeps_report. Qed.

Lemma keeps_cascade_catch error pcx : keeps R (Fjord.cascade_catch error pcx).
Proof. unfold Fjord.cascade_catch. frame. Qed.

Lemma keeps_tributary_catch error pcx : keeps R (Fjord.tributary_catch error pcx).
Proof. unfold Fjord.tributary_catch. frame. Qed.

Lemma keeps_run_handler this h o : keeps R (run_handler this h o).
Proof.
  destruct h; simpl; frame;
    first [ apply keeps_rethrow | apply keeps_cascade_catch
          | apply keeps_tributary_catch ].
Qed.

Lemma keeps_run_job this j : keeps R (run_job this j).
Proof.
  destruct j; simpl; frame;
    first [apply keeps_run_handler | apply keeps_resolve_with; apply _].
Qed.

Lemma keeps_run_timer this cb : keeps R (run_timer this cb).
Proof. destruct cb; simpl. frame. Qed.

End FreezeFrames.

Section HostFrames.

Context (R : State -> State -> Prop) `{!HostFrame R}.

Lemma step_keeps this a s s' : step this a s = Some s' -> R s s'.
Proof.
  destruct a; simpl; intros Hs.
  - inversion Hs. apply frame_flow.
  - inversion Hs. apply keeps_settle; apply _.
  - destruct (caller_owned p s); inversion Hs. apply frame_settle_promise.
  - destruct (queue s) as [|j q]; inversion Hs.
    apply (keeps_bind R pop_job (fun _ => run_job this j)).
    + apply frame_pop_job.
    + intros _. apply keeps_run_job; apply _.
  - destruct (queue s); [|discriminate].
    destruct (timers s) as [|tm rest]; inversion Hs.
    apply (keeps_bind R pop_timer (fun _ => run_timer this (callback tm))).
    + apply frame_pop_timer.
    + intros _. apply keeps_run_timer; apply _.
Qed.

Lemma exec_keeps this acts : forall s s', exec this acts s = Some s' -> R s s'.
Proof.
  induction acts as [|a acts IH]; simpl; intros s s' He.
  - inversion He. apply frame_refl.
  - destruct (step this a s) as [s1|] eqn:Hs; [|discriminate].
    eapply frame_trans; [eapply step_keeps; eauto | auto].
Qed.

End HostFrames.
Lemma lookup_fresh {A} (h l : list A) (k : nat) :
  (h ++ l) !! (length h + k)%nat = l !! k.
Proof. rewrite lookup_app_r by lia. f_equal. lia. Qed.

Lemma lookup_fresh0 {A} (h l : list A) : (h ++ l) !! length h = l !! 0%nat.
Proof. rewrite <- (lookup_fresh h l 0). f_equal. lia. Qed.

Lemma insert_fresh {A} (h l : list A) (k : nat) (x : A) :
  <[(length h + k)%nat := x]> (h ++ l) = h ++ <[k := x]> l.
Proof. rewrite insert_app_r. reflexivity. Qed.

Lemma insert_fresh0 {A} (h l : list A) (x : A) :
  <[length h := x]> (h ++ l) = h ++ <[0%nat := x]> l.
Proof. rewrite <- (insert_fresh h l 0). f_equal. lia. Qed.

Lemma length_snoc_plus {A} (h l : list A) : length (h ++ l) = (length h + length l)%nat.
Proof. apply length_app. Qed.

Ltac heap_norm :=
  repeat first
    [ rewrite <- !app_assoc
    | rewrite !length_snoc_plus
    | rewrite lookup_fresh0
    | rewrite lookup_fresh
    | rewrite insert_fresh0
    | rewrite insert_fresh
    | progress cbv beta iota delta
        [with_heap with_queue with_flows with_token with_settled with_aggs with_timers with_log
         heap queue flows tideToken settled aggs timers log fst snd]
    | progress simpl ].

Ltac unfold_prims :=
  unfold then_, await, bind, new_promise, perform_then, settle_promise, resolve_with,
         Estuary.flows_add, Estuary.flows_delete, Estuary.freeze_token, Estuary.mark_settled,
         Estuary.isFrozen, log_event, aggs_push, count_down,
         modify, ret, get, enqueue in *.

Lemma flow_unfrozen u s :
  frozen s = false ->
  Estuary.flow u s =
    let n := length (heap s) in
    ((n + 3)%nat,
     {| tideToken := tideToken s;
        flows := if decide ((n + 1)%nat ∈ flows s) then flows s else flows s ++ [(n + 1)%nat];
        settled := settled s;
        heap := heap s ++
          [ {| role := RResolved; pstate := Settled (Ful VUndefined); reactions := [] |};
            {| role := RFlow; pstate := Pending;
               reactions := [{| handler := HFlowThen; derived := Some (n + 2)%nat |}] |};
            {| role := RFlowThen (n + 1); pstate := Pending;
               reactions := [{| handler := HFlowFinally (n + 1); derived := Some (n + 3)%nat |}] |};
            {| role := RFlowResult (n + 1); pstate := Pending; reactions := [] |} ];
        aggs := aggs s;
        queue := queue s ++ [JReact {| handler := HInvoke u; derived := Some (n + 1)%nat |} (Ful VUndefined)];
        timers := timers s;
        log := log s |}).
Proof.
  intros Hf. destruct s as [tok fl st h ag q tm lg].
  unfold frozen in Hf. simpl in Hf.
  unfold Estuary.flow. unfold_prims. simpl. rewrite Hf.
  heap_norm. reflexivity.
Qed.

Ltac prim_case :=
  repeat match goal with
    | |- context [match ?x with _ => _ end] => destruct x eqn:?
    end.

Global Instance same_token_frame : Frame same_token.
Proof.
  split; unfold keeps, same_token;
    [ reflexivity | intros s1 s2 s3 H1 H2; congruence | .. ];
    unfold_prims; intros; simpl in *; prim_case; reflexivity.
Qed.

Global Instance stays_settled_frame : Frame stays_settled.
Proof.
  split; unfold keeps, stays_settled;
    [ auto | auto | .. ];
    unfold_prims; intros; simpl in *; prim_case; simpl in *; auto.
Qed.

Global Instance stays_settled_freeze : FreezeFrame stays_settled.
Proof. split; [apply _|]. intros s. unfold stays_settled. auto. Qed.

Global Instance stays_settled_host : HostFrame stays_settled.
Proof.
  split; [apply _ | intros u; apply keeps_flow; [apply _|] | |];
    intros; intros s; unfold stays_settled; auto.
Qed.

Global Instance stays_frozen_frame : Frame stays_frozen.
Proof.
  split; unfold keeps, stays_frozen, frozen;
    [ auto | auto | .. ];
    unfold_prims; intros; simpl in *; prim_case; simpl in *; auto.
Qed.

Global Instance stays_frozen_freeze : FreezeFrame stays_frozen.
Proof.
  split; [apply _|]. intros s. unfold stays_frozen, frozen. simpl.
  unfold TideToken.freeze, TideToken.isFrozen. intros H. rewrite H. exact H.
Qed.

Global Instance stays_frozen_host : HostFrame stays_frozen.
Proof.
  split; [apply _ | intros u; apply keeps_flow; [apply _|] | |];
    intros; intros s; unfold stays_frozen; auto.
Qed.

Global Instance no_new_timer_frame : Frame no_new_timer.
Proof.
  split; unfold keeps, no_new_timer;
    [ auto | auto | .. ];
    unfold_prims; intros; simpl in *; prim_case; simpl in *; auto.
Qed.

Global Instance no_new_timer_freeze : FreezeFrame no_new_timer.
Proof. split; [apply _|]. intros s. unfold no_new_timer. auto. Qed.

Global Instance no_new_timer_host : HostFrame no_new_timer.
Proof.
  split; [apply _ | intros u; apply keeps_flow; [apply _|] | |];
    intros; intros s; unfold no_new_timer; simpl; auto.
  intros ->. reflexivity.
Qed.

Global Instance queue_grows_frame : Frame queue_grows.
Proof.
  split; unfold keeps, queue_grows.
  - intros s. exists []. rewrite app_nil_r. reflexivity.
  - intros s1 s2 s3 [l1 H1] [l2 H2]. exists (l1 ++ l2).
    rewrite H2, H1, app_assoc. reflexivity.
  - intros; exists []; rewrite app_nil_r; reflexivity.
  - intros; eexists; reflexivity.
  - intros; exists []; rewrite app_nil_r; reflexivity.
  - intros; exists []; rewrite app_nil_r; reflexivity.
  - intros a i o s; unfold count_down; destruct (aggs s !! a) as [ag|];
      [destruct (values ag !! i) as [[|]|]|];
      exists []; rewrite app_nil_r; reflexivity.
  - intros p o s; unfold settle_promise.
    destruct (heap s !! p) as [pr|]; [destruct (pstate pr)|];
      simpl; try (exists []; rewrite app_nil_r; reflexivity).
    eexists; reflexivity.
  - intros p r s; unfold perform_then.
    destruct (heap s !! p) as [pr|]; [destruct (pstate pr)|];
      simpl; try (exists []; rewrite app_nil_r; reflexivity).
    eexists; reflexivity.
  - intros; exists []; rewrite app_nil_r; reflexivity.
  - intros; exists []; rewrite app_nil_r; reflexivity.
Qed.

Global Instance queue_grows_freeze : FreezeFrame queue_grows.
Proof.
  split; [apply _|]. intros s. exists []. rewrite app_nil_r. reflexivity.
Qed.

(** The queue is first in, first out: a job behind [pre] is at the head
    after [length pre] ticks. *)
Lemma fifo this pre : forall s j post,
  queue s = pre ++ j :: post ->
  exists s' post',
    exec this (repeat ATick (length pre)) s = Some s' /\ queue s' = j :: post'.
Proof.
  induction pre as [|j0 pre IH]; intros s j post Hq; simpl.
  - eauto.
  - rewrite Hq. simpl.
    destruct (keeps_run_job queue_grows this j0 (snd (pop_job s))) as [l Hl].
    unfold bind. simpl in *. rewrite Hq in Hl. simpl in Hl.
    rewrite <- app_assoc in Hl. simpl in Hl.
    eapply IH. exact Hl.
Qed.

Lemma flow_frozen u s :
  frozen s = true ->
  Estuary.flow u s =
    (length (heap s),
     with_heap (fun h => h ++ [{| role := RClosed;
                                  pstate := Settled (Rej Estuary.ScopeClosed);
                                  reactions := [] |}]) s).
Proof.
  intros Hf. unfold Estuary.flow, Estuary.isFrozen, bind, get.
  unfold frozen in Hf. rewrite Hf. reflexivity.
Qed.

Lemma log_settle_promise p o s : log (snd (settle_promise p o s)) = log s.
Proof.
  unfold settle_promise.
  destruct (heap s !! p) as [pr|]; [destruct (pstate pr)|]; reflexivity.
Qed.

(** ** The token *)

(** C9: the token is one-way and idempotent.  [freeze] arms it, a second
    [freeze] changes nothing, any number of calls leaves it armed, and no
    run of the system (launches, settlements, microtasks, timers) disarms
    an armed token. *)
Theorem token_is_one_way :
  (forall tok, TideToken.isFrozen (TideToken.freeze tok) = true)
  /\ (forall tok, TideToken.freeze (TideToken.freeze tok) = TideToken.freeze tok)
  /\ (forall tok n, TideToken.isFrozen (Nat.iter (S n) TideToken.freeze tok) = true)
  /\ (forall tok, TideToken.isFrozen tok = true -> TideToken.freeze tok = tok)
  /\ (forall this acts s s',
        frozen s = true -> exec this acts s = Some s' -> frozen s' = true).
Proof.
  assert (H1 : forall tok, TideToken.isFrozen (TideToken.freeze tok) = true).
  { intros [[]]; reflexivity. }
  split; [exact H1|].
  split; [intros [[]]; reflexivity|].
  split; [intros tok n; simpl; apply H1|].
  split; [intros [[]]; simpl; [reflexivity|discriminate]|].
  intros this acts s s' Hf He.
  exact (exec_keeps stays_frozen this acts s s' He Hf).
Qed.

Lemma token_is_one_way_witness :
  frozen frozen_scope = true
  /\ frozen (snd (Estuary.flow UAsync frozen_scope)) = true.
Proof.
  split; [reflexivity|].
  exact (proj2 (proj2 (proj2 (proj2 token_is_one_way)))
           (Fjord.new Fjord.no_options) [AFlow UAsync] frozen_scope _ eq_refl eq_refl).
Defined.

(** ** Launching *)

(** C3: a launch on a frozen scope returns an already rejected promise
    carrying the scope-closed error, tracks nothing, queues nothing, runs
    nothing, and what it does is the same whatever the operation. *)
Theorem flow_on_frozen_scope (u : Undertaking) (s : State) :
  frozen s = true ->
  let p := fst (Estuary.flow u s) in
  let s' := snd (Estuary.flow u s) in
  state_of p s' = Some (Settled (Rej Estuary.ScopeClosed))
  /\ flows s' = flows s
  /\ queue s' = queue s
  /\ timers s' = timers s
  /\ log s' = log s
  /\ heap s' = heap s ++ [{| role := RClosed;
                             pstate := Settled (Rej Estuary.ScopeClosed);
                             reactions := [] |}]
  /\ forall u', Estuary.flow u' s = Estuary.flow u s.
Proof.
  intros Hf. simpl. rewrite (flow_frozen u s Hf). simpl.
  repeat split.
  - unfold state_of. simpl. rewrite lookup_fresh0. reflexivity.
  - intros u'. rewrite (flow_frozen u' s Hf). reflexivity.
Qed.

Lemma flow_on_frozen_scope_witness :
  frozen frozen_scope = true
  /\ state_of (fst (Estuary.flow UAsync frozen_scope)) (snd (Estuary.flow UAsync frozen_scope))
     = Some (Settled (Rej Estuary.ScopeClosed)).
Proof.
  split; [reflexivity|].
  exact (proj1 (flow_on_frozen_scope UAsync frozen_scope eq_refl)).
Defined.

(** An accepted operation is in the tracked collection when [flow]
    returns. *)
Lemma flow_tracks u s :
  frozen s = false ->
  (length (heap s) + 1)%nat ∈ flows (snd (Estuary.flow u s)).
Proof.
  intros Hf. rewrite (flow_unfrozen u s Hf). simpl.
  destruct (decide ((length (heap s) + 1)%nat ∈ flows s)); [assumption|].
  apply elem_of_app. right. apply list_elem_of_singleton. reflexivity.
Qed.

(** C8: a launch on an open scope only queues the operation.  The
    returned promise and the handle are pending, the handle is tracked,
    the job that will call the operation is at the tail of the microtask
    queue, nothing has run; once the jobs queued before it have run, the
    next tick calls the operation.  (A launch is a total function here:
    it has no way to raise.) *)
Theorem flow_defers (u : Undertaking) (s : State) :
  frozen s = false ->
  let p := fst (Estuary.flow u s) in
  let s' := snd (Estuary.flow u s) in
  let fp := (length (heap s) + 1)%nat in
  let job := JReact {| handler := HInvoke u; derived := Some fp |} (Ful VUndefined) in
  state_of p s' = Some Pending
  /\ state_of fp s' = Some Pending
  /\ fp ∈ flows s'
  /\ queue s' = queue s ++ [job]
  /\ log s' = log s
  /\ forall this, exists s1 s2 rest,
       exec this (repeat ATick (length (queue s))) s' = Some s1
       /\ queue s1 = job :: rest
       /\ step this ATick s1 = Some s2
       /\ log s2 = log s1 ++ [EvInvoke u].
Proof.
  intros Hf p s' fp job. subst p s'.
  rewrite (flow_unfrozen u s Hf). simpl.
  split; [unfold state_of; cbn [heap]; rewrite lookup_fresh; reflexivity|].
  split; [unfold state_of, fp; cbn [heap]; rewrite lookup_fresh; reflexivity|].
  split; [exact (eq_ind _ (fun st => fp ∈ flows (snd st)) (flow_tracks u s Hf) _
                   (flow_unfrozen u s Hf))|].
  split; [reflexivity|]. split; [reflexivity|].
  intros this.
  match goal with |- context [exec this _ ?st] => set (s' := st) end.
  destruct (fifo this (queue s) s' job []) as (s1 & rest & He & Hq); [reflexivity|].
  exists s1. eexists. exists rest.
  split; [exact He|]. split; [exact Hq|].
  unfold step. rewrite Hq. split; [reflexivity|].
  destruct u as [[v|e]|]; simpl; unfold bind; simpl;
    rewrite ?log_settle_promise; reflexivity.
Qed.

Lemma flow_defers_witness :
  frozen empty = false
  /\ state_of (fst (Estuary.flow (USync (Ful (VNum 1))) empty))
       (snd (Estuary.flow (USync (Ful (VNum 1))) empty)) = Some Pending.
Proof.
  split; [reflexivity|].
  exact (proj1 (flow_defers (USync (Ful (VNum 1))) empty eq_refl)).
Defined.

(** ** Construction *)

(** C10: a falsy timeout is no timeout.  The constructor stores null,
    so the orchestrator equals the one built without a timeout, the body's
    promise is awaited as it is, and no run from a call of such an
    orchestrator ever holds a timer or can fire one. *)
Theorem falsy_timeout_is_no_timeout (options : Fjord.Options) :
  truthy (Fjord.opt_timeout options) = false ->
  let this := Fjord.new options in
  this = Fjord.new {| Fjord.opt_timeout := TUndefined;
                      Fjord.opt_onError := Fjord.opt_onError options |}
  /\ Fjord.timeout this = TNull
  /\ (forall p s, Fjord._executeWithTimeout this p s = (p, s))
  /\ (forall m acts s,
        exec this acts (start this m) = Some s ->
        timers s = [] /\ step this ATimer s = None).
Proof.
  intros Hf this. subst this. unfold Fjord.new. rewrite Hf. simpl.
  split; [reflexivity|]. split; [reflexivity|].
  split; [intros p s; reflexivity|].
  intros m acts s He.
  assert (Ht : timers s = []).
  { eapply (exec_keeps no_new_timer); [exact He|].
    destruct m; reflexivity. }
  split; [exact Ht|]. unfold step. rewrite Ht. destruct (queue s); reflexivity.
Qed.

Lemma falsy_timeout_is_no_timeout_witness :
  truthy (TNumber 0) = false
  /\ Fjord.new {| Fjord.opt_timeout := TNumber 0; Fjord.opt_onError := None |}
     = Fjord.new Fjord.no_options.
Proof.
  split; [reflexivity|].
  exact (proj1 (falsy_timeout_is_no_timeout
                  {| Fjord.opt_timeout := TNumber 0; Fjord.opt_onError := None |} eq_refl)).
Defined.
Lemma start_no_timeout this m :
  truthy (Fjord.timeout this) = false ->
  start this m =
    {| tideToken := TideToken.new; flows := []; settled := false;
       heap := [ {| role := RCall; pstate := Pending; reactions := [] |};
                 {| role := RBody; pstate := Pending;
                    reactions := [{| handler := match m with
                                                | Cascade => HCascadeBody pc
                                                | Tributary => HTributaryBody pc
                                                end;
                                     derived := None |}] |} ];
       aggs := []; queue := []; timers := []; log := [] |}.
Proof.
  intros Ht. unfold start, call.
  destruct m; unfold Fjord.cascade, Fjord.tributary, Fjord._executeWithTimeout;
    rewrite Ht; reflexivity.
Qed.

Lemma quiet_success this m v :
  truthy (Fjord.timeout this) = false ->
  exists s,
    exec this [AResolve body (Ful v); ATick; ATick; ATick] (start this m) = Some s
    /\ state_of pc s = Some (Settled (Ful v))
    /\ frozen s = match m with Cascade => false | Tributary => true end
    /\ settled s = true /\ queue s = [].
Proof.
  intros Ht. rewrite (start_no_timeout this m Ht).
  destruct m.
  - match goal with |- context [exec ?t ?a ?st] => set (r := exec t a st) end.
    vm_compute in r. subst r. eexists. split; [reflexivity|].
    repeat split; reflexivity.
  - match goal with |- context [exec ?t ?a ?st] => set (r := exec t a st) end.
    vm_compute in r. subst r. eexists. split; [reflexivity|].
    repeat split; reflexivity.
Qed.

Lemma settle_marks s : settled (snd (Estuary.settle s)) = true.
Proof.
  destruct (settled s) eqn:Hs.
  - apply (keeps_settle stays_settled s Hs).
  - unfold Estuary.settle, bind, new_promise, get. simpl. rewrite Hs.
    unfold Estuary.mark_settled, modify. simpl.
    destruct (Promise_allSettled _ _) as [pall s1] eqn:E1.
    destruct (await pall _ s1) as [u s2] eqn:E2. simpl.
    change s2 with (snd (u, s2)). rewrite <- E2.
    apply (keeps_await stays_settled).
    change s1 with (snd (pall, s1)). rewrite <- E1.
    apply (keeps_allSettled stays_settled). reflexivity.
Qed.

Lemma settle_then_token h s : tideToken (snd (settle_then h s)) = tideToken s.
Proof.
  apply (keeps_bind same_token Estuary.settle (fun ps => await ps h)).
  - apply keeps_settle; apply _.
  - intros ps. apply keeps_await; apply _.
Qed.

Lemma settle_then_marks h s : settled (snd (settle_then h s)) = true.
Proof.
  unfold settle_then, bind.
  destruct (Estuary.settle s) as [ps s1] eqn:E.
  apply (keeps_await stays_settled).
  change s1 with (snd (ps, s1)). rewrite <- E. apply settle_marks.
Qed.

Lemma cascade_success_eq this pcx v s :
  snd (run_job this (JReact {| handler := HCascadeBody pcx; derived := None |} (Ful v)) s)
  = snd (settle_then (HCascadeSettled v pcx) s).
Proof.
  simpl. unfold settle_then, bind.
  destruct (Estuary.settle s) as [ps s1]. simpl.
  destruct (await ps _ s1). reflexivity.
Qed.

Lemma tributary_success_eq this pcx v s :
  snd (run_job this (JReact {| handler := HTributaryBody pcx; derived := None |} (Ful v)) s)
  = snd (settle_then (HTributarySettled v pcx) (with_token TideToken.freeze s)).
Proof.
  simpl. unfold settle_then, bind, Estuary.freeze_token, modify.
  destruct (Estuary.settle _) as [ps s1]. simpl.
  destruct (await ps _ s1). reflexivity.
Qed.

Lemma success_return_eq this h pcx v x s :
  h = HCascadeSettled v pcx \/ h = HTributarySettled v pcx ->
  snd (run_job this (JReact {| handler := h; derived := None |} (Ful x)) s)
  = snd (settle_promise pcx (Ful v) s).
Proof.
  intros [-> | ->]; simpl; unfold bind;
    destruct (settle_promise pcx (Ful v) s); reflexivity.
Qed.

Lemma settle_promise_pending p o s :
  state_of p s = Some Pending ->
  state_of p (snd (settle_promise p o s)) = Some (Settled o).
Proof.
  unfold state_of, settle_promise. intros H.
  destruct (heap s !! p) as [pr|] eqn:Hp; [|discriminate].
  simpl in H. inversion H as [H1]. rewrite H1. simpl.
  rewrite list_lookup_insert_eq; [reflexivity|].
  eapply lookup_lt_Some; eauto.
Qed.

(** C1: the two success paths.  When the awaited result of the body is a
    value [v], cascade settles the scope and awaits that with the token
    left exactly as it was; tributary first arms the token and then does
    the same; in both, once the settlement is over the call's promise is
    fulfilled with [v].  Run from a call without flows, cascade returns
    [v] with the token unarmed and tributary returns [v] with it armed. *)
Theorem success_paths (this : Fjord.t) (pcx : nat) (v : JSValue) :
  (forall s,
     let sc := snd (run_job this (JReact {| handler := HCascadeBody pcx; derived := None |} (Ful v)) s) in
     sc = snd (settle_then (HCascadeSettled v pcx) s)
     /\ tideToken sc = tideToken s
     /\ settled sc = true)
  /\ (forall s,
     let st := snd (run_job this (JReact {| handler := HTributaryBody pcx; derived := None |} (Ful v)) s) in
     st = snd (settle_then (HTributarySettled v pcx) (with_token TideToken.freeze s))
     /\ tideToken st = TideToken.freeze (tideToken s)
     /\ frozen st = true
     /\ settled st = true)
  /\ (forall h x s,
     h = HCascadeSettled v pcx \/ h = HTributarySettled v pcx ->
     let s' := snd (run_job this (JReact {| handler := h; derived := None |} (Ful x)) s) in
     s' = snd (settle_promise pcx (Ful v) s)
     /\ tideToken s' = tideToken s
     /\ (state_of pcx s = Some Pending -> state_of pcx s' = Some (Settled (Ful v))))
  /\ (forall m,
     truthy (Fjord.timeout this) = false ->
     exists s,
       exec this [AResolve body (Ful v); ATick; ATick; ATick] (start this m) = Some s
       /\ state_of pc s = Some (Settled (Ful v))
       /\ frozen s = match m with Cascade => false | Tributary => true end
       /\ settled s = true /\ queue s = []).
Proof.
  split; [|split; [|split]].
  - intros s sc. subst sc. rewrite cascade_success_eq.
    split; [reflexivity|]. split; [apply settle_then_token | apply settle_then_marks].
  - intros s st. subst st. rewrite tributary_success_eq.
    split; [reflexivity|].
    split; [apply (settle_then_token _ (with_token TideToken.freeze s))|].
    split; [|apply settle_then_marks].
    unfold frozen. rewrite settle_then_token. simpl.
    destruct (tideToken s) as [[]]; reflexivity.
  - intros h x s Hh s'. subst s'. rewrite (success_return_eq this h pcx v x s Hh).
    split; [reflexivity|].
    split; [apply (frame_settle_promise (R := same_token))|].
    apply settle_promise_pending.
  - intros m Ht. apply quiet_success. exact Ht.
Qed.

Lemma success_paths_witness :
  exists s,
    exec (Fjord.new Fjord.no_options)
      [AResolve body (Ful (VNum 7)); ATick; ATick; ATick]
      (start (Fjord.new Fjord.no_options) Tributary) = Some s
    /\ state_of pc s = Some (Settled (Ful (VNum 7)))
    /\ frozen s = true.
Proof.
  destruct (proj2 (proj2 (proj2 (success_paths (Fjord.new Fjord.no_options) pc (VNum 7))))
              Tributary eq_refl) as (s & He & Hp & Hf & _).
  exists s. split; [exact He|]. split; [exact Hp | exact Hf].
Defined.

Lemma token_settle_promise p o s : tideToken (snd (settle_promise p o s)) = tideToken s.
Proof. exact (frame_settle_promise (R := same_token) p o s). Qed.

Lemma raised_quiet this error tag :
  observer_returns this error tag -> raised this error tag = error.
Proof.
  unfold observer_returns, raised. intros H.
  destruct (Fjord.onError this) as [f|]; [|reflexivity].
  destruct (instanceof_Error error); [|reflexivity].
  rewrite (H f eq_refl). reflexivity.
Qed.

Lemma failure_entry_eq this m pcx e s :
  snd (run_job this (JReact {| handler := on_body m pcx; derived := None |} (Rej e)) s)
  = snd (settle_then (on_caught m e pcx) (with_token TideToken.freeze s)).
Proof.
  destruct m; simpl;
    unfold Fjord.cascade_catch, Fjord.tributary_catch, settle_then, bind,
      Estuary.freeze_token, modify;
    destruct (Estuary.settle _) as [ps s1]; simpl;
    destruct (await ps _ s1); reflexivity.
Qed.

Lemma rethrow_spec this e tag pcx s :
  state_of pcx s = Some Pending ->
  let s' := snd (Fjord.rethrow this e tag pcx s) in
  log s' = log s ++ (if reported this e then [EvObserver e tag] else [])
  /\ state_of pcx s' = Some (Settled (Rej (raised this e tag)))
  /\ tideToken s' = tideToken s.
Proof.
  intros Hp. unfold Fjord.rethrow, Fjord.report, reported, raised, bind.
  destruct (Fjord.onError this) as [f|]; simpl.
  - destruct (instanceof_Error e); simpl.
    + unfold log_event, modify, ret. simpl.
      destruct (f e tag) as [x|]; rewrite log_settle_promise; simpl;
        (split; [reflexivity|]);
        (split; [apply settle_promise_pending; exact Hp
                |rewrite token_settle_promise; reflexivity]).
    + rewrite log_settle_promise, app_nil_r.
      split; [reflexivity|].
      split; [apply settle_promise_pending; exact Hp
             |rewrite token_settle_promise; reflexivity].
  - rewrite log_settle_promise, app_nil_r.
    split; [reflexivity|].
    split; [apply settle_promise_pending; exact Hp
           |rewrite token_settle_promise; reflexivity].
Qed.

Lemma failure_exit_eq this m pcx e x s :
  snd (run_job this (JReact {| handler := on_caught m e pcx; derived := None |} (Ful x)) s)
  = snd (Fjord.rethrow this e (mode_tag m) pcx s).
Proof.
  destruct m; simpl; unfold bind;
    destruct (Fjord.rethrow _ _ _ _ _); reflexivity.
Qed.

Lemma exec_app this l1 : forall l2 s,
  exec this (l1 ++ l2) s =
    match exec this l1 s with
    | Some s' => exec this l2 s'
    | None => None
    end.
Proof.
  induction l1 as [|a l1 IH]; intros l2 s; simpl; [reflexivity|].
  destruct (step this a s); [apply IH | reflexivity].
Qed.

Lemma rethrow_eq this e tag pcx s :
  snd (Fjord.rethrow this e tag pcx s)
  = snd (settle_promise pcx (Rej (raised this e tag))
           (with_log (fun l => l ++ (if reported this e then [EvObserver e tag] else [])) s)).
Proof.
  assert (Hid : with_log (fun l => l ++ []) s = s).
  { destruct s; unfold with_log; simpl. rewrite app_nil_r. reflexivity. }
  unfold Fjord.rethrow, Fjord.report, reported, raised, bind.
  destruct (Fjord.onError this) as [f|]; simpl.
  - destruct (instanceof_Error e); simpl.
    + unfold log_event, modify, ret. simpl. destruct (f e tag); reflexivity.
    + rewrite Hid. reflexivity.
  - rewrite Hid. reflexivity.
Qed.

Lemma quiet_failure this m e :
  truthy (Fjord.timeout this) = false ->
  exists s,
    exec this [AResolve body (Rej e); ATick; ATick; ATick] (start this m) = Some s
    /\ state_of pc s = Some (Settled (Rej (raised this e (mode_tag m))))
    /\ frozen s = true
    /\ settled s = true
    /\ reports s = (if reported this e then [EvObserver e (mode_tag m)] else []).
Proof.
  intros Ht. rewrite (start_no_timeout this m Ht).
  change [AResolve body (Rej e); ATick; ATick; ATick]
    with ([AResolve body (Rej e); ATick; ATick] ++ [ATick]).
  rewrite exec_app.
  destruct m;
    match goal with |- context [exec ?t ?a ?st] => set (r := exec t a st) end;
    vm_compute in r; subst r; cbv iota beta;
    cbn [exec step queue]; unfold bind, pop_job, modify; cbn [fst snd];
    match goal with
    | |- context [run_job this (JReact {| handler := ?h; derived := None |} (Ful ?x)) ?st] =>
        first [ change h with (on_caught Cascade e pc)
              | change h with (on_caught Tributary e pc) ];
        rewrite (surjective_pairing (run_job this _ st));
        rewrite failure_exit_eq, rethrow_eq
    end;
    eexists; (split; [reflexivity|]); repeat split; try reflexivity;
    unfold reports; simpl; destruct (reported this e); reflexivity.
Qed.

(** C7 (as amended): the failure paths.  When the awaited result of the
    body is a rejection [e], the call arms the token, settles the scope
    and awaits that; once the settlement is over it calls the observer
    with [(e, tag)] exactly when one is configured and [e] is an instance
    of Error, and then rejects the call's promise with [e] itself, or
    with what the observer threw if it was called and threw. *)
Theorem failure_paths (this : Fjord.t) (m : Mode) (pcx : nat) (e : JSValue) :
  (forall s,
     let s1 := snd (run_job this (JReact {| handler := on_body m pcx; derived := None |} (Rej e)) s) in
     s1 = snd (settle_then (on_caught m e pcx) (with_token TideToken.freeze s))
     /\ frozen s1 = true
     /\ settled s1 = true)
  /\ (forall x s,
     state_of pcx s = Some Pending ->
     let s2 := snd (run_job this (JReact {| handler := on_caught m e pcx; derived := None |} (Ful x)) s) in
     log s2 = log s ++ (if reported this e then [EvObserver e (mode_tag m)] else [])
     /\ state_of pcx s2 = Some (Settled (Rej (raised this e (mode_tag m)))))
  /\ (observer_returns this e (mode_tag m) -> raised this e (mode_tag m) = e)
  /\ (truthy (Fjord.timeout this) = false ->
      exists s,
        exec this [AResolve body (Rej e); ATick; ATick; ATick] (start this m) = Some s
        /\ state_of pc s = Some (Settled (Rej (raised this e (mode_tag m))))
        /\ frozen s = true
        /\ settled s = true
        /\ reports s = (if reported this e then [EvObserver e (mode_tag m)] else [])).
Proof.
  split; [|split; [|split]].
  - intros s s1. subst s1. rewrite failure_entry_eq.
    split; [reflexivity|]. split; [|apply settle_then_marks].
    unfold frozen. rewrite settle_then_token. simpl.
    destruct (tideToken s) as [[]]; reflexivity.
  - intros x s Hp s2. subst s2. rewrite failure_exit_eq.
    destruct (rethrow_spec this e (mode_tag m) pcx s Hp) as (Hl & Hs & _).
    split; assumption.
  - apply raised_quiet.
  - apply quiet_failure.
Qed.

Lemma failure_paths_witness :
  exists s,
    exec observed [AResolve body (Rej (VError "late")); ATick; ATick; ATick]
      (start observed Cascade) = Some s
    /\ state_of pc s = Some (Settled (Rej (VError "late")))
    /\ reports s = [EvObserver (VError "late") "cascade"].
Proof.
  destruct (proj2 (proj2 (proj2 (failure_paths observed Cascade pc (VError "late")))) eq_refl)
    as (s & He & Hp & _ & _ & Hl).
  exists s. split; [exact He|]. split; [exact Hp | exact Hl].
Defined.

(** C7 as stated fails: with an observer configured, a body that throws a
    value that is not an Error makes the call fail without the observer
    being called. *)
Lemma observer_skips_non_error :
  exists s,
    exec observed [AResolve body (Rej (VStr "boom")); ATick; ATick; ATick]
      (start observed Cascade) = Some s
    /\ is_Some (Fjord.onError observed)
    /\ state_of pc s = Some (Settled (Rej (VStr "boom")))
    /\ reports s = [].
Proof.
  set (r := exec observed [AResolve body (Rej (VStr "boom")); ATick; ATick; ATick]
              (start observed Cascade)).
  vm_compute in r. subst r. eexists. split; [reflexivity|].
  split; [eexists; reflexivity|]. split; reflexivity.
Qed.

Lemma start_with_timeout this m :
  truthy (Fjord.timeout this) = true ->
  start this m =
    {| tideToken := TideToken.new; flows := []; settled := false;
       heap := [ {| role := RCall; pstate := Pending; reactions := [] |};
                 {| role := RBody; pstate := Pending; reactions := [forward_to 3] |};
                 {| role := RDeadline; pstate := Pending; reactions := [forward_to 3] |};
                 {| role := RRace; pstate := Pending;
                    reactions := [{| handler := on_body m pc; derived := None |}] |} ];
       aggs := []; queue := [];
       timers := [{| delay := millis (Fjord.timeout this); callback := CbDeadline 2 |}];
       log := [] |}.
Proof.
  intros Ht. unfold start, call.
  destruct m; unfold Fjord.cascade, Fjord.tributary, Fjord._executeWithTimeout;
    rewrite Ht; reflexivity.
Qed.












Lemma settle_again_eq s :
  settled s = true ->
  Estuary.settle s =
    (length (heap s),
     with_heap (fun h => h ++ [{| role := RSettle; pstate := Settled (Ful VUndefined);
                                  reactions := [] |}]) s).
Proof.
  intros Hs. destruct s as [tok fl st h ag q tm lg]. simpl in Hs. subst st.
  unfold Estuary.settle. unfold_prims. heap_norm. rewrite app_nil_r. reflexivity.
Qed.

(** C4 as stated fails: while the first settle (promise 6) is still
    waiting for the operation tracked at its start (handle 3), the promise
    of a second call (promise 8) is already resolved. *)
Lemma second_settle_returns_early :
  exists s,
    exec plain settle_twice (start plain Cascade) = Some s
    /\ log s = [EvWait 6 [3%nat]]
    /\ role <$> heap s !! 6%nat = Some RSettle
    /\ state_of 6 s = Some Pending
    /\ role <$> heap s !! 8%nat = Some RSettle
    /\ state_of 8 s = Some (Settled (Ful VUndefined))
    /\ flows s = [3%nat]
    /\ state_of 3 s = Some Pending.
Proof.
  set (r := exec plain settle_twice (start plain Cascade)).
  vm_compute in r. subst r. eexists. split; [reflexivity|].
  repeat split; reflexivity.
Qed.

(** C5 as stated fails: an operation launched while the settlement is
    waiting (handle 10) is still tracked when the settle promise
    (promise 7) is resolved. *)
Lemma settle_resolves_with_tracked_flow :
  exists s,
    exec plain launch_while_settling (start plain Cascade) = Some s
    /\ EvWait 7 [3%nat] ∈ log s
    /\ role <$> heap s !! 7%nat = Some RSettle
    /\ state_of 7 s = Some (Settled (Ful VUndefined))
    /\ flows s = [10%nat]
    /\ state_of 10 s = Some Pending.
Proof.
  set (r := exec plain launch_while_settling (start plain Cascade)).
  vm_compute in r. subst r. eexists. split; [reflexivity|].
  split; [simpl; auto using list_elem_of_here, list_elem_of_further|].
  repeat split; reflexivity.
Qed.

Lemma settled_as_lookup p o s :
  settled_as p o s <-> exists pr, heap s !! p = Some pr /\ pstate pr = Settled o.
Proof.
  unfold settled_as, state_of. split.
  - destruct (heap s !! p) as [pr|]; [|discriminate].
    simpl. intros H. exists pr. split; [reflexivity|congruence].
  - intros (pr & -> & Hs). simpl. congruence.
Qed.

Lemma role_of_lookup p r s :
  role_of p s = Some r <-> exists pr, heap s !! p = Some pr /\ role pr = r.
Proof.
  unfold role_of. split.
  - destruct (heap s !! p) as [pr|]; [|discriminate].
    simpl. intros H. exists pr. split; [reflexivity|congruence].
  - intros (pr & -> & Hs). simpl. congruence.
Qed.

Lemma evolves_refl s : evolves s s.
Proof.
  split; [|split; auto].
  intros p pr Hp. exists pr. auto.
Qed.

Lemma evolves_trans s1 s2 s3 : evolves s1 s2 -> evolves s2 s3 -> evolves s1 s3.
Proof.
  intros (H1 & F1 & C1) (H2 & F2 & C2). split; [|split; auto].
  - intros p pr Hp.
    destruct (H1 p pr Hp) as (pr1 & Hp1 & Hr1 & Hs1).
    destruct (H2 p pr1 Hp1) as (pr2 & Hp2 & Hr2 & Hs2).
    exists pr2. split; [exact Hp2|]. split; [congruence|].
    intros o Ho. apply Hs2, Hs1, Ho.
  - intros fp o Hs Hn. apply (C2 fp o); [|apply (C1 fp o); assumption].
    apply settled_as_lookup in Hs. destruct Hs as (pr & Hp & Hst).
    destruct (H1 fp pr Hp) as (pr1 & Hp1 & _ & Hs1).
    apply settled_as_lookup. exists pr1. auto.
Qed.

Lemma evolves_same_heap s s' :
  heap s' = heap s -> (frozen s = true -> frozen s' = true) ->
  (forall fp, fp ∉ flows s -> fp ∉ flows s') -> evolves s s'.
Proof.
  intros Hh Hf Hfl. split; [|split; [exact Hf | intros fp o _; apply Hfl]].
  intros p pr Hp. exists pr. rewrite Hh. auto.
Qed.

Lemma evolves_heap s s' :
  (forall p pr, heap s !! p = Some pr ->
     exists pr', heap s' !! p = Some pr' /\ role pr' = role pr
                 /\ (forall o, pstate pr = Settled o -> pstate pr' = Settled o)) ->
  tideToken s' = tideToken s -> flows s' = flows s -> evolves s s'.
Proof.
  intros Hh Ht Hfl. split; [exact Hh|]. unfold frozen. rewrite Ht, Hfl.
  split; auto.
Qed.

Global Instance evolves_frame : Frame evolves.
Proof.
  split; unfold keeps.
  - apply evolves_refl.
  - apply evolves_trans.
  - intros r st s. apply evolves_heap; try reflexivity.
    intros p pr Hp. exists pr. simpl.
    rewrite lookup_app_l by (eapply lookup_lt_Some; eauto). auto.
  - intros j s. apply evolves_same_heap; auto.
  - intros e s. apply evolves_same_heap; auto.
  - intros ag s. apply evolves_same_heap; auto.
  - intros a i o s. unfold count_down.
    destruct (aggs s !! a) as [ag|]; [destruct (values ag !! i) as [[|]|]|];
      apply evolves_same_heap; auto.
  - intros p o s. unfold settle_promise.
    destruct (heap s !! p) as [pr|] eqn:Hp; [|apply evolves_refl].
    destruct (pstate pr) eqn:Hs; [|apply evolves_refl].
    apply evolves_heap; try reflexivity. simpl.
    intros q qr Hq. destruct (decide (p = q)) as [->|Hne].
    + rewrite list_lookup_insert_eq by (eapply lookup_lt_Some; eauto).
      eexists. split; [reflexivity|]. simpl.
      assert (qr = pr) by congruence. subst qr. split; [reflexivity|].
      intros o' Ho'. congruence.
    + rewrite list_lookup_insert_ne by exact Hne. exists qr. auto.
  - intros p r s. unfold perform_then.
    destruct (heap s !! p) as [pr|] eqn:Hp; [|apply evolves_refl].
    destruct (pstate pr) eqn:Hs; [|apply evolves_same_heap; auto].
    apply evolves_heap; try reflexivity. simpl.
    intros q qr Hq. destruct (decide (p = q)) as [->|Hne].
    + rewrite list_lookup_insert_eq by (eapply lookup_lt_Some; eauto).
      eexists. split; [reflexivity|]. simpl.
      assert (qr = pr) by congruence. subst qr. split; [reflexivity|].
      intros o' Ho'. congruence.
    + rewrite list_lookup_insert_ne by exact Hne. exists qr. auto.
  - intros s. apply evolves_same_heap; auto.
  - intros p s. apply evolves_same_heap; auto.
    intros fp Hn. simpl. rewrite list_elem_of_filter. tauto.
Qed.

Global Instance evolves_freeze : FreezeFrame evolves.
Proof.
  split; [apply _|]. intros s. apply evolves_same_heap; auto.
  apply (frame_freeze_token (R := stays_frozen)).
Qed.

Lemma role_of_evolves s s' p r :
  evolves s s' -> role_of p s = Some r -> role_of p s' = Some r.
Proof.
  intros (H & _) Hr. apply role_of_lookup in Hr. destruct Hr as (pr & Hp & Hr).
  destruct (H p pr Hp) as (pr' & Hp' & Hr' & _).
  apply role_of_lookup. exists pr'. split; [exact Hp' | congruence].
Qed.

Lemma settled_as_evolves s s' p o :
  evolves s s' -> settled_as p o s -> settled_as p o s'.
Proof.
  intros (H & _) Hs. apply settled_as_lookup in Hs. destruct Hs as (pr & Hp & Hs).
  destruct (H p pr Hp) as (pr' & Hp' & _ & Hs').
  apply settled_as_lookup. exists pr'. auto.
Qed.

Lemma Delivered_evolves s s' fp o :
  evolves s s' -> Delivered fp o s -> Delivered fp o s'.
Proof.
  intros He (Hs & Hf). split; [eapply settled_as_evolves; eauto|].
  intros e Ho. destruct He as (_ & F & _). apply F. eapply Hf; eauto.
Qed.

Lemma Cleaned_evolves s s' fp o :
  evolves s s' -> Cleaned fp o s -> Cleaned fp o s'.
Proof.
  intros He (Hd & Hn). split; [eapply Delivered_evolves; eauto|].
  destruct He as (_ & _ & C). eapply C; [apply Hd | exact Hn].
Qed.

Lemma target_ok_evolves s s' t :
  evolves s s' -> target_ok s t -> target_ok s' t.
Proof.
  intros He [H | [H | (fp & H)]]; [left | right; left | right; right; exists fp];
    eapply role_of_evolves; eauto.
Qed.

Lemma settle_ok_evolves s s' r o :
  evolves s s' -> settle_ok s r o -> settle_ok s' r o.
Proof.
  intros He. destruct r; simpl; auto;
    first [apply Delivered_evolves | apply Cleaned_evolves]; exact He.
Qed.

Create HintDb evo.
#[local] Hint Resolve role_of_evolves settled_as_evolves Delivered_evolves
  Cleaned_evolves target_ok_evolves settle_ok_evolves : evo.

Lemma reaction_ok_evolves s s' p r :
  evolves s s' -> reaction_ok s p r -> reaction_ok s' p r.
Proof.
  intros He. unfold reaction_ok.
  destruct (handler r), (derived r); try exact id; intros H;
    try (eapply role_of_evolves; eassumption).
  - destruct H. split; eauto with evo.
  - destruct H as (fp & H1 & H2). exists fp. split; eauto with evo.
  - destruct H as (H1 & H2). split; [eauto with evo|].
    intros fp Hfp.
    destruct H1 as [H1 | [H1 | (fp' & H1)]];
      try (pose proof (role_of_evolves _ _ _ _ He H1); congruence).
    pose proof (role_of_evolves _ _ _ _ He H1) as H1'.
    assert (fp' = fp) by congruence. subst fp'. eauto with evo.
Qed.

Lemma job_ok_evolves s s' j :
  evolves s s' -> job_ok s j -> job_ok s' j.
Proof.
  intros He. destruct j as [r o | t src]; simpl.
  - destruct (handler r), (derived r); try exact id; intros H;
      try (eapply role_of_evolves; eassumption).
    + destruct H as (fp & H1 & H2). exists fp. split; eauto with evo.
    + destruct H. split; eauto with evo.
    + destruct H as (fp & H1 & H2). exists fp. split; eauto with evo.
    + destruct H as (H1 & H2). split; [eauto with evo|].
      intros fp Hfp.
      destruct H1 as [H1 | [H1 | (fp' & H1)]];
        try (pose proof (role_of_evolves _ _ _ _ He H1); congruence).
      pose proof (role_of_evolves _ _ _ _ He H1) as H1'.
      assert (fp' = fp) by congruence. subst fp'. eauto with evo.
  - intros [(H1 & H2) | (fp & H1 & H2)]; [left | right; exists fp];
      split; eauto with evo.
Qed.

#[local] Hint Resolve reaction_ok_evolves job_ok_evolves : evo.

(** A reaction registered on a promise that settles becomes a job. *)
Lemma reaction_to_job s p pr r o :
  heap s !! p = Some pr -> pstate pr = Settled o ->
  settle_ok s (role pr) o ->
  reaction_ok s p r -> job_ok s (JReact r o).
Proof.
  intros Hp Hs Hok. unfold reaction_ok. simpl.
  assert (Hr : role_of p s = Some (role pr)) by (apply role_of_lookup; eauto).
  assert (Ha : settled_as p o s) by (apply settled_as_lookup; eauto).
  destruct (handler r), (derived r); try exact id; intros H.
  - exists p. split; assumption.
  - destruct H as (H1 & H2). split; [exact H1|].
    rewrite H2 in Hr. inversion Hr as [Hrole]. rewrite <- Hrole in Hok. exact Hok.
  - destruct H as (H1 & H2). split; [exact H1|].
    intros fp Hfp. specialize (H2 fp Hfp).
    rewrite H2 in Hr. inversion Hr as [Hrole]. rewrite <- Hrole in Hok. exact Hok.
Qed.

(** *** The primitives keep the typing *)

Lemma Typed_same_heap s s' :
  Typed s -> evolves s s' -> heap s' = heap s ->
  (forall j, j ∈ queue s' -> j ∈ queue s) ->
  (forall tm, tm ∈ timers s' -> tm ∈ timers s) ->
  (forall a ag, aggs s' !! a = Some ag ->
     exists a0 ag0, aggs s !! a0 = Some ag0 /\ result ag0 = result ag) ->
  Typed s'.
Proof.
  intros [T1 T2 T3 T4 T5] He Hh Hq Ht Ha. split.
  - intros p pr r Hp Hr. rewrite Hh in Hp. eauto with evo.
  - intros p pr o Hp Hs. rewrite Hh in Hp. eauto with evo.
  - intros j Hj. eauto with evo.
  - intros tm d Htm Hcb. eauto with evo.
  - intros a ag Hag. destruct (Ha a ag Hag) as (a0 & ag0 & H0 & Hres).
    rewrite <- Hres. eauto with evo.
Qed.

Lemma Typed_new_promise r st s :
  Typed s -> (forall o, st = Settled o -> settle_ok s r o) ->
  Typed (snd (new_promise r st s)).
Proof.
  intros HT Hst.
  pose proof (frame_new_promise (R := evolves) r st s) as He.
  destruct HT as [T1 T2 T3 T4 T5]. split; simpl.
  - intros p pr x Hp Hx. apply lookup_app_Some in Hp.
    destruct Hp as [Hp | (_ & Hp)]; [eauto with evo|].
    apply list_lookup_singleton_Some in Hp. destruct Hp as (_ & <-).
    simpl in Hx. inversion Hx.
  - intros p pr o Hp Hs. apply lookup_app_Some in Hp.
    destruct Hp as [Hp | (_ & Hp)]; [eauto with evo|].
    apply list_lookup_singleton_Some in Hp. destruct Hp as (_ & <-).
    simpl in *. eauto with evo.
  - intros j Hj. eauto with evo.
  - intros tm d Htm Hcb. eauto with evo.
  - intros a ag Hag. eauto with evo.
Qed.

Lemma role_of_new_promise r st s :
  role_of (fst (new_promise r st s)) (snd (new_promise r st s)) = Some r.
Proof. unfold role_of. simpl. rewrite lookup_fresh0. reflexivity. Qed.

Lemma Typed_enqueue j s :
  Typed s -> job_ok s j -> Typed (snd (enqueue j s)).
Proof.
  intros HT Hj.
  pose proof (frame_enqueue (R := evolves) j s) as He.
  destruct HT as [T1 T2 T3 T4 T5]. split; simpl; eauto with evo.
  intros x Hx. apply elem_of_app in Hx. destruct Hx as [Hx | Hx]; [eauto with evo|].
  apply list_elem_of_singleton in Hx. subst x. eauto with evo.
Qed.

Lemma Typed_perform_then p r s :
  Typed s -> reaction_ok s p r -> Typed (snd (perform_then p r s)).
Proof.
  intros HT Hr.
  pose proof (frame_perform_then (R := evolves) p r s) as He.
  unfold perform_then in *.
  destruct (heap s !! p) as [pr|] eqn:Hp; [|exact HT].
  destruct (pstate pr) as [|o] eqn:Hs.
  - destruct HT as [T1 T2 T3 T4 T5]. split; simpl in *; eauto with evo.
    + intros q qr x Hq Hx. destruct (decide (p = q)) as [->|Hne].
      * rewrite list_lookup_insert_eq in Hq by (eapply lookup_lt_Some; eauto).
        inversion Hq. subst qr. simpl in Hx.
        apply elem_of_app in Hx. destruct Hx as [Hx | Hx]; [eauto with evo|].
        apply list_elem_of_singleton in Hx. subst x. eauto with evo.
      * rewrite list_lookup_insert_ne in Hq by exact Hne. eauto with evo.
    + intros q qr o Hq Ho. destruct (decide (p = q)) as [->|Hne].
      * rewrite list_lookup_insert_eq in Hq by (eapply lookup_lt_Some; eauto).
        inversion Hq. subst qr. simpl in Ho. discriminate.
      * rewrite list_lookup_insert_ne in Hq by exact Hne. eauto with evo.
  - apply Typed_enqueue; [exact HT|].
    eapply reaction_to_job; eauto. eapply typed_settled; eauto.
Qed.

Lemma Typed_settle_promise p o s :
  Typed s ->
  (forall pr, heap s !! p = Some pr -> pstate pr = Pending -> settle_ok s (role pr) o) ->
  Typed (snd (settle_promise p o s)).
Proof.
  intros HT Hok.
  pose proof (frame_settle_promise (R := evolves) p o s) as He.
  unfold settle_promise in *.
  destruct (heap s !! p) as [pr|] eqn:Hp; [|exact HT].
  destruct (pstate pr) as [|o'] eqn:Hs; [|exact HT].
  specialize (Hok pr eq_refl Hs).
  assert (Hlt : (p < length (heap s))%nat) by (eapply lookup_lt_Some; eauto).
  destruct HT as [T1 T2 T3 T4 T5]. split; simpl in *; eauto with evo.
  - intros q qr x Hq Hx. destruct (decide (p = q)) as [->|Hne].
    + rewrite list_lookup_insert_eq in Hq by exact Hlt.
      inversion Hq. subst qr. simpl in Hx. inversion Hx.
    + rewrite list_lookup_insert_ne in Hq by exact Hne. eauto with evo.
  - intros q qr o0 Hq Ho. destruct (decide (p = q)) as [->|Hne].
    + rewrite list_lookup_insert_eq in Hq by exact Hlt.
      inversion Hq. subst qr. simpl in *. inversion Ho. subst o0. eauto with evo.
    + rewrite list_lookup_insert_ne in Hq by exact Hne. eauto with evo.
  - intros j Hj. apply elem_of_app in Hj. destruct Hj as [Hj | Hj]; [eauto with evo|].
    apply list_elem_of_fmap in Hj. destruct Hj as (x & -> & Hx).
    eapply (reaction_to_job _ p); simpl.
    + rewrite list_lookup_insert_eq by exact Hlt. reflexivity.
    + reflexivity.
    + simpl. eauto with evo.
    + eauto with evo.
Qed.

Lemma Typed_then_ p h r s :
  Typed s ->
  (forall s1 d, evolves s s1 -> role_of d s1 = Some r ->
                reaction_ok s1 p {| handler := h; derived := Some d |}) ->
  Typed (snd (then_ p h r s))
  /\ role_of (fst (then_ p h r s)) (snd (then_ p h r s)) = Some r.
Proof.
  intros HT Hok. unfold then_, bind.
  pose proof (Typed_new_promise r Pending s HT ltac:(discriminate)) as HT1.
  pose proof (role_of_new_promise r Pending s) as Hr1.
  pose proof (frame_new_promise (R := evolves) r Pending s) as He1.
  destruct (new_promise r Pending s) as [d s1]. cbn [fst snd] in *.
  pose proof (Typed_perform_then p {| handler := h; derived := Some d |} s1 HT1
                (Hok s1 d He1 Hr1)) as HT2.
  pose proof (frame_perform_then (R := evolves) p {| handler := h; derived := Some d |} s1)
    as He2.
  destruct (perform_then p _ s1) as [u s2]. cbn [fst snd] in *.
  split; [exact HT2 | eauto with evo].
Qed.

Lemma Typed_await p h s :
  Typed s -> reaction_ok s p {| handler := h; derived := None |} ->
  Typed (snd (await p h s)).
Proof. intros HT Hok. apply Typed_perform_then; assumption. Qed.

Lemma Typed_register_elements a ps : forall i s,
  Typed s -> Typed (snd (register_elements a i ps s)).
Proof.
  induction ps as [|p ps IH]; intros i s HT; simpl; [exact HT|].
  unfold bind.
  pose proof (Typed_perform_then p {| handler := HElement a i; derived := None |} s HT I)
    as HT1.
  destruct (perform_then p _ s) as [u s1]. cbn [fst snd] in *. apply IH. exact HT1.
Qed.

Lemma Typed_aggs_push ag s :
  Typed s -> role_of (result ag) s = Some RAllSettled ->
  Typed (snd (aggs_push ag s)).
Proof.
  intros [T1 T2 T3 T4 T5] Hr. split; simpl; eauto.
  intros a x Ha. apply lookup_app_Some in Ha.
  destruct Ha as [Ha | (_ & Ha)]; [eauto|].
  apply list_lookup_singleton_Some in Ha. destruct Ha as (_ & <-). exact Hr.
Qed.

Lemma Typed_allSettled ps s :
  Typed s ->
  Typed (snd (Promise_allSettled ps s))
  /\ role_of (fst (Promise_allSettled ps s)) (snd (Promise_allSettled ps s))
     = Some RAllSettled.
Proof.
  intros HT. unfold Promise_allSettled, bind.
  pose proof (Typed_new_promise RAllSettled Pending s HT ltac:(discriminate)) as HT1.
  pose proof (role_of_new_promise RAllSettled Pending s) as Hr1.
  destruct (new_promise RAllSettled Pending s) as [r s1]. cbn [fst snd] in *.
  set (ag := {| elements := ps; values := replicate (length ps) None;
                remaining := length ps; result := r |}).
  pose proof (Typed_aggs_push ag s1 HT1 Hr1) as HT2.
  pose proof (frame_aggs_push (R := evolves) ag s1) as He2.
  destruct (aggs_push ag s1) as [a s2]. cbn [fst snd] in *.
  pose proof (Typed_register_elements a ps 0 s2 HT2) as HT3.
  pose proof (keeps_register_elements evolves a ps 0 s2) as He3.
  destruct (register_elements a 0 ps s2) as [u s3]. cbn [fst snd] in *.
  assert (Hr3 : role_of r s3 = Some RAllSettled) by eauto with evo.
  destruct (decide (length ps = 0%nat)); cbn [fst snd].
  - pose proof (Typed_settle_promise r (Ful (VArray 0)) s3 HT3) as HT4.
    pose proof (frame_settle_promise (R := evolves) r (Ful (VArray 0)) s3) as He4.
    destruct (settle_promise r _ s3) as [u4 s4]. cbn [fst snd] in *.
    split; [|eauto with evo]. apply HT4.
    intros pr Hp _. apply role_of_lookup in Hr3. destruct Hr3 as (pr' & Hp' & Hr').
    assert (pr' = pr) by congruence. subst pr'. rewrite Hr'. exact I.
  - split; assumption.
Qed.

Lemma Typed_settle s :
  Typed s ->
  Typed (snd (Estuary.settle s))
  /\ role_of (fst (Estuary.settle s)) (snd (Estuary.settle s)) = Some RSettle.
Proof.
  intros HT. unfold Estuary.settle, bind.
  pose proof (Typed_new_promise RSettle Pending s HT ltac:(discriminate)) as HT1.
  pose proof (role_of_new_promise RSettle Pending s) as Hr1.
  destruct (new_promise RSettle Pending s) as [ps s1]. cbn [fst snd] in *.
  unfold get. cbn [fst snd].
  assert (Hset : forall s2, Typed s2 -> role_of ps s2 = Some RSettle ->
                   Typed (snd (settle_promise ps (Ful VUndefined) s2))).
  { intros s2 HT2 Hr2. apply Typed_settle_promise; [exact HT2|].
    intros pr Hp _. apply role_of_lookup in Hr2. destruct Hr2 as (pr' & Hp' & Hr').
    assert (pr' = pr) by congruence. subst pr'. rewrite Hr'. reflexivity. }
  destruct (settled s1).
  - pose proof (Hset s1 HT1 Hr1) as HT2.
    pose proof (frame_settle_promise (R := evolves) ps (Ful VUndefined) s1) as He2.
    destruct (settle_promise ps _ s1) as [u s2]. cbn [fst snd] in *.
    split; [exact HT2 | eauto with evo].
  - unfold Estuary.mark_settled, modify. cbn [fst snd].
    set (s2 := with_settled true s1).
    assert (He2 : evolves s1 s2) by (apply evolves_same_heap; auto).
    assert (HT2 : Typed s2).
    { apply (Typed_same_heap s1); auto. intros a ag Ha. eauto. }
    destruct (Typed_allSettled (flows s2) s2 HT2) as (HT3 & Hr3).
    pose proof (keeps_allSettled evolves (flows s2) s2) as He3.
    change (flows s1) with (flows s2).
    destruct (Promise_allSettled (flows s2) s2) as [pall s3]. cbn [fst snd] in *.
    assert (Hps : role_of ps s3 = Some RSettle) by eauto with evo.
    pose proof (Typed_await pall (HSettleResume ps) s3 HT3 Hps) as HT4.
    pose proof (keeps_await evolves pall (HSettleResume ps) s3) as He4.
    destruct (await pall _ s3) as [u s4]. cbn [fst snd] in *.
    unfold log_event, modify. cbn [fst snd].
    set (s5 := with_log _ s4).
    assert (He5 : evolves s4 s5) by (apply evolves_same_heap; auto).
    split; [|eauto with evo].
    apply (Typed_same_heap s4); auto. intros a ag Ha. eauto.
Qed.

Lemma state_of_perform_then q p r s :
  state_of q (snd (perform_then p r s)) = state_of q s.
Proof.
  unfold perform_then, state_of.
  destruct (heap s !! p) as [pr|] eqn:Hp; [|reflexivity].
  destruct (pstate pr) eqn:Hs; [|reflexivity]. simpl.
  destruct (decide (p = q)) as [->|Hne].
  - rewrite list_lookup_insert_eq by (eapply lookup_lt_Some; eauto).
    rewrite Hp. simpl. congruence.
  - rewrite list_lookup_insert_ne by exact Hne. reflexivity.
Qed.

Lemma state_of_then_ p h r s :
  state_of (fst (then_ p h r s)) (snd (then_ p h r s)) = Some Pending.
Proof.
  unfold then_, bind.
  assert (H1 : state_of (fst (new_promise r Pending s)) (snd (new_promise r Pending s))
               = Some Pending).
  { unfold state_of. simpl. rewrite lookup_fresh0. reflexivity. }
  destruct (new_promise r Pending s) as [d s1]. cbn [fst snd] in *.
  pose proof (state_of_perform_then d p {| handler := h; derived := Some d |} s1) as H2.
  destruct (perform_then p _ s1) as [u s2]. cbn [fst snd ret] in *.
  congruence.
Qed.

Lemma flows_add_evolves p s :
  state_of p s = Some Pending -> evolves s (snd (Estuary.flows_add p s)).
Proof.
  intros Hp. split; [|split; [auto|]].
  - intros q pr Hq. exists pr. auto.
  - intros fp o Hs Hn. simpl. destruct (decide (p ∈ flows s)); [exact Hn|].
    intros Hin. apply elem_of_app in Hin. destruct Hin as [Hin | Hin]; [auto|].
    apply list_elem_of_singleton in Hin. subst fp.
    unfold settled_as in Hs. congruence.
Qed.

Lemma Typed_flow u s :
  Typed s -> Typed (snd (Estuary.flow u s)) /\ evolves s (snd (Estuary.flow u s)).
Proof.
  intros HT. unfold Estuary.flow, bind, Estuary.isFrozen, get. cbn [fst snd].
  destruct (TideToken.isFrozen (tideToken s)).
  - split; [|apply (frame_new_promise (R := evolves))].
    apply Typed_new_promise; [exact HT|]. intros o _. exact I.
  - pose proof (Typed_new_promise RResolved (Settled (Ful VUndefined)) s HT
                  ltac:(intros; exact I)) as HT1.
    pose proof (frame_new_promise (R := evolves) RResolved (Settled (Ful VUndefined)) s)
      as He1.
    destruct (new_promise RResolved _ s) as [p0 s1]. cbn [fst snd] in *.
    destruct (Typed_then_ p0 (HInvoke u) RFlow s1 HT1) as (HT2 & Hr2).
    { intros s' d _ Hd. exact Hd. }
    pose proof (keeps_then_ evolves p0 (HInvoke u) RFlow s1) as He2.
    pose proof (state_of_then_ p0 (HInvoke u) RFlow s1) as Hs2.
    destruct (then_ p0 (HInvoke u) RFlow s1) as [fp s2]. cbn [fst snd] in *.
    pose proof (flows_add_evolves fp s2 Hs2) as He3.
    assert (HT3 : Typed (snd (Estuary.flows_add fp s2))).
    { apply (Typed_same_heap s2); auto. intros a ag Ha. eauto. }
    destruct (Estuary.flows_add fp s2) as [u3 s3]. cbn [fst snd] in *.
    assert (Hr3 : role_of fp s3 = Some RFlow) by eauto with evo.
    destruct (Typed_then_ fp HFlowThen (RFlowThen fp) s3 HT3) as (HT4 & Hr4).
    { intros s' d _ Hd. exact Hd. }
    pose proof (keeps_then_ evolves fp HFlowThen (RFlowThen fp) s3) as He4.
    destruct (then_ fp HFlowThen (RFlowThen fp) s3) as [p2 s4]. cbn [fst snd] in *.
    destruct (Typed_then_ p2 (HFlowFinally fp) (RFlowResult fp) s4 HT4) as (HT5 & Hr5).
    { intros s' d He Hd. split; [exact Hd | eauto with evo]. }
    pose proof (keeps_then_ evolves p2 (HFlowFinally fp) (RFlowResult fp) s4) as He5.
    destruct (then_ p2 _ _ s4) as [p3 s5]. cbn [fst snd] in *.
    split; [exact HT5|].
    repeat (eapply evolves_trans; [eassumption|]). apply evolves_refl.
Qed.

Global Instance evolves_host : HostFrame evolves.
Proof.
  split; [apply _ | | |].
  - intros u s.
    (* the typing is not needed for this direction *)
    unfold Estuary.flow, bind, Estuary.isFrozen, get. cbn [fst snd].
    destruct (TideToken.isFrozen (tideToken s)).
    + apply (frame_new_promise (R := evolves)).
    + pose proof (frame_new_promise (R := evolves) RResolved (Settled (Ful VUndefined)) s)
        as He1.
      destruct (new_promise RResolved _ s) as [p0 s1]. cbn [fst snd] in *.
      pose proof (keeps_then_ evolves p0 (HInvoke u) RFlow s1) as He2.
      pose proof (state_of_then_ p0 (HInvoke u) RFlow s1) as Hs2.
      destruct (then_ p0 (HInvoke u) RFlow s1) as [fp s2]. cbn [fst snd] in *.
      pose proof (flows_add_evolves fp s2 Hs2) as He3.
      destruct (Estuary.flows_add fp s2) as [u3 s3]. cbn [fst snd] in *.
      pose proof (keeps_then_ evolves fp HFlowThen (RFlowThen fp) s3) as He4.
      destruct (then_ fp HFlowThen (RFlowThen fp) s3) as [p2 s4]. cbn [fst snd] in *.
      pose proof (keeps_then_ evolves p2 (HFlowFinally fp) (RFlowResult fp) s4) as He5.
      destruct (then_ p2 _ _ s4) as [p3 s5]. cbn [fst snd] in *.
      repeat (eapply evolves_trans; [eassumption|]). apply evolves_refl.
  - intros s. apply evolves_same_heap; auto.
  - intros s. apply evolves_same_heap; auto.
Qed.

Lemma Typed_settle_role p r o s :
  Typed s -> role_of p s = Some r -> settle_ok s r o ->
  Typed (snd (settle_promise p o s)).
Proof.
  intros HT Hr Hok. apply Typed_settle_promise; [exact HT|].
  intros pr Hp _. apply role_of_lookup in Hr. destruct Hr as (pr' & Hp' & Hr').
  assert (pr' = pr) by congruence. subst pr'. rewrite Hr'. exact Hok.
Qed.

Lemma Typed_quiet (f : State -> State) s :
  Typed s -> heap (f s) = heap s -> queue (f s) = queue s ->
  timers (f s) = timers s -> aggs (f s) = aggs s ->
  (frozen s = true -> frozen (f s) = true) ->
  (forall fp, fp ∉ flows s -> fp ∉ flows (f s)) ->
  Typed (f s) /\ evolves s (f s).
Proof.
  intros HT Hh Hq Ht Ha Hf Hfl.
  assert (He : evolves s (f s)) by (apply evolves_same_heap; auto).
  split; [|exact He].
  apply (Typed_same_heap s); auto.
  - intros j. rewrite Hq. auto.
  - intros tm. rewrite Ht. auto.
  - intros a ag. rewrite Ha. eauto.
Qed.

Lemma Typed_freeze s :
  Typed s -> Typed (with_token TideToken.freeze s)
             /\ evolves s (with_token TideToken.freeze s)
             /\ frozen (with_token TideToken.freeze s) = true.
Proof.
  intros HT.
  destruct (Typed_quiet (with_token TideToken.freeze) s HT) as (H1 & H2); auto.
  - apply (frame_freeze_token (R := stays_frozen)).
  - split; [exact H1|]. split; [exact H2|].
    unfold frozen. simpl. destruct (tideToken s) as [[]]; reflexivity.
Qed.

Lemma Typed_log e s : Typed s -> Typed (snd (log_event e s)).
Proof. intros HT. apply (Typed_quiet (with_log (fun l => l ++ [e])) s HT); auto. Qed.

Lemma Typed_count_down a i o s :
  Typed s ->
  Typed (snd (count_down a i o s))
  /\ forall ag, fst (count_down a i o s) = Some ag ->
                role_of (result ag) (snd (count_down a i o s)) = Some RAllSettled.
Proof.
  intros HT. unfold count_down.
  destruct (aggs s !! a) as [ag|] eqn:Ha; [|split; [exact HT | discriminate]].
  destruct (values ag !! i) as [[o'|]|]; try (split; [exact HT | discriminate]).
  cbn [fst snd]. split.
  - apply (Typed_same_heap s); auto.
    + apply evolves_same_heap; auto.
    + intros b x Hb. simpl in Hb. destruct (decide (a = b)) as [->|Hne].
      * rewrite list_lookup_insert_eq in Hb by (eapply lookup_lt_Some; eauto).
        inversion Hb. subst x. exists b, ag. auto.
      * rewrite list_lookup_insert_ne in Hb by exact Hne. eauto.
  - intros x Hx. inversion Hx. subst x. simpl.
    apply (typed_aggs s HT a ag Ha).
Qed.

Lemma Typed_settle_then h s :
  Typed s ->
  (forall s1 ps, evolves s s1 -> role_of ps s1 = Some RSettle ->
                 reaction_ok s1 ps {| handler := h; derived := None |}) ->
  Typed (snd (settle_then h s)).
Proof.
  intros HT Hok. unfold settle_then, bind.
  destruct (Typed_settle s HT) as (HT1 & Hr1).
  pose proof (keeps_settle evolves s) as He1.
  destruct (Estuary.settle s) as [ps s1]. cbn [fst snd] in *.
  apply Typed_await; auto.
Qed.

Lemma Typed_rethrow this e tag pcx s :
  Typed s -> role_of pcx s = Some RCall ->
  Typed (snd (Fjord.rethrow this e tag pcx s)).
Proof.
  intros HT Hr. rewrite rethrow_eq.
  apply (Typed_settle_role _ RCall); [|exact Hr | exact I].
  apply (Typed_quiet (with_log _) s HT); auto.
Qed.

Lemma settled_rejected_eq this m v pcx e s :
  snd (run_job this
         (JReact {| handler := match m with
                               | Cascade => HCascadeSettled v pcx
                               | Tributary => HTributarySettled v pcx
                               end;
                    derived := None |} (Rej e)) s)
  = snd (settle_then (on_caught m e pcx) (with_token TideToken.freeze s)).
Proof.
  destruct m; simpl;
    unfold Fjord.cascade_catch, Fjord.tributary_catch, settle_then, bind,
      Estuary.freeze_token, modify;
    destruct (Estuary.settle _) as [ps s1]; simpl;
    destruct (await ps _ s1); reflexivity.
Qed.

Lemma caught_rejected_eq this m e pcx e2 s :
  snd (run_job this (JReact {| handler := on_caught m e pcx; derived := None |} (Rej e2)) s)
  = snd (settle_promise pcx (Rej e2) s).
Proof.
  destruct m; simpl; unfold bind; destruct (settle_promise _ _ s); reflexivity.
Qed.

Lemma Typed_catch m e pcx s :
  Typed s -> role_of pcx s = Some RCall ->
  Typed (snd (settle_then (on_caught m e pcx) (with_token TideToken.freeze s))).
Proof.
  intros HT Hr. destruct (Typed_freeze s HT) as (HT1 & He1 & _).
  apply Typed_settle_then; [exact HT1|].
  intros s1 ps He Hps. destruct m; simpl; eauto with evo.
Qed.

Lemma Typed_orchestrator this h o s :
  Typed s ->
  (exists pcx, role_of pcx s = Some RCall
     /\ (h = HCascadeBody pcx \/ h = HTributaryBody pcx
         \/ (exists v, h = HCascadeSettled v pcx) \/ (exists v, h = HTributarySettled v pcx)
         \/ (exists e, h = HCascadeCaught e pcx) \/ (exists e, h = HTributaryCaught e pcx))) ->
  Typed (snd (run_job this (JReact {| handler := h; derived := None |} o) s)).
Proof.
  intros HT (pcx & Hr & Hh).
  destruct Hh as [-> | [-> | [(v & ->) | [(v & ->) | [(e & ->) | (e & ->)]]]]];
    destruct o as [x | x].
  - rewrite cascade_success_eq. apply Typed_settle_then; [exact HT|].
    intros s1 ps He _. simpl. eauto with evo.
  - rewrite (failure_entry_eq this Cascade). apply Typed_catch; assumption.
  - rewrite tributary_success_eq. destruct (Typed_freeze s HT) as (HT1 & He1 & _).
    apply Typed_settle_then; [exact HT1|].
    intros s1 ps He _. simpl. eauto with evo.
  - rewrite (failure_entry_eq this Tributary). apply Typed_catch; assumption.
  - rewrite (success_return_eq this _ pcx v) by (left; reflexivity).
    apply (Typed_settle_role _ RCall); auto. exact I.
  - rewrite (settled_rejected_eq this Cascade). apply Typed_catch; assumption.
  - rewrite (success_return_eq this _ pcx v) by (right; reflexivity).
    apply (Typed_settle_role _ RCall); auto. exact I.
  - rewrite (settled_rejected_eq this Tributary). apply Typed_catch; assumption.
  - rewrite (failure_exit_eq this Cascade). apply Typed_rethrow; assumption.
  - rewrite (caught_rejected_eq this Cascade).
    apply (Typed_settle_role _ RCall); auto. exact I.
  - rewrite (failure_exit_eq this Tributary). apply Typed_rethrow; assumption.
  - rewrite (caught_rejected_eq this Tributary).
    apply (Typed_settle_role _ RCall); auto. exact I.
Qed.

Lemma Typed_invoke this u d o s :
  Typed s -> role_of d s = Some RFlow ->
  Typed (snd (run_job this (JReact {| handler := HInvoke u; derived := Some d |} o) s)).
Proof.
  intros HT Hr. simpl. unfold bind.
  pose proof (Typed_log (EvInvoke u) s HT) as HT1.
  pose proof (frame_log_event (R := evolves) (EvInvoke u) s) as He1.
  destruct (log_event (EvInvoke u) s) as [u1 s1]. cbn [fst snd] in *.
  assert (Hr1 : role_of d s1 = Some RFlow) by eauto with evo.
  destruct u as [[v | e] |]; cbn [ret fst snd resolve_with].
  - apply (Typed_settle_role _ RFlow); auto. exact I.
  - apply (Typed_settle_role _ RFlow); auto. exact I.
  - pose proof (Typed_new_promise ROperation Pending s1 HT1 ltac:(discriminate)) as HT2.
    pose proof (role_of_new_promise ROperation Pending s1) as Hr2.
    pose proof (frame_new_promise (R := evolves) ROperation Pending s1) as He2.
    destruct (new_promise ROperation Pending s1) as [q s2]. cbn [fst snd] in *.
    apply Typed_enqueue; [exact HT2|]. left. split; eauto with evo.
Qed.

Lemma Typed_flow_then this d o s :
  Typed s -> (exists fp, role_of d s = Some (RFlowThen fp) /\ settled_as fp o s) ->
  Typed (snd (run_job this (JReact {| handler := HFlowThen; derived := Some d |} o) s)).
Proof.
  intros HT (fp & Hr & Hs). simpl. unfold bind.
  destruct o as [v | e]; cbn [ret fst snd resolve_with].
  - apply (Typed_settle_role _ (RFlowThen fp)); auto.
    split; [exact Hs | discriminate].
  - unfold Estuary.freeze_token, modify. cbn [fst snd].
    destruct (Typed_freeze s HT) as (HT1 & He1 & Hf1).
    apply (Typed_settle_role _ (RFlowThen fp)); eauto with evo.
    split; [eauto with evo | auto].
Qed.

Lemma Typed_flow_finally this fp d o s :
  Typed s -> role_of d s = Some (RFlowResult fp) -> Delivered fp o s ->
  Typed (snd (run_job this (JReact {| handler := HFlowFinally fp; derived := Some d |} o) s)).
Proof.
  intros HT Hr Hd. simpl. unfold bind.
  unfold Estuary.flows_delete, modify. cbn [fst snd].
  set (s1 := with_flows (filter (fun x => x ≠ fp)) s).
  destruct (Typed_quiet (with_flows (filter (fun x => x ≠ fp))) s HT) as (HT1 & He1); auto.
  { intros x Hx. simpl. rewrite list_elem_of_filter. tauto. }
  fold s1 in HT1, He1.
  assert (Hc1 : Cleaned fp o s1).
  { split; [eauto with evo|]. simpl. rewrite list_elem_of_filter. tauto. }
  pose proof (Typed_new_promise RFinallyUnit (Settled (Ful VUndefined)) s1 HT1
                ltac:(intros; exact I)) as HT2.
  pose proof (frame_new_promise (R := evolves) RFinallyUnit (Settled (Ful VUndefined)) s1)
    as He2.
  destruct (new_promise RFinallyUnit _ s1) as [a s2]. cbn [fst snd] in *.
  destruct (Typed_then_ a (HValueThunk o) (RFinallyValue fp) s2 HT2) as (HT3 & Hr3).
  { intros s' b He Hb. exists fp. split; [exact Hb | eauto with evo]. }
  pose proof (keeps_then_ evolves a (HValueThunk o) (RFinallyValue fp) s2) as He3.
  destruct (then_ a _ _ s2) as [b s3]. cbn [fst snd ret resolve_with] in *.
  apply Typed_enqueue; [exact HT3|]. right. exists fp. split; eauto with evo.
Qed.

Lemma Typed_value_thunk this o' d o s :
  Typed s -> (exists fp, role_of d s = Some (RFinallyValue fp) /\ Cleaned fp o' s) ->
  Typed (snd (run_job this (JReact {| handler := HValueThunk o'; derived := Some d |} o) s)).
Proof.
  intros HT (fp & Hr & Hc). simpl. unfold bind.
  destruct o' as [v | e]; cbn [ret fst snd resolve_with];
    apply (Typed_settle_role _ (RFinallyValue fp)); auto.
Qed.

Lemma Typed_forward this t o s :
  Typed s -> target_ok s t ->
  (forall fp, role_of t s = Some (RFlowResult fp) -> Cleaned fp o s) ->
  Typed (snd (run_job this (JReact {| handler := HForward t; derived := None |} o) s)).
Proof.
  intros HT Ht Hc. simpl. unfold bind.
  pose proof (fun r Hr Hok => Typed_settle_role t r o s HT Hr Hok) as H.
  destruct (settle_promise t o s) as [u s1]. cbn [fst snd ret] in *.
  destruct Ht as [Hr | [Hr | (fp & Hr)]].
  - apply (H RFlow Hr I).
  - apply (H RRace Hr I).
  - apply (H (RFlowResult fp) Hr). simpl. auto.
Qed.

Lemma Typed_element this a i o s :
  Typed s ->
  Typed (snd (run_job this (JReact {| handler := HElement a i; derived := None |} o) s)).
Proof.
  intros HT. simpl. unfold bind.
  destruct (Typed_count_down a i o s HT) as (HT1 & Hr1).
  destruct (count_down a i o s) as [[ag|] s1]; cbn [fst snd ret] in *; [|exact HT1].
  destruct (decide (remaining ag = 0%nat)); cbn [fst snd ret]; [|exact HT1].
  pose proof (Typed_settle_role (result ag) RAllSettled
                (Ful (VArray (length (elements ag)))) s1 HT1 (Hr1 ag eq_refl) I) as H.
  destruct (settle_promise (result ag) _ s1) as [u s2]. exact H.
Qed.

Lemma Typed_settle_resume this ps o s :
  Typed s -> role_of ps s = Some RSettle ->
  Typed (snd (run_job this (JReact {| handler := HSettleResume ps; derived := None |} o) s)).
Proof.
  intros HT Hr. simpl. unfold bind.
  pose proof (Typed_settle_role ps RSettle (Ful VUndefined) s HT Hr eq_refl) as H.
  destruct (settle_promise ps _ s) as [u s1]. exact H.
Qed.

Lemma Typed_run_job this j s :
  Typed s -> job_ok s j -> Typed (snd (run_job this j s)).
Proof.
  intros HT Hj. destruct j as [[h d] o | t src].
  - unfold job_ok in Hj. cbn [handler derived] in Hj.
    destruct h, d; try contradiction.
    + apply Typed_invoke; assumption.
    + apply Typed_flow_then; assumption.
    + destruct Hj. apply Typed_flow_finally; assumption.
    + apply Typed_value_thunk; assumption.
    + destruct Hj. apply Typed_forward; assumption.
    + apply Typed_element; assumption.
    + apply Typed_settle_resume; assumption.
    + apply Typed_orchestrator; [exact HT|]. eexists. split; [exact Hj|]. auto.
    + apply Typed_orchestrator; [exact HT|]. eexists. split; [exact Hj|].
      right; right; left. eauto.
    + apply Typed_orchestrator; [exact HT|]. eexists. split; [exact Hj|].
      do 4 right. left. eauto.
    + apply Typed_orchestrator; [exact HT|]. eexists. split; [exact Hj|]. auto.
    + apply Typed_orchestrator; [exact HT|]. eexists. split; [exact Hj|].
      do 3 right. left. eauto.
    + apply Typed_orchestrator; [exact HT|]. eexists. split; [exact Hj|].
      do 5 right. eauto.
  - simpl. apply Typed_perform_then; [exact HT|].
    unfold reaction_ok. cbn [handler derived].
    destruct Hj as [(H1 & H2) | (fp & H1 & H2)].
    + split; [left; exact H1|]. intros fp Hfp. congruence.
    + split; [right; right; eauto|]. intros fp' Hfp. congruence.
Qed.

Lemma Typed_start this m : Typed (start this m).
Proof.
  destruct (truthy (Fjord.timeout this)) eqn:Ht.
  - rewrite (start_with_timeout this m Ht). split; cbn [heap queue timers aggs].
    + intros p pr r Hp Hr.
      destruct p as [|[|[|[|p]]]]; simpl in Hp; inversion Hp; subst pr;
        simpl in Hr; try (inversion Hr; fail);
        apply list_elem_of_singleton in Hr; subst r;
        unfold reaction_ok; cbn [handler derived forward_to];
        try (split; [right; left; reflexivity | intros fp Hfp; discriminate]).
      destruct m; reflexivity.
    + intros p pr o Hp Hs.
      destruct p as [|[|[|[|p]]]]; simpl in Hp; inversion Hp; subst pr; discriminate.
    + intros j Hj. inversion Hj.
    + intros tm d Htm Hcb. apply list_elem_of_singleton in Htm. subst tm.
      simpl in Hcb. inversion Hcb. reflexivity.
    + intros a ag Ha. inversion Ha.
  - rewrite (start_no_timeout this m Ht). split; cbn [heap queue timers aggs].
    + intros p pr r Hp Hr.
      destruct p as [|[|p]]; simpl in Hp; inversion Hp; subst pr;
        simpl in Hr; try (inversion Hr; fail);
        apply list_elem_of_singleton in Hr; subst r.
      destruct m; reflexivity.
    + intros p pr o Hp Hs.
      destruct p as [|[|p]]; simpl in Hp; inversion Hp; subst pr; discriminate.
    + intros j Hj. inversion Hj.
    + intros tm d Htm. inversion Htm.
    + intros a ag Ha. inversion Ha.
Qed.

Lemma caller_owned_role p s :
  caller_owned p s = true ->
  role_of p s = Some RBody \/ role_of p s = Some ROperation.
Proof.
  unfold caller_owned, role_of.
  destruct (heap s !! p) as [[r st rs]|]; [|discriminate].
  destruct r; try discriminate; destruct st; try discriminate; simpl; auto.
Qed.

Lemma Typed_step this a s s' : Typed s -> step this a s = Some s' -> Typed s'.
Proof.
  intros HT Hs. destruct a; simpl in Hs.
  - inversion Hs. apply Typed_flow. exact HT.
  - inversion Hs. apply Typed_settle. exact HT.
  - destruct (caller_owned p s) eqn:Hc; inversion Hs.
    destruct (caller_owned_role p s Hc) as [Hr | Hr];
      eapply Typed_settle_role; eauto; exact I.
  - destruct (queue s) as [|j q] eqn:Hq; inversion Hs.
    unfold bind, pop_job, modify. cbn [fst snd].
    assert (He : evolves s (with_queue tail s)) by (apply evolves_same_heap; auto).
    apply Typed_run_job.
    + apply (Typed_same_heap s); auto.
      * intros x Hx. simpl in Hx. rewrite Hq in *. simpl in Hx.
        apply list_elem_of_further. exact Hx.
      * intros a ag Ha. eauto.
    + apply (job_ok_evolves s); [exact He|].
      apply (typed_queue s HT). rewrite Hq. apply list_elem_of_here.
  - destruct (queue s); [|discriminate].
    destruct (timers s) as [|tm rest] eqn:Htm; inversion Hs.
    unfold bind, pop_timer, modify. cbn [fst snd].
    assert (He : evolves s (with_timers tail s)) by (apply evolves_same_heap; auto).
    assert (HT1 : Typed (with_timers tail s)).
    { apply (Typed_same_heap s); auto.
      - intros x Hx. simpl in Hx. rewrite Htm in *. simpl in Hx.
        apply list_elem_of_further. exact Hx.
      - intros a ag Ha. eauto. }
    destruct (callback tm) as [d] eqn:Hcb. simpl. unfold bind.
    unfold Estuary.freeze_token, modify. cbn [fst snd].
    destruct (Typed_freeze _ HT1) as (HT2 & He2 & _).
    apply (Typed_settle_role _ RDeadline); [exact HT2| |exact I].
    apply (role_of_evolves (with_timers tail s)); [exact He2|].
    apply (role_of_evolves s); [exact He|].
    apply (typed_timers s HT tm d); [|exact Hcb].
    rewrite Htm. apply list_elem_of_here.
Qed.

Lemma Typed_exec this acts : forall s s',
  Typed s -> exec this acts s = Some s' -> Typed s'.
Proof.
  induction acts as [|a acts IH]; simpl; intros s s' HT He.
  - inversion He. subst. exact HT.
  - destruct (step this a s) as [s1|] eqn:Hs; [|discriminate].
    eapply IH; [|exact He]. eapply Typed_step; eauto.
Qed.

Global Instance stays_untracked_frame fp : Frame (stays_untracked fp).
Proof.
  split; unfold keeps, stays_untracked;
    [ auto | intros s1 s2 s3 [H1 H2] [H3 H4]; split; [auto | congruence] | .. ];
    unfold_prims; intros; simpl in *; prim_case; simpl in *; auto.
  split; [|reflexivity]. rewrite !list_elem_of_filter. tauto.
Qed.

Lemma finally_removes this fp d o s :
  let s' := snd (run_job this (JReact {| handler := HFlowFinally fp; derived := Some d |} o) s) in
  (fp ∉ flows s') /\ tideToken s' = tideToken s.
Proof.
  simpl. unfold bind. unfold Estuary.flows_delete, modify. cbn [fst snd].
  set (s1 := with_flows (filter (fun x => x ≠ fp)) s).
  assert (H1 : fp ∉ flows s1) by (simpl; rewrite list_elem_of_filter; tauto).
  pose proof (frame_new_promise (R := stays_untracked fp) RFinallyUnit
                (Settled (Ful VUndefined)) s1) as He2.
  destruct (new_promise RFinallyUnit _ s1) as [a s2]. cbn [fst snd] in *.
  pose proof (keeps_then_ (stays_untracked fp) a (HValueThunk o) (RFinallyValue fp) s2) as He3.
  destruct (then_ a _ _ s2) as [b s3]. cbn [fst snd ret resolve_with] in *.
  pose proof (frame_enqueue (R := stays_untracked fp) (JThenable d b) s3) as He4.
  destruct (enqueue _ s3) as [u s4]. cbn [fst snd] in *.
  destruct He2 as (A2 & B2), He3 as (A3 & B3), He4 as (A4 & B4).
  assert (B1 : tideToken s1 = tideToken s) by reflexivity.
  split; [auto | congruence].
Qed.




(** ** Callbacks do not look at the queue *)

Lemma oblivious_ret {A} (a : A) : oblivious (ret a).
Proof. intros j s. reflexivity. Qed.

Lemma oblivious_bind {A B} (m : M A) (k : A -> M B) :
  oblivious m -> (forall a, oblivious (k a)) -> oblivious (bind m k).
Proof.
  intros Hm Hk j s. unfold bind. rewrite Hm.
  destruct (m s) as [a s1]. cbn [fst snd]. apply Hk.
Qed.

Lemma oblivious_new_promise r st : oblivious (new_promise r st).
Proof. intros j s. reflexivity. Qed.

Lemma oblivious_enqueue x : oblivious (enqueue x).
Proof. intros j s. reflexivity. Qed.

Lemma oblivious_log_event e : oblivious (log_event e).
Proof. intros j s. reflexivity. Qed.

Lemma oblivious_count_down a i o : oblivious (count_down a i o).
Proof.
  intros j s. unfold count_down. cbn [aggs with_queue].
  destruct (aggs s !! a) as [ag|]; [|reflexivity].
  destruct (values ag !! i) as [[o'|]|]; reflexivity.
Qed.

Lemma oblivious_settle_promise p o : oblivious (settle_promise p o).
Proof.
  intros j s. unfold settle_promise. cbn [heap with_queue].
  destruct (heap s !! p) as [pr|]; [|reflexivity].
  destruct (pstate pr); reflexivity.
Qed.

Lemma oblivious_perform_then p r : oblivious (perform_then p r).
Proof.
  intros j s. unfold perform_then. cbn [heap with_queue].
  destruct (heap s !! p) as [pr|]; [|reflexivity].
  destruct (pstate pr); reflexivity.
Qed.

Lemma oblivious_aggs_push ag : oblivious (aggs_push ag).
Proof. intros j s. reflexivity. Qed.

Lemma oblivious_modify f :
  (forall j s, f (with_queue (cons j) s) = with_queue (cons j) (f s)) ->
  oblivious (modify f).
Proof. intros Hf j s. unfold modify. rewrite Hf. reflexivity. Qed.

Lemma oblivious_get {A} (f : State -> A) :
  (forall j s, f (with_queue (cons j) s) = f s) -> oblivious (get f).
Proof. intros Hf j s. unfold get. rewrite Hf. reflexivity. Qed.

Ltac obl :=
  repeat first
    [ progress intros
    | simple apply oblivious_ret | simple apply oblivious_bind
    | apply oblivious_new_promise | apply oblivious_enqueue
    | apply oblivious_log_event | apply oblivious_count_down
    | apply oblivious_settle_promise | apply oblivious_perform_then
    | apply oblivious_aggs_push
    | apply oblivious_modify; reflexivity
    | apply oblivious_get; reflexivity
    | match goal with
      | |- oblivious (match ?x with _ => _ end) => destruct x
      end ].

Lemma oblivious_then_ p h r : oblivious (then_ p h r).
Proof. unfold then_. obl. Qed.

Lemma oblivious_register_elements a ps : forall i, oblivious (register_elements a i ps).
Proof. induction ps as [|p ps IH]; intros i; simpl; obl. apply IH. Qed.

Lemma oblivious_settle : oblivious Estuary.settle.
Proof.
  unfold Estuary.settle, Estuary.mark_settled, Promise_allSettled, await. obl.
  apply oblivious_register_elements.
Qed.

Lemma oblivious_run_handler this h o : oblivious (run_handler this h o).
Proof.
  destruct h; simpl;
    unfold Fjord.cascade_catch, Fjord.tributary_catch, Fjord.rethrow, Fjord.report,
      Estuary.freeze_token, Estuary.flows_delete, await;
    obl; first [apply oblivious_settle | apply oblivious_then_].
Qed.

Lemma oblivious_run_job this j : oblivious (run_job this j).
Proof.
  destruct j; simpl; unfold resolve_with; obl.
  apply oblivious_run_handler.
Qed.

(** A tick runs the job on the state that still holds it and takes it
    off the queue afterwards. *)
Lemma tick_eq this j q s :
  queue s = j :: q ->
  step this ATick s = Some (with_queue tail (snd (run_job this j s))).
Proof.
  intros Hq. unfold step. rewrite Hq. f_equal.
  unfold bind, pop_job, modify. cbn [fst snd].
  assert (Hs : s = with_queue (cons j) (with_queue tail s)).
  { destruct s; unfold with_queue; simpl in *. rewrite Hq. reflexivity. }
  rewrite Hs at 2. rewrite oblivious_run_job. cbn [snd].
  destruct (snd (run_job this j (with_queue tail s))); reflexivity.
Qed.

(** ** What a state shows of its promises *)

Lemma state_of_lookup p st s :
  state_of p s = Some st <-> exists pr, heap s !! p = Some pr /\ pstate pr = st.
Proof.
  unfold state_of. destruct (heap s !! p) as [pr|]; simpl; split.
  - intros H. inversion H. eauto.
  - intros (pr' & H & Hs). inversion H. subst. reflexivity.
  - discriminate.
  - intros (pr' & H & _). discriminate.
Qed.

Lemma pending_not_settled p s : state_of p s = Some Pending -> is_settled p s -> False.
Proof. intros Hp (o & Ho). unfold settled_as in Ho. congruence. Qed.

Lemma role_of_lt p r s : role_of p s = Some r -> (p < length (heap s))%nat.
Proof.
  intros H. apply role_of_lookup in H. destruct H as (pr & H & _).
  eapply lookup_lt_Some; eauto.
Qed.

Lemma state_of_lt p st s : state_of p s = Some st -> (p < length (heap s))%nat.
Proof.
  intros H. apply state_of_lookup in H. destruct H as (pr & H & _).
  eapply lookup_lt_Some; eauto.
Qed.

Lemma is_settled_lt p s : is_settled p s -> (p < length (heap s))%nat.
Proof. intros (o & H). eapply state_of_lt; eauto. Qed.

Lemma is_settled_evolves s s' p : evolves s s' -> is_settled p s -> is_settled p s'.
Proof. intros He (o & Ho). exists o. eauto with evo. Qed.

(** ** Monotony of the queue predicates *)

Lemma then_queued_mono fp k k2 s s' l :
  queue s' = queue s ++ l -> (k <= k2)%nat ->
  then_queued fp k s -> then_queued fp k2 s'.
Proof.
  intros Hq Hk (k' & o & Hlt & Hj). exists k', o. split; [lia|].
  rewrite Hq. apply lookup_app_l_Some. exact Hj.
Qed.

Lemma finally_queued_mono fp k k2 s s' l :
  queue s' = queue s ++ l -> (k <= k2)%nat ->
  finally_queued fp k s -> finally_queued fp k2 s'.
Proof.
  intros Hq Hk (k' & dd & o & Hlt & Hj). exists k', dd, o. split; [lia|].
  rewrite Hq. apply lookup_app_l_Some. exact Hj.
Qed.

Lemma then_queued_0 fp s : then_queued fp 0 s -> False.
Proof. intros (k' & o & Hlt & _). lia. Qed.

Lemma finally_queued_0 fp s : finally_queued fp 0 s -> False.
Proof. intros (k' & dd & o & Hlt & _). lia. Qed.

(** ** Counting the empty slots *)

Lemma empty_slots_replicate n : empty_slots (replicate n None) = n.
Proof. induction n as [|n IH]; simpl; congruence. Qed.

Lemma empty_slots_fill vs : forall i o,
  vs !! i = Some None ->
  empty_slots vs = S (empty_slots (<[i := Some o]> vs)).
Proof.
  induction vs as [|v vs IH]; intros i o Hi; [discriminate|].
  destruct i as [|i]; simpl in *.
  - inversion Hi. reflexivity.
  - destruct v; simpl; rewrite (IH i o Hi); reflexivity.
Qed.

Lemma empty_slots_none vs : forall i,
  empty_slots vs = 0%nat -> (i < length vs)%nat -> exists o, vs !! i = Some (Some o).
Proof.
  induction vs as [|v vs IH]; intros i H0 Hlt; simpl in *; [lia|].
  destruct v as [o|]; [|discriminate].
  destruct i as [|i]; simpl; [eauto|]. apply IH; [exact H0 | lia].
Qed.

(** ** Later states *)

Lemma later_refl s : later s s.
Proof.
  split; [apply evolves_refl|]. split; [exists []; rewrite app_nil_r; reflexivity|].
  split; [auto|]. intros a ag Ha. eauto.
Qed.

Lemma later_trans s1 s2 s3 : later s1 s2 -> later s2 s3 -> later s1 s3.
Proof.
  intros (E1 & (l1 & Q1) & F1 & A1) (E2 & (l2 & Q2) & F2 & A2).
  split; [eapply evolves_trans; eauto|].
  split; [exists (l1 ++ l2); rewrite Q2, Q1, app_assoc; reflexivity|].
  split.
  - intros fp Hs Hn. apply F2; [eapply is_settled_evolves; eauto | auto].
  - intros a ag Ha. destruct (A1 a ag Ha) as (ag1 & Ha1 & He1 & Hr1).
    destruct (A2 a ag1 Ha1) as (ag2 & Ha2 & He2 & Hr2).
    exists ag2. split; [exact Ha2|]. split; congruence.
Qed.

Lemma later_same_aggs s s' :
  evolves s s' -> queue_grows s s' -> aggs s' = aggs s ->
  (forall fp, fp ∉ flows s -> fp ∉ flows s') -> later s s'.
Proof.
  intros He Hq Ha Hf. split; [exact He|]. split; [exact Hq|].
  split; [auto|]. intros a ag H. rewrite Ha. eauto.
Qed.

Global Instance later_frame : Frame later.
Proof.
  split; [exact later_refl | exact later_trans | ..]; intros; intros s.
  - apply later_same_aggs; [apply frame_new_promise | apply frame_new_promise | |];
      auto.
  - apply later_same_aggs; [apply frame_enqueue | apply frame_enqueue | |]; auto.
  - apply later_same_aggs; [apply frame_log_event | apply frame_log_event | |]; auto.
  - split; [apply frame_aggs_push|].
    split; [apply (frame_aggs_push (R := queue_grows))|].
    split; [auto|]. intros a0 ag0 H. simpl. exists ag0.
    split; [apply lookup_app_l_Some; exact H | auto].
  - split; [apply frame_count_down|].
    split; [apply (frame_count_down (R := queue_grows))|].
    split.
    + intros fp _ Hn. unfold count_down. destruct (aggs s !! a) as [ag|]; [|exact Hn].
      destruct (values ag !! i) as [[x|]|]; exact Hn.
    + intros a0 ag0 H. unfold count_down.
      destruct (aggs s !! a) as [ag|] eqn:Ha; [|eauto].
      destruct (values ag !! i) as [[x|]|]; eauto. simpl.
      destruct (decide (a = a0)) as [->|Hne].
      * rewrite list_lookup_insert_eq by (eapply lookup_lt_Some; eauto).
        eexists. split; [reflexivity|]. simpl. split; congruence.
      * rewrite list_lookup_insert_ne by exact Hne. eauto.
  - apply later_same_aggs;
      [apply frame_settle_promise | apply frame_settle_promise | |].
    + unfold settle_promise. destruct (heap s !! p) as [pr|]; [|reflexivity].
      destruct (pstate pr); reflexivity.
    + unfold settle_promise. destruct (heap s !! p) as [pr|]; [|auto].
      destruct (pstate pr); auto.
  - apply later_same_aggs;
      [apply frame_perform_then | apply frame_perform_then | |].
    + unfold perform_then. destruct (heap s !! p) as [pr|]; [|reflexivity].
      destruct (pstate pr); reflexivity.
    + unfold perform_then. destruct (heap s !! p) as [pr|]; [|auto].
      destruct (pstate pr); auto.
  - apply later_same_aggs; [apply frame_mark_settled | apply frame_mark_settled | |];
      auto.
  - apply later_same_aggs; [apply frame_flows_delete | apply frame_flows_delete | |].
    + reflexivity.
    + intros fp Hn Hin. apply Hn. simpl in Hin.
      apply list_elem_of_filter in Hin. tauto.
Qed.

Global Instance later_freeze : FreezeFrame later.
Proof.
  split; [apply _|]. intros s.
  apply later_same_aggs; [apply frame_freeze_token | apply frame_freeze_token | |]; auto.
Qed.

Lemma job_placed_later k k2 s s' j :
  later s s' -> (k <= k2)%nat -> job_placed k s j -> job_placed k2 s' j.
Proof.
  intros (He & (l & Hq) & Hf & Ha) Hk. destruct j as [r o|]; [|auto].
  simpl. destruct (handler r); auto.
  - intros (ag & fp & Hag & Hel & H). destruct (Ha _ _ Hag) as (ag' & Hag' & He' & _).
    exists ag', fp. split; [exact Hag'|]. split; [congruence|].
    destruct H as [H | H]; [left; eapply is_settled_evolves; eauto|].
    right. eapply then_queued_mono; eauto.
  - intros (ag & Hag & H). destruct (Ha _ _ Hag) as (ag' & Hag' & He' & _).
    exists ag'. split; [exact Hag'|]. intros fp Hin. rewrite He' in Hin.
    destruct (H fp Hin) as (Hs & Hfin). split; [eapply is_settled_evolves; eauto|].
    destruct Hfin as [Hfin | Hfin]; [left; auto|].
    right. eapply finally_queued_mono; eauto.
Qed.

Lemma finished_later fp k k2 s s' :
  later s s' -> (k <= k2)%nat -> finished fp k s -> finished fp k2 s'.
Proof.
  intros (He & (l & Hq) & Hf & Ha) Hk (Hs & Hfin).
  split; [eapply is_settled_evolves; eauto|].
  destruct Hfin as [Hfin | Hfin]; [left; auto|].
  right. eapply finally_queued_mono; eauto.
Qed.

(** ** The primitives keep the order *)

Lemma rx_same s s' p : heap s' = heap s -> rx p s' = rx p s.
Proof. intros H. unfold rx. rewrite H. reflexivity. Qed.

Lemma state_of_same s s' p : heap s' = heap s -> state_of p s' = state_of p s.
Proof. intros H. unfold state_of. rewrite H. reflexivity. Qed.

Lemma role_of_same s s' p : heap s' = heap s -> role_of p s' = role_of p s.
Proof. intros H. unfold role_of. rewrite H. reflexivity. Qed.

Lemma is_settled_same s s' p : heap s' = heap s -> is_settled p s' <-> is_settled p s.
Proof. intros H. unfold is_settled, settled_as. rewrite (state_of_same s s' p H). reflexivity. Qed.

(** A step that leaves the promises alone and tracks nothing new. *)
Lemma Ordered_same_heap s s' :
  Ordered s -> later s s' -> heap s' = heap s ->
  (forall k j, (length (queue s) <= k)%nat -> queue s' !! k = Some j -> job_placed k s' j) ->
  (forall fp, fp ∈ flows s' -> fp ∈ flows s) ->
  (forall a ag i o,
     aggs s' !! a = Some ag -> values ag !! i = Some (Some o) ->
     exists fp, elements ag !! i = Some fp /\ is_settled (S fp) s') ->
  (forall a ag,
     aggs s' !! a = Some ag ->
     remaining ag = empty_slots (values ag)
     /\ length (values ag) = length (elements ag)
     /\ forall fp, fp ∈ elements ag -> role_of (S fp) s' = Some (RFlowThen fp)) ->
  ((length (aggs s') <= 1)%nat
   /\ (settled s' = false -> aggs s' = [] /\ forall ps snap, EvWait ps snap ∉ log s')) ->
  (forall ps snap,
     EvWait ps snap ∈ log s' ->
     EvWait ps snap ∈ log s
     \/ ((role_of ps s' = Some RSettle
          /\ exists ag, aggs s' !! 0%nat = Some ag /\ elements ag = snap
               /\ (is_settled ps s' -> forall fp, fp ∈ snap -> finished fp 0 s'))
         /\ forall fp, fp ∈ flows s' -> fp ∈ snap \/ (ps < fp)%nat)) ->
  Ordered s'.
Proof.
  intros [Oq Or Oj Ov Om Of Ot Oo Ow Os] Hl Hh Hnew Hfl Hv Hm Ho Hlog.
  pose proof Hl as (He & (l & Hq) & Hf & Hag).
  split.
  - intros p Hp. rewrite (rx_same s s' p Hh). apply Oq.
    apply (is_settled_same s s' p Hh). exact Hp.
  - intros p k r Hr. rewrite (rx_same s s' p Hh) in Hr.
    specialize (Or p k r Hr). unfold reaction_placed in *.
    rewrite (rx_same s s' p Hh). destruct (handler r); auto.
    + destruct Or as ((ag & Ha & Hel) & Hk). split; [|exact Hk].
      destruct (Hag _ _ Ha) as (ag' & Ha' & He' & _). exists ag'.
      split; [exact Ha' | congruence].
    + destruct Or as (ag & Ha & Hp). destruct (Hag _ _ Ha) as (ag' & Ha' & _ & Hr').
      exists ag'. split; [exact Ha' | congruence].
  - intros k j Hj. destruct (decide (k < length (queue s))%nat) as [Hk|Hk].
    + rewrite Hq, lookup_app_l in Hj by exact Hk.
      eapply job_placed_later; [exact Hl | reflexivity | auto].
    + apply Hnew; [lia | exact Hj].
  - exact Hv.
  - exact Hm.
  - intros d fp Hr. rewrite (role_of_same s s' _ Hh) in Hr.
    destruct (Of d fp Hr) as (H1 & H2 & H3). split; [exact H1|]. split.
    + rewrite (state_of_same s s' _ Hh), (rx_same s s' _ Hh). exact H2.
    + intros Hs. apply (is_settled_same s s' _ Hh) in Hs.
      destruct (H3 Hs) as [H | H]; [left; intros Hin; apply H; auto|].
      right. eapply finally_queued_mono; [exact Hq| |exact H].
      rewrite Hq, length_app. lia.
  - intros fp Hin. apply Hfl in Hin. destruct (Ot fp Hin) as (H1 & H2 & H3).
    split; [rewrite (role_of_same s s' _ Hh); exact H1|]. split.
    + rewrite (state_of_same s s' _ Hh), (rx_same s s' _ Hh). exact H2.
    + intros Hs. apply (is_settled_same s s' _ Hh) in Hs.
      destruct (H3 Hs) as [H | H]; [left; apply (is_settled_same s s' _ Hh); exact H|].
      right. eapply then_queued_mono; [exact Hq| |exact H].
      rewrite Hq, length_app. lia.
  - exact Ho.
  - intros ps snap Hin.
    destruct (Hlog ps snap Hin) as [Hold | (Hnew' & _)]; [|exact Hnew'].
    destruct (Ow ps snap Hold) as (H1 & ag & H2 & H3 & H4).
    split; [rewrite (role_of_same s s' _ Hh); exact H1|].
    destruct (Hag _ _ H2) as (ag' & Ha' & He' & _).
    exists ag'. split; [exact Ha'|]. split; [congruence|].
    intros Hs fp Hfp. apply (is_settled_same s s' _ Hh) in Hs.
    eapply finished_later; [exact Hl | reflexivity | auto].
  - intros ps snap fp Hin Hfp.
    destruct (Hlog ps snap Hin) as [Hold | (_ & Hnew')]; [|auto].
    apply (Os ps snap fp Hold). auto.
Qed.

(** A step that moreover leaves the aggregates alone and logs no new
    wait. *)
Lemma Ordered_same s s' :
  Ordered s -> later s s' -> heap s' = heap s -> aggs s' = aggs s ->
  (forall k j, (length (queue s) <= k)%nat -> queue s' !! k = Some j -> job_placed k s' j) ->
  (forall fp, fp ∈ flows s' -> fp ∈ flows s) ->
  (settled s' = false -> settled s = false) ->
  (forall ps snap, EvWait ps snap ∈ log s' -> EvWait ps snap ∈ log s) ->
  Ordered s'.
Proof.
  intros HO Hl Hh Ha Hnew Hfl Hst Hlog.
  pose proof Hl as (He & _).
  apply (Ordered_same_heap s s' HO Hl Hh Hnew Hfl).
  - intros a ag i o Hag' Hv. rewrite Ha in Hag'.
    destruct (ord_values s HO a ag i o Hag' Hv) as (fp & Hel & Hs).
    exists fp. split; [exact Hel | eapply is_settled_evolves; eauto].
  - intros a ag Hag'. rewrite Ha in Hag'.
    destruct (ord_remaining s HO a ag Hag') as (H1 & H2 & H3).
    split; [exact H1|]. split; [exact H2|].
    intros fp Hin. rewrite (role_of_same s s' _ Hh). auto.
  - destruct (ord_once s HO) as (H1 & H2). rewrite Ha. split; [exact H1|].
    intros Hs. destruct (H2 (Hst Hs)) as (H3 & H4). split; [exact H3|].
    intros ps snap Hin. apply (H4 ps snap). auto.
  - intros ps snap Hin. left. auto.
Qed.

Lemma Ordered_enqueue j s :
  Ordered s -> job_placed (length (queue s)) s j -> Ordered (snd (enqueue j s)).
Proof.
  intros HO Hj.
  pose proof (frame_enqueue (R := later) j s) as Hl.
  apply (Ordered_same s); auto.
  intros k x Hk Hx. simpl in Hx.
  apply lookup_app_Some in Hx. destruct Hx as [Hx | (_ & Hx)].
  { apply lookup_lt_Some in Hx. lia. }
  apply list_lookup_singleton_Some in Hx. destruct Hx as (Hk0 & <-).
  eapply job_placed_later; [exact Hl| |exact Hj]. lia.
Qed.

(** The fields of the scope and the log of the observer. *)
Lemma Ordered_quiet (f : State -> State) s :
  Ordered s -> later s (f s) -> heap (f s) = heap s -> aggs (f s) = aggs s ->
  queue (f s) = queue s ->
  (forall fp, fp ∈ flows (f s) -> fp ∈ flows s) ->
  (settled (f s) = false -> settled s = false) ->
  (forall ps snap, EvWait ps snap ∈ log (f s) -> EvWait ps snap ∈ log s) ->
  Ordered (f s).
Proof.
  intros HO Hl Hh Ha Hq Hfl Hst Hlog. apply (Ordered_same s); auto.
  intros k j Hk Hj. rewrite Hq in Hj. apply lookup_lt_Some in Hj. lia.
Qed.

Lemma Ordered_freeze s : Ordered s -> Ordered (with_token TideToken.freeze s).
Proof.
  intros HO. apply (Ordered_quiet (with_token TideToken.freeze)); auto.
  apply (frame_freeze_token (R := later)).
Qed.

Lemma Ordered_flows_delete fp s : Ordered s -> Ordered (snd (Estuary.flows_delete fp s)).
Proof.
  intros HO. apply (Ordered_quiet (with_flows (filter (fun x => x ≠ fp)))); auto.
  - apply (frame_flows_delete (R := later)).
  - intros x Hx. simpl in Hx. apply list_elem_of_filter in Hx. tauto.
Qed.

Lemma Ordered_mark_settled s : Ordered s -> Ordered (with_settled true s).
Proof.
  intros HO. apply (Ordered_quiet (with_settled true)); auto.
  - apply (frame_mark_settled (R := later)).
  - discriminate.
Qed.

Lemma Ordered_log e s :
  Ordered s -> (forall ps snap, e ≠ EvWait ps snap) -> Ordered (snd (log_event e s)).
Proof.
  intros HO Hne. apply (Ordered_quiet (with_log (fun l => l ++ [e]))); auto.
  - apply (frame_log_event (R := later)).
  - intros ps snap Hin. simpl in Hin. apply elem_of_app in Hin.
    destruct Hin as [Hin | Hin]; [exact Hin|].
    apply list_elem_of_singleton in Hin. symmetry in Hin. destruct (Hne _ _ Hin).
Qed.

Lemma new_promise_view r st s :
  let n := length (heap s) in
  let s' := snd (new_promise r st s) in
  (forall q, rx q s' = rx q s)
  /\ (forall q, q ≠ n -> state_of q s' = state_of q s)
  /\ (forall q, q ≠ n -> role_of q s' = role_of q s)
  /\ state_of n s' = Some st /\ role_of n s' = Some r
  /\ state_of n s = None /\ role_of n s = None.
Proof.
  intros n s'. subst n s'. unfold rx, state_of, role_of. simpl.
  assert (Hn : heap s !! length (heap s) = None) by (apply lookup_ge_None; lia).
  assert (Hq : forall q, q ≠ length (heap s) ->
             (heap s ++ [{| role := r; pstate := st; reactions := [] |}]) !! q = heap s !! q).
  { intros q Hne. destruct (decide (q < length (heap s))%nat) as [Hlt|Hge].
    - apply lookup_app_l. exact Hlt.
    - rewrite (proj2 (lookup_ge_None (heap s) q)) by lia.
      apply lookup_ge_None. rewrite length_app. simpl. lia. }
  split; [|split; [|split; [|split; [|split; [|split]]]]].
  - intros q. destruct (decide (q = length (heap s))) as [->|Hne].
    + rewrite lookup_fresh0, Hn. reflexivity.
    + rewrite Hq by exact Hne. reflexivity.
  - intros q Hne. rewrite Hq by exact Hne. reflexivity.
  - intros q Hne. rewrite Hq by exact Hne. reflexivity.
  - rewrite lookup_fresh0. reflexivity.
  - rewrite lookup_fresh0. reflexivity.
  - rewrite Hn. reflexivity.
  - rewrite Hn. reflexivity.
Qed.

Lemma Ordered_new_promise r st s :
  Ordered s -> (forall fp, r ≠ RFlowThen fp) -> Ordered (snd (new_promise r st s)).
Proof.
  intros [Oq Or Oj Ov Om Of Ot Oo Ow Os] Hr.
  pose proof (frame_new_promise (R := later) r st s) as Hl.
  pose proof Hl as (He & _ & _ & _).
  destruct (new_promise_view r st s) as (Vx & Vs & Vr & Vsn & Vrn & Vs0 & Vr0).
  set (n := length (heap s)) in *.
  set (s' := snd (new_promise r st s)) in *.
  assert (Hset : forall p, p ≠ n -> is_settled p s' -> is_settled p s).
  { intros p Hne (o & Ho). exists o. unfold settled_as in *. rewrite <- Vs; auto. }
  assert (Hold : forall p x, role_of p s = Some x -> p ≠ n).
  { intros p x Hp ->. congruence. }
  split.
  - intros p Hp. rewrite Vx. destruct (decide (p = n)) as [->|Hne].
    + unfold rx. unfold state_of in Vs0.
      destruct (heap s !! n); [discriminate | reflexivity].
    + auto.
  - intros p k x Hx. rewrite Vx in Hx. specialize (Or p k x Hx).
    unfold reaction_placed in *. rewrite Vx. exact Or.
  - intros k j Hj. eapply job_placed_later; [exact Hl | reflexivity|].
    apply Oj. exact Hj.
  - intros a ag i o Ha Hv. destruct (Ov a ag i o Ha Hv) as (fp & Hel & Hs).
    exists fp. split; [exact Hel | eapply is_settled_evolves; eauto].
  - intros a ag Ha. destruct (Om a ag Ha) as (H1 & H2 & H3).
    split; [exact H1|]. split; [exact H2|]. intros fp Hin. eauto with evo.
  - intros d fp Hd. destruct (decide (d = n)) as [->|Hne].
    { rewrite Vrn in Hd. inversion Hd. destruct (Hr fp). assumption. }
    rewrite Vr in Hd by exact Hne. destruct (Of d fp Hd) as (H1 & H2 & H3).
    split; [exact H1|]. split.
    + rewrite Vs, Vx by exact Hne. exact H2.
    + intros Hs. apply Hset in Hs; [|exact Hne]. exact (H3 Hs).
  - intros fp Hin. destruct (Ot fp Hin) as (H1 & H2 & H3).
    assert (Hne : fp ≠ n).
    { apply role_of_lt in H1. fold n in H1. lia. }
    split; [eauto with evo|]. split.
    + rewrite Vs, Vx by exact Hne. exact H2.
    + intros Hs. apply Hset in Hs; [|exact Hne].
      destruct (H3 Hs) as [H | H]; [left; eapply is_settled_evolves; eauto | right; exact H].
  - exact Oo.
  - intros ps snap Hin. destruct (Ow ps snap Hin) as (H1 & ag & H2 & H3 & H4).
    split; [eauto with evo|]. exists ag. split; [exact H2|]. split; [exact H3|].
    intros Hs fp Hfp. apply Hset in Hs; [|eapply Hold; eauto].
    eapply finished_later; [exact Hl | reflexivity | auto].
  - exact Os.
Qed.

Lemma perform_then_pending_view p r s :
  state_of p s = Some Pending ->
  let s' := snd (perform_then p r s) in
  (forall q, rx q s' = if decide (q = p) then rx p s ++ [r] else rx q s)
  /\ (forall q, state_of q s' = state_of q s)
  /\ (forall q, role_of q s' = role_of q s)
  /\ queue s' = queue s /\ aggs s' = aggs s /\ flows s' = flows s
  /\ log s' = log s /\ settled s' = settled s.
Proof.
  intros Hp s'. subst s'. unfold perform_then, rx, state_of, role_of in *.
  destruct (heap s !! p) as [pr|] eqn:Hl; [|discriminate].
  simpl in Hp. inversion Hp as [Hs]. rewrite Hs. simpl.
  assert (Hlt : (p < length (heap s))%nat) by (eapply lookup_lt_Some; eauto).
  repeat split; intros q; destruct (decide (q = p)) as [->|Hne];
    rewrite ?list_lookup_insert_eq by exact Hlt;
    rewrite ?list_lookup_insert_ne by (intros E; apply Hne; symmetry; exact E);
    rewrite ?Hl; simpl; congruence.
Qed.

Lemma perform_then_settled p r o s :
  settled_as p o s -> perform_then p r s = enqueue (JReact r o) s.
Proof.
  intros Hp. apply state_of_lookup in Hp. destruct Hp as (pr & Hl & Hs).
  unfold perform_then. rewrite Hl, Hs. reflexivity.
Qed.

Lemma perform_then_none p r s : state_of p s = None -> perform_then p r s = (tt, s).
Proof.
  unfold state_of, perform_then. destruct (heap s !! p); [discriminate | reflexivity].
Qed.

Lemma settle_promise_pending_view p o s :
  state_of p s = Some Pending ->
  let s' := snd (settle_promise p o s) in
  (forall q, rx q s' = if decide (q = p) then [] else rx q s)
  /\ (forall q, state_of q s' = if decide (q = p) then Some (Settled o) else state_of q s)
  /\ (forall q, role_of q s' = role_of q s)
  /\ queue s' = queue s ++ map (fun r => JReact r o) (rx p s)
  /\ aggs s' = aggs s /\ flows s' = flows s
  /\ log s' = log s /\ settled s' = settled s.
Proof.
  intros Hp s'. subst s'. unfold settle_promise, rx, state_of, role_of in *.
  destruct (heap s !! p) as [pr|] eqn:Hl; [|discriminate].
  simpl in Hp. inversion Hp as [Hs]. rewrite Hs. simpl.
  assert (Hlt : (p < length (heap s))%nat) by (eapply lookup_lt_Some; eauto).
  repeat split; intros q; destruct (decide (q = p)) as [->|Hne];
    rewrite ?list_lookup_insert_eq by exact Hlt;
    rewrite ?list_lookup_insert_ne by (intros E; apply Hne; symmetry; exact E);
    rewrite ?Hl; simpl; congruence.
Qed.

Lemma settle_promise_other p o s :
  state_of p s ≠ Some Pending -> settle_promise p o s = (tt, s).
Proof.
  unfold state_of, settle_promise. destruct (heap s !! p) as [pr|]; [|reflexivity].
  simpl. destruct (pstate pr); [congruence | reflexivity].
Qed.

Lemma state_of_cases p s :
  state_of p s = Some Pending \/ is_settled p s \/ state_of p s = None.
Proof.
  unfold is_settled, settled_as. destruct (state_of p s) as [[|o]|]; eauto.
Qed.

Lemma reaction_placed_ext q k s s' x :
  aggs s' = aggs s ->
  (forall k' y, rx q s !! k' = Some y -> rx q s' !! k' = Some y) ->
  reaction_placed q k s x -> reaction_placed q k s' x.
Proof.
  intros Ha Hx. unfold reaction_placed. rewrite Ha.
  destruct (handler x); auto.
  intros (Hag & k' & Hk & Hr). split; [exact Hag|]. exists k'. auto.
Qed.

Lemma Ordered_perform_then p r s :
  Ordered s ->
  (state_of p s = Some Pending -> reaction_placed p (length (rx p s)) s r) ->
  (forall o, settled_as p o s -> job_placed (length (queue s)) s (JReact r o)) ->
  Ordered (snd (perform_then p r s)).
Proof.
  intros HO Hr Hj.
  destruct (state_of_cases p s) as [Hp | [(o & Hp) | Hp]].
  2: { rewrite (perform_then_settled p r o s Hp). apply Ordered_enqueue; auto. }
  2: { rewrite (perform_then_none p r s Hp). exact HO. }
  specialize (Hr Hp). clear Hj.
  pose proof (frame_perform_then (R := later) p r s) as Hl.
  pose proof Hl as (He & _ & _ & _).
  destruct (perform_then_pending_view p r s Hp) as (Vx & Vs & Vr & Vq & Va & Vf & Vl & Vt).
  set (s' := snd (perform_then p r s)) in *.
  destruct HO as [Oq Or Oj Ov Om Of Ot Oo Ow Os].
  assert (Hset : forall q, is_settled q s' <-> is_settled q s).
  { intros q. unfold is_settled, settled_as. rewrite Vs. reflexivity. }
  assert (Hsub : forall q k' y, rx q s !! k' = Some y -> rx q s' !! k' = Some y).
  { intros q k' y Hy. rewrite Vx. destruct (decide (q = p)) as [->|Hne]; [|exact Hy].
    apply lookup_app_l_Some. exact Hy. }
  assert (Hin : forall q y, y ∈ rx q s -> y ∈ rx q s').
  { intros q y Hy. apply list_elem_of_lookup in Hy. destruct Hy as (k' & Hy).
    apply list_elem_of_lookup. exists k'. auto. }
  split.
  - intros q Hq. apply Hset in Hq. rewrite Vx.
    destruct (decide (q = p)) as [->|Hne]; [|auto].
    destruct (pending_not_settled p s Hp Hq).
  - intros q k x Hx. rewrite Vx in Hx. destruct (decide (q = p)) as [->|Hne].
    + apply lookup_app_Some in Hx. destruct Hx as [Hx | (Hk & Hx)].
      * apply (reaction_placed_ext p k s); auto.
      * apply list_lookup_singleton_Some in Hx. destruct Hx as (Hk0 & <-).
        assert (k = length (rx p s)) as -> by lia.
        apply (reaction_placed_ext p _ s); auto.
    + apply (reaction_placed_ext q k s); auto.
  - intros k j Hk. rewrite Vq in Hk.
    eapply job_placed_later; [exact Hl | reflexivity | auto].
  - intros a ag i o Ha Hv. rewrite Va in Ha.
    destruct (Ov a ag i o Ha Hv) as (fp & Hel & Hs).
    exists fp. split; [exact Hel | apply Hset; exact Hs].
  - intros a ag Ha. rewrite Va in Ha. destruct (Om a ag Ha) as (H1 & H2 & H3).
    split; [exact H1|]. split; [exact H2|]. intros fp Hfp. rewrite Vr. auto.
  - intros d fp Hd. rewrite Vr in Hd. destruct (Of d fp Hd) as (H1 & H2 & H3).
    split; [exact H1|]. split.
    + rewrite Vs. intros Hpd. destruct (H2 Hpd) as (dd & Hdd). exists dd. auto.
    + intros Hs. apply Hset in Hs. rewrite Vf, Vq.
      destruct (H3 Hs) as [H | H]; [left; exact H|].
      right. destruct H as (k' & dd & o & Hk & Hjob). exists k', dd, o.
      rewrite Vq. auto.
  - intros fp Hfp. rewrite Vf in Hfp. destruct (Ot fp Hfp) as (H1 & H2 & H3).
    split; [rewrite Vr; exact H1|]. split.
    + rewrite Vs. auto.
    + intros Hs. apply Hset in Hs. rewrite Vq.
      destruct (H3 Hs) as [H | H]; [left; apply Hset; exact H|].
      right. destruct H as (k' & o & Hk & Hjob). exists k', o. rewrite Vq. auto.
  - rewrite Va, Vt, Vl. exact Oo.
  - intros ps snap Hw. rewrite Vl in Hw.
    destruct (Ow ps snap Hw) as (H1 & ag & H2 & H3 & H4).
    split; [rewrite Vr; exact H1|]. exists ag. rewrite Va.
    split; [exact H2|]. split; [exact H3|].
    intros Hs fp Hfp. apply Hset in Hs.
    eapply finished_later; [exact Hl | reflexivity | auto].
  - intros ps snap fp Hw Hfp. rewrite Vl in Hw. rewrite Vf in Hfp. eauto.
Qed.

Lemma Ordered_settle_promise p o s :
  Ordered s ->
  (forall k r ps, rx p s !! k = Some r -> handler r = HSettleResume ps ->
     exists ag, aggs s !! 0%nat = Some ag
       /\ forall fp, fp ∈ elements ag -> finished fp (length (queue s)) s) ->
  (forall snap, EvWait p snap ∈ log s -> forall fp, fp ∈ snap -> finished fp 0 s) ->
  Ordered (snd (settle_promise p o s)).
Proof.
  intros HO J1 J2.
  destruct (state_of_cases p s) as [Hp | Hp].
  2: { rewrite settle_promise_other; [exact HO|].
       destruct Hp as [(o' & Hp) | Hp]; unfold settled_as in *; congruence. }
  pose proof (frame_settle_promise (R := later) p o s) as Hl.
  pose proof Hl as (He & _ & _ & _).
  destruct (settle_promise_pending_view p o s Hp) as (Vx & Vs & Vr & Vq & Va & Vf & Vl & Vt).
  set (s' := snd (settle_promise p o s)) in *.
  destruct HO as [Oq Or Oj Ov Om Of Ot Oo Ow Os].
  assert (Hset : forall q, q ≠ p -> is_settled q s' -> is_settled q s).
  { intros q Hne (x & Hx). exists x. unfold settled_as in *. rewrite Vs in Hx.
    destruct (decide (q = p)); [contradiction | exact Hx]. }
  assert (Hnew : forall k x, rx p s !! k = Some x ->
             queue s' !! (length (queue s) + k)%nat = Some (JReact x o)).
  { intros k x Hx. rewrite Vq, lookup_fresh, list_lookup_fmap, Hx. reflexivity. }
  assert (Hlen : (length (queue s) <= length (queue s'))%nat).
  { rewrite Vq, length_app. lia. }
  split.
  - intros q Hq. rewrite Vx. destruct (decide (q = p)) as [->|Hne]; [reflexivity|].
    apply Oq. auto.
  - intros q k x Hx. rewrite Vx in Hx. destruct (decide (q = p)) as [->|Hne].
    { rewrite lookup_nil in Hx. discriminate. }
    apply (reaction_placed_ext q k s); auto.
    intros k' y Hy. rewrite Vx. destruct (decide (q = p)); [contradiction | exact Hy].
  - intros k j Hj. destruct (decide (k < length (queue s))%nat) as [Hk|Hk].
    { rewrite Vq, lookup_app_l in Hj by exact Hk.
      eapply job_placed_later; [exact Hl | reflexivity | auto]. }
    rewrite Vq, lookup_app_r, list_lookup_fmap in Hj by lia.
    destruct (rx p s !! (k - length (queue s))%nat) as [x|] eqn:Hx; [|discriminate].
    inversion Hj. subst j. specialize (Or p _ x Hx).
    unfold reaction_placed in Or. simpl. destruct (handler x) eqn:Hh; auto.
    + destruct Or as ((ag & Hag & Hel) & k' & Hk' & Hthen).
      exists ag, p. rewrite Va. split; [exact Hag|]. split; [exact Hel|].
      right. exists (length (queue s) + k')%nat, o. split; [lia|]. auto.
    + destruct (J1 _ x ps Hx Hh) as (ag & Hag & Hfin).
      exists ag. rewrite Va. split; [exact Hag|]. intros fp Hfp.
      eapply finished_later; [exact Hl| |apply Hfin; exact Hfp]. lia.
  - intros a ag i x Ha Hv. rewrite Va in Ha.
    destruct (Ov a ag i x Ha Hv) as (fp & Hel & Hs).
    exists fp. split; [exact Hel | eapply is_settled_evolves; eauto].
  - intros a ag Ha. rewrite Va in Ha. destruct (Om a ag Ha) as (H1 & H2 & H3).
    split; [exact H1|]. split; [exact H2|]. intros fp Hfp. rewrite Vr. auto.
  - intros d fp Hd. rewrite Vr in Hd. destruct (Of d fp Hd) as (H1 & H2 & H3).
    split; [exact H1|]. split.
    + rewrite Vs, Vx. destruct (decide (d = p)); [discriminate | exact H2].
    + intros Hs. rewrite Vf. destruct (decide (d = p)) as [->|Hne].
      * right. destruct (H2 Hp) as (dd & Hdd).
        apply list_elem_of_lookup in Hdd. destruct Hdd as (k & Hk).
        exists (length (queue s) + k)%nat, dd, o. split; [|auto].
        rewrite Vq, length_app, length_map. apply lookup_lt_Some in Hk. lia.
      * destruct (H3 (Hset d Hne Hs)) as [H | H]; [left; exact H|].
        right. eapply finally_queued_mono; [exact Vq | exact Hlen | exact H].
  - intros fp Hfp. rewrite Vf in Hfp. destruct (Ot fp Hfp) as (H1 & H2 & H3).
    split; [rewrite Vr; exact H1|]. split.
    + rewrite Vs, Vx. destruct (decide (fp = p)); [discriminate | exact H2].
    + intros Hs. destruct (decide (fp = p)) as [->|Hne].
      * right. specialize (H2 Hp).
        apply list_elem_of_lookup in H2. destruct H2 as (k & Hk).
        exists (length (queue s) + k)%nat, o. split; [|auto].
        rewrite Vq, length_app, length_map. apply lookup_lt_Some in Hk. lia.
      * destruct (H3 (Hset fp Hne Hs)) as [H | H];
          [left; eapply is_settled_evolves; eauto|].
        right. eapply then_queued_mono; [exact Vq | exact Hlen | exact H].
  - rewrite Va, Vt, Vl. exact Oo.
  - intros ps snap Hw. rewrite Vl in Hw.
    destruct (Ow ps snap Hw) as (H1 & ag & H2 & H3 & H4).
    split; [rewrite Vr; exact H1|]. exists ag. rewrite Va.
    split; [exact H2|]. split; [exact H3|].
    intros Hs fp Hfp. destruct (decide (ps = p)) as [->|Hne].
    + eapply finished_later; [exact Hl | reflexivity | eapply J2; eauto].
    + eapply finished_later; [exact Hl | reflexivity | auto].
  - intros ps snap fp Hw Hfp. rewrite Vl in Hw. rewrite Vf in Hfp. eauto.
Qed.

(** An element function that is called when the then-callbacks of its
    element have run. *)
Lemma Ordered_count_down a i o s :
  Ordered s ->
  (forall ag, aggs s !! a = Some ag ->
     exists fp, elements ag !! i = Some fp /\ is_settled (S fp) s) ->
  Ordered (snd (count_down a i o s)).
Proof.
  intros HO Hel.
  pose proof (frame_count_down (R := later) a i o s) as Hl.
  unfold count_down in *.
  destruct (aggs s !! a) as [ag|] eqn:Ha; [|exact HO].
  destruct (values ag !! i) as [[x|]|] eqn:Hv; [exact HO | | exact HO].
  cbn [fst snd] in *.
  destruct (Hel ag eq_refl) as (fp & Hfp & Hs).
  assert (Hlt : (a < length (aggs s))%nat) by (eapply lookup_lt_Some; eauto).
  apply (Ordered_same_heap s _ HO Hl); auto.
  - intros k j Hk Hj. simpl in Hj. apply lookup_lt_Some in Hj. lia.
  - intros a0 ag0 i0 o0 Ha0 Hv0. simpl in Ha0.
    destruct (decide (a = a0)) as [->|Hne].
    + rewrite list_lookup_insert_eq in Ha0 by exact Hlt. inversion Ha0. subst ag0.
      simpl in *. destruct (decide (i = i0)) as [->|Hni].
      * exists fp. split; [exact Hfp | exact Hs].
      * rewrite list_lookup_insert_ne in Hv0 by exact Hni.
        exact (ord_values s HO a0 ag i0 o0 Ha Hv0).
    + rewrite list_lookup_insert_ne in Ha0 by exact Hne.
      exact (ord_values s HO a0 ag0 i0 o0 Ha0 Hv0).
  - intros a0 ag0 Ha0. simpl in Ha0.
    destruct (decide (a = a0)) as [->|Hne].
    + rewrite list_lookup_insert_eq in Ha0 by exact Hlt. inversion Ha0. subst ag0.
      simpl. destruct (ord_remaining s HO a0 ag Ha) as (H1 & H2 & H3).
      rewrite H1, (empty_slots_fill (values ag) i o Hv). simpl.
      split; [reflexivity|]. split; [rewrite length_insert; exact H2 | exact H3].
    + rewrite list_lookup_insert_ne in Ha0 by exact Hne.
      exact (ord_remaining s HO a0 ag0 Ha0).
  - destruct (ord_once s HO) as (H1 & H2). simpl. rewrite length_insert.
    split; [exact H1|]. intros Hst. destruct (H2 Hst) as (H3 & H4).
    rewrite H3 in Ha. discriminate.
Qed.

(** The record of the one [allSettled] call of the scope. *)
Lemma Ordered_aggs_push ps r s :
  Ordered s -> aggs s = [] -> settled s = true ->
  (forall fp, fp ∈ ps -> role_of (S fp) s = Some (RFlowThen fp)) ->
  Ordered (snd (aggs_push {| elements := ps; values := replicate (length ps) None;
                             remaining := length ps; result := r |} s)).
Proof.
  intros HO Ha Hst Hps.
  match goal with |- context [aggs_push ?x s] => set (ag := x) end.
  pose proof (frame_aggs_push (R := later) ag s) as Hl.
  assert (Hag : forall a ag', aggs (snd (aggs_push ag s)) !! a = Some ag' -> ag' = ag).
  { intros a ag' H. simpl in H. rewrite Ha in H. simpl in H.
    destruct a; simpl in H; [congruence | discriminate]. }
  apply (Ordered_same_heap s _ HO Hl); auto.
  - intros k j Hk Hj. simpl in Hj. apply lookup_lt_Some in Hj. lia.
  - intros a ag' i o H Hv. apply Hag in H. subst ag'. simpl in Hv.
    apply lookup_replicate in Hv. destruct Hv as (Hv & _). discriminate.
  - intros a ag' H. apply Hag in H. subst ag'. simpl.
    rewrite empty_slots_replicate, length_replicate. auto.
  - simpl. rewrite Ha. simpl. split; [lia|]. intros H. congruence.
Qed.

(** The wait of [settle] is logged while its promise is pending. *)
Lemma Ordered_log_wait ps snap s :
  Ordered s -> role_of ps s = Some RSettle -> state_of ps s = Some Pending ->
  settled s = true -> flows s = snap ->
  (exists ag, aggs s !! 0%nat = Some ag /\ elements ag = snap) ->
  Ordered (snd (log_event (EvWait ps snap) s)).
Proof.
  intros HO Hr Hp Hst Hfl (ag & Hag & Hel).
  pose proof (frame_log_event (R := later) (EvWait ps snap) s) as Hl.
  apply (Ordered_same_heap s _ HO Hl); auto.
  - intros k j Hk Hj. simpl in Hj. apply lookup_lt_Some in Hj. lia.
  - exact (ord_values s HO).
  - exact (ord_remaining s HO).
  - destruct (ord_once s HO) as (H1 & H2). split; [exact H1|].
    simpl. intros H. congruence.
  - intros ps0 snap0 Hin. simpl in Hin. apply elem_of_app in Hin.
    destruct Hin as [Hin | Hin]; [left; exact Hin|].
    apply list_elem_of_singleton in Hin. inversion Hin. subst ps0 snap0.
    right. split.
    + split; [exact Hr|]. exists ag. split; [exact Hag|]. split; [exact Hel|].
      intros Hs. destruct (pending_not_settled ps s Hp Hs).
    + intros fp Hfp. left. simpl in Hfp. rewrite <- Hfl. exact Hfp.
Qed.

(** ** Launching keeps the order *)

Lemma flow_view u s :
  frozen s = false ->
  let n := length (heap s) in
  let s' := snd (Estuary.flow u s) in
  (forall q, (q < n)%nat ->
     rx q s' = rx q s /\ state_of q s' = state_of q s /\ role_of q s' = role_of q s)
  /\ (forall q, (n <= q)%nat -> state_of q s = None /\ role_of q s = None)
  /\ (rx n s' = [] /\ is_settled n s' /\ role_of n s' = Some RResolved)
  /\ (rx (S n) s' = [then_reaction (S n)] /\ state_of (S n) s' = Some Pending
      /\ role_of (S n) s' = Some RFlow)
  /\ (rx (S (S n)) s'
        = [{| handler := HFlowFinally (S n); derived := Some (S (S (S n))) |}]
      /\ state_of (S (S n)) s' = Some Pending
      /\ role_of (S (S n)) s' = Some (RFlowThen (S n)))
  /\ (rx (S (S (S n))) s' = [] /\ state_of (S (S (S n))) s' = Some Pending
      /\ role_of (S (S (S n))) s' = Some (RFlowResult (S n)))
  /\ (forall q, (n + 4 <= q)%nat ->
        rx q s' = [] /\ state_of q s' = None /\ role_of q s' = None)
  /\ queue s' = queue s
       ++ [JReact {| handler := HInvoke u; derived := Some (S n) |} (Ful VUndefined)]
  /\ (forall fp, fp ∈ flows s' <-> fp ∈ flows s \/ fp = S n)
  /\ aggs s' = aggs s /\ log s' = log s /\ settled s' = settled s.
Proof.
  intros Hf n s'. subst s'. rewrite (flow_unfrozen u s Hf). cbv zeta. fold n.
  cbn [snd]. unfold rx, state_of, role_of, is_settled, settled_as, state_of. cbn [heap queue flows aggs log settled].
  replace (n + 1)%nat with (S n) by lia.
  replace (n + 2)%nat with (S (S n)) by lia.
  replace (n + 3)%nat with (S (S (S n))) by lia.
  match goal with |- context [heap s ++ ?l] => set (cs := l) end.
  assert (H0 : (heap s ++ cs) !! n = cs !! 0%nat) by apply lookup_fresh0.
  assert (Hk : forall k, (heap s ++ cs) !! (n + k)%nat = cs !! k) by apply lookup_fresh.
  assert (H1 : (heap s ++ cs) !! S n = cs !! 1%nat).
  { rewrite <- (Hk 1%nat). f_equal. lia. }
  assert (H2 : (heap s ++ cs) !! S (S n) = cs !! 2%nat).
  { rewrite <- (Hk 2%nat). f_equal. lia. }
  assert (H3 : (heap s ++ cs) !! S (S (S n)) = cs !! 3%nat).
  { rewrite <- (Hk 3%nat). f_equal. lia. }
  rewrite H0, H1, H2, H3. subst cs. cbn [lookup list_lookup fmap option_fmap option_map].
  split; [|split; [|split; [|split; [|split; [|split; [|split; [|split; [|split]]]]]]]].
  - intros q Hq. rewrite lookup_app_l by exact Hq. auto.
  - intros q Hq. rewrite (proj2 (lookup_ge_None (heap s) q)) by exact Hq. auto.
  - split; [reflexivity|]. split; [eexists; reflexivity | reflexivity].
  - auto.
  - auto.
  - auto.
  - intros q Hq. rewrite (proj2 (lookup_ge_None _ q)); [auto|].
    rewrite length_app. simpl. fold n. lia.
  - reflexivity.
  - intros fp. destruct (decide (S n ∈ flows s)) as [Hin|Hin].
    + split; [auto|]. intros [H | ->]; assumption.
    + rewrite elem_of_app, list_elem_of_singleton. reflexivity.
  - auto.
Qed.

Lemma flow_later u s : later s (snd (Estuary.flow u s)).
Proof.
  split; [apply (frame_flow (R := evolves))|].
  destruct (frozen s) eqn:Hf.
  - rewrite (flow_frozen u s Hf). cbn [snd].
    split; [exists []; simpl; rewrite app_nil_r; reflexivity|].
    split; [auto|]. intros a ag Ha. eauto.
  - destruct (flow_view u s Hf) as (_ & V0 & _ & _ & _ & _ & _ & Vq & Vf & Va & _).
    split; [eexists; exact Vq|]. split.
    + intros fp Hs Hn Hin. apply Vf in Hin. destruct Hin as [Hin | ->]; [auto|].
      apply is_settled_lt in Hs. lia.
    + intros a ag Ha. rewrite Va. eauto.
Qed.

Lemma Ordered_flow u s : Ordered s -> Ordered (snd (Estuary.flow u s)).
Proof.
  intros HO. destruct (frozen s) eqn:Hf.
  { rewrite (flow_frozen u s Hf).
    apply (Ordered_new_promise RClosed (Settled (Rej Estuary.ScopeClosed)) s HO).
    discriminate. }
  pose proof (flow_later u s) as Hl.
  pose proof Hl as (He & _).
  destruct (flow_view u s Hf)
    as (Vold & Vnone & (V0x & V0s & V0r) & (V1x & V1s & V1r) & (V2x & V2s & V2r)
        & (V3x & V3s & V3r) & Vfar & Vq & Vf & Va & Vl & Vt).
  set (n := length (heap s)) in *.
  set (s' := snd (Estuary.flow u s)) in *.
  destruct HO as [Oq Or Oj Ov Om Of Ot Oo Ow Os].
  assert (Hcase : forall q, (q < n)%nat \/ q = n \/ q = S n \/ q = S (S n)
                            \/ q = S (S (S n)) \/ (n + 4 <= q)%nat) by (intros; lia).
  assert (Hset : forall q, (q < n)%nat -> is_settled q s' -> is_settled q s).
  { intros q Hq (o & Ho). exists o. unfold settled_as in *.
    destruct (Vold q Hq) as (_ & <- & _). exact Ho. }
  assert (Hrole : forall q r, role_of q s = Some r -> (q < n)%nat).
  { intros q r Hr. apply role_of_lt in Hr. exact Hr. }
  assert (Hnotin : forall fp, (S fp < n)%nat -> fp ∉ flows s -> fp ∉ flows s').
  { intros fp Hlt Hn Hin. apply Vf in Hin. destruct Hin as [Hin | ->]; [auto | lia]. }
  split.
  - intros q Hq.
    destruct (Hcase q) as [Hlt | [-> | [-> | [-> | [-> | Hge]]]]].
    + destruct (Vold q Hlt) as (-> & _). auto.
    + exact V0x.
    + destruct (pending_not_settled _ _ V1s Hq).
    + destruct (pending_not_settled _ _ V2s Hq).
    + exact V3x.
    + apply Vfar. exact Hge.
  - intros q k r Hr.
    destruct (Hcase q) as [Hlt | [-> | [-> | [-> | [-> | Hge]]]]].
    + destruct (Vold q Hlt) as (Hx & _). rewrite Hx in Hr.
      apply (reaction_placed_ext q k s); auto.
      intros k' y Hy. rewrite Hx. exact Hy.
    + rewrite V0x in Hr. discriminate.
    + rewrite V1x in Hr. destruct k; [|discriminate]. inversion Hr. reflexivity.
    + rewrite V2x in Hr. destruct k; [|discriminate]. inversion Hr. exact I.
    + rewrite V3x in Hr. discriminate.
    + destruct (Vfar q Hge) as (Hx & _). rewrite Hx in Hr. discriminate.
  - intros k j Hj. rewrite Vq in Hj. apply lookup_app_Some in Hj.
    destruct Hj as [Hj | (_ & Hj)].
    + eapply job_placed_later; [exact Hl | reflexivity | auto].
    + apply list_lookup_singleton_Some in Hj. destruct Hj as (_ & <-). exact I.
  - intros a ag i o Ha' Hv. rewrite Va in Ha'.
    destruct (Ov a ag i o Ha' Hv) as (fp & Hel & Hs).
    exists fp. split; [exact Hel | eapply is_settled_evolves; eauto].
  - intros a ag Ha'. rewrite Va in Ha'. destruct (Om a ag Ha') as (H1 & H2 & H3).
    split; [exact H1|]. split; [exact H2|]. intros fp Hfp. eauto with evo.
  - intros d fp Hd.
    destruct (Hcase d) as [Hlt | [-> | [-> | [-> | [-> | Hge]]]]].
    + destruct (Vold d Hlt) as (Hx & Hs & Hr). rewrite Hr in Hd.
      destruct (Of d fp Hd) as (H1 & H2 & H3). split; [exact H1|]. split.
      * rewrite Hs, Hx. exact H2.
      * intros Hset'. destruct (H3 (Hset d Hlt Hset')) as [H | H].
        -- left. apply Hnotin; [lia | exact H].
        -- right. eapply finally_queued_mono; [exact Vq| |exact H].
           rewrite Vq, length_app. lia.
    + congruence.
    + congruence.
    + rewrite V2r in Hd. inversion Hd. subst fp. split; [reflexivity|]. split.
      * intros _. eexists. rewrite V2x. apply list_elem_of_singleton. reflexivity.
      * intros Hs. destruct (pending_not_settled _ _ V2s Hs).
    + congruence.
    + destruct (Vfar d Hge) as (_ & _ & Hr). congruence.
  - intros fp Hfp. apply Vf in Hfp. destruct Hfp as [Hfp | ->].
    + destruct (Ot fp Hfp) as (H1 & H2 & H3).
      assert (Hlt : (fp < n)%nat) by (apply Hrole in H1; lia).
      destruct (Vold fp Hlt) as (Hx & Hs & Hr).
      split; [eauto with evo|]. split.
      * rewrite Hs, Hx. exact H2.
      * intros Hset'. destruct (H3 (Hset fp Hlt Hset')) as [H | H].
        -- left. eapply is_settled_evolves; eauto.
        -- right. eapply then_queued_mono; [exact Vq| |exact H].
           rewrite Vq, length_app. lia.
    + split; [exact V2r|]. split.
      * intros _. rewrite V1x. apply list_elem_of_singleton. reflexivity.
      * intros Hs. destruct (pending_not_settled _ _ V1s Hs).
  - rewrite Va, Vt, Vl. exact Oo.
  - intros ps snap Hw. rewrite Vl in Hw.
    destruct (Ow ps snap Hw) as (H1 & ag & H2 & H3 & H4).
    split; [eauto with evo|]. exists ag. rewrite Va.
    split; [exact H2|]. split; [exact H3|].
    intros Hs fp Hfp. apply Hset in Hs; [|eapply Hrole; eauto].
    eapply finished_later; [exact Hl | reflexivity | auto].
  - intros ps snap fp Hw Hfp. rewrite Vl in Hw. apply Vf in Hfp.
    destruct Hfp as [Hfp | ->]; [eauto|].
    right. destruct (Ow ps snap Hw) as (H1 & _). apply Hrole in H1. lia.
Qed.

(** ** Taking a job that has run off the queue *)

Lemma then_queued_pop fp k j q s :
  queue s = j :: q -> achieved j s -> then_queued fp (S k) s ->
  is_settled (S fp) s \/ then_queued fp k (with_queue tail s).
Proof.
  intros Hq Hd (k' & o & Hk & Hj). rewrite Hq in Hj. destruct k' as [|k'].
  - left. simpl in Hj. inversion Hj. subst j. simpl in Hd. apply Hd. reflexivity.
  - right. exists k', o. split; [lia|]. simpl. rewrite Hq. exact Hj.
Qed.

Lemma finally_queued_pop fp k j q s :
  queue s = j :: q -> achieved j s -> finally_queued fp (S k) s ->
  (fp ∉ flows s) \/ finally_queued fp k (with_queue tail s).
Proof.
  intros Hq Hd (k' & dd & o & Hk & Hj). rewrite Hq in Hj. destruct k' as [|k'].
  - left. simpl in Hj. inversion Hj. subst j. exact Hd.
  - right. exists k', dd, o. split; [lia|]. simpl. rewrite Hq. exact Hj.
Qed.

Lemma finished_pop fp k j q s :
  queue s = j :: q -> achieved j s -> finished fp (S k) s ->
  finished fp k (with_queue tail s).
Proof.
  intros Hq Hd (Hs & Hf). split; [exact Hs|].
  destruct Hf as [Hf | Hf]; [left; exact Hf|].
  exact (finally_queued_pop fp k j q s Hq Hd Hf).
Qed.

Lemma Ordered_pop j q s :
  Ordered s -> queue s = j :: q -> achieved j s -> Ordered (with_queue tail s).
Proof.
  intros [Oq Or Oj Ov Om Of Ot Oo Ow Os] Hq Hd.
  assert (Hlen : length (queue s) = S (length q)) by (rewrite Hq; reflexivity).
  assert (Hq' : queue (with_queue tail s) = q) by (simpl; rewrite Hq; reflexivity).
  split; try assumption.
  - intros k x Hx. rewrite Hq' in Hx.
    assert (Hx' : queue s !! S k = Some x) by (rewrite Hq; exact Hx).
    specialize (Oj (S k) x Hx'). destruct x as [r o|]; [|exact I].
    simpl in *. destruct (handler r); auto.
    + destruct Oj as (ag & fp & Ha & Hel & H). exists ag, fp.
      split; [exact Ha|]. split; [exact Hel|].
      destruct H as [H | H]; [left; exact H|].
      exact (then_queued_pop fp k j q s Hq Hd H).
    + destruct Oj as (ag & Ha & H). exists ag. split; [exact Ha|].
      intros fp Hfp. exact (finished_pop fp k j q s Hq Hd (H fp Hfp)).
  - intros d fp Hr. destruct (Of d fp Hr) as (H1 & H2 & H3).
    split; [exact H1|]. split; [exact H2|].
    intros Hs. destruct (H3 Hs) as [H | H]; [left; exact H|].
    rewrite Hlen in H. rewrite Hq'.
    exact (finally_queued_pop fp _ j q s Hq Hd H).
  - intros fp Hfp. destruct (Ot fp Hfp) as (H1 & H2 & H3).
    split; [exact H1|]. split; [exact H2|].
    intros Hs. destruct (H3 Hs) as [H | H]; [left; exact H|].
    rewrite Hlen in H. rewrite Hq'.
    exact (then_queued_pop fp _ j q s Hq Hd H).
  - intros ps snap Hw. destruct (Ow ps snap Hw) as (H1 & ag & H2 & H3 & H4).
    split; [exact H1|]. exists ag. split; [exact H2|]. split; [exact H3|].
    intros Hs fp Hfp. destruct (H4 Hs fp Hfp) as (Hs' & Hf). split; [exact Hs'|].
    destruct Hf as [Hf | Hf]; [left; exact Hf | destruct (finally_queued_0 _ _ Hf)].
Qed.

(** ** Settling a promise that is neither [allSettled]'s nor [settle]'s *)

Lemma Ordered_settle_neutral p o r s :
  Ordered s -> aggs_typed s -> role_of p s = Some r ->
  r ≠ RAllSettled -> r ≠ RSettle ->
  Ordered (snd (settle_promise p o s)).
Proof.
  intros HO Hag Hr H1 H2. apply Ordered_settle_promise; [exact HO| |].
  - intros k x ps Hx Hh. pose proof (ord_reactions s HO p k x Hx) as Hp.
    unfold reaction_placed in Hp. rewrite Hh in Hp.
    destruct Hp as (ag & Ha & ->). rewrite (Hag _ _ Ha) in Hr. congruence.
  - intros snap Hw. destruct (ord_wait s HO p snap Hw) as (Hr' & _). congruence.
Qed.

Lemma settle_promise_settles p o r s :
  role_of p s = Some r -> is_settled p (snd (settle_promise p o s)).
Proof.
  intros Hr. destruct (state_of_cases p s) as [Hp | [Hp | Hp]].
  - destruct (settle_promise_pending_view p o s Hp) as (_ & Vs & _).
    exists o. unfold settled_as. rewrite Vs.
    destruct (decide (p = p)); [reflexivity | contradiction].
  - rewrite settle_promise_other; [exact Hp|].
    destruct Hp as (x & Hx). unfold settled_as in Hx. congruence.
  - apply role_of_lt in Hr. unfold state_of in Hp.
    destruct (heap s !! p) eqn:Hl; [discriminate|].
    apply lookup_ge_None in Hl. lia.
Qed.

(** The promise of [allSettled] is resolved when every slot is filled. *)
Lemma Ordered_all_settled ag o s :
  Ordered s -> aggs s !! 0%nat = Some ag -> remaining ag = 0%nat ->
  role_of (result ag) s = Some RAllSettled ->
  Ordered (snd (settle_promise (result ag) o s)).
Proof.
  intros HO Ha Hrem Hr. apply Ordered_settle_promise; [exact HO| |].
  - intros k x ps Hx Hh. exists ag. split; [exact Ha|]. intros fp Hfp.
    destruct (ord_remaining s HO 0%nat ag Ha) as (H1 & H2 & H3).
    apply list_elem_of_lookup in Hfp. destruct Hfp as (i & Hi).
    destruct (empty_slots_none (values ag) i) as (x' & Hv).
    { congruence. }
    { rewrite H2. eapply lookup_lt_Some; eauto. }
    destruct (ord_values s HO 0%nat ag i x' Ha Hv) as (fp' & Hel & Hs).
    assert (fp' = fp) by congruence. subst fp'.
    split; [exact Hs|].
    assert (Hin : fp ∈ elements ag) by (apply list_elem_of_lookup; eauto).
    destruct (ord_finally s HO (S fp) fp (H3 fp Hin)) as (_ & _ & H4). auto.
  - intros snap Hw. destruct (ord_wait s HO _ snap Hw) as (Hr' & _). congruence.
Qed.

(** ** [settle] keeps the order *)

Lemma perform_then_calm p r s :
  let s' := snd (perform_then p r s) in
  aggs s' = aggs s /\ flows s' = flows s /\ log s' = log s /\ settled s' = settled s
  /\ (forall q, state_of q s' = state_of q s)
  /\ (forall q, role_of q s' = role_of q s).
Proof.
  intros s'. subst s'. destruct (state_of_cases p s) as [Hp | [(o & Hp) | Hp]].
  - destruct (perform_then_pending_view p r s Hp) as (_ & Vs & Vr & _ & Va & Vf & Vl & Vt).
    auto 10.
  - rewrite (perform_then_settled p r o s Hp). simpl. auto 10.
  - rewrite (perform_then_none p r s Hp). simpl. auto 10.
Qed.

Lemma settle_promise_calm p o s :
  let s' := snd (settle_promise p o s) in
  aggs s' = aggs s /\ flows s' = flows s /\ log s' = log s /\ settled s' = settled s
  /\ (forall q, q ≠ p -> state_of q s' = state_of q s)
  /\ (forall q, role_of q s' = role_of q s).
Proof.
  intros s'. subst s'. destruct (state_of_cases p s) as [Hp | Hp].
  - destruct (settle_promise_pending_view p o s Hp) as (_ & Vs & Vr & _ & Va & Vf & Vl & Vt).
    repeat split; auto. intros q Hne. rewrite Vs.
    destruct (decide (q = p)); [contradiction | reflexivity].
  - rewrite settle_promise_other; [simpl; auto 10|].
    destruct Hp as [(x & Hx) | Hx]; unfold settled_as in *; congruence.
Qed.

Lemma register_elements_calm a ps : forall i s,
  let s' := snd (register_elements a i ps s) in
  aggs s' = aggs s /\ flows s' = flows s /\ log s' = log s /\ settled s' = settled s
  /\ (forall q, state_of q s' = state_of q s)
  /\ (forall q, role_of q s' = role_of q s).
Proof.
  induction ps as [|p ps IH]; intros i s; simpl.
  - auto 10.
  - unfold bind.
    destruct (perform_then_calm p {| handler := HElement a i; derived := None |} s)
      as (H1 & H2 & H3 & H4 & H5 & H6).
    destruct (perform_then p _ s) as [u s1]. cbn [fst snd] in *.
    destruct (IH (S i) s1) as (G1 & G2 & G3 & G4 & G5 & G6).
    split; [congruence|]. split; [congruence|]. split; [congruence|].
    split; [congruence|]. split.
    + intros q. rewrite G5. apply H5.
    + intros q. rewrite G6. apply H6.
Qed.

Lemma Ordered_register_elements a ps : forall i s,
  Ordered s ->
  (exists ag, aggs s !! a = Some ag
     /\ forall k fp, ps !! k = Some fp -> elements ag !! (i + k)%nat = Some fp) ->
  (forall fp, fp ∈ ps -> fp ∈ flows s) ->
  Ordered (snd (register_elements a i ps s)).
Proof.
  induction ps as [|p ps IH]; intros i s HO (ag & Ha & Hel) Hfl; simpl; [exact HO|].
  unfold bind.
  assert (Hp : p ∈ flows s) by (apply Hfl; left).
  destruct (ord_tracked s HO p Hp) as (T1 & T2 & T3).
  assert (Hi : elements ag !! i = Some p).
  { rewrite <- (Hel 0%nat p eq_refl). f_equal. lia. }
  pose proof (Ordered_perform_then p {| handler := HElement a i; derived := None |} s HO)
    as HO1.
  destruct (perform_then_calm p {| handler := HElement a i; derived := None |} s)
    as (H1 & H2 & _).
  destruct (perform_then p _ s) as [u s1]. cbn [fst snd] in *.
  apply IH.
  - apply HO1.
    + intros Hpend. simpl. split; [eauto|].
      specialize (T2 Hpend). apply list_elem_of_lookup in T2.
      destruct T2 as (k' & Hk'). exists k'. split; [|exact Hk'].
      eapply lookup_lt_Some; eauto.
    + intros o Hs. simpl. exists ag, p. split; [exact Ha|]. split; [exact Hi|].
      apply T3. exists o. exact Hs.
  - exists ag. rewrite H1. split; [exact Ha|].
    intros k fp Hk. rewrite <- (Hel (S k) fp Hk). f_equal. lia.
  - intros fp Hfp. rewrite H2. apply Hfl. right. exact Hfp.
Qed.

Lemma Ordered_settle s :
  Ordered s -> Ordered (snd (Estuary.settle s)).
Proof.
  intros HO. unfold Estuary.settle, bind.
  pose proof (Ordered_new_promise RSettle Pending s HO ltac:(discriminate)) as HO1.
  destruct (new_promise_view RSettle Pending s) as (Vx & Vs & Vr & Vsn & Vrn & Vs0 & Vr0).
  change (fst (new_promise RSettle Pending s)) with (length (heap s)).
  set (ps := length (heap s)) in *.
  destruct (new_promise RSettle Pending s) as [ps' s1] eqn:Hnp.
  assert (ps' = ps) by (inversion Hnp; reflexivity). subst ps'.
  assert (Hs1 : s1 = with_heap (fun h => h ++ [{| role := RSettle; pstate := Pending;
                                                   reactions := [] |}]) s).
  { inversion Hnp. reflexivity. }
  cbn [fst snd] in *. unfold get. cbn [fst snd].
  assert (Hst : settled s1 = settled s) by (rewrite Hs1; reflexivity).
  assert (Hlog : log s1 = log s) by (rewrite Hs1; reflexivity).
  assert (Hag : aggs s1 = aggs s) by (rewrite Hs1; reflexivity).
  destruct (settled s1) eqn:Hdone.
  - (* a later call *)
    pose proof (Ordered_settle_promise ps (Ful VUndefined) s1 HO1) as HO2.
    destruct (settle_promise ps _ s1) as [u s2]. cbn [fst snd] in *.
    apply HO2.
    + intros k x ps0 Hx. rewrite Vx in Hx. unfold rx in Hx.
      unfold role_of in Vr0. destruct (heap s !! ps); [discriminate|].
      rewrite lookup_nil in Hx. discriminate.
    + intros snap Hw. rewrite Hlog in Hw.
      destruct (ord_wait s HO ps snap Hw) as (Hr & _). congruence.
  - (* the first call *)
    destruct (ord_once s HO) as (_ & Hfirst).
    destruct (Hfirst (eq_sym Hst)) as (Ha0 & Hnw).
    unfold Estuary.mark_settled, modify. cbn [fst snd].
    pose proof (Ordered_mark_settled s1 HO1) as HO2.
    set (s2 := with_settled true s1) in *.
    set (fl := flows s2).
    unfold Promise_allSettled, bind.
    pose proof (Ordered_new_promise RAllSettled Pending s2 HO2 ltac:(discriminate)) as HO3.
    destruct (new_promise_view RAllSettled Pending s2)
      as (Wx & Ws & Wr & Wsn & Wrn & Ws0 & Wr0).
    change (fst (new_promise RAllSettled Pending s2)) with (length (heap s2)).
    set (r := length (heap s2)) in *.
    destruct (new_promise RAllSettled Pending s2) as [r' s3] eqn:Hnp3.
    assert (r' = r) by (inversion Hnp3; reflexivity). subst r'.
    assert (Hs3 : s3 = with_heap (fun h => h ++ [{| role := RAllSettled; pstate := Pending;
                                                     reactions := [] |}]) s2).
    { inversion Hnp3. reflexivity. }
    cbn [fst snd] in *.
    assert (Hne : ps ≠ r).
    { subst r s2. rewrite Hs1. simpl. rewrite length_app. simpl. unfold ps. lia. }
    set (ag := {| elements := fl; values := replicate (length fl) None;
                  remaining := length fl; result := r |}).
    assert (Ha3 : aggs s3 = []) by (rewrite Hs3; simpl; congruence).
    assert (Hfl3 : flows s3 = fl) by (rewrite Hs3; reflexivity).
    assert (HO4 : Ordered (snd (aggs_push ag s3))).
    { apply Ordered_aggs_push; [exact HO3 | exact Ha3 | rewrite Hs3; reflexivity|].
      intros fp Hfp. rewrite <- Hfl3 in Hfp.
      destruct (ord_tracked s3 HO3 fp Hfp) as (H & _). exact H. }
    destruct (aggs_push ag s3) as [a s4] eqn:Hpush. cbn [fst snd] in *.
    assert (Ha4 : a = 0%nat /\ aggs s4 = [ag] /\ heap s4 = heap s3
                  /\ flows s4 = fl /\ settled s4 = true).
    { unfold aggs_push in Hpush. inversion Hpush. simpl. rewrite Ha3.
      rewrite Hs3. auto. }
    destruct Ha4 as (-> & Ha4 & Hh4 & Hfl4 & Hst4).
    pose proof (Ordered_register_elements 0%nat fl 0%nat s4 HO4) as HO5.
    destruct (register_elements_calm 0%nat fl 0%nat s4) as (C1 & C2 & C3 & C4 & C5 & C6).
    destruct (register_elements 0 0 fl s4) as [u5 s5]. cbn [fst snd] in *.
    assert (HO5' : Ordered s5).
    { apply HO5.
      - exists ag. rewrite Ha4. split; [reflexivity|]. intros k fp Hk. exact Hk.
      - intros fp Hfp. rewrite Hfl4. exact Hfp. }
    clear HO5.
    assert (Hr5 : role_of r s5 = Some RAllSettled).
    { rewrite C6, (role_of_same s3 s4 r Hh4). exact Wrn. }
    assert (Hp5 : state_of r s5 = Some Pending).
    { rewrite C5, (state_of_same s3 s4 r Hh4). exact Wsn. }
    assert (Hps5 : state_of ps s5 = Some Pending /\ role_of ps s5 = Some RSettle).
    { rewrite C5, C6, (state_of_same s3 s4 ps Hh4), (role_of_same s3 s4 ps Hh4).
      rewrite (Ws ps Hne), (Wr ps Hne). split; [exact Vsn | exact Vrn]. }
    assert (Ha5 : aggs s5 !! 0%nat = Some ag) by (rewrite C1, Ha4; reflexivity).
    assert (HO6 : Ordered (snd ((if decide (length fl = 0%nat)
                                 then settle_promise r (Ful (VArray 0)) else ret tt) s5))).
    { destruct (decide (length fl = 0%nat)) as [H0|H0]; [|exact HO5'].
      apply (Ordered_all_settled ag); auto. }
    assert (C7 : let s6 := snd ((if decide (length fl = 0%nat)
                                 then settle_promise r (Ful (VArray 0)) else ret tt) s5) in
                 aggs s6 = aggs s5 /\ flows s6 = flows s5 /\ log s6 = log s5
                 /\ settled s6 = settled s5
                 /\ state_of ps s6 = Some Pending /\ role_of ps s6 = Some RSettle
                 /\ (fl ≠ [] -> state_of r s6 = Some Pending)).
    { destruct (decide (length fl = 0%nat)) as [H0|H0].
      - destruct (settle_promise_calm r (Ful (VArray 0)) s5) as (D1 & D2 & D3 & D4 & D5 & D6).
        cbv zeta. split; [exact D1|]. split; [exact D2|]. split; [exact D3|].
        split; [exact D4|].
        split; [rewrite D5 by exact Hne; tauto|]. split; [rewrite D6; tauto|].
        intros Hnil. destruct fl; [congruence | discriminate].
      - simpl. destruct Hps5. auto 10. }
    destruct ((if decide (length fl = 0%nat)
               then settle_promise r (Ful (VArray 0)) else ret tt) s5) as [u6 s6].
    cbn [fst snd] in *. destruct C7 as (D1 & D2 & D3 & D4 & D5 & D6 & D7).
    unfold await, ret. cbv beta iota.
    pose proof (Ordered_perform_then r {| handler := HSettleResume ps; derived := None |}
                  s6 HO6) as HO7.
    destruct (perform_then_calm r {| handler := HSettleResume ps; derived := None |} s6)
      as (E1 & E2 & E3 & E4 & E5 & E6).
    destruct (perform_then r _ s6) as [u7 s7]. cbn [fst snd] in *.
    change (Ordered (snd (log_event (EvWait ps fl) s7))).
    apply Ordered_log_wait.
    + apply HO7.
      * intros _. simpl. exists ag. rewrite D1. split; [exact Ha5 | reflexivity].
      * intros o Ho. simpl. exists ag. rewrite D1. split; [exact Ha5|].
        intros fp Hfp. simpl in Hfp.
        assert (Hnil : fl ≠ []) by (intros E; rewrite E in Hfp; inversion Hfp).
        specialize (D7 Hnil). unfold settled_as in Ho. congruence.
    + rewrite E6. exact D6.
    + rewrite E5. exact D5.
    + rewrite E4, D4, C4. exact Hst4.
    + rewrite E2, D2, C2. exact Hfl4.
    + exists ag. rewrite E1, D1. split; [exact Ha5 | reflexivity].
Qed.

(** ** The callbacks keep the order *)

Lemma Ordered_settle_then h s :
  Ordered s ->
  (forall p k s1, reaction_placed p k s1 {| handler := h; derived := None |}) ->
  (forall k s1 o, job_placed k s1 (JReact {| handler := h; derived := None |} o)) ->
  Ordered (snd (settle_then h s)).
Proof.
  intros HO Hr Hj. unfold settle_then, bind.
  pose proof (Ordered_settle s HO) as HO1.
  destruct (Estuary.settle s) as [ps s1]. cbn [fst snd] in *.
  unfold await. apply Ordered_perform_then; auto.
Qed.

Lemma Ordered_catch m e pcx s :
  Ordered s ->
  Ordered (snd (settle_then (on_caught m e pcx) (with_token TideToken.freeze s))).
Proof.
  intros HO. apply Ordered_settle_then; [apply Ordered_freeze; exact HO | |];
    intros; destruct m; exact I.
Qed.

Lemma Ordered_settle_call pcx o s :
  Typed s -> Ordered s -> role_of pcx s = Some RCall ->
  Ordered (snd (settle_promise pcx o s)).
Proof.
  intros HT HO Hr.
  apply (Ordered_settle_neutral pcx o RCall); auto; [|discriminate..].
  exact (typed_aggs s HT).
Qed.

Lemma Ordered_rethrow this e tag pcx s :
  Typed s -> Ordered s -> role_of pcx s = Some RCall ->
  Ordered (snd (Fjord.rethrow this e tag pcx s)).
Proof.
  intros HT HO Hr. rewrite rethrow_eq.
  apply (Ordered_settle_neutral pcx _ RCall); [| |exact Hr|discriminate..].
  - apply (Ordered_quiet (with_log _) s HO); auto.
    + apply later_same_aggs; auto.
      * apply evolves_same_heap; auto.
      * exists []. simpl. rewrite app_nil_r. reflexivity.
    + intros ps snap Hin. simpl in Hin. apply elem_of_app in Hin.
      destruct Hin as [Hin | Hin]; [exact Hin|].
      destruct (reported this e); [|inversion Hin].
      apply list_elem_of_singleton in Hin. discriminate.
  - exact (typed_aggs s HT).
Qed.

Lemma Ordered_orchestrator this h o s :
  Typed s -> Ordered s ->
  (exists pcx, role_of pcx s = Some RCall
     /\ (h = HCascadeBody pcx \/ h = HTributaryBody pcx
         \/ (exists v, h = HCascadeSettled v pcx) \/ (exists v, h = HTributarySettled v pcx)
         \/ (exists e, h = HCascadeCaught e pcx) \/ (exists e, h = HTributaryCaught e pcx))) ->
  Ordered (snd (run_job this (JReact {| handler := h; derived := None |} o) s)).
Proof.
  intros HT HO (pcx & Hr & Hh).
  destruct Hh as [-> | [-> | [(v & ->) | [(v & ->) | [(e & ->) | (e & ->)]]]]];
    destruct o as [x | x].
  - rewrite cascade_success_eq. apply Ordered_settle_then; [exact HO | |]; intros; exact I.
  - rewrite (failure_entry_eq this Cascade). apply Ordered_catch. exact HO.
  - rewrite tributary_success_eq.
    apply Ordered_settle_then; [apply Ordered_freeze; exact HO | |]; intros; exact I.
  - rewrite (failure_entry_eq this Tributary). apply Ordered_catch. exact HO.
  - rewrite (success_return_eq this _ pcx v) by (left; reflexivity).
    apply Ordered_settle_call; assumption.
  - rewrite (settled_rejected_eq this Cascade). apply Ordered_catch. exact HO.
  - rewrite (success_return_eq this _ pcx v) by (right; reflexivity).
    apply Ordered_settle_call; assumption.
  - rewrite (settled_rejected_eq this Tributary). apply Ordered_catch. exact HO.
  - rewrite (failure_exit_eq this Cascade). apply Ordered_rethrow; assumption.
  - rewrite (caught_rejected_eq this Cascade). apply Ordered_settle_call; assumption.
  - rewrite (failure_exit_eq this Tributary). apply Ordered_rethrow; assumption.
  - rewrite (caught_rejected_eq this Tributary). apply Ordered_settle_call; assumption.
Qed.

Lemma Ordered_invoke this u d o s :
  Typed s -> Ordered s -> role_of d s = Some RFlow ->
  Ordered (snd (run_job this (JReact {| handler := HInvoke u; derived := Some d |} o) s)).
Proof.
  intros HT HO Hr. simpl. unfold bind.
  pose proof (Ordered_log (EvInvoke u) s HO ltac:(discriminate)) as HO1.
  unfold log_event, modify in *. cbn [fst snd] in *.
  set (s1 := with_log _ s) in *.
  assert (Hag : aggs_typed s1) by exact (typed_aggs s HT).
  assert (Hr1 : role_of d s1 = Some RFlow) by exact Hr.
  destruct u as [[v|e]|]; simpl; unfold bind; simpl.
  - apply (Ordered_settle_neutral d _ RFlow); auto; discriminate.
  - apply (Ordered_settle_neutral d _ RFlow); auto; discriminate.
  - apply Ordered_enqueue; [|exact I].
    apply Ordered_new_promise; [exact HO1 | discriminate].
Qed.

Lemma Ordered_flow_then this d o s :
  Typed s -> Ordered s -> (exists fp, role_of d s = Some (RFlowThen fp)) ->
  let s' := snd (run_job this (JReact {| handler := HFlowThen; derived := Some d |} o) s) in
  Ordered s' /\ is_settled d s'.
Proof.
  intros HT HO (fp & Hr) s'. subst s'. simpl. unfold bind.
  destruct o as [v|e]; simpl.
  - split.
    + apply (Ordered_settle_neutral d _ (RFlowThen fp)); auto; [|discriminate..].
      exact (typed_aggs s HT).
    + eapply settle_promise_settles; eauto.
  - unfold bind, Estuary.freeze_token, modify. cbn [fst snd]. split.
    + apply (Ordered_settle_neutral d _ (RFlowThen fp));
        [apply Ordered_freeze; exact HO | exact (typed_aggs s HT) | exact Hr
        | discriminate..].
    + eapply settle_promise_settles. exact Hr.
Qed.

Lemma Ordered_flow_finally this fp d o s :
  Ordered s ->
  Ordered (snd (run_job this (JReact {| handler := HFlowFinally fp; derived := Some d |} o) s)).
Proof.
  intros HO. simpl. unfold bind.
  pose proof (Ordered_flows_delete fp s HO) as HO1.
  destruct (Estuary.flows_delete fp s) as [u1 s1]. cbn [fst snd] in *.
  pose proof (Ordered_new_promise RFinallyUnit (Settled (Ful VUndefined)) s1 HO1
                ltac:(discriminate)) as HO2.
  destruct (new_promise RFinallyUnit _ s1) as [a s2]. cbn [fst snd] in *.
  unfold then_, bind.
  pose proof (Ordered_new_promise (RFinallyValue fp) Pending s2 HO2
                ltac:(discriminate)) as HO3.
  destruct (new_promise (RFinallyValue fp) Pending s2) as [b s3]. cbn [fst snd] in *.
  pose proof (Ordered_perform_then a {| handler := HValueThunk o; derived := Some b |}
                s3 HO3) as HO4.
  destruct (perform_then a _ s3) as [u4 s4]. cbn [fst snd] in *.
  apply Ordered_enqueue; [|exact I].
  apply HO4; intros; exact I.
Qed.

Lemma Ordered_value_thunk this o' d o s :
  Typed s -> Ordered s -> (exists fp, role_of d s = Some (RFinallyValue fp)) ->
  Ordered (snd (run_job this (JReact {| handler := HValueThunk o'; derived := Some d |} o) s)).
Proof.
  intros HT HO (fp & Hr). simpl. unfold bind.
  destruct o' as [v|e]; simpl;
    apply (Ordered_settle_neutral d _ (RFinallyValue fp)); auto;
    try discriminate; exact (typed_aggs s HT).
Qed.

Lemma Ordered_forward this t o s :
  Typed s -> Ordered s -> target_ok s t ->
  Ordered (snd (run_job this (JReact {| handler := HForward t; derived := None |} o) s)).
Proof.
  intros HT HO Ht. simpl. unfold bind.
  assert (H : Ordered (snd (settle_promise t o s))).
  { destruct Ht as [Hr | [Hr | (fp & Hr)]];
      eapply Ordered_settle_neutral; eauto; try discriminate; exact (typed_aggs s HT). }
  destruct (settle_promise t o s) as [u s1]. exact H.
Qed.

Lemma Ordered_element this a i o q s :
  Typed s -> Ordered s ->
  queue s = JReact {| handler := HElement a i; derived := None |} o :: q ->
  Ordered (snd (run_job this (JReact {| handler := HElement a i; derived := None |} o) s)).
Proof.
  intros HT HO Hq. simpl. unfold bind.
  assert (Hhead : queue s !! 0%nat
                  = Some (JReact {| handler := HElement a i; derived := None |} o)).
  { rewrite Hq. reflexivity. }
  pose proof (ord_jobs s HO _ _ Hhead) as Hj. simpl in Hj.
  destruct Hj as (ag & fp & Ha & Hel & Hs).
  destruct Hs as [Hs | Hs]; [|destruct (then_queued_0 _ _ Hs)].
  assert (Ha0 : a = 0%nat).
  { destruct (ord_once s HO) as (Hlen & _). apply lookup_lt_Some in Ha. lia. }
  subst a.
  pose proof (Ordered_count_down 0%nat i o s HO) as HO1.
  destruct (Typed_count_down 0%nat i o s HT) as (HT1 & Hr1).
  assert (Hcd : forall ag', fst (count_down 0 i o s) = Some ag' ->
                  aggs (snd (count_down 0 i o s)) !! 0%nat = Some ag').
  { unfold count_down. rewrite Ha.
    destruct (values ag !! i) as [[x|]|]; try discriminate.
    intros ag' H. inversion H. simpl.
    rewrite list_lookup_insert_eq by (eapply lookup_lt_Some; eauto). reflexivity. }
  destruct (count_down 0 i o s) as [[ag'|] s1]; cbn [fst snd] in *.
  - specialize (Hr1 ag' eq_refl). specialize (Hcd ag' eq_refl).
    assert (HO1' : Ordered s1).
    { apply HO1. intros ag0 H0. assert (ag0 = ag) by congruence. subst ag0. eauto. }
    destruct (decide (remaining ag' = 0%nat)) as [H0|H0]; cbn [fst snd].
    + pose proof (Ordered_all_settled ag' (Ful (VArray (length (elements ag')))) s1
                    HO1' Hcd H0 Hr1) as HO2.
      destruct (settle_promise (result ag') _ s1) as [u s2]. exact HO2.
    + exact HO1'.
  - apply HO1. intros ag0 H0. assert (ag0 = ag) by congruence. subst ag0. eauto.
Qed.

Lemma Ordered_settle_resume this ps o q s :
  Typed s -> Ordered s -> role_of ps s = Some RSettle ->
  queue s = JReact {| handler := HSettleResume ps; derived := None |} o :: q ->
  Ordered (snd (run_job this (JReact {| handler := HSettleResume ps; derived := None |} o) s)).
Proof.
  intros HT HO Hr Hq. simpl. unfold bind.
  assert (Hhead : queue s !! 0%nat
                  = Some (JReact {| handler := HSettleResume ps; derived := None |} o)).
  { rewrite Hq. reflexivity. }
  pose proof (ord_jobs s HO _ _ Hhead) as Hj. simpl in Hj.
  destruct Hj as (ag & Ha & Hfin).
  assert (H : Ordered (snd (settle_promise ps (Ful VUndefined) s))).
  { apply Ordered_settle_promise; [exact HO | |].
    - intros k x ps0 Hx Hh. pose proof (ord_reactions s HO ps k x Hx) as Hp.
      unfold reaction_placed in Hp. rewrite Hh in Hp.
      destruct Hp as (ag0 & Ha0 & ->).
      rewrite (typed_aggs s HT _ _ Ha0) in Hr. discriminate.
    - intros snap Hw. destruct (ord_wait s HO ps snap Hw) as (_ & ag0 & Ha0 & Hel & _).
      assert (ag0 = ag) by congruence. subst ag0. rewrite <- Hel. exact Hfin. }
  destruct (settle_promise ps _ s) as [u s1]. exact H.
Qed.

Lemma Ordered_run_job this j q s :
  Typed s -> Ordered s -> queue s = j :: q ->
  let s' := snd (run_job this j s) in
  Ordered s' /\ achieved j s'.
Proof.
  intros HT HO Hq s'. subst s'.
  assert (Hj : job_ok s j).
  { apply (typed_queue s HT). rewrite Hq. apply list_elem_of_here. }
  destruct j as [[h d] o | t src].
  - unfold job_ok in Hj. cbn [handler derived] in Hj.
    destruct h, d; try contradiction.
    + split; [apply Ordered_invoke; assumption | exact I].
    + destruct Hj as (fp & Hr & _).
      destruct (Ordered_flow_then this n o s HT HO) as (H1 & H2); [eauto|].
      split; [exact H1|]. simpl. intros d Hd. inversion Hd. subst d. exact H2.
    + split; [apply Ordered_flow_finally; exact HO|].
      exact (proj1 (finally_removes this flowPromise n o s)).
    + destruct Hj as (fp & Hr & _).
      split; [apply Ordered_value_thunk; eauto | exact I].
    + destruct Hj. split; [apply Ordered_forward; assumption | exact I].
    + split; [eapply Ordered_element; eauto | exact I].
    + split; [eapply Ordered_settle_resume; eauto | exact I].
    + split; [|exact I]. apply Ordered_orchestrator; auto.
      eexists. split; [exact Hj|]. auto.
    + split; [|exact I]. apply Ordered_orchestrator; auto.
      eexists. split; [exact Hj|]. right; right; left. eauto.
    + split; [|exact I]. apply Ordered_orchestrator; auto.
      eexists. split; [exact Hj|]. do 4 right. left. eauto.
    + split; [|exact I]. apply Ordered_orchestrator; auto.
      eexists. split; [exact Hj|]. auto.
    + split; [|exact I]. apply Ordered_orchestrator; auto.
      eexists. split; [exact Hj|]. do 3 right. left. eauto.
    + split; [|exact I]. apply Ordered_orchestrator; auto.
      eexists. split; [exact Hj|]. do 5 right. eauto.
  - split; [|exact I]. simpl. apply Ordered_perform_then; [exact HO | |]; intros; exact I.
Qed.

(** ** Every run keeps the order *)

Lemma Ordered_start this m : Ordered (start this m).
Proof.
  destruct (truthy (Fjord.timeout this)) eqn:Ht.
  - rewrite (start_with_timeout this m Ht). split;
      unfold rx, is_settled, settled_as, state_of, role_of;
      cbn [heap queue aggs flows log settled].
    + intros p (o & Ho). destruct p as [|[|[|[|p]]]]; simpl in Ho; discriminate.
    + intros p k r Hr.
      destruct p as [|[|[|[|p]]]]; simpl in Hr;
        try (rewrite lookup_nil in Hr; discriminate);
        destruct k as [|k]; simpl in Hr; inversion Hr; try exact I.
      destruct m; exact I.
    + intros k j Hj. rewrite lookup_nil in Hj. discriminate.
    + intros a ag i o Ha. rewrite lookup_nil in Ha. discriminate.
    + intros a ag Ha. rewrite lookup_nil in Ha. discriminate.
    + intros d fp Hd. destruct d as [|[|[|[|d]]]]; simpl in Hd; discriminate.
    + intros fp Hfp. inversion Hfp.
    + split; [simpl; lia|]. intros _. split; [reflexivity|].
      intros ps snap Hin. inversion Hin.
    + intros ps snap Hin. inversion Hin.
    + intros ps snap fp Hin. inversion Hin.
  - rewrite (start_no_timeout this m Ht). split;
      unfold rx, is_settled, settled_as, state_of, role_of;
      cbn [heap queue aggs flows log settled].
    + intros p (o & Ho). destruct p as [|[|p]]; simpl in Ho; discriminate.
    + intros p k r Hr.
      destruct p as [|[|p]]; simpl in Hr;
        try (rewrite lookup_nil in Hr; discriminate);
        destruct k as [|k]; simpl in Hr; inversion Hr.
      destruct m; exact I.
    + intros k j Hj. rewrite lookup_nil in Hj. discriminate.
    + intros a ag i o Ha. rewrite lookup_nil in Ha. discriminate.
    + intros a ag Ha. rewrite lookup_nil in Ha. discriminate.
    + intros d fp Hd. destruct d as [|[|d]]; simpl in Hd; discriminate.
    + intros fp Hfp. inversion Hfp.
    + split; [simpl; lia|]. intros _. split; [reflexivity|].
      intros ps snap Hin. inversion Hin.
    + intros ps snap Hin. inversion Hin.
    + intros ps snap fp Hin. inversion Hin.
Qed.

Lemma Ordered_step this a s s' :
  Typed s -> Ordered s -> step this a s = Some s' -> Ordered s'.
Proof.
  intros HT HO Hs. destruct a.
  - simpl in Hs. inversion Hs. apply Ordered_flow. exact HO.
  - simpl in Hs. inversion Hs. apply Ordered_settle. exact HO.
  - simpl in Hs. destruct (caller_owned p s) eqn:Hc; inversion Hs.
    destruct (caller_owned_role p s Hc) as [Hr | Hr];
      eapply Ordered_settle_neutral; eauto; try discriminate; exact (typed_aggs s HT).
  - destruct (queue s) as [|j q] eqn:Hq; [simpl in Hs; rewrite Hq in Hs; discriminate|].
    rewrite (tick_eq this j q s Hq) in Hs. inversion Hs.
    destruct (Ordered_run_job this j q s HT HO Hq) as (HO1 & Hd).
    destruct (keeps_run_job queue_grows this j s) as (l & Hl).
    rewrite Hq in Hl. simpl in Hl.
    exact (Ordered_pop j (q ++ l) _ HO1 Hl Hd).
  - simpl in Hs. destruct (queue s); [|discriminate].
    destruct (timers s) as [|tm rest] eqn:Htm; inversion Hs.
    unfold bind, pop_timer, modify. cbn [fst snd].
    destruct (callback tm) as [d] eqn:Hcb. simpl. unfold bind.
    unfold Estuary.freeze_token, modify. cbn [fst snd].
    assert (Hr : role_of d s = Some RDeadline).
    { apply (typed_timers s HT tm d); [|exact Hcb]. rewrite Htm. apply list_elem_of_here. }
    apply (Ordered_settle_neutral d _ RDeadline); [| |exact Hr|discriminate..].
    + apply Ordered_freeze.
      apply (Ordered_quiet (with_timers tail) s HO); auto.
      apply later_same_aggs; auto.
      * apply evolves_same_heap; auto.
      * exists []. simpl. rewrite app_nil_r. reflexivity.
    + exact (typed_aggs s HT).
Qed.

Lemma Ordered_exec this acts : forall s s',
  Typed s -> Ordered s -> exec this acts s = Some s' -> Ordered s'.
Proof.
  induction acts as [|a acts IH]; simpl; intros s s' HT HO He.
  - inversion He. subst. exact HO.
  - destruct (step this a s) as [s1|] eqn:Hs; [|discriminate].
    apply (IH s1); [eapply Typed_step; eauto | eapply Ordered_step; eauto | exact He].
Qed.

(** ** The two calls of [settle] *)

Global Instance log_grows_frame : Frame log_grows.
Proof.
  split; unfold keeps, log_grows;
    [ auto | auto | .. ];
    unfold_prims; intros; simpl in *; prim_case; simpl in *; auto.
  apply elem_of_app. auto.
Qed.

Global Instance log_grows_freeze : FreezeFrame log_grows.
Proof. split; [apply _|]. intros s e He. exact He. Qed.

Global Instance log_grows_host : HostFrame log_grows.
Proof.
  split; [apply _ | intros u; apply keeps_flow; [apply _|] | |];
    intros; intros s e He; exact He.
Qed.

Global Instance stays_closed_frame : Frame stays_closed.
Proof.
  split; unfold keeps, stays_closed, frozen.
  - auto.
  - intros s1 s2 s3 H1 H2 Hf. destruct (H1 Hf) as (Hf2 & Hs2).
    destruct (H2 Hf2) as (Hf3 & Hs3). auto.
  - intros r st s Hf. auto.
  - intros j s Hf. auto.
  - intros e s Hf. auto.
  - intros ag s Hf. auto.
  - intros a i o s Hf. unfold count_down. destruct (aggs s !! a) as [ag|]; [|auto].
    destruct (values ag !! i) as [[x|]|]; auto.
  - intros p o s Hf. unfold settle_promise. destruct (heap s !! p) as [pr|]; [|auto].
    destruct (pstate pr); auto.
  - intros p r s Hf. unfold perform_then. destruct (heap s !! p) as [pr|]; [|auto].
    destruct (pstate pr); auto.
  - intros s Hf. auto.
  - intros p s Hf. split; [exact Hf|]. simpl. intros fp Hfp.
    apply list_elem_of_filter in Hfp. tauto.
Qed.

Global Instance stays_closed_freeze : FreezeFrame stays_closed.
Proof.
  split; [apply _|]. intros s Hf. split; [|auto].
  apply (frame_freeze_token (R := stays_frozen)). exact Hf.
Qed.

Global Instance stays_closed_host : HostFrame stays_closed.
Proof.
  split; [apply _ | | |].
  - intros u s Hf. rewrite (flow_frozen u s Hf). simpl. auto.
  - intros s Hf. auto.
  - intros s Hf. auto.
Qed.

Lemma allSettled_calm ps s :
  let s' := snd (Promise_allSettled ps s) in
  flows s' = flows s /\ log s' = log s /\ settled s' = settled s
  /\ (forall q, (q < length (heap s))%nat -> state_of q s' = state_of q s).
Proof.
  intros s'. subst s'. unfold Promise_allSettled, bind.
  destruct (new_promise_view RAllSettled Pending s) as (_ & Vs & _).
  change (fst (new_promise RAllSettled Pending s)) with (length (heap s)).
  destruct (new_promise RAllSettled Pending s) as [r s1] eqn:H1.
  assert (E1 : flows s1 = flows s /\ log s1 = log s /\ settled s1 = settled s
               /\ r = length (heap s)).
  { unfold new_promise in H1. inversion H1. auto. }
  destruct E1 as (F1 & L1 & S1 & ->). cbn [fst snd] in *.
  match goal with |- context [aggs_push ?x s1] => set (ag := x) end.
  destruct (aggs_push ag s1) as [a s2] eqn:H2.
  assert (E2 : flows s2 = flows s1 /\ log s2 = log s1 /\ settled s2 = settled s1
               /\ heap s2 = heap s1).
  { unfold aggs_push in H2. inversion H2. auto. }
  destruct E2 as (F2 & L2 & S2 & Hh2). cbn [fst snd].
  destruct (register_elements_calm a ps 0%nat s2) as (_ & F3 & L3 & S3 & St3 & _).
  destruct (register_elements a 0 ps s2) as [u3 s3]. cbn [fst snd] in *.
  assert (E4 : let s4 := snd ((if decide (length ps = 0%nat)
                               then settle_promise (length (heap s)) (Ful (VArray 0))
                               else ret tt) s3) in
               flows s4 = flows s3 /\ log s4 = log s3 /\ settled s4 = settled s3
               /\ forall q, q ≠ length (heap s) -> state_of q s4 = state_of q s3).
  { destruct (decide (length ps = 0%nat)).
    - destruct (settle_promise_calm (length (heap s)) (Ful (VArray 0)) s3)
        as (_ & D2 & D3 & D4 & D5 & _). auto.
    - simpl. auto. }
  destruct ((if decide (length ps = 0%nat)
             then settle_promise (length (heap s)) (Ful (VArray 0))
             else ret tt) s3) as [u4 s4].
  cbn [fst snd] in *. destruct E4 as (F4 & L4 & S4 & St4).
  unfold ret. cbn [fst snd].
  split; [congruence|]. split; [congruence|]. split; [congruence|].
  intros q Hq. rewrite St4 by lia. rewrite St3, (state_of_same s1 s2 q Hh2).
  apply Vs. lia.
Qed.

(** The first call of [settle] on a scope: it marks the scope, takes
    the snapshot of what is tracked and leaves its promise pending. *)
Lemma settle_first s :
  settled s = false ->
  let ps := fst (Estuary.settle s) in
  let s' := snd (Estuary.settle s) in
  ps = length (heap s)
  /\ settled s' = true
  /\ flows s' = flows s
  /\ log s' = log s ++ [EvWait ps (flows s)]
  /\ state_of ps s' = Some Pending.
Proof.
  intros Hs ps s'. subst ps s'. unfold Estuary.settle, bind.
  destruct (new_promise_view RSettle Pending s) as (_ & _ & _ & Vsn & _).
  change (fst (new_promise RSettle Pending s)) with (length (heap s)).
  destruct (new_promise RSettle Pending s) as [ps s1] eqn:H1.
  assert (E1 : flows s1 = flows s /\ log s1 = log s /\ settled s1 = settled s
               /\ ps = length (heap s)
               /\ length (heap s1) = S (length (heap s))).
  { unfold new_promise in H1. inversion H1. simpl. rewrite length_app. simpl.
    repeat split; lia. }
  destruct E1 as (F1 & L1 & S1 & -> & Hlen). cbn [fst snd] in *.
  unfold get. cbn [fst snd]. rewrite S1, Hs.
  unfold Estuary.mark_settled, modify. cbn [fst snd].
  set (s2 := with_settled true s1).
  change (flows s1) with (flows s2).
  destruct (allSettled_calm (flows s2) s2) as (F3 & L3 & S3 & St3).
  destruct (Promise_allSettled (flows s2) s2) as [pall s3]. cbn [fst snd] in *.
  unfold await.
  destruct (perform_then_calm pall {| handler := HSettleResume (length (heap s));
                                      derived := None |} s3)
    as (_ & F4 & L4 & S4 & St4 & _).
  destruct (perform_then pall _ s3) as [u4 s4]. cbn [fst snd] in *.
  unfold log_event, modify, ret. cbn [fst snd].
  assert (S2 : settled s2 = true) by reflexivity.
  assert (F2 : flows s2 = flows s1) by reflexivity.
  split; [reflexivity|].
  split; [change (settled s4 = true); congruence|].
  split; [change (flows s4 = flows s); congruence|].
  split; [simpl; rewrite L4, L3; subst s2; simpl; rewrite L1, F1; reflexivity|].
  change (state_of (length (heap s)) s4 = Some Pending).
  rewrite St4, St3 by (subst s2; simpl; lia). exact Vsn.
Qed.

Lemma role_of_settle s :
  role_of (fst (Estuary.settle s)) (snd (Estuary.settle s)) = Some RSettle.
Proof.
  unfold Estuary.settle, bind.
  pose proof (role_of_new_promise RSettle Pending s) as Hr.
  destruct (new_promise RSettle Pending s) as [ps s1]. cbn [fst snd] in *.
  unfold get. cbn [fst snd]. destruct (settled s1).
  - pose proof (frame_settle_promise (R := evolves) ps (Ful VUndefined) s1) as He.
    destruct (settle_promise ps _ s1) as [u s2]. cbn [fst snd] in *. eauto with evo.
  - unfold Estuary.mark_settled, modify. cbn [fst snd].
    set (s2 := with_settled true s1).
    change (flows s1) with (flows s2).
    pose proof (keeps_allSettled evolves (flows s2) s2) as He3.
    destruct (Promise_allSettled (flows s2) s2) as [pall s3]. cbn [fst snd] in *.
    pose proof (keeps_await evolves pall (HSettleResume ps) s3) as He4.
    destruct (await pall _ s3) as [u4 s4]. cbn [fst snd] in *.
    unfold log_event, modify. cbn [fst snd].
    assert (Hr2 : role_of ps s2 = Some RSettle) by exact Hr.
    assert (Hr4 : role_of ps s4 = Some RSettle) by eauto with evo.
    exact Hr4.
Qed.

(** In a reachable state, once the call of [settle] that waited has
    resolved, every operation of its snapshot has reached a terminal
    state and is untracked, and whatever is tracked was launched after
    that call. *)
Lemma wait_over s ps snap :
  Typed s -> Ordered s -> EvWait ps snap ∈ log s -> is_settled ps s ->
  (forall fp, fp ∈ snap -> is_settled fp s /\ fp ∉ flows s)
  /\ (forall fp, fp ∈ flows s -> (ps < fp)%nat).
Proof.
  intros HT HO Hw Hs.
  destruct (ord_wait s HO ps snap Hw) as (Hr & ag & Ha & Hel & Hfin).
  assert (Hfp : forall fp, fp ∈ snap -> is_settled fp s /\ fp ∉ flows s).
  { intros fp Hfp. destruct (Hfin Hs fp Hfp) as ((o & Ho) & Hf). split.
    - destruct (ord_remaining s HO 0%nat ag Ha) as (_ & _ & Hrole).
      rewrite <- Hel in Hfp. specialize (Hrole fp Hfp).
      apply settled_as_lookup in Ho. destruct Ho as (pr & Hl & Hst).
      apply role_of_lookup in Hrole. destruct Hrole as (pr' & Hl' & Hr').
      assert (pr' = pr) by congruence. subst pr'.
      pose proof (typed_settled s HT _ pr o Hl Hst) as Hok. rewrite Hr' in Hok.
      exists o. exact (proj1 Hok).
    - destruct Hf as [Hf | Hf]; [exact Hf | destruct (finally_queued_0 _ _ Hf)]. }
  split; [exact Hfp|].
  intros fp Hin. destruct (ord_since s HO ps snap fp Hw Hin) as [H | H]; [|exact H].
  destruct (proj2 (Hfp fp H) Hin).
Qed.

Lemma settle_run this m o :
  truthy (Fjord.timeout this) = false ->
  exists s,
    exec this (settle_after_launch o) (start this m) = Some s
    /\ state_of 3 s = Some (Settled o)
    /\ state_of 6 s = Some (Settled (Ful VUndefined))
    /\ state_of 8 s = Some (Settled (Ful VUndefined))
    /\ flows s = []
    /\ length (aggs s) = 1%nat.
Proof.
  intros Ht. rewrite (start_no_timeout this m Ht).
  destruct m, o as [v | e];
    match goal with |- context [exec ?t ?a ?st] => set (r := exec t a st) end;
    vm_compute in r; subst r; eexists; (split; [reflexivity|]);
    repeat split; reflexivity.
Qed.

(** C4 (as amended): the two calls of settle.  The first call on a
    scope marks it, takes the snapshot of the tracked operations and
    leaves its promise pending; in every run of a call there is at most
    one wait, and the promise of the call that waits is resolved only
    when every operation of its snapshot has reached a terminal state.
    Any later call sets up nothing and is resolved at once, whether or
    not the first wait is over.  A scope whose one operation has ended
    resolves both calls. *)
Theorem settle_once (this : Fjord.t) (m : Mode) :
  (forall s,
     settled s = false ->
     let ps := fst (Estuary.settle s) in
     let s' := snd (Estuary.settle s) in
     ps = length (heap s)
     /\ settled s' = true
     /\ flows s' = flows s
     /\ log s' = log s ++ [EvWait ps (flows s)]
     /\ state_of ps s' = Some Pending)
  /\ (forall acts s,
        exec this acts (start this m) = Some s ->
        (length (aggs s) <= 1)%nat
        /\ forall ps snap,
             EvWait ps snap ∈ log s -> is_settled ps s ->
             forall fp, fp ∈ snap -> is_settled fp s)
  /\ (forall s,
        settled s = true ->
        Estuary.settle s =
          (length (heap s),
           with_heap (fun h => h ++ [{| role := RSettle; pstate := Settled (Ful VUndefined);
                                        reactions := [] |}]) s))
  /\ (truthy (Fjord.timeout this) = false ->
      forall o, exists s,
        exec this (settle_after_launch o) (start this m) = Some s
        /\ state_of 3 s = Some (Settled o)
        /\ state_of 6 s = Some (Settled (Ful VUndefined))
        /\ state_of 8 s = Some (Settled (Ful VUndefined))
        /\ flows s = []
        /\ length (aggs s) = 1%nat).
Proof.
  split; [exact settle_first|]. split; [|split; [exact settle_again_eq|]].
  - intros acts s He.
    assert (HT : Typed s) by (eapply Typed_exec; [apply Typed_start | exact He]).
    assert (HO : Ordered s).
    { eapply Ordered_exec; [apply Typed_start | apply Ordered_start | exact He]. }
    split; [exact (proj1 (ord_once s HO))|].
    intros ps snap Hw Hs fp Hfp.
    exact (proj1 (proj1 (wait_over s ps snap HT HO Hw Hs) fp Hfp)).
  - intros Ht o. apply settle_run. exact Ht.
Qed.

Lemma settle_once_witness :
  exists s,
    exec plain (settle_after_launch (Rej (VStr "no"))) (start plain Cascade) = Some s
    /\ EvWait 6 [3%nat] ∈ log s
    /\ is_settled 6 s
    /\ is_settled 3 s.
Proof.
  destruct (exec plain (settle_after_launch (Rej (VStr "no"))) (start plain Cascade))
    as [s|] eqn:He; [|vm_compute in He; discriminate].
  exists s. split; [reflexivity|].
  assert (Hw : EvWait 6 [3%nat] ∈ log s).
  { vm_compute in He. inversion He. simpl. apply list_elem_of_here. }
  assert (Hs : is_settled 6 s).
  { vm_compute in He. inversion He. eexists. reflexivity. }
  split; [exact Hw|]. split; [exact Hs|].
  apply (proj2 (proj1 (proj2 (settle_once plain Cascade)) _ s He) 6%nat [3%nat] Hw Hs).
  apply list_elem_of_here.
Defined.

(** C5 (as amended): what holds when settle resolves.  The promise of
    a call of settle is never rejected: in every run it is only ever
    fulfilled, with undefined.  When the call that waited is resolved,
    every operation of its snapshot is untracked, and whatever is still
    tracked was launched after that call; if the token was armed when the
    call was made, nothing is tracked at all. *)
Theorem settle_postcondition (this : Fjord.t) (m : Mode) :
  (forall s, role_of (fst (Estuary.settle s)) (snd (Estuary.settle s)) = Some RSettle)
  /\ (forall acts s,
        exec this acts (start this m) = Some s ->
        (forall ps o, role_of ps s = Some RSettle -> settled_as ps o s -> o = Ful VUndefined)
        /\ forall ps snap,
             EvWait ps snap ∈ log s -> is_settled ps s ->
             (forall fp, fp ∈ snap -> fp ∉ flows s)
             /\ (forall fp, fp ∈ flows s -> (ps < fp)%nat))
  /\ (forall acts1 s1 acts2 s,
        exec this acts1 (start this m) = Some s1 ->
        settled s1 = false -> frozen s1 = true ->
        exec this acts2 (snd (Estuary.settle s1)) = Some s ->
        is_settled (fst (Estuary.settle s1)) s ->
        flows s = []).
Proof.
  split; [exact role_of_settle|]. split.
  - intros acts s He.
    assert (HT : Typed s) by (eapply Typed_exec; [apply Typed_start | exact He]).
    assert (HO : Ordered s).
    { eapply Ordered_exec; [apply Typed_start | apply Ordered_start | exact He]. }
    split.
    + intros ps o Hr Hs. apply settled_as_lookup in Hs. destruct Hs as (pr & Hl & Hst).
      apply role_of_lookup in Hr. destruct Hr as (pr' & Hl' & Hr').
      assert (pr' = pr) by congruence. subst pr'.
      pose proof (typed_settled s HT _ pr o Hl Hst) as Hok. rewrite Hr' in Hok.
      exact Hok.
    + intros ps snap Hw Hs. destruct (wait_over s ps snap HT HO Hw Hs) as (H1 & H2).
      split; [|exact H2]. intros fp Hfp. exact (proj2 (H1 fp Hfp)).
  - intros acts1 s1 acts2 s He1 Hst Hf He2 Hs.
    assert (HT1 : Typed s1) by (eapply Typed_exec; [apply Typed_start | exact He1]).
    assert (HO1 : Ordered s1).
    { eapply Ordered_exec; [apply Typed_start | apply Ordered_start | exact He1]. }
    destruct (settle_first s1 Hst) as (Hps & _ & Hfl & Hlog & _).
    assert (HT : Typed s).
    { eapply Typed_exec; [|exact He2]. apply Typed_settle. exact HT1. }
    assert (HO : Ordered s).
    { eapply Ordered_exec; [| |exact He2].
      - apply Typed_settle. exact HT1.
      - apply Ordered_settle. exact HO1. }
    assert (Hw : EvWait (fst (Estuary.settle s1)) (flows s1) ∈ log s).
    { apply (exec_keeps log_grows this acts2 _ s He2). rewrite Hlog.
      apply elem_of_app. right. apply list_elem_of_here. }
    destruct (wait_over s _ _ HT HO Hw Hs) as (H1 & _).
    assert (Hsub : forall fp, fp ∈ flows s -> fp ∈ flows s1).
    { intros fp Hfp.
      destruct (keeps_settle stays_closed s1 Hf) as (Hf' & Hsub1).
      destruct (exec_keeps stays_closed this acts2 _ s He2 Hf') as (_ & Hsub2).
      auto. }
    assert (Hnone : forall fp, fp ∉ flows s).
    { intros fp Hin. exact (proj2 (H1 fp (Hsub fp Hin)) Hin). }
    destruct (flows s) as [|fp l]; [reflexivity|].
    destruct (Hnone fp). apply list_elem_of_here.
Qed.

Lemma settle_postcondition_witness :
  exists s,
    exec plain (settle_after_launch (Rej (VStr "no"))) (start plain Cascade) = Some s
    /\ state_of 6 s = Some (Settled (Ful VUndefined))
    /\ 3%nat ∉ flows s.
Proof.
  destruct (exec plain (settle_after_launch (Rej (VStr "no"))) (start plain Cascade))
    as [s|] eqn:He; [|vm_compute in He; discriminate].
  exists s. split; [reflexivity|].
  assert (Hw : EvWait 6 [3%nat] ∈ log s).
  { vm_compute in He. inversion He. simpl. apply list_elem_of_here. }
  assert (Hs : state_of 6 s = Some (Settled (Ful VUndefined))).
  { vm_compute in He. inversion He. reflexivity. }
  split; [exact Hs|].
  apply (proj1 (proj2 (proj1 (proj2 (settle_postcondition plain Cascade)) _ s He)
                  6%nat [3%nat] Hw (ex_intro _ _ Hs))).
  apply list_elem_of_here.
Defined.

(** * Further properties of the code *)

(** In every run, when the promise returned by a launch is settled,
    the handle has settled with the same outcome, is no longer tracked
    and, if the outcome is a failure, the token is armed. *)
Lemma flow_safe this m acts1 u acts2 s1 s :
  exec this acts1 (start this m) = Some s1 ->
  frozen s1 = false ->
  exec this acts2 (snd (Estuary.flow u s1)) = Some s ->
  let fp := (length (heap s1) + 1)%nat in
  let p := fst (Estuary.flow u s1) in
  forall o, state_of p s = Some (Settled o) ->
    state_of fp s = Some (Settled o)
    /\ (fp ∉ flows s)
    /\ (forall e, o = Rej e -> frozen s = true).
Proof.
  intros He1 Hf He2 fp p o Hs.
  assert (HT : Typed s).
  { eapply Typed_exec; [|exact He2]. apply Typed_flow.
    eapply Typed_exec; [|exact He1]. apply Typed_start. }
  assert (Hr : role_of p s = Some (RFlowResult fp)).
  { eapply (role_of_evolves (snd (Estuary.flow u s1)));
      [eapply (exec_keeps evolves); exact He2|].
    subst p fp. rewrite (flow_unfrozen u s1 Hf). unfold role_of. cbn [fst snd heap].
    rewrite lookup_fresh. reflexivity. }
  apply role_of_lookup in Hr. destruct Hr as (pr & Hp & Hrole).
  assert (Hst : pstate pr = Settled o).
  { unfold state_of in Hs. rewrite Hp in Hs. simpl in Hs. congruence. }
  pose proof (typed_settled s HT p pr o Hp Hst) as Hok.
  rewrite Hrole in Hok. destruct Hok as ((H1 & H2) & H3). auto.
Qed.
(** ** Progress: reactions and jobs are not lost *)

Lemma persists_same s s' :
  heap s' = heap s -> queue s' = queue s -> persists s s'.
Proof.
  intros Hh Hq. split; [exists []; rewrite app_nil_r; exact Hq|].
  intros d r Hr. left. rewrite (rx_same s s' d Hh). exact Hr.
Qed.

Global Instance persists_frame : Frame persists.
Proof.
  split.
  - intros s. apply persists_same; reflexivity.
  - intros s1 s2 s3 ((l1 & Q1) & R1) ((l2 & Q2) & R2).
    split; [exists (l1 ++ l2); rewrite Q2, Q1, app_assoc; reflexivity|].
    intros d r Hr. destruct (R1 d r Hr) as [H | (o & H)]; [auto|].
    right. exists o. rewrite Q2. apply elem_of_app. left. exact H.
  - intros r st s. split; [exists []; simpl; rewrite app_nil_r; reflexivity|].
    intros d x Hx. left.
    destruct (new_promise_view r st s) as (Vx & _). rewrite Vx. exact Hx.
  - intros j s. split; [exists [j]; reflexivity|]. intros d r Hr. left. exact Hr.
  - intros e s. apply persists_same; reflexivity.
  - intros ag s. apply persists_same; reflexivity.
  - intros a i o s. unfold count_down.
    destruct (aggs s !! a) as [ag|]; [|apply persists_same; reflexivity].
    destruct (values ag !! i) as [[x|]|]; apply persists_same; reflexivity.
  - intros p o s. destruct (state_of_cases p s) as [Hp | Hp].
    + destruct (settle_promise_pending_view p o s Hp) as (Vx & _ & _ & Vq & _).
      split; [eexists; exact Vq|]. intros d r Hr. rewrite Vx.
      destruct (decide (d = p)) as [->|Hne]; [|left; exact Hr].
      right. exists o. rewrite Vq. apply elem_of_app. right.
      apply list_elem_of_fmap. exists r. auto.
    + rewrite settle_promise_other; [apply persists_same; reflexivity|].
      destruct Hp as [(x & Hx) | Hx]; unfold settled_as in *; congruence.
  - intros p r s. destruct (state_of_cases p s) as [Hp | [(o & Hp) | Hp]].
    + destruct (perform_then_pending_view p r s Hp) as (Vx & _ & _ & Vq & _).
      split; [exists []; rewrite app_nil_r; exact Vq|].
      intros d x Hx. left. rewrite Vx. destruct (decide (d = p)) as [->|Hne]; [|exact Hx].
      apply elem_of_app. left. exact Hx.
    + rewrite (perform_then_settled p r o s Hp).
      split; [eexists; reflexivity|]. intros d x Hx. left. exact Hx.
    + rewrite (perform_then_none p r s Hp). apply persists_same; reflexivity.
  - intros s. apply persists_same; reflexivity.
  - intros p s. apply persists_same; reflexivity.
Qed.

Global Instance persists_freeze : FreezeFrame persists.
Proof. split; [apply _|]. intros s. apply persists_same; reflexivity. Qed.

(** What a step does to the queue: a tick runs the head job and takes
    it off; any other action only appends. *)
Lemma step_persists this a s s' :
  step this a s = Some s' ->
  match a with
  | ATick =>
      exists j q, queue s = j :: q
        /\ s' = with_queue tail (snd (run_job this j s))
        /\ persists s (snd (run_job this j s))
  | _ => persists s s'
  end.
Proof.
  intros Hs. destruct a.
  - simpl in Hs. inversion Hs. apply keeps_flow; [apply _|].
    intros p s0. apply persists_same; reflexivity.
  - simpl in Hs. inversion Hs. apply keeps_settle. apply _.
  - simpl in Hs. destruct (caller_owned p s); inversion Hs.
    apply frame_settle_promise.
  - destruct (queue s) as [|j q] eqn:Hq; [simpl in Hs; rewrite Hq in Hs; discriminate|].
    rewrite (tick_eq this j q s Hq) in Hs. inversion Hs.
    exists j, q. split; [reflexivity|]. split; [reflexivity|].
    apply keeps_run_job. apply _.
  - simpl in Hs. destruct (queue s); [|discriminate].
    destruct (timers s) as [|tm rest]; inversion Hs.
    apply (keeps_bind persists pop_timer (fun _ => run_timer this (callback tm))).
    + intros s0. apply persists_same; reflexivity.
    + intros _. apply keeps_run_timer. apply _.
Qed.

Lemma job_alive_stable this j P :
  stable this P -> yields this j P -> stable this (job_alive j P).
Proof.
  intros HP Hy a s s' HT HO Hj Hs. destruct Hj as [Hj | Hj]; [|right; eauto].
  pose proof (step_persists this a s s' Hs) as Hp.
  destruct a; try (destruct Hp as ((l & Hq) & _); left; rewrite Hq;
                   apply elem_of_app; left; exact Hj).
  destruct Hp as (j0 & q & Hq & -> & (l & Hl) & _).
  rewrite Hq in Hj. apply elem_of_cons in Hj. destruct Hj as [-> | Hj].
  - right. apply (Hy q s HT HO Hq).
  - left. simpl. rewrite Hl, Hq. simpl. apply elem_of_app. left. exact Hj.
Qed.

Lemma reaction_alive_stable this r d P :
  stable this P -> (forall o, yields this (JReact r o) P) ->
  stable this (reaction_alive r d P).
Proof.
  intros HP Hy a s s' HT HO Hr Hs.
  destruct Hr as [Hr | [(o & Hj) | Hr]]; [| |right; right; eauto].
  - pose proof (step_persists this a s s' Hs) as Hp.
    destruct a; try (destruct Hp as (_ & Hp); destruct (Hp d r Hr) as [H | H];
                     [left; exact H | right; left; exact H]).
    destruct Hp as (j0 & q & Hq & -> & (l & Hl) & Hp).
    destruct (Hp d r Hr) as [H | (o & H)]; [left; exact H|].
    rewrite Hl, Hq in H. simpl in H. apply elem_of_cons in H.
    destruct H as [H | H].
    + right; right. subst j0. apply (Hy o q s HT HO Hq).
    + right; left. exists o. simpl. rewrite Hl, Hq. exact H.
  - assert (Ha : job_alive (JReact r o) P s') .
    { apply (job_alive_stable this (JReact r o) P HP (Hy o) a s s' HT HO); [|exact Hs].
      left. exact Hj. }
    destruct Ha as [Ha | Ha]; [right; left; eauto | right; right; exact Ha].
Qed.

Lemma stable_and this P Q :
  stable this P -> stable this Q -> stable this (fun s => P s /\ Q s).
Proof. intros HP HQ a s s' HT HO (H1 & H2) Hs. split; eauto. Qed.

Lemma stable_exec this P acts : forall s s',
  stable this P -> Typed s -> Ordered s -> P s -> exec this acts s = Some s' -> P s'.
Proof.
  induction acts as [|a acts IH]; simpl; intros s s' HP HT HO Hp He.
  - inversion He. subst. exact Hp.
  - destruct (step this a s) as [s1|] eqn:Hs; [|discriminate].
    apply (IH s1); auto.
    + eapply Typed_step; eauto.
    + eapply Ordered_step; eauto.
    + eapply HP; eauto.
Qed.

Lemma stable_is_settled this p : stable this (is_settled p).
Proof.
  intros a s s' _ _ Hp Hs. eapply is_settled_evolves; [|exact Hp].
  eapply step_keeps; [apply _ | exact Hs].
Qed.

(** ** Progress: the queue is served in order *)

Lemma eventually_now this (P : State -> Prop) s : P s -> eventually this P s.
Proof. intros H. exists 0%nat, s. split; [reflexivity | exact H]. Qed.

Lemma eventually_then this (P Q : State -> Prop) s :
  eventually this P s ->
  (forall s', P s' -> eventually this Q s') ->
  eventually this Q s.
Proof.
  intros (n & s1 & He & Hp) Hq. destruct (Hq s1 Hp) as (n2 & s2 & He2 & Hq2).
  exists (n + n2)%nat, s2. split; [|exact Hq2].
  rewrite repeat_app, exec_app, He. exact He2.
Qed.

(** What holds and is stable still holds after the jobs. *)
Lemma eventually_keep this (P Q : State -> Prop) s :
  stable this Q -> Typed s -> Ordered s -> Q s ->
  eventually this P s ->
  eventually this (fun s' => P s' /\ Q s' /\ Typed s' /\ Ordered s') s.
Proof.
  intros HQ HT HO Hq (n & s' & He & Hp). exists n, s'. split; [exact He|].
  split; [exact Hp|]. split; [eapply stable_exec; eauto|].
  split; [eapply Typed_exec; eauto | eapply Ordered_exec; eauto].
Qed.

(** The next stage of a pipeline: [P] is reached while [Q] is kept. *)
Lemma eventually_step this (P Q R : State -> Prop) s :
  stable this Q -> Typed s -> Ordered s -> Q s ->
  eventually this P s ->
  (forall s', P s' -> Q s' -> Typed s' -> Ordered s' -> eventually this R s') ->
  eventually this R s.
Proof.
  intros HQ HT HO Hq Hp Hr.
  apply (eventually_then this (fun s' => P s' /\ Q s' /\ Typed s' /\ Ordered s')).
  - apply eventually_keep; assumption.
  - intros s' (H1 & H2 & H3 & H4). auto.
Qed.

Lemma stable_true this : stable this (fun _ => True).
Proof. intros a s s' _ _ _ _. exact I. Qed.

Lemma exec_cons this a acts s :
  exec this (a :: acts) s
  = match step this a s with
    | Some s' => exec this acts s'
    | None => None
    end.
Proof. reflexivity. Qed.

Lemma job_served this j (P : State -> Prop) : forall k s,
  yields this j P -> Typed s -> Ordered s ->
  queue s !! k = Some j -> eventually this P s.
Proof.
  induction k as [|k IH]; intros s Hy HT HO Hk.
  - destruct (queue s) as [|j0 q] eqn:Hq; [discriminate|].
    simpl in Hk. inversion Hk. subst j0.
    exists 1%nat, (with_queue tail (snd (run_job this j s))).
    split; [|apply (Hy q s HT HO Hq)].
    cbn [repeat]. rewrite exec_cons, (tick_eq this j q s Hq). reflexivity.
  - destruct (queue s) as [|j0 q] eqn:Hq; [discriminate|].
    simpl in Hk.
    set (s1 := with_queue tail (snd (run_job this j0 s))).
    assert (Hs : step this ATick s = Some s1) by exact (tick_eq this j0 q s Hq).
    destruct (keeps_run_job queue_grows this j0 s) as (l & Hl).
    assert (Hk1 : queue s1 !! k = Some j).
    { subst s1. simpl. rewrite Hl, Hq. simpl. apply lookup_app_l_Some. exact Hk. }
    destruct (IH s1 Hy) as (n & s2 & He & Hp); auto.
    + eapply Typed_step; eauto.
    + eapply Ordered_step; eauto.
    + exists (S n), s2. split; [|exact Hp].
      cbn [repeat]. rewrite exec_cons, Hs. exact He.
Qed.

Lemma job_alive_served this j (P : State -> Prop) s :
  yields this j P -> Typed s -> Ordered s ->
  job_alive j P s -> eventually this P s.
Proof.
  intros Hy HT HO [Hj | Hp]; [|apply eventually_now; exact Hp].
  apply list_elem_of_lookup in Hj. destruct Hj as (k & Hk).
  eapply job_served; eauto.
Qed.

Lemma reaction_alive_served this r d (P : State -> Prop) s :
  (forall o, yields this (JReact r o) P) -> Typed s -> Ordered s ->
  is_settled d s -> reaction_alive r d P s -> eventually this P s.
Proof.
  intros Hy HT HO Hd [Hr | [(o & Hj) | Hp]].
  - rewrite (ord_quiet s HO d Hd) in Hr. inversion Hr.
  - apply (job_alive_served this (JReact r o)); auto. left. exact Hj.
  - apply eventually_now. exact Hp.
Qed.
(** ** Progress of a launched operation *)

Lemma stable_untracked this fp :
  stable this (fun s => is_settled fp s /\ fp ∉ flows s).
Proof.
  intros a s s' _ _ ((o & Ho) & Hn) Hs.
  pose proof (step_keeps evolves this a s s' Hs) as He.
  split; [eapply is_settled_evolves; eauto; exists o; exact Ho|].
  destruct He as (_ & _ & He). eauto.
Qed.

Lemma is_settled_pop p s : is_settled p (with_queue tail s) <-> is_settled p s.
Proof. reflexivity. Qed.

Lemma yields_then this fp o :
  yields this (JReact (then_reaction fp) o) (is_settled (S fp)).
Proof.
  intros q s HT HO Hq.
  destruct (Ordered_run_job this _ q s HT HO Hq) as (_ & Hd).
  apply is_settled_pop. apply Hd. reflexivity.
Qed.

Lemma yields_forward this p o :
  yields this (JReact (forward_to p) o) (is_settled p).
Proof.
  intros q s HT HO Hq. apply is_settled_pop.
  assert (Hj : job_ok s (JReact (forward_to p) o)).
  { apply (typed_queue s HT). rewrite Hq. apply list_elem_of_here. }
  destruct Hj as (Ht & _). simpl. unfold bind.
  assert (Hr : exists r, role_of p s = Some r).
  { destruct Ht as [H | [H | (fp & H)]]; eauto. }
  destruct Hr as (r & Hr).
  pose proof (settle_promise_settles p o r s Hr) as H.
  destruct (settle_promise p o s) as [u s1]. exact H.
Qed.

Lemma stable_forwarding this p b : stable this (forwarding p b).
Proof.
  apply reaction_alive_stable; [apply stable_is_settled|].
  intros o. apply yields_forward.
Qed.

Lemma yields_thunk this o b :
  yields this (thunk_job o b) (is_settled b).
Proof.
  intros q s HT HO Hq. apply is_settled_pop.
  assert (Hj : job_ok s (thunk_job o b)).
  { apply (typed_queue s HT). rewrite Hq. apply list_elem_of_here. }
  destruct Hj as (fp & Hr & _). simpl. unfold bind.
  destruct o as [v|e]; simpl; eapply settle_promise_settles; eauto.
Qed.

Lemma yields_thenable this p b :
  yields this (JThenable p b) (forwarding p b).
Proof.
  intros q s HT HO Hq.
  assert (Hj : job_ok s (JThenable p b)).
  { apply (typed_queue s HT). rewrite Hq. apply list_elem_of_here. }
  assert (Hb : exists r, role_of b s = Some r).
  { destruct Hj as [(_ & H) | (fp & _ & H)]; eauto. }
  destruct Hb as (r & Hb). simpl.
  destruct (state_of_cases b s) as [Hp | [(o & Hp) | Hp]].
  - left.
    destruct (perform_then_pending_view b (forward_to p) s Hp) as (Vx & _).
    change (forward_to p ∈ rx b (snd (perform_then b (forward_to p) s))).
    rewrite Vx. destruct (decide (b = b)); [|contradiction].
    apply elem_of_app. right. apply list_elem_of_here.
  - right; left. exists o.
    change (JReact (forward_to p) o
              ∈ tail (queue (snd (perform_then b (forward_to p) s)))).
    rewrite (perform_then_settled b (forward_to p) o s Hp). simpl. rewrite Hq. simpl.
    apply elem_of_app. right. apply list_elem_of_here.
  - apply role_of_lt in Hb. unfold state_of in Hp.
    destruct (heap s !! b) eqn:Hl; [discriminate|].
    apply lookup_ge_None in Hl. lia.
Qed.

Lemma stable_handed_over this fp p : stable this (handed_over fp p).
Proof.
  intros a s s' HT HO (H1 & o & b & H2 & H3) Hs. split.
  - eapply (stable_untracked this fp); eauto.
  - exists o, b. split.
    + eapply (job_alive_stable this (thunk_job o b)); eauto.
      * apply stable_is_settled.
      * apply yields_thunk.
    + eapply (job_alive_stable this (JThenable p b)); eauto.
      * apply stable_forwarding.
      * apply yields_thenable.
Qed.

(** The jobs the finally-callback queues. *)
Lemma finally_run_queue this fp p o s :
  queue (snd (run_job this (JReact (finally_reaction fp p) o) s))
  = queue s ++ [thunk_job o (S (length (heap s))); JThenable p (S (length (heap s)))].
Proof.
  destruct s as [tok fl st h ag q tm lg].
  simpl. unfold_prims. simpl. heap_norm. simpl.
  replace (length h + 1)%nat with (S (length h)) by lia. reflexivity.
Qed.

Lemma yields_finally this fp p o :
  yields this (JReact (finally_reaction fp p) o) (handed_over fp p).
Proof.
  intros q s HT HO Hq.
  assert (Hj : job_ok s (JReact (finally_reaction fp p) o)).
  { apply (typed_queue s HT). rewrite Hq. apply list_elem_of_here. }
  destruct Hj as (_ & Hd & _).
  pose proof (keeps_run_job evolves this (JReact (finally_reaction fp p) o) s) as He.
  pose proof (finally_run_queue this fp p o s) as Hrq.
  pose proof (proj1 (finally_removes this fp p o s)) as Hrm.
  set (s1 := snd (run_job this (JReact (finally_reaction fp p) o) s)) in *.
  split.
  - split; [apply is_settled_pop; eapply is_settled_evolves; eauto; eexists; exact Hd|].
    exact Hrm.
  - exists o, (S (length (heap s))). split; left; simpl; rewrite Hrq, Hq; simpl;
      apply elem_of_app; right.
    + apply list_elem_of_here.
    + apply list_elem_of_further, list_elem_of_here.
Qed.

(** In every run, once the handle of a launch has settled, finitely
    many jobs later the promise the launch returned is settled and the
    handle is untracked. *)
Lemma flow_delivers this m acts1 u acts2 s1 s :
  exec this acts1 (start this m) = Some s1 ->
  frozen s1 = false ->
  exec this acts2 (snd (Estuary.flow u s1)) = Some s ->
  let fp := (length (heap s1) + 1)%nat in
  let p := fst (Estuary.flow u s1) in
  is_settled fp s ->
  eventually this (fun s' => is_settled p s' /\ is_settled fp s' /\ fp ∉ flows s') s.
Proof.
  intros He1 Hf He2 fp p Hfp.
  assert (HT1 : Typed s1) by (eapply Typed_exec; [apply Typed_start | exact He1]).
  assert (HO1 : Ordered s1).
  { eapply Ordered_exec; [apply Typed_start | apply Ordered_start | exact He1]. }
  set (s0 := snd (Estuary.flow u s1)) in *.
  assert (HT0 : Typed s0) by exact (proj1 (Typed_flow u s1 HT1)).
  assert (HO0 : Ordered s0) by (apply Ordered_flow; exact HO1).
  assert (HT : Typed s) by (eapply Typed_exec; [exact HT0 | exact He2]).
  assert (HO : Ordered s) by (eapply Ordered_exec; [exact HT0 | exact HO0 | exact He2]).
  destruct (flow_view u s1 Hf) as (_ & _ & _ & (V1x & _) & (V2x & _) & _).
  fold s0 in V1x, V2x.
  assert (Efp : fp = S (length (heap s1))) by (unfold fp; lia).
  assert (Ep : p = S (S fp)).
  { unfold p. rewrite (flow_unfrozen u s1 Hf). simpl. lia. }
  rewrite <- Efp in V1x, V2x. rewrite <- Ep in V2x.
  assert (A : reaction_alive (then_reaction fp) fp (is_settled (S fp)) s).
  { apply (stable_exec this _ acts2 s0 s); auto.
    - apply reaction_alive_stable; [apply stable_is_settled|].
      intros o. apply yields_then.
    - left. rewrite V1x. apply list_elem_of_here. }
  assert (B : reaction_alive (finally_reaction fp p) (S fp) (handed_over fp p) s).
  { apply (stable_exec this _ acts2 s0 s); auto.
    - apply reaction_alive_stable; [apply stable_handed_over|].
      intros o. apply yields_finally.
    - left. rewrite V2x. apply list_elem_of_here. }
  assert (SB : stable this (reaction_alive (finally_reaction fp p) (S fp) (handed_over fp p))).
  { apply reaction_alive_stable; [apply stable_handed_over|].
    intros o. apply yields_finally. }
  (* the then-callback *)
  apply (eventually_step this (is_settled (S fp))
           (reaction_alive (finally_reaction fp p) (S fp) (handed_over fp p)) _ s);
    auto.
  { apply (reaction_alive_served this (then_reaction fp) fp); auto.
    intros o. apply yields_then. }
  intros s2 Hd B2 HT2 HO2.
  (* the finally-callback *)
  apply (eventually_step this (handed_over fp p) (fun _ => True) _ s2); auto.
  { apply stable_true. }
  { apply (reaction_alive_served this (finally_reaction fp p) (S fp)); auto.
    intros o. apply yields_finally. }
  intros s3 (Hun & o & b & J1 & J2) _ HT3 HO3.
  (* the thunk *)
  apply (eventually_step this (is_settled b)
           (fun x => job_alive (JThenable p b) (forwarding p b) x
                     /\ (is_settled fp x /\ fp ∉ flows x)) _ s3); auto.
  { apply stable_and; [|apply stable_untracked].
    apply job_alive_stable; [apply stable_forwarding | apply yields_thenable]. }
  { apply (job_alive_served this (thunk_job o b)); auto. apply yields_thunk. }
  intros s4 Hb (J2' & Hun4) HT4 HO4.
  (* the thenable job *)
  apply (eventually_step this (forwarding p b)
           (fun x => is_settled b x /\ (is_settled fp x /\ fp ∉ flows x)) _ s4); auto.
  { apply stable_and; [apply stable_is_settled | apply stable_untracked]. }
  { apply (job_alive_served this (JThenable p b)); auto. apply yields_thenable. }
  intros s5 Hfw (Hb5 & Hun5) HT5 HO5.
  (* the forward *)
  apply (eventually_step this (is_settled p)
           (fun x => is_settled fp x /\ fp ∉ flows x) _ s5); auto.
  { apply stable_untracked. }
  { apply (reaction_alive_served this (forward_to p) b); auto.
    intros o'. apply yields_forward. }
  intros s6 Hp Hun6 _ _. apply eventually_now.
  split; [exact Hp | exact Hun6].
Qed.
(** X1: a launch delivers.  In every run of a call, for every launch on
    an open scope: once the handle of the launch has settled with an
    outcome, finitely many jobs of the host later the promise the launch
    returned is settled with that outcome, the handle is no longer
    tracked and, if the outcome is a failure, the token is armed. *)
Theorem launch_progress (this : Fjord.t) (m : Mode) acts1 u acts2 s1 s o :
  exec this acts1 (start this m) = Some s1 ->
  frozen s1 = false ->
  exec this acts2 (snd (Estuary.flow u s1)) = Some s ->
  let fp := (length (heap s1) + 1)%nat in
  let p := fst (Estuary.flow u s1) in
  state_of fp s = Some (Settled o) ->
  eventually this
    (fun s' => state_of p s' = Some (Settled o)
               /\ (fp ∉ flows s')
               /\ (forall e, o = Rej e -> frozen s' = true)) s.
Proof.
  intros He1 Hf He2 fp p Ho.
  destruct (flow_delivers this m acts1 u acts2 s1 s He1 Hf He2 (ex_intro _ o Ho))
    as (n & s' & Hn & (o' & Hp) & _ & Hun).
  exists n, s'. split; [exact Hn|].
  assert (He3 : exec this (acts2 ++ repeat ATick n) (snd (Estuary.flow u s1)) = Some s').
  { rewrite exec_app, He2. exact Hn. }
  destruct (flow_safe this m acts1 u _ s1 s' He1 Hf He3 o' Hp) as (Hfp' & _ & Hfr).
  assert (Hfp : state_of fp s' = Some (Settled o)).
  { apply (settled_as_evolves s s'); [|exact Ho].
    eapply (exec_keeps evolves); exact Hn. }
  fold fp in Hfp'. unfold settled_as in Hp.
  assert (o' = o) by congruence. subst o'. auto.
Qed.

Lemma launch_progress_witness :
  exists s,
    exec plain [ATick] (snd (Estuary.flow (USync (Rej (VStr "no"))) (start plain Cascade)))
      = Some s
    /\ eventually plain
         (fun s' => state_of 5 s' = Some (Settled (Rej (VStr "no")))
                    /\ (3%nat ∉ flows s')
                    /\ (forall e, Rej (VStr "no") = Rej e -> frozen s' = true)) s.
Proof.
  destruct (exec plain [ATick]
              (snd (Estuary.flow (USync (Rej (VStr "no"))) (start plain Cascade))))
    as [s|] eqn:He; [|vm_compute in He; discriminate].
  exists s. split; [reflexivity|].
  apply (launch_progress plain Cascade [] (USync (Rej (VStr "no"))) [ATick]
           (start plain Cascade) s (Rej (VStr "no")) eq_refl eq_refl He).
  vm_compute in He. inversion He. reflexivity.
Defined.
(** ** A failure closes the scope *)

(** X2: a failure closes the scope.  In every run of a call, once the
    promise returned by a launch is rejected, the token is armed, and at
    any later moment a launch is refused: it returns a promise already
    rejected with the scope-closed error, tracks nothing and queues
    nothing. *)
Theorem failed_launch_closes_scope (this : Fjord.t) (m : Mode) acts1 u acts2 s1 s e :
  exec this acts1 (start this m) = Some s1 ->
  frozen s1 = false ->
  exec this acts2 (snd (Estuary.flow u s1)) = Some s ->
  state_of (fst (Estuary.flow u s1)) s = Some (Settled (Rej e)) ->
  frozen s = true
  /\ forall acts3 s3 u',
       exec this acts3 s = Some s3 ->
       let r := Estuary.flow u' s3 in
       state_of (fst r) (snd r) = Some (Settled (Rej Estuary.ScopeClosed))
       /\ flows (snd r) = flows s3
       /\ queue (snd r) = queue s3
       /\ log (snd r) = log s3.
Proof.
  intros He1 Hf He2 Hp.
  destruct (flow_safe this m acts1 u acts2 s1 s He1 Hf He2 (Rej e) Hp) as (_ & _ & Hfr).
  specialize (Hfr e eq_refl). split; [exact Hfr|].
  intros acts3 s3 u' He3 r. subst r.
  assert (Hf3 : frozen s3 = true).
  { exact (exec_keeps stays_frozen this acts3 s s3 He3 Hfr). }
  rewrite (flow_frozen u' s3 Hf3). cbn [fst snd].
  split; [|auto]. unfold state_of. simpl. rewrite lookup_fresh0. reflexivity.
Qed.

Lemma failed_launch_closes_scope_witness :
  exists s,
    exec plain [ATick; ATick; ATick; ATick; ATick; ATick]
      (snd (Estuary.flow (USync (Rej (VStr "no"))) (start plain Cascade))) = Some s
    /\ frozen s = true.
Proof.
  destruct (exec plain [ATick; ATick; ATick; ATick; ATick; ATick]
              (snd (Estuary.flow (USync (Rej (VStr "no"))) (start plain Cascade))))
    as [s|] eqn:He; [|vm_compute in He; discriminate].
  exists s. split; [reflexivity|].
  apply (failed_launch_closes_scope plain Cascade [] (USync (Rej (VStr "no")))
           [ATick; ATick; ATick; ATick; ATick; ATick] (start plain Cascade) s (VStr "no")
           eq_refl eq_refl He).
  vm_compute in He. inversion He. reflexivity.
Defined.

(** ** [Estuary.isFrozen] *)

(** X3: what [estuary.isFrozen()] answers.  The call leaves the state
    as it is, and its answer is exactly whether a launch made at that
    moment is refused: it answers true if and only if [flow] returns a
    promise already rejected with the scope-closed error; when it answers
    false the launch is accepted, its promise is pending and its handle
    is tracked. *)
Theorem isFrozen_decides_flow (u : Undertaking) (s : State) :
  let answer := fst (Estuary.isFrozen s) in
  let r := Estuary.flow u s in
  snd (Estuary.isFrozen s) = s
  /\ (answer = true <->
      state_of (fst r) (snd r) = Some (Settled (Rej Estuary.ScopeClosed)))
  /\ (answer = true -> flows (snd r) = flows s /\ queue (snd r) = queue s)
  /\ (answer = false ->
      state_of (fst r) (snd r) = Some Pending
      /\ (length (heap s) + 1)%nat ∈ flows (snd r)).
Proof.
  intros answer r. subst answer r. cbn [Estuary.isFrozen get fst snd].
  fold (frozen s). split; [reflexivity|].
  destruct (frozen s) eqn:Hf.
  - rewrite (flow_frozen u s Hf). cbn [fst snd].
    assert (H : state_of (length (heap s))
                  (with_heap (fun h => h ++ [{| role := RClosed;
                                                pstate := Settled (Rej Estuary.ScopeClosed);
                                                reactions := [] |}]) s)
                = Some (Settled (Rej Estuary.ScopeClosed))).
    { unfold state_of. simpl. rewrite lookup_fresh0. reflexivity. }
    split; [tauto|]. split; [auto | discriminate].
  - assert (Hp : state_of (fst (Estuary.flow u s)) (snd (Estuary.flow u s)) = Some Pending).
    { rewrite (flow_unfrozen u s Hf). cbn [fst snd]. unfold state_of. cbn [heap].
      rewrite lookup_fresh. reflexivity. }
    split; [|split; [discriminate|]].
    + split; [discriminate|]. rewrite Hp. discriminate.
    + intros _. split; [exact Hp | exact (flow_tracks u s Hf)].
Qed.

(** ** The timer of a call *)

#[export] Instance same_timers_frame : FreezeFrame same_timers.
Proof.
  split; [split|]; unfold keeps, same_timers;
    [ reflexivity | intros s1 s2 s3 H1 H2; congruence | .. ];
    unfold_prims; intros; simpl in *; prim_case; reflexivity.
Qed.

Lemma step_timers this a s s' :
  step this a s = Some s' -> a <> ATimer -> same_timers s s'.
Proof.
  intros Hs Hne. destruct a; simpl in Hs.
  - inversion Hs. apply (keeps_flow same_timers u). intros p x. reflexivity.
  - inversion Hs. apply (keeps_settle same_timers).
  - destruct (caller_owned p s); inversion Hs.
    apply (frame_settle_promise (R := same_timers)).
  - destruct (queue s) as [|j q]; inversion Hs.
    apply (keeps_bind same_timers pop_job (fun _ => run_job this j)).
    + intros x. reflexivity.
    + intros _. apply keeps_run_job. apply _.
  - contradiction.
Qed.

Lemma exec_timers this acts : forall s s',
  exec this acts s = Some s' -> no_timer_fired acts -> timers s' = timers s.
Proof.
  induction acts as [|a acts IH]; simpl; intros s s' He Hn.
  - inversion He. reflexivity.
  - destruct (step this a s) as [s1|] eqn:Hs; [|discriminate].
    rewrite (IH s1 s' He).
    + apply (step_timers this a s s1 Hs). intros ->. apply Hn. apply list_elem_of_here.
    + intros Hin. apply Hn. apply list_elem_of_further. exact Hin.
Qed.

Lemma run_timer_others this dl s q :
  q ≠ dl ->
  state_of q (snd (run_timer this (CbDeadline dl) s)) = state_of q s.
Proof.
  intros Hne. simpl. unfold bind, Estuary.freeze_token, modify. cbn [fst snd].
  destruct (settle_promise_calm dl (Rej (Fjord.timeout_error this))
              (with_token TideToken.freeze s)) as (_ & _ & _ & _ & H & _).
  rewrite (H q Hne). reflexivity.
Qed.

Lemma run_timer_freezes this dl s :
  frozen (snd (run_timer this (CbDeadline dl) s)) = true.
Proof.
  simpl. unfold bind, Estuary.freeze_token, modify. cbn [fst snd].
  apply (frame_settle_promise (R := stays_frozen)).
  unfold frozen. simpl. destruct (tideToken s) as [[]]; reflexivity.
Qed.

Lemma late_timer_run this v :
  truthy (Fjord.timeout this) = true ->
  exists s,
    exec this [AResolve body (Ful v); ATick; ATick; ATick; ATick] (start this Cascade)
      = Some s
    /\ state_of pc s = Some (Settled (Ful v))
    /\ frozen s = false
    /\ queue s = [].
Proof.
  intros Ht. rewrite (start_with_timeout this Cascade Ht).
  match goal with |- context [exec ?t ?a ?st] => set (r := exec t a st) end.
  vm_compute in r. subst r. eexists. split; [reflexivity|].
  repeat split; reflexivity.
Qed.

(** X4: the timer is never cleared.  In a call with a deadline, as long
    as the timer has not fired it stays armed, whatever else happens and
    even after the call has returned; when it fires, the token is armed
    and no promise other than the timer's own changes, so the outcome of
    a call that has returned stays.  A cascade whose body has succeeded
    returns its value with the token unarmed and the timer still armed. *)
Theorem timer_is_never_cleared (this : Fjord.t) (m : Mode) :
  truthy (Fjord.timeout this) = true ->
  (forall acts s,
     exec this acts (start this m) = Some s -> no_timer_fired acts ->
     timers s = [deadline_timer this]
     /\ forall s',
          step this ATimer s = Some s' ->
          frozen s' = true /\ timers s' = []
          /\ forall q, q ≠ deadline -> state_of q s' = state_of q s)
  /\ (forall v, exists s,
        exec this [AResolve body (Ful v); ATick; ATick; ATick; ATick] (start this Cascade)
          = Some s
        /\ state_of pc s = Some (Settled (Ful v))
        /\ frozen s = false
        /\ queue s = []).
Proof.
  intros Ht. split; [|intros v; apply late_timer_run; exact Ht].
  intros acts s He Hn.
  assert (Htm : timers s = [deadline_timer this]).
  { rewrite (exec_timers this acts _ s He Hn), (start_with_timeout this m Ht).
    reflexivity. }
  split; [exact Htm|].
  intros s' Hs. simpl in Hs. destruct (queue s); [|discriminate].
  rewrite Htm in Hs.
  change (Some (snd (run_timer this (CbDeadline deadline) (with_timers tail s))) = Some s')
    in Hs.
  inversion Hs as [Hs']. clear Hs Hs'.
  split; [|split].
  - apply run_timer_freezes.
  - etransitivity;
      [exact (keeps_run_timer same_timers this (CbDeadline deadline) (with_timers tail s))|].
    simpl. rewrite Htm. reflexivity.
  - intros q Hq. exact (run_timer_others this deadline (with_timers tail s) q Hq).
Qed.

Lemma timer_is_never_cleared_witness :
  truthy (Fjord.timeout timed) = true
  /\ (forall acts s,
        exec timed acts (start timed Cascade) = Some s -> no_timer_fired acts ->
        timers s = [deadline_timer timed]
        /\ forall s',
             step timed ATimer s = Some s' ->
             frozen s' = true /\ timers s' = []
             /\ forall q, q ≠ deadline -> state_of q s' = state_of q s)
  /\ (forall v, exists s,
        exec timed [AResolve body (Ful v); ATick; ATick; ATick; ATick] (start timed Cascade)
          = Some s
        /\ state_of pc s = Some (Settled (Ful v))
        /\ frozen s = false
        /\ queue s = []).
Proof.
  split; [reflexivity|]. exact (timer_is_never_cleared timed Cascade eq_refl).
Defined.
(** ** The invariant of a call *)

Lemma evolves_steady s s' : evolves s s' -> steady s s'.
Proof.
  intros He. split; [|split].
  - intros p r Hr. eapply role_of_evolves; eauto.
  - intros p o Ho. eapply settled_as_evolves; eauto.
  - exact (proj1 (proj2 He)).
Qed.

Lemma steady_role s s' p r : steady s s' -> role_of p s = Some r -> role_of p s' = Some r.
Proof. intros (H & _). apply H. Qed.

Lemma steady_settled s s' p o : steady s s' -> settled_as p o s -> settled_as p o s'.
Proof. intros (_ & H & _). apply H. Qed.

Lemma steady_frozen s s' : steady s s' -> frozen s = true -> frozen s' = true.
Proof. intros (_ & _ & H). exact H. Qed.

Lemma steady_trans s1 s2 s3 : steady s1 s2 -> steady s2 s3 -> steady s1 s3.
Proof.
  intros (A1 & A2 & A3) (B1 & B2 & B3). split; [|split]; auto.
Qed.

Lemma same_log_quiet s s' : log s' = log s -> quiet_log s s'.
Proof.
  intros Hl. split; [intros e; rewrite Hl; auto|].
  unfold reports, waits. rewrite Hl. split; reflexivity.
Qed.

Lemma wait_logged s s' ps snap :
  quiet_log s s' -> EvWait ps snap ∈ log s' -> EvWait ps snap ∈ log s.
Proof.
  intros (_ & _ & Hw) Hin.
  assert (H : In (EvWait ps snap) (waits s')).
  { apply List.filter_In. split; [apply list_elem_of_In; exact Hin | reflexivity]. }
  rewrite Hw in H. apply List.filter_In in H. apply list_elem_of_In. exact (proj1 H).
Qed.

Lemma sealed_mono this m s s' : steady s s' -> sealed this m s -> sealed this m s'.
Proof.
  intros He [H | (e & H)]; [left; exact H|]. right. exists e. eapply steady_settled; eauto.
Qed.

Lemma sealed_before this m s s' :
  steady s s' -> is_settled (awaited this) s -> sealed this m s' -> sealed this m s.
Proof.
  intros He (o & Ho) [H | (e & H)]; [left; exact H|]. right. exists e.
  pose proof (steady_settled s s' _ _ He Ho) as Ho'. unfold settled_as in *.
  assert (o = Rej e) by congruence. subst o. exact Ho.
Qed.

Lemma cause_mono this m s s' : steady s s' -> cause this m s -> cause this m s'.
Proof.
  intros He [(fp & d & e & H1 & H2) | [(Ht & (o & H)) | ((o & H1) & H2)]].
  - left. exists fp, d, e. split; [eapply steady_role; eauto | eapply steady_settled; eauto].
  - right. left. split; [exact Ht|]. exists o. eapply steady_settled; eauto.
  - right. right. split; [exists o; eapply steady_settled; eauto|].
    eapply sealed_mono; eauto.
Qed.

Lemma waited_mono s s' : steady s s' -> log_grows s s' -> waited s -> waited s'.
Proof.
  intros He Hl (ps & snap & Hin & (o & Hs)). exists ps, snap.
  split; [apply Hl; exact Hin|]. exists o. eapply steady_settled; eauto.
Qed.

Lemma won_mono this o s s' : steady s s' -> won this o s -> won this o s'.
Proof.
  intros He [H | (H1 & H2)]; [left; eapply steady_settled; eauto|].
  right. split; [exact H1|]. eapply steady_settled; eauto.
Qed.

Lemma pledge_mono this m h s s' : steady s s' -> pledge this m h s -> pledge this m h s'.
Proof.
  intros He. pose proof (steady_frozen s s' He) as Hf.
  destruct h; simpl; auto; intros (H1 & H2 & H3);
    (split; [exact H1|]); (split; [eapply steady_settled; eauto|]); auto.
Qed.

Lemma verdict_mono this m o s s' :
  steady s s' -> reports s' = reports s -> verdict this m o s -> verdict this m o s'.
Proof.
  intros He Hl. pose proof (steady_frozen s s' He) as Hf.
  destruct o as [v|x]; simpl; rewrite Hl.
  - intros (H1 & H2 & H3). split; [eapply steady_settled; eauto | auto].
  - intros (H1 & e & H2 & H3 & H4). split; [auto|]. exists e.
    split; [eapply steady_settled; eauto | auto].
Qed.

Lemma rx_fact_mono this m g p r s s' :
  steady s s' -> log_grows s s' -> rx_fact this m g p r s -> rx_fact this m g p r s'.
Proof.
  intros He Hl (H1 & H2 & H3 & H4).
  split; [eapply pledge_mono; eauto|]. split; [exact H2|]. split; [|exact H4].
  intros Ha. destruct (H3 Ha) as (H5 & H6).
  split; [eapply steady_role; eauto|].
  intros Hg. destruct (H6 Hg) as (snap & Hin). exists snap. apply Hl. exact Hin.
Qed.

Lemma job_fact_mono this m g r o s s' :
  steady s s' -> log_grows s s' -> job_fact this m g r o s -> job_fact this m g r o s'.
Proof.
  intros He Hl (H1 & H2 & H3 & H4).
  split; [eapply pledge_mono; eauto|].
  split; [intros Hb; eapply steady_settled; eauto|].
  split.
  - intros Ha. destruct (H3 Ha) as (H5 & H6).
    split; [exact H5|]. intros Hg. eapply waited_mono; eauto.
  - intros Ht Hh. eapply won_mono; eauto.
Qed.

Lemma settled_fact_mono this m g p o s s' :
  steady s s' -> quiet_log s s' ->
  settled_fact this m g p o s -> settled_fact this m g p o s'.
Proof.
  intros He (Hl & Hrep & _) (H1 & H2 & H3). split; [|split].
  - intros Hp. destruct (H1 Hp) as (H4 & H5).
    split; [eapply verdict_mono; eauto|]. intros Hg. eapply waited_mono; eauto.
  - intros Ht Hp. eapply won_mono; eauto.
  - exact H3.
Qed.

Lemma plain_pledge this m h s : plain_handler this h -> pledge this m h s.
Proof. intros (H1 & H2 & _). destruct h; try discriminate; exact I. Qed.

Lemma plain_rx_fact this m g p r s :
  plain_handler this (handler r) -> rx_fact this m g p r s.
Proof.
  intros Hp. split; [apply plain_pledge; exact Hp|].
  destruct Hp as (H1 & H2 & H3).
  split; [congruence|]. split; [congruence|]. intros Ht Hh. destruct (H3 Ht Hh).
Qed.

Lemma plain_job_fact this m g r o s :
  plain_handler this (handler r) -> job_fact this m g r o s.
Proof.
  intros Hp. split; [apply plain_pledge; exact Hp|].
  destruct Hp as (H1 & H2 & H3).
  split; [congruence|]. split; [congruence|]. intros Ht Hh. destruct (H3 Ht Hh).
Qed.

(** The job a reaction becomes when its promise settles. *)
Lemma rx_to_job this m g p r o s s' :
  rx_fact this m g p r s -> steady s s' -> log_grows s s' -> settled_as p o s' ->
  (role_of p s = Some RSettle -> o = Ful VUndefined) ->
  (has_deadline this -> p = deadline -> o = Rej (Fjord.timeout_error this)) ->
  job_fact this m g r o s'.
Proof.
  intros (H1 & H2 & H3 & H4) He Hl Hpo Hset Hdl.
  split; [eapply pledge_mono; eauto|].
  split; [intros Hb; rewrite <- (H2 Hb); exact Hpo|].
  split.
  - intros Ha. destruct (H3 Ha) as (H5 & H6). split; [auto|].
    intros Hg. destruct (H6 Hg) as (snap & Hin). exists p, snap.
    split; [apply Hl; exact Hin | exists o; exact Hpo].
  - intros Ht Hh. destruct (H4 Ht Hh) as [-> | ->].
    + left. exact Hpo.
    + right. split; [exact (Hdl Ht eq_refl) | exact Hpo].
Qed.

(** *** Counting the continuations *)

Lemma cont_rx_app l1 l2 : cont_rx (l1 ++ l2) = (cont_rx l1 + cont_rx l2)%nat.
Proof. unfold cont_rx. rewrite List.filter_app, length_app. reflexivity. Qed.

Lemma cont_jobs_app l1 l2 : cont_jobs (l1 ++ l2) = (cont_jobs l1 + cont_jobs l2)%nat.
Proof. unfold cont_jobs. rewrite List.filter_app, length_app. reflexivity. Qed.

Lemma cont_jobs_map o l : cont_jobs (map (fun r => JReact r o) l) = cont_rx l.
Proof.
  unfold cont_jobs, cont_rx. induction l as [|r l IH]; simpl; [reflexivity|].
  destruct (is_cont (handler r)); simpl; rewrite IH; reflexivity.
Qed.

Lemma cont_rx_pos l r : r ∈ l -> is_cont (handler r) = true -> (1 <= cont_rx l)%nat.
Proof.
  unfold cont_rx. induction l as [|x l IH]; intros Hin Hb; [inversion Hin|].
  simpl. apply elem_of_cons in Hin. destruct Hin as [<- | Hin].
  - rewrite Hb. simpl. lia.
  - destruct (is_cont (handler x)); simpl; [lia | auto].
Qed.

Lemma cont_jobs_pos q j : j ∈ q -> is_cont_job j = true -> (1 <= cont_jobs q)%nat.
Proof.
  unfold cont_jobs. induction q as [|x q IH]; intros Hin Hb; [inversion Hin|].
  simpl. apply elem_of_cons in Hin. destruct Hin as [<- | Hin].
  - rewrite Hb. simpl. lia.
  - destruct (is_cont_job x); simpl; [lia | auto].
Qed.

Lemma heap_conts_app h1 h2 : heap_conts (h1 ++ h2) = (heap_conts h1 + heap_conts h2)%nat.
Proof. induction h1 as [|pr h1 IH]; simpl; [reflexivity | rewrite IH; lia]. Qed.

Lemma heap_conts_insert h : forall p pr pr',
  h !! p = Some pr ->
  (heap_conts (<[p := pr']> h) + cont_rx (reactions pr)
   = heap_conts h + cont_rx (reactions pr'))%nat.
Proof.
  induction h as [|x h IH]; intros p pr pr' Hp; [rewrite lookup_nil in Hp; discriminate|].
  destruct p as [|p]; simpl in *.
  - inversion Hp. subst x. lia.
  - specialize (IH p pr pr' Hp). lia.
Qed.

Lemma heap_conts_pos h : forall p pr r,
  h !! p = Some pr -> r ∈ reactions pr -> is_cont (handler r) = true ->
  (1 <= heap_conts h)%nat.
Proof.
  induction h as [|x h IH]; intros p pr r Hp Hin Hc; [rewrite lookup_nil in Hp; discriminate|].
  destruct p as [|p]; simpl in *.
  - inversion Hp. subst x. pose proof (cont_rx_pos _ _ Hin Hc). lia.
  - specialize (IH p pr r Hp Hin Hc). lia.
Qed.

Lemma conts_pos_rx p r s :
  r ∈ rx p s -> is_cont (handler r) = true -> (1 <= conts s)%nat.
Proof.
  unfold rx, conts. destruct (heap s !! p) as [pr|] eqn:Hp; [|intros H; inversion H].
  intros Hin Hc. pose proof (heap_conts_pos _ _ _ _ Hp Hin Hc). lia.
Qed.

Lemma conts_pos_job r o s :
  JReact r o ∈ queue s -> is_cont (handler r) = true -> (1 <= conts s)%nat.
Proof.
  unfold conts. intros Hin Hc.
  pose proof (cont_jobs_pos (queue s) (JReact r o) Hin Hc). lia.
Qed.

Lemma is_body_cont h : is_body h = true -> is_cont h = true.
Proof. unfold is_cont. intros ->. reflexivity. Qed.

Lemma is_after_cont h : is_after h = true -> is_cont h = true.
Proof. unfold is_cont. intros ->. apply orb_true_r. Qed.

Lemma conts_zero_no_body s : conts s = 0%nat -> no_body s.
Proof.
  intros Hz. split.
  - intros p r Hin. destruct (is_body (handler r)) eqn:Hb; [|reflexivity].
    pose proof (conts_pos_rx p r s Hin (is_body_cont _ Hb)). lia.
  - intros r o Hin. destruct (is_body (handler r)) eqn:Hb; [|reflexivity].
    pose proof (conts_pos_job r o s Hin (is_body_cont _ Hb)). lia.
Qed.

Lemma conts_new_promise r st s : conts (snd (new_promise r st s)) = conts s.
Proof. unfold conts. simpl. rewrite heap_conts_app. simpl. unfold cont_rx. simpl. lia. Qed.

Lemma conts_enqueue j s :
  conts (snd (enqueue j s)) = (conts s + (if is_cont_job j then 1 else 0))%nat.
Proof.
  unfold conts. simpl. rewrite cont_jobs_app. unfold cont_jobs at 2. simpl.
  destruct (is_cont_job j); simpl; lia.
Qed.

Lemma conts_settle_promise p o s : conts (snd (settle_promise p o s)) = conts s.
Proof.
  unfold settle_promise. destruct (heap s !! p) as [pr|] eqn:Hp; [|reflexivity].
  destruct (pstate pr); [|reflexivity].
  unfold conts. simpl. rewrite cont_jobs_app, cont_jobs_map.
  pose proof (heap_conts_insert (heap s) p pr
                {| role := role pr; pstate := Settled o; reactions := [] |} Hp) as H.
  simpl in H. unfold cont_rx at 2 in H. simpl in H. lia.
Qed.

Lemma conts_perform_then p r s :
  (conts (snd (perform_then p r s))
   <= conts s + (if is_cont (handler r) then 1 else 0))%nat.
Proof.
  unfold perform_then. destruct (heap s !! p) as [pr|] eqn:Hp; [|simpl; lia].
  destruct (pstate pr).
  - unfold conts. simpl.
    pose proof (heap_conts_insert (heap s) p pr
                  {| role := role pr; pstate := Pending; reactions := reactions pr ++ [r] |}
                  Hp) as H.
    simpl in H. rewrite cont_rx_app in H. unfold cont_rx at 3 in H. simpl in H.
    destruct (is_cont (handler r)); simpl in H; lia.
  - rewrite conts_enqueue. simpl. lia.
Qed.

Lemma conts_pop j q s :
  queue s = j :: q ->
  conts s = (conts (with_queue tail s) + (if is_cont_job j then 1 else 0))%nat.
Proof.
  intros Hq. unfold conts. simpl. rewrite Hq. simpl. unfold cont_jobs. simpl.
  destruct (is_cont_job j); simpl; lia.
Qed.

Lemma Conducted_weaken this m g s : Conducted this m g s -> Conducted this m false s.
Proof.
  intros [C1 C2 C3 C4 C5 C6 C7 C8 C9 C10 C11]. split; auto.
  - intros p r Hr. destruct (C4 p r Hr) as (H1 & H2 & H3 & H4).
    split; [exact H1|]. split; [exact H2|]. split; [|exact H4]. intros Ha.
    split; [exact (proj1 (H3 Ha)) | discriminate].
  - intros r o Hr. destruct (C5 r o Hr) as (H1 & H2 & H3 & H4).
    split; [exact H1|]. split; [exact H2|]. split; [|exact H4]. intros Ha.
    split; [exact (proj1 (H3 Ha)) | discriminate].
  - intros p o Ho. destruct (C6 p o Ho) as (H1 & H2 & H3).
    split; [|split; assumption]. intros Hp. split; [exact (proj1 (H1 Hp)) | discriminate].
  - discriminate.
  - discriminate.
Qed.

Lemma settle_promise_token f p o s :
  settle_promise p o (with_token f s) = (tt, with_token f (snd (settle_promise p o s))).
Proof.
  unfold settle_promise. simpl. destruct (heap s !! p) as [pr|]; [|reflexivity].
  destruct (pstate pr); reflexivity.
Qed.

Section Conducting.

Variables (this : Fjord.t) (m : Mode) (g : bool).

Lemma reserved_role p s :
  Conducted this m g s -> reserved this p -> exists ρ, role_of p s = Some ρ.
Proof.
  intros HC [-> | (Ht & [-> | ->])].
  - eexists. exact (cd_call _ _ _ _ HC).
  - eexists. exact (proj1 (cd_cast _ _ _ _ HC Ht)).
  - eexists. exact (proj2 (cd_cast _ _ _ _ HC Ht)).
Qed.

Lemma settled_fact_plain p o ρ s :
  Conducted this m g s -> role_of p s = Some ρ ->
  ρ <> RCall -> ρ <> RRace -> ρ <> RDeadline ->
  settled_fact this m g p o s.
Proof.
  intros HC Hr H1 H2 H3. split; [|split].
  - intros ->. rewrite (cd_call _ _ _ _ HC) in Hr. congruence.
  - intros Ht ->. rewrite (proj1 (cd_cast _ _ _ _ HC Ht)) in Hr. congruence.
  - intros Ht ->. rewrite (proj2 (cd_cast _ _ _ _ HC Ht)) in Hr. congruence.
Qed.

(** The part of the invariant about the token and the waits holds
    again after code that logs no wait, drops no settled promise, arms
    the token only with a cause and, under an armed token, tracks
    nothing new. *)
Lemma late_kept s s' :
  Conducted this m g s -> steady s s' -> quiet_log s s' ->
  (frozen s = true -> forall fp, fp ∈ flows s' -> fp ∈ flows s) ->
  g = true -> forall ps snap,
  EvWait ps snap ∈ log s' ->
  is_settled (awaited this) s'
  /\ (sealed this m s' -> frozen s' = true /\ forall fp, fp ∈ flows s' -> fp ∈ snap).
Proof.
  intros HC He Hq Hfl Hg ps snap Hin.
  destruct (cd_late _ _ _ _ HC Hg ps snap (wait_logged s s' ps snap Hq Hin)) as (H1 & H2).
  split; [destruct H1 as (o & Ho); exists o; eapply steady_settled; eauto|].
  intros Hs. destruct (H2 (sealed_before this m s s' He H1 Hs)) as (H3 & H4).
  split; [eapply steady_frozen; eauto|]. intros fp Hfp. apply H4. apply Hfl; assumption.
Qed.

(** Code that registers and queues only callbacks other than the
    call's, and leaves the promises of the call alone. *)
Lemma Conducted_plain s s' :
  Conducted this m g s -> steady s s' -> quiet_log s s' ->
  (forall p ρ, role_of p s' = Some ρ ->
     role_of p s = Some ρ \/ (ρ <> RRace /\ ρ <> RDeadline)) ->
  (forall q r, r ∈ rx q s' -> r ∈ rx q s \/ plain_handler this (handler r)) ->
  (forall r o, JReact r o ∈ queue s' ->
     JReact r o ∈ queue s \/ plain_handler this (handler r)) ->
  (forall p o, reserved this p -> settled_as p o s' -> settled_as p o s) ->
  (conts s' <= conts s)%nat ->
  (g = true -> settled s' = true -> settled s = true \/ no_body s) ->
  (frozen s' = true -> frozen s = true \/ cause this m s') ->
  (frozen s = true -> forall fp, fp ∈ flows s' -> fp ∈ flows s) ->
  Conducted this m g s'.
Proof.
  intros HC He Hq Hro Hrx Hjb Hres Hct Hst Hfz Hfl.
  pose proof HC as [C1 C2 C3 C4 C5 C6 C7 C8 C9 C10 C11].
  pose proof Hq as (Hl & Hrep & Hwt).
  split.
  - eapply steady_role; eauto.
  - intros Ht. destruct (C2 Ht). split; eapply steady_role; eauto.
  - intros p. split; intros Hp; (destruct (Hro p _ Hp) as [Hold | (N1 & N2)];
      [apply (C3 p); exact Hold | congruence]).
  - intros p r Hr. destruct (Hrx p r Hr) as [Hold | Hp].
    + eapply rx_fact_mono; eauto.
    + apply plain_rx_fact. exact Hp.
  - intros r o Hr. destruct (Hjb r o Hr) as [Hold | Hp].
    + eapply job_fact_mono; eauto.
    + apply plain_job_fact. exact Hp.
  - intros p o Ho. split; [|split].
    + intros Hp. subst p.
      assert (Hold : settled_as pc o s) by (apply Hres; [left; reflexivity | exact Ho]).
      destruct (C6 pc o Hold) as (H1 & _). specialize (H1 eq_refl).
      split; [eapply verdict_mono; eauto; exact (proj1 H1)|].
      intros Hg. eapply waited_mono; eauto. exact (proj2 H1 Hg).
    + intros Ht Hp. subst p.
      assert (Hold : settled_as raced o s) by (apply Hres; [right; auto | exact Ho]).
      destruct (C6 raced o Hold) as (_ & H2 & _). eapply won_mono; eauto.
    + intros Ht Hp. subst p.
      assert (Hold : settled_as deadline o s) by (apply Hres; [right; auto | exact Ho]).
      destruct (C6 deadline o Hold) as (_ & _ & H3). exact (H3 Ht eq_refl).
  - intros Hp Hone. rewrite Hrep. apply C7; [|lia].
    destruct (state_of pc s) as [[|o]|] eqn:Hs; [reflexivity | |].
    + pose proof (steady_settled s s' pc o He Hs) as H. unfold settled_as in H. congruence.
    + unfold role_of in C1. unfold state_of in Hs.
      destruct (heap s !! pc); discriminate.
  - destruct C8 as (H1 & H2). split; [lia|].
    intros (o & Ho). assert (conts s = 0%nat); [|lia].
    apply H2. exists o. apply Hres; [left; reflexivity | exact Ho].
  - intros Hg Hs'.
    assert (Hnb : no_body s).
    { destruct (Hst Hg Hs') as [H | H]; [exact (C9 Hg H) | exact H]. }
    destruct Hnb as (N1 & N2). split.
    + intros p r Hr. destruct (Hrx p r Hr) as [Hold | Hp]; [eauto | exact (proj1 Hp)].
    + intros r o Hr. destruct (Hjb r o Hr) as [Hold | Hp]; [eauto | exact (proj1 Hp)].
  - intros Hf. destruct (Hfz Hf) as [H | H]; [|exact H].
    eapply cause_mono; eauto.
  - apply (late_kept s s' HC He Hq Hfl).
Qed.

(** Code that leaves promises, reactions, jobs, token and scope as they
    are. *)
Lemma Conducted_quiet s s' :
  Conducted this m g s -> steady s s' -> quiet_log s s' ->
  (forall q, role_of q s' = role_of q s) ->
  (forall q, rx q s' = rx q s) -> queue s' = queue s ->
  (forall q, state_of q s' = state_of q s) ->
  conts s' = conts s -> settled s' = settled s ->
  tideToken s' = tideToken s ->
  (forall fp, fp ∈ flows s' -> fp ∈ flows s) ->
  Conducted this m g s'.
Proof.
  intros HC He Hl Hro Hrx Hq Hso Hct Hs Htk Hfl.
  apply (Conducted_plain s s' HC He Hl).
  - intros p ρ Hp. rewrite Hro in Hp. auto.
  - intros q r Hr. rewrite Hrx in Hr. auto.
  - intros r o Hr. rewrite Hq in Hr. auto.
  - intros p o _ Ho. unfold settled_as in *. rewrite Hso in Ho. exact Ho.
  - lia.
  - intros _. rewrite Hs. auto.
  - unfold frozen. rewrite Htk. auto.
  - intros _. exact Hfl.
Qed.

Lemma Conducted_same (f : State -> State) s :
  Conducted this m g s ->
  heap (f s) = heap s -> queue (f s) = queue s -> settled (f s) = settled s ->
  tideToken (f s) = tideToken s -> flows (f s) = flows s ->
  quiet_log s (f s) ->
  Conducted this m g (f s).
Proof.
  intros HC Hh Hq Hs Htk Hfl Hl.
  apply (Conducted_quiet s (f s) HC).
  - apply evolves_steady, evolves_same_heap; auto.
    + unfold frozen. rewrite Htk. auto.
    + intros fp. rewrite Hfl. auto.
  - exact Hl.
  - intros q. unfold role_of. rewrite Hh. reflexivity.
  - intros q. unfold rx. rewrite Hh. reflexivity.
  - exact Hq.
  - intros q. unfold state_of. rewrite Hh. reflexivity.
  - unfold conts. rewrite Hh, Hq. reflexivity.
  - exact Hs.
  - exact Htk.
  - intros fp. rewrite Hfl. auto.
Qed.

Lemma safe_ret {A} (a : A) : safe this m g (ret a).
Proof. intros s HC. exact HC. Qed.

Lemma safe_bind {A B} (c : M A) (k : A -> M B) :
  safe this m g c -> (forall a, safe this m g (k a)) -> safe this m g (bind c k).
Proof.
  intros Hc Hk s HC. unfold bind. specialize (Hc s HC).
  destruct (c s) as [a s1]. apply Hk. exact Hc.
Qed.

Lemma safe_new_promise r st :
  r <> RRace -> r <> RDeadline -> safe this m g (new_promise r st).
Proof.
  intros N1 N2 s HC.
  destruct (new_promise_view r st s) as (Vx & Vs & Vr & _ & Vn & _ & Vnone).
  apply (Conducted_plain s _ HC).
  - apply evolves_steady, (frame_new_promise (R := evolves)).
  - apply same_log_quiet. reflexivity.
  - intros p ρ Hp. destruct (decide (p = length (heap s))) as [->|Hne].
    + right. rewrite Vn in Hp. inversion Hp. subst ρ. auto.
    + left. rewrite <- Vr; auto.
  - intros q x Hx. rewrite Vx in Hx. auto.
  - auto.
  - intros p o Hp Ho. unfold settled_as in *. rewrite <- Vs; [exact Ho|].
    intros ->. destruct (reserved_role _ s HC Hp) as (ρ & Hρ). congruence.
  - rewrite conts_new_promise. lia.
  - intros _. simpl. auto.
  - intros H. left. exact H.
  - intros _ fp H. exact H.
Qed.

Lemma safe_log_event e :
  is_report e = false -> is_wait e = false -> safe this m g (log_event e).
Proof.
  intros Hrep Hwt s HC.
  apply (Conducted_same (with_log (fun l => l ++ [e])) s HC); auto.
  split; [apply (frame_log_event (R := log_grows))|].
  unfold reports, waits. simpl. rewrite !List.filter_app. simpl. rewrite Hrep, Hwt.
  rewrite !app_nil_r. split; reflexivity.
Qed.

Lemma safe_aggs_push ag : safe this m g (aggs_push ag).
Proof.
  intros s HC. apply (Conducted_same (with_aggs (fun l => l ++ [ag])) s HC); auto.
  apply same_log_quiet. reflexivity.
Qed.

Lemma safe_count_down a i o : safe this m g (count_down a i o).
Proof.
  intros s HC. unfold count_down.
  destruct (aggs s !! a) as [ag|]; [|exact HC].
  destruct (values ag !! i) as [[x|]|]; try exact HC.
  cbn [snd]. apply (Conducted_same (with_aggs _) s HC); auto.
  apply same_log_quiet. reflexivity.
Qed.

(** [this.flows.add(p)], reached only under an unarmed token. *)
Lemma Conducted_flows_add p s :
  Conducted this m g s -> frozen s = false ->
  Conducted this m g (snd (Estuary.flows_add p s)).
Proof.
  intros HC Hf. apply (Conducted_plain s _ HC); auto.
  - split; [|split]; auto.
  - apply same_log_quiet. reflexivity.
  - intros H. congruence.
Qed.

Lemma safe_flows_delete p : safe this m g (Estuary.flows_delete p).
Proof.
  intros s HC. apply (Conducted_quiet s _ HC); try reflexivity.
  - split; [|split]; auto.
  - apply same_log_quiet. reflexivity.
  - intros fp Hfp. simpl in Hfp. apply list_elem_of_filter in Hfp. exact (proj2 Hfp).
Qed.

(** [tideToken.freeze()], with the reason for it. *)
Lemma Conducted_frozen s :
  Conducted this m g s -> cause this m s ->
  Conducted this m g (with_token TideToken.freeze s).
Proof.
  intros HC Hc. apply (Conducted_plain s _ HC); auto.
  - apply evolves_steady, (frame_freeze_token (R := evolves)).
  - apply same_log_quiet. reflexivity.
Qed.

Lemma safe_enqueue_thenable t src : safe this m g (enqueue (JThenable t src)).
Proof.
  intros s HC. apply (Conducted_plain s _ HC).
  - apply evolves_steady, (frame_enqueue (R := evolves)).
  - apply same_log_quiet. reflexivity.
  - auto.
  - auto.
  - intros r o Hr. simpl in Hr. apply elem_of_app in Hr.
    destruct Hr as [Hr | Hr]; [auto|].
    apply list_elem_of_singleton in Hr. discriminate.
  - auto.
  - rewrite conts_enqueue. simpl. lia.
  - intros _. simpl. auto.
  - intros H. left. exact H.
  - intros _ fp H. exact H.
Qed.

Lemma safe_enqueue_plain r o :
  plain_handler this (handler r) -> safe this m g (enqueue (JReact r o)).
Proof.
  intros Hp s HC. apply (Conducted_plain s _ HC).
  - apply evolves_steady, (frame_enqueue (R := evolves)).
  - apply same_log_quiet. reflexivity.
  - auto.
  - auto.
  - intros r' o' Hr. simpl in Hr. apply elem_of_app in Hr.
    destruct Hr as [Hr | Hr]; [auto|].
    apply list_elem_of_singleton in Hr. inversion Hr. subst. auto.
  - auto.
  - rewrite conts_enqueue. simpl. unfold is_cont.
    rewrite (proj1 Hp), (proj1 (proj2 Hp)). simpl. lia.
  - intros _. simpl. auto.
  - intros H. left. exact H.
  - intros _ fp H. exact H.
Qed.

Lemma safe_perform_then p r :
  plain_handler this (handler r) -> safe this m g (perform_then p r).
Proof.
  intros Hp s HC. destruct (state_of_cases p s) as [Hs | [(o & Hs) | Hs]].
  - destruct (perform_then_pending_view p r s Hs)
      as (Vx & Vs & Vr & Vq & _ & Vf & Vl & Vt).
    pose proof (frame_perform_then (R := same_token) p r s) as Vk.
    apply (Conducted_plain s _ HC).
    + apply evolves_steady, (frame_perform_then (R := evolves)).
    + apply same_log_quiet. exact Vl.
    + intros q ρ Hq. rewrite Vr in Hq. auto.
    + intros q x Hx. rewrite Vx in Hx. destruct (decide (q = p)) as [->|Hne]; [|auto].
      apply elem_of_app in Hx. destruct Hx as [Hx | Hx]; [auto|].
      apply list_elem_of_singleton in Hx. subst x. auto.
    + intros x o Hx. rewrite Vq in Hx. auto.
    + intros q o _ Ho. unfold settled_as in *. rewrite Vs in Ho. exact Ho.
    + pose proof (conts_perform_then p r s) as H. unfold is_cont in H.
      rewrite (proj1 Hp), (proj1 (proj2 Hp)) in H. simpl in H. lia.
    + intros _. rewrite Vt. auto.
    + unfold frozen. rewrite Vk. auto.
    + intros _ fp. rewrite Vf. auto.
  - rewrite (perform_then_settled p r o s Hs). apply safe_enqueue_plain; assumption.
  - rewrite (perform_then_none p r s Hs). exact HC.
Qed.

Lemma safe_then_ p h r :
  plain_handler this h -> r <> RRace -> r <> RDeadline -> safe this m g (then_ p h r).
Proof.
  intros Hp N1 N2. unfold then_. apply safe_bind; [apply safe_new_promise; assumption|].
  intros d. apply safe_bind; [apply safe_perform_then; exact Hp|].
  intros _. apply safe_ret.
Qed.

Lemma safe_register_elements a ps : forall i, safe this m g (register_elements a i ps).
Proof.
  induction ps as [|p ps IH]; intros i; simpl; [apply safe_ret|].
  apply safe_bind; [|intros _; apply IH].
  apply safe_perform_then. split; [reflexivity|]. split; [reflexivity | discriminate].
Qed.

Lemma safe_flow u : safe this m g (Estuary.flow u).
Proof.
  assert (P : forall h, is_cont h = false -> (forall t, h <> HForward t) ->
                        plain_handler this h).
  { intros h Hc Hf. unfold is_cont in Hc. apply orb_false_iff in Hc.
    destruct Hc. split; [assumption|]. split; [assumption | auto]. }
  intros s HC. unfold Estuary.flow, bind, Estuary.isFrozen, get. cbn [fst snd].
  destruct (TideToken.isFrozen (tideToken s)) eqn:Hf.
  - apply safe_new_promise; [discriminate..|exact HC].
  - pose proof (safe_new_promise RResolved (Settled (Ful VUndefined))
                  ltac:(discriminate) ltac:(discriminate) s HC) as H1.
    pose proof (frame_new_promise (R := same_token) RResolved (Settled (Ful VUndefined)) s)
      as K1.
    destruct (new_promise RResolved _ s) as [p0 s1]. cbn [fst snd] in *.
    pose proof (safe_then_ p0 (HInvoke u) RFlow
                  ltac:(apply P; [reflexivity | discriminate])
                  ltac:(discriminate) ltac:(discriminate) s1 H1) as H2.
    pose proof (keeps_then_ same_token p0 (HInvoke u) RFlow s1) as K2.
    destruct (then_ p0 (HInvoke u) RFlow s1) as [fp s2]. cbn [fst snd] in *.
    assert (Hf2 : frozen s2 = false).
    { unfold frozen, same_token in *. rewrite K2, K1. exact Hf. }
    pose proof (Conducted_flows_add fp s2 H2 Hf2) as H3.
    destruct (Estuary.flows_add fp s2) as [u3 s3]. cbn [fst snd] in *.
    pose proof (safe_then_ fp HFlowThen (RFlowThen fp)
                  ltac:(apply P; [reflexivity | discriminate])
                  ltac:(discriminate) ltac:(discriminate) s3 H3) as H4.
    destruct (then_ fp HFlowThen (RFlowThen fp) s3) as [p2 s4]. cbn [fst snd] in *.
    apply safe_then_; [apply P; [reflexivity | discriminate] | discriminate..|exact H4].
Qed.

(** Settling a promise [p] with [o], when what must hold of [p] settled
    with [o] holds. *)
Lemma Conducted_settle_promise p o s :
  Conducted this m g s ->
  (role_of p s = Some RSettle -> o = Ful VUndefined) ->
  settled_fact this m g p o s ->
  (p = pc -> conts s = 0%nat) ->
  Conducted this m g (snd (settle_promise p o s)).
Proof.
  intros HC Hset Hfact Hzero. destruct (state_of_cases p s) as [Hs | Hs].
  - destruct (settle_promise_pending_view p o s Hs)
      as (Vx & Vs & Vr & Vq & _ & Vf & Vl & Vt).
    pose proof (evolves_steady _ _ (frame_settle_promise (R := evolves) p o s)) as He.
    pose proof (frame_settle_promise (R := same_token) p o s) as Vk.
    pose proof (conts_settle_promise p o s) as Hct.
    set (s' := snd (settle_promise p o s)) in *.
    assert (Hq : quiet_log s s') by (apply same_log_quiet; exact Vl).
    pose proof (proj1 Hq) as Hl.
    assert (Hpo : settled_as p o s').
    { unfold settled_as. rewrite Vs. destruct (decide (p = p)); [reflexivity|contradiction]. }
    pose proof HC as [C1 C2 C3 C4 C5 C6 C7 C8 C9 C10 C11]. split.
    + eapply steady_role; eauto.
    + intros Ht. destruct (C2 Ht). split; eapply steady_role; eauto.
    + intros q. rewrite Vr. apply C3.
    + intros q r Hin. rewrite Vx in Hin.
      destruct (decide (q = p)) as [->|Hqp]; [inversion Hin|].
      eapply rx_fact_mono; eauto.
    + intros r o' Hin. rewrite Vq in Hin. apply elem_of_app in Hin.
      destruct Hin as [Hin | Hin]; [eapply job_fact_mono; eauto|].
      apply list_elem_of_fmap in Hin. destruct Hin as (x & Hx & Hin).
      inversion Hx. subst x o'. clear Hx.
      apply (rx_to_job this m g p r o s s'); auto.
      intros Ht Hp. destruct Hfact as (_ & _ & H3). exact (H3 Ht Hp).
    + intros q o' Ho. unfold settled_as in Ho. rewrite Vs in Ho.
      destruct (decide (q = p)) as [->|Hqp].
      * inversion Ho. subst o'. eapply settled_fact_mono; eauto.
      * eapply settled_fact_mono; eauto.
    + intros Hp Hone. rewrite (proj1 (proj2 Hq)). apply C7; [|lia]. rewrite Vs in Hp.
      destruct (decide (pc = p)); [discriminate | exact Hp].
    + destruct C8 as (H1 & H2). rewrite Hct. split; [exact H1|].
      intros (o' & Ho). unfold settled_as in Ho. rewrite Vs in Ho.
      destruct (decide (pc = p)) as [E|_]; [auto|]. apply H2. exists o'. exact Ho.
    + intros Hg Hst. rewrite Vt in Hst. destruct (C9 Hg Hst) as (N1 & N2). split.
      * intros q r Hin. rewrite Vx in Hin.
        destruct (decide (q = p)); [inversion Hin | eauto].
      * intros r o' Hin. rewrite Vq in Hin. apply elem_of_app in Hin.
        destruct Hin as [Hin | Hin]; [eauto|].
        apply list_elem_of_fmap in Hin. destruct Hin as (x & Hx & Hin).
        inversion Hx. subst x o'. eauto.
    + intros Hf. unfold frozen in Hf. rewrite Vk in Hf.
      eapply cause_mono; eauto.
    + apply (late_kept s s' HC He Hq). intros _ fp. rewrite Vf. auto.
  - rewrite settle_promise_other; [exact HC|].
    destruct Hs as [(x & Hx) | Hx]; unfold settled_as in *; congruence.
Qed.

(** Settling a promise that is none of the call's. *)
Lemma Conducted_settle_plain p o ρ s :
  Conducted this m g s -> role_of p s = Some ρ ->
  ρ <> RCall -> ρ <> RRace -> ρ <> RDeadline ->
  (ρ = RSettle -> o = Ful VUndefined) ->
  Conducted this m g (snd (settle_promise p o s)).
Proof.
  intros HC Hr N1 N2 N3 Hset. apply Conducted_settle_promise; [exact HC | | |].
  - intros Hr'. apply Hset. congruence.
  - eapply settled_fact_plain; eauto.
  - intros ->. rewrite (cd_call _ _ _ _ HC) in Hr. congruence.
Qed.

(** [await ps] on a settlement, with a continuation of the call. *)
Lemma Conducted_await_after ps h s :
  Conducted this m g s -> Typed s -> role_of ps s = Some RSettle ->
  is_after h = true -> pledge this m h s ->
  (g = true -> exists snap, EvWait ps snap ∈ log s) ->
  conts s = 0%nat -> state_of pc s = Some Pending -> reports s = [] ->
  Conducted this m g (snd (await ps h s)).
Proof.
  intros HC HT Hr Ha Hp Hw Hz Hpend Hrep. unfold await.
  assert (Hnb : is_body h = false) by (destruct h; try discriminate; reflexivity).
  assert (Hnf : forall t, h <> HForward t) by (destruct h; discriminate).
  pose proof (conts_perform_then ps {| handler := h; derived := None |} s) as Hct.
  cbn [handler] in Hct. rewrite (is_after_cont h Ha) in Hct.
  pose proof (frame_perform_then (R := same_token) ps {| handler := h; derived := None |} s)
    as Vk.
  assert (Hnew : rx_fact this m g ps {| handler := h; derived := None |} s).
  { split; [exact Hp|]. cbn [handler]. split; [congruence|]. split; [auto|].
    intros _ E. destruct (Hnf _ E). }
  destruct (state_of_cases ps s) as [Hs | [(o & Hs) | Hs]].
  - destruct (perform_then_pending_view ps {| handler := h; derived := None |} s Hs)
      as (Vx & Vs & Vr & Vq & _ & Vf & Vl & Vt).
    pose proof (evolves_steady _ _
                  (frame_perform_then (R := evolves) ps {| handler := h; derived := None |} s))
      as He.
    set (s' := snd (perform_then ps _ s)) in *.
    assert (Hq : quiet_log s s') by (apply same_log_quiet; exact Vl).
    pose proof (proj1 Hq) as Hl.
    pose proof HC as [C1 C2 C3 C4 C5 C6 C7 C8 C9 C10 C11]. split.
    + eapply steady_role; eauto.
    + intros Ht. destruct (C2 Ht). split; eapply steady_role; eauto.
    + intros q. rewrite Vr. apply C3.
    + intros q r Hin. rewrite Vx in Hin.
      destruct (decide (q = ps)) as [->|Hqp]; [|eapply rx_fact_mono; eauto].
      apply elem_of_app in Hin. destruct Hin as [Hin | Hin]; [eapply rx_fact_mono; eauto|].
      apply list_elem_of_singleton in Hin. subst r. eapply rx_fact_mono; eauto.
    + intros r o Hin. rewrite Vq in Hin. eapply job_fact_mono; eauto.
    + intros q o Ho. unfold settled_as in Ho. rewrite Vs in Ho.
      eapply settled_fact_mono; eauto.
    + intros _ _. rewrite (proj1 (proj2 Hq)). exact Hrep.
    + split; [lia|]. intros (o & Ho). unfold settled_as in Ho. rewrite Vs in Ho. congruence.
    + intros Hg Hst. rewrite Vt in Hst. destruct (C9 Hg Hst) as (N1 & N2). split.
      * intros q r Hin. rewrite Vx in Hin.
        destruct (decide (q = ps)) as [->|Hqp]; [|eauto].
        apply elem_of_app in Hin. destruct Hin as [Hin | Hin]; [eauto|].
        apply list_elem_of_singleton in Hin. subst r. exact Hnb.
      * intros r o Hin. rewrite Vq in Hin. eauto.
    + intros Hf. unfold frozen in Hf. rewrite Vk in Hf. eapply cause_mono; eauto.
    + apply (late_kept s s' HC He Hq). intros _ fp. rewrite Vf. auto.
  - rewrite (perform_then_settled ps _ o s Hs) in *.
    pose proof (evolves_steady _ _
                  (frame_enqueue (R := evolves) (JReact {| handler := h; derived := None |} o) s))
      as He.
    assert (Ho : o = Ful VUndefined).
    { apply state_of_lookup in Hs. destruct Hs as (pr & Hl & Hst).
      pose proof (typed_settled s HT ps pr o Hl Hst) as Hok.
      apply role_of_lookup in Hr. destruct Hr as (pr' & Hl' & Hr').
      assert (pr' = pr) by congruence. subst pr'. rewrite Hr' in Hok. exact Hok. }
    set (s' := snd (enqueue _ s)) in *.
    assert (Hq : quiet_log s s') by (apply same_log_quiet; reflexivity).
    pose proof (proj1 Hq) as Hl.
    pose proof HC as [C1 C2 C3 C4 C5 C6 C7 C8 C9 C10 C11]. split.
    + exact C1.
    + exact C2.
    + exact C3.
    + intros q r Hin. eapply rx_fact_mono; eauto.
    + intros r o' Hin. simpl in Hin. apply elem_of_app in Hin.
      destruct Hin as [Hin | Hin]; [eapply job_fact_mono; eauto|].
      apply list_elem_of_singleton in Hin. inversion Hin. subst r o'.
      apply (rx_to_job this m g ps _ o s s' Hnew He Hl); auto.
      intros Ht ->. rewrite (proj2 (C2 Ht)) in Hr. discriminate.
    + intros q o' Ho'. eapply settled_fact_mono; eauto.
    + intros _ _. exact Hrep.
    + split; [lia|]. intros (o' & Ho'). unfold settled_as in Ho'.
      change (state_of pc s = Some (Settled o')) in Ho'. congruence.
    + intros Hg Hst. destruct (C9 Hg Hst) as (N1 & N2). split; [exact N1|].
      intros r o' Hin. simpl in Hin. apply elem_of_app in Hin.
      destruct Hin as [Hin | Hin]; [eauto|].
      apply list_elem_of_singleton in Hin. inversion Hin. subst r. exact Hnb.
    + intros Hf. eapply cause_mono; eauto.
    + apply (late_kept s s' HC He Hq). intros _ fp H. exact H.
  - rewrite (perform_then_none ps _ s Hs). exact HC.
Qed.

End Conducting.
(** *** [settle] and the callbacks keep the invariant *)

Lemma conts_register_elements a ps : forall i s,
  (conts (snd (register_elements a i ps s)) <= conts s)%nat.
Proof.
  induction ps as [|p ps IH]; intros i s; simpl; [lia|].
  unfold bind.
  pose proof (conts_perform_then p {| handler := HElement a i; derived := None |} s) as H.
  destruct (perform_then p _ s) as [u s1]. cbn [fst snd handler] in *.
  specialize (IH (S i) s1). simpl in H. lia.
Qed.

Lemma conts_allSettled ps s : (conts (snd (Promise_allSettled ps s)) <= conts s)%nat.
Proof.
  unfold Promise_allSettled, bind.
  pose proof (conts_new_promise RAllSettled Pending s) as H1.
  destruct (new_promise RAllSettled Pending s) as [r s1]. cbn [fst snd] in *.
  set (ag := {| elements := ps; values := replicate (length ps) None;
                remaining := length ps; result := r |}).
  assert (H2 : conts (snd (aggs_push ag s1)) = conts s1) by reflexivity.
  destruct (aggs_push ag s1) as [a s2]. cbn [fst snd] in *.
  pose proof (conts_register_elements a ps 0%nat s2) as H3.
  destruct (register_elements a 0 ps s2) as [u s3]. cbn [fst snd] in *.
  destruct (decide (length ps = 0%nat)); unfold ret; cbn [fst snd]; [|lia].
  pose proof (conts_settle_promise r (Ful (VArray 0)) s3) as H4.
  destruct (settle_promise r _ s3) as [u4 s4]. cbn [fst snd] in *. lia.
Qed.

(** A call of [settle] registers no continuation of the call, calls no
    observer and leaves the promises that exist as they are. *)
Lemma settle_tame s :
  let s' := snd (Estuary.settle s) in
  (conts s' <= conts s)%nat
  /\ reports s' = reports s
  /\ forall q, (q < length (heap s))%nat -> state_of q s' = state_of q s.
Proof.
  intros s'. subst s'. unfold Estuary.settle, bind.
  pose proof (conts_new_promise RSettle Pending s) as Hc1.
  destruct (new_promise_view RSettle Pending s) as (_ & Vs1 & _).
  assert (Hl1 : log (snd (new_promise RSettle Pending s)) = log s) by reflexivity.
  assert (Hh1 : length (heap (snd (new_promise RSettle Pending s)))
                = S (length (heap s))).
  { simpl. rewrite length_app. simpl. lia. }
  assert (Hps : fst (new_promise RSettle Pending s) = length (heap s)) by reflexivity.
  destruct (new_promise RSettle Pending s) as [ps s1]. cbn [fst snd] in *. subst ps.
  unfold get. cbn [fst snd]. destruct (settled s1).
  - pose proof (conts_settle_promise (length (heap s)) (Ful VUndefined) s1) as Hc2.
    destruct (settle_promise_calm (length (heap s)) (Ful VUndefined) s1)
      as (_ & _ & Hl2 & _ & Vs2 & _).
    destruct (settle_promise _ _ s1) as [u s2]. unfold ret. cbn [fst snd] in *.
    split; [lia|]. split; [unfold reports; congruence|].
    intros q Hq. rewrite Vs2 by lia. apply Vs1. lia.
  - unfold Estuary.mark_settled, modify. cbn [fst snd].
    set (s2 := with_settled true s1).
    assert (Hc2 : conts s2 = conts s1) by reflexivity.
    assert (Hl2 : log s2 = log s1) by reflexivity.
    pose proof (conts_allSettled (flows s2) s2) as Hc3.
    destruct (allSettled_calm (flows s2) s2) as (_ & Hl3 & _ & Vs3).
    destruct (Promise_allSettled (flows s2) s2) as [pall s3]. cbn [fst snd] in *.
    unfold await.
    pose proof (conts_perform_then pall
                  {| handler := HSettleResume (length (heap s)); derived := None |} s3) as Hc4.
    destruct (perform_then_calm pall
                {| handler := HSettleResume (length (heap s)); derived := None |} s3)
      as (_ & _ & Hl4 & _ & Vs4 & _).
    destruct (perform_then pall _ s3) as [u4 s4]. cbn [fst snd handler] in *.
    simpl in Hc4. unfold log_event, modify, ret. cbn [fst snd].
    split; [unfold conts in *; simpl; lia|]. split.
    + unfold reports. simpl. rewrite List.filter_app. simpl. rewrite app_nil_r. congruence.
    + intros q Hq. change (state_of q s4 = state_of q s). rewrite Vs4, Vs3.
      * apply Vs1. lia.
      * change (heap s2) with (heap s1). lia.
Qed.

Section ConductedCallbacks.

Variables (this : Fjord.t) (m : Mode) (g : bool).

Lemma safe_allSettled ps : safe this m g (Promise_allSettled ps).
Proof.
  intros s HC. unfold Promise_allSettled, bind.
  pose proof (safe_new_promise this m g RAllSettled Pending
                ltac:(discriminate) ltac:(discriminate) s HC) as H1.
  pose proof (role_of_new_promise RAllSettled Pending s) as Hr1.
  destruct (new_promise RAllSettled Pending s) as [r s1]. cbn [fst snd] in *.
  set (ag := {| elements := ps; values := replicate (length ps) None;
                remaining := length ps; result := r |}).
  pose proof (safe_aggs_push this m g ag s1 H1) as H2.
  assert (Hr2 : role_of r (snd (aggs_push ag s1)) = Some RAllSettled) by exact Hr1.
  destruct (aggs_push ag s1) as [a s2]. cbn [fst snd] in *.
  pose proof (safe_register_elements this m g a ps 0%nat s2 H2) as H3.
  pose proof (keeps_register_elements evolves a ps 0%nat s2) as He3.
  destruct (register_elements a 0 ps s2) as [u s3]. cbn [fst snd] in *.
  assert (Hr3 : role_of r s3 = Some RAllSettled) by (eapply role_of_evolves; eauto).
  destruct (decide (length ps = 0%nat)); unfold ret; cbn [fst snd]; [|exact H3].
  pose proof (Conducted_settle_plain this m g r (Ful (VArray 0)) RAllSettled s3 H3 Hr3
                ltac:(discriminate) ltac:(discriminate) ltac:(discriminate)
                ltac:(discriminate)) as H4.
  destruct (settle_promise r _ s3) as [u4 s4]. exact H4.
Qed.

(** Events are logged: calls of the observer right before the call's
    promise is rejected, or the wait of the first call of [settle]. *)
Lemma Conducted_logged evs s :
  Conducted this m g s ->
  (reports (with_log (fun l => l ++ evs) s) = reports s
   \/ (state_of pc s = Some Pending /\ conts s = 0%nat)) ->
  (g = true -> forall ps snap,
     EvWait ps snap ∈ evs ->
     is_settled (awaited this) s
     /\ (sealed this m s -> frozen s = true /\ forall fp, fp ∈ flows s -> fp ∈ snap)) ->
  Conducted this m g (with_log (fun l => l ++ evs) s).
Proof.
  intros HC Hrep Hnew. set (s' := with_log _ s).
  assert (He : steady s s') by (apply evolves_steady, evolves_same_heap; auto).
  assert (Hl : log_grows s s').
  { intros e Hin. simpl. apply elem_of_app. left. exact Hin. }
  pose proof HC as [C1 C2 C3 C4 C5 C6 C7 C8 C9 C10 C11]. split; auto.
  - intros p r Hr. eapply rx_fact_mono; eauto.
  - intros r o Hr. eapply job_fact_mono; eauto.
  - intros p o Ho. destruct (C6 p o Ho) as (H1 & H2 & H3). split; [|split; assumption].
    intros ->. destruct Hrep as [Hrep | (Hpend & _)].
    + destruct (H1 eq_refl) as (H4 & H5).
      split; [eapply verdict_mono; eauto|]. intros G. eapply waited_mono; eauto.
    + unfold settled_as in Ho. change (state_of pc s') with (state_of pc s) in Ho.
      congruence.
  - intros Hp Hone. change (conts s') with (conts s) in Hone.
    destruct Hrep as [Hrep | (_ & Hz)]; [|lia]. unfold s'. rewrite Hrep. auto.
  - intros G ps snap Hin. simpl in Hin. apply elem_of_app in Hin.
    destruct Hin as [Hin | Hin]; [exact (C11 G ps snap Hin) | exact (Hnew G ps snap Hin)].
Qed.

Lemma Conducted_settle s :
  Conducted this m g s -> (g = true -> no_body s) ->
  (g = true -> settled s = false ->
   is_settled (awaited this) s /\ (sealed this m s -> frozen s = true)) ->
  Conducted this m g (snd (Estuary.settle s)).
Proof.
  intros HC Hb Hlate. unfold Estuary.settle, bind.
  pose proof (safe_new_promise this m g RSettle Pending
                ltac:(discriminate) ltac:(discriminate) s HC) as H1.
  pose proof (role_of_new_promise RSettle Pending s) as Hr1.
  pose proof (evolves_steady _ _ (frame_new_promise (R := evolves) RSettle Pending s))
    as He1.
  assert (Hb1 : g = true -> no_body (snd (new_promise RSettle Pending s))).
  { intros G. destruct (Hb G) as (N1 & N2).
    destruct (new_promise_view RSettle Pending s) as (Vx & _).
    split; [|exact N2]. intros p r Hr. rewrite Vx in Hr. eauto. }
  assert (Hst1 : settled (snd (new_promise RSettle Pending s)) = settled s) by reflexivity.
  assert (Hfz1 : frozen (snd (new_promise RSettle Pending s)) = frozen s) by reflexivity.
  destruct (new_promise RSettle Pending s) as [ps s1]. cbn [fst snd] in *.
  unfold get. cbn [fst snd]. destruct (settled s1) eqn:Hst.
  - pose proof (Conducted_settle_plain this m g ps (Ful VUndefined) RSettle s1 H1 Hr1
                  ltac:(discriminate) ltac:(discriminate) ltac:(discriminate)
                  ltac:(reflexivity)) as H2.
    destruct (settle_promise ps _ s1) as [u s2]. exact H2.
  - unfold Estuary.mark_settled, modify. cbn [fst snd].
    assert (H2 : Conducted this m g (with_settled true s1)).
    { apply (Conducted_plain this m g s1 _ H1); auto.
      - apply evolves_steady, evolves_same_heap; auto.
      - apply same_log_quiet. reflexivity. }
    set (s2 := with_settled true s1) in *.
    pose proof (safe_allSettled (flows s2) s2 H2) as H3.
    pose proof (evolves_steady _ _ (keeps_allSettled evolves (flows s2) s2)) as He3.
    destruct (allSettled_calm (flows s2) s2) as (Hf3 & _).
    pose proof (keeps_allSettled same_token (flows s2) s2) as Hk3.
    destruct (Promise_allSettled (flows s2) s2) as [pall s3]. cbn [fst snd] in *.
    assert (Hpl : plain_handler this (HSettleResume ps)).
    { split; [reflexivity|]. split; [reflexivity | discriminate]. }
    pose proof (safe_perform_then this m g pall
                  {| handler := HSettleResume ps; derived := None |} Hpl s3 H3) as H4.
    pose proof (evolves_steady _ _
                  (frame_perform_then (R := evolves) pall
                     {| handler := HSettleResume ps; derived := None |} s3)) as He4.
    destruct (perform_then_calm pall {| handler := HSettleResume ps; derived := None |} s3)
      as (_ & Hf4 & _).
    pose proof (frame_perform_then (R := same_token) pall
                  {| handler := HSettleResume ps; derived := None |} s3) as Hk4.
    unfold await. destruct (perform_then pall _ s3) as [u4 s4]. cbn [fst snd] in *.
    unfold log_event, modify, ret. cbn [fst snd].
    apply Conducted_logged; [exact H4 | left | ].
    + unfold reports. simpl. rewrite List.filter_app. simpl. apply app_nil_r.
    + intros G ps' snap Hin. apply list_elem_of_singleton in Hin. inversion Hin.
      subst ps' snap.
      assert (Hs0 : settled s = false) by congruence.
      destruct (Hlate G Hs0) as ((o & Ho) & Hsl).
      assert (He : steady s s4).
      { assert (He2 : steady s1 s2) by (apply evolves_steady, evolves_same_heap; auto).
        eapply steady_trans; [exact He1|]. eapply steady_trans; [exact He2|].
        eapply steady_trans; [exact He3 | exact He4]. }
      split; [exists o; eapply steady_settled; eauto|].
      intros Hsd. split.
      * eapply steady_frozen; [exact He|]. apply Hsl.
        eapply sealed_before; eauto. exists o. exact Ho.
      * intros fp Hfp. rewrite Hf4, Hf3 in Hfp. exact Hfp.
Qed.

(** [await estuary.settle()], continued by [h]. *)
Lemma Conducted_settle_then h s :
  Conducted this m g s -> Typed s -> is_after h = true -> pledge this m h s ->
  conts s = 0%nat -> state_of pc s = Some Pending -> reports s = [] ->
  (g = true -> settled s = false) ->
  is_settled (awaited this) s -> (sealed this m s -> frozen s = true) ->
  Conducted this m g (snd (settle_then h s)).
Proof.
  intros HC HT Ha Hp Hz Hpend Hrep Hg Haw Hsl. unfold settle_then, bind.
  pose proof (Conducted_settle s HC (fun _ => conts_zero_no_body s Hz)
                (fun _ _ => conj Haw Hsl)) as H1.
  destruct (Typed_settle s HT) as (HT1 & Hr1).
  pose proof (evolves_steady _ _ (keeps_settle evolves s)) as He1.
  destruct (settle_tame s) as (Hc1 & Hrep1 & Vs1).
  assert (Hw : g = true -> exists snap, EvWait (fst (Estuary.settle s)) snap
                                          ∈ log (snd (Estuary.settle s))).
  { intros G. destruct (settle_first s (Hg G)) as (_ & _ & _ & Hl & _).
    exists (flows s). rewrite Hl. apply elem_of_app. right. apply list_elem_of_here. }
  assert (Hlt : (pc < length (heap s))%nat).
  { eapply role_of_lt. exact (cd_call _ _ _ _ HC). }
  destruct (Estuary.settle s) as [ps s1]. cbn [fst snd] in *.
  apply Conducted_await_after; auto.
  - eapply pledge_mono; eauto.
  - lia.
  - rewrite Vs1 by exact Hlt. exact Hpend.
  - congruence.
Qed.

(** A continuation of the call runs. *)
Lemma Conducted_orchestrator h o s :
  Conducted this m g s -> Typed s -> is_cont h = true ->
  job_fact this m g {| handler := h; derived := None |} o s ->
  conts s = 0%nat -> state_of pc s = Some Pending -> reports s = [] ->
  (is_body h = true -> g = true -> settled s = false) ->
  Conducted this m g
    (snd (run_job this (JReact {| handler := h; derived := None |} o) s)).
Proof.
  intros HC HT Hk (Hp & Hb & Ha & _) Hz Hpend Hrep Hst. cbn [handler] in *.
  destruct (Typed_freeze s HT) as (HTf & Hef & Hfz).
  pose proof (evolves_steady _ _ Hef) as Hsf.
  assert (Hcall : forall x,
            verdict this m x s -> (g = true -> waited s) ->
            Conducted this m g (snd (settle_promise pc x s))).
  { intros x Hv Hw. apply Conducted_settle_promise; auto.
    - intros Hr. rewrite (cd_call _ _ _ _ HC) in Hr. discriminate.
    - split; [auto|]. split; intros _ E; discriminate E. }
  assert (Hthrow : forall e,
            settled_as (awaited this) (Rej e) s -> frozen s = true ->
            (g = true -> waited s) ->
            Conducted this m g (snd (Fjord.rethrow this e (mode_tag m) pc s))).
  { intros e Hs Hf Hw. rewrite rethrow_eq.
    set (evs := if reported this e then [EvObserver e (mode_tag m)] else []).
    assert (HC1 : Conducted this m g (with_log (fun l => l ++ evs) s)).
    { apply Conducted_logged; [exact HC | right; auto |].
      intros _ ps snap Hin. subst evs. destruct (reported this e); [|inversion Hin].
      apply list_elem_of_singleton in Hin. discriminate. }
    set (s1 := with_log _ s) in *.
    apply Conducted_settle_promise; auto.
    - intros Hr. rewrite (cd_call _ _ _ _ HC1) in Hr. discriminate.
    - split; [|split; intros _ E; discriminate E]. intros _. split.
      + simpl. split; [exact Hf|]. exists e. split; [exact Hs|]. split; [reflexivity|].
        unfold reports in *. simpl. rewrite List.filter_app, Hrep. simpl.
        subst evs. destruct (reported this e); reflexivity.
      + intros G. destruct (Hw G) as (ps & snap & Hin & Hset). exists ps, snap.
        split; [simpl; apply elem_of_app; left; exact Hin | exact Hset]. }
  assert (Hfail : forall e,
            settled_as (awaited this) (Rej e) s ->
            (g = true -> settled s = false) ->
            Conducted this m g
              (snd (settle_then (on_caught m e pc) (with_token TideToken.freeze s)))).
  { intros e Hs Hg.
    assert (Hsl : sealed this m s) by (right; exists e; exact Hs).
    apply Conducted_settle_then; auto.
    - apply Conducted_frozen; [exact HC|]. right. right. split; [exists (Rej e); exact Hs|].
      exact Hsl.
    - destruct m; reflexivity.
    - destruct m; simpl; (split; [reflexivity|]);
        (split; [eapply steady_settled; eauto | exact Hfz]).
    - exists (Rej e). eapply steady_settled; eauto. }
  destruct h; simpl in Hk; try discriminate; clear Hk.
  - (* HCascadeBody *)
    specialize (Hb eq_refl). simpl in Hp.
    assert (Hm : m = Cascade) by (destruct m; [reflexivity | discriminate]).
    rewrite Hm in Hp. inversion Hp. subst pc0.
    destruct o as [v|e].
    + rewrite cascade_success_eq. apply Conducted_settle_then; auto.
      * simpl. rewrite Hm. split; [reflexivity|]. split; [exact Hb | discriminate].
      * exists (Ful v). exact Hb.
      * intros [Hs | (e & Hs)]; [congruence|]. unfold settled_as in *. congruence.
    + rewrite (failure_entry_eq this Cascade).
      change (on_caught Cascade e pc) with (on_caught Cascade e pc).
      rewrite <- Hm. apply Hfail; auto.
  - (* HCascadeSettled *)
    destruct (Ha eq_refl) as (Ho & Hw). subst o.
    simpl in Hp. destruct Hp as (Hh & Hs & Hf).
    assert (Hm : m = Cascade) by (destruct m; [reflexivity | discriminate]).
    rewrite Hm in Hh. inversion Hh. subst pc0.
    rewrite (success_return_eq this _ pc _ VUndefined) by (left; reflexivity).
    apply Hcall; auto. simpl. auto.
  - (* HCascadeCaught *)
    destruct (Ha eq_refl) as (Ho & Hw). subst o.
    simpl in Hp. destruct Hp as (Hh & Hs & Hf).
    assert (Hm : m = Cascade) by (destruct m; [reflexivity | discriminate]).
    rewrite Hm in Hh. inversion Hh. subst pc0.
    rewrite (failure_exit_eq this Cascade pc _ VUndefined).
    change "cascade"%string with (mode_tag Cascade). rewrite <- Hm. apply Hthrow; auto.
  - (* HTributaryBody *)
    specialize (Hb eq_refl). simpl in Hp.
    assert (Hm : m = Tributary) by (destruct m; [discriminate | reflexivity]).
    rewrite Hm in Hp. inversion Hp. subst pc0.
    destruct o as [v|e].
    + rewrite tributary_success_eq.
      assert (Hsl : sealed this m s) by (left; exact Hm).
      apply Conducted_settle_then; auto.
      * apply Conducted_frozen; [exact HC|]. right. right.
        split; [exists (Ful v); exact Hb | exact Hsl].
      * simpl. rewrite Hm. split; [reflexivity|].
        split; [eapply steady_settled; eauto | auto].
      * exists (Ful v). eapply steady_settled; eauto.
    + rewrite (failure_entry_eq this Tributary). rewrite <- Hm. apply Hfail; auto.
  - (* HTributarySettled *)
    destruct (Ha eq_refl) as (Ho & Hw). subst o.
    simpl in Hp. destruct Hp as (Hh & Hs & Hf).
    assert (Hm : m = Tributary) by (destruct m; [discriminate | reflexivity]).
    rewrite Hm in Hh. inversion Hh. subst pc0.
    rewrite (success_return_eq this _ pc _ VUndefined) by (right; reflexivity).
    apply Hcall; auto. simpl. auto.
  - (* HTributaryCaught *)
    destruct (Ha eq_refl) as (Ho & Hw). subst o.
    simpl in Hp. destruct Hp as (Hh & Hs & Hf).
    assert (Hm : m = Tributary) by (destruct m; [discriminate | reflexivity]).
    rewrite Hm in Hh. inversion Hh. subst pc0.
    rewrite (failure_exit_eq this Tributary pc _ VUndefined).
    change "tributary"%string with (mode_tag Tributary). rewrite <- Hm. apply Hthrow; auto.
Qed.

(** A callback of a launch, of a combinator or of [settle] runs. *)
Lemma Conducted_plain_job j s :
  Conducted this m g s -> Typed s -> job_ok s j ->
  (forall r o, j = JReact r o -> is_cont (handler r) = false /\ job_fact this m g r o s) ->
  Conducted this m g (snd (run_job this j s)).
Proof.
  intros HC HT Hj Hpl. destruct j as [[h d] o | t src].
  - destruct (Hpl _ _ eq_refl) as (Hnc & (_ & _ & _ & Hwon)). cbn [handler] in *.
    unfold job_ok in Hj. cbn [handler derived] in Hj.
    destruct h, d; try contradiction; try discriminate.
    + (* HInvoke *)
      simpl. unfold bind.
      pose proof (safe_log_event this m g (EvInvoke u) ltac:(reflexivity)
                    ltac:(reflexivity) s HC) as H1.
      assert (Hr1 : role_of n (snd (log_event (EvInvoke u) s)) = Some RFlow) by exact Hj.
      destruct (log_event (EvInvoke u) s) as [u1 s1]. cbn [fst snd] in *.
      destruct u as [[v|e]|]; simpl; unfold bind; simpl.
      * apply (Conducted_settle_plain this m g n _ RFlow); auto; discriminate.
      * apply (Conducted_settle_plain this m g n _ RFlow); auto; discriminate.
      * apply (safe_enqueue_thenable this m g).
        apply (safe_new_promise this m g); [discriminate..|exact H1].
    + (* HFlowThen *)
      destruct Hj as (fp & Hr & Hfp). simpl. unfold bind. destruct o as [v|e]; simpl.
      * apply (Conducted_settle_plain this m g n _ (RFlowThen fp)); auto; discriminate.
      * unfold bind, Estuary.freeze_token, modify. cbn [fst snd].
        apply (Conducted_settle_plain this m g n _ (RFlowThen fp));
          [|exact Hr | discriminate..].
        apply Conducted_frozen; [exact HC|]. left. exists fp, n, e. auto.
    + (* HFlowFinally *)
      simpl. unfold bind.
      pose proof (safe_flows_delete this m g flowPromise s HC) as H1.
      destruct (Estuary.flows_delete flowPromise s) as [u1 s1]. cbn [fst snd] in *.
      pose proof (safe_new_promise this m g RFinallyUnit (Settled (Ful VUndefined))
                    ltac:(discriminate) ltac:(discriminate) s1 H1) as H2.
      destruct (new_promise RFinallyUnit _ s1) as [a s2]. cbn [fst snd] in *.
      unfold then_, bind.
      pose proof (safe_new_promise this m g (RFinallyValue flowPromise) Pending
                    ltac:(discriminate) ltac:(discriminate) s2 H2) as H3.
      destruct (new_promise (RFinallyValue flowPromise) Pending s2) as [b s3].
      cbn [fst snd] in *.
      assert (Hpl' : plain_handler this (HValueThunk o)).
      { split; [reflexivity|]. split; [reflexivity | discriminate]. }
      pose proof (safe_perform_then this m g a {| handler := HValueThunk o; derived := Some b |}
                    Hpl' s3 H3) as H4.
      destruct (perform_then a _ s3) as [u4 s4]. cbn [fst snd] in *.
      apply (safe_enqueue_thenable this m g). exact H4.
    + (* HValueThunk *)
      destruct Hj as (fp & Hr & _). simpl. unfold bind.
      destruct o0 as [v|e]; simpl;
        apply (Conducted_settle_plain this m g n _ (RFinallyValue fp)); auto; discriminate.
    + (* HForward *)
      destruct Hj as (Ht & _). simpl. unfold bind.
      assert (H : Conducted this m g (snd (settle_promise target o s))).
      { destruct Ht as [Hr | [Hr | (fp & Hr)]].
        - eapply Conducted_settle_plain; eauto; discriminate.
        - destruct (proj1 (cd_unique _ _ _ _ HC target) Hr) as (Hdl & ->).
          apply Conducted_settle_promise; auto.
          + intros Hr'. rewrite Hr in Hr'. discriminate.
          + split; [intros E; discriminate E|]. split; [auto|]. intros _ E. discriminate E.
          + intros E. discriminate E.
        - eapply Conducted_settle_plain; eauto; discriminate. }
      destruct (settle_promise target o s) as [u s1]. exact H.
    + (* HElement *)
      simpl. unfold bind.
      pose proof (safe_count_down this m g agg index o s HC) as H1.
      destruct (Typed_count_down agg index o s HT) as (HT1 & Hr1).
      destruct (count_down agg index o s) as [[ag|] s1]; cbn [fst snd] in *; [|exact H1].
      specialize (Hr1 ag eq_refl).
      destruct (decide (remaining ag = 0%nat)); unfold ret; cbn [fst snd]; [|exact H1].
      pose proof (Conducted_settle_plain this m g (result ag)
                    (Ful (VArray (length (elements ag)))) RAllSettled s1 H1 Hr1
                    ltac:(discriminate) ltac:(discriminate) ltac:(discriminate)
                    ltac:(discriminate)) as H2.
      destruct (settle_promise (result ag) _ s1) as [u s2]. exact H2.
    + (* HSettleResume *)
      simpl. unfold bind.
      pose proof (Conducted_settle_plain this m g ps (Ful VUndefined) RSettle s HC Hj
                    ltac:(discriminate) ltac:(discriminate) ltac:(discriminate)
                    ltac:(reflexivity)) as H1.
      destruct (settle_promise ps _ s) as [u s1]. exact H1.
  - simpl. apply safe_perform_then; [|exact HC]. cbn [handler].
    split; [reflexivity|]. split; [reflexivity|].
    intros Hdl E. inversion E. subst t.
    pose proof (proj1 (cd_cast _ _ _ _ HC Hdl)) as Hr.
    destruct Hj as [(H1 & _) | (fp & H1 & _)]; rewrite Hr in H1; discriminate.
Qed.

End ConductedCallbacks.
(** *** Every run keeps the invariant *)

Lemma Typed_pop s : Typed s -> Typed (with_queue tail s).
Proof.
  intros HT. apply (Typed_same_heap s); auto.
  - apply evolves_same_heap; auto.
  - intros x Hx. simpl in Hx. destruct (queue s) as [|j q]; [inversion Hx|].
    apply list_elem_of_further. exact Hx.
  - intros a ag Ha. eauto.
Qed.

Lemma Conducted_pop this m g s :
  Conducted this m g s -> Conducted this m g (with_queue tail s).
Proof.
  intros HC. apply (Conducted_plain this m g s _ HC).
  - apply evolves_steady, evolves_same_heap; auto.
  - apply same_log_quiet. reflexivity.
  - auto.
  - auto.
  - intros r o Hr. left. simpl in Hr. destruct (queue s) as [|j q]; [inversion Hr|].
    apply list_elem_of_further. exact Hr.
  - auto.
  - destruct (queue s) as [|j q] eqn:Hq.
    + unfold conts. simpl. rewrite Hq. simpl. lia.
    + rewrite (conts_pop j q s Hq). lia.
  - intros _. simpl. auto.
  - intros H. left. exact H.
  - intros _ fp H. exact H.
Qed.

(** A microtask of a run keeps the invariant. *)
Lemma Conducted_tick this m g j q s :
  Typed s -> Conducted this m g s -> queue s = j :: q ->
  Conducted this m g (snd (run_job this j (with_queue tail s))).
Proof.
  intros HT HC Hq.
  pose proof (Typed_pop s HT) as HT0. pose proof (Conducted_pop this m g s HC) as HC0.
  assert (He : evolves s (with_queue tail s)) by (apply evolves_same_heap; auto).
  assert (Hj : job_ok (with_queue tail s) j).
  { apply (job_ok_evolves s); [exact He|].
    apply (typed_queue s HT). rewrite Hq. apply list_elem_of_here. }
  destruct j as [[h d] o | t src].
  - assert (Hin : JReact {| handler := h; derived := d |} o ∈ queue s).
    { rewrite Hq. apply list_elem_of_here. }
    pose proof (cd_jobs _ _ _ _ HC _ _ Hin) as Hfact.
    destruct (is_cont h) eqn:Hk.
    + assert (Hd : d = None).
      { unfold job_ok in Hj. cbn [handler derived] in Hj.
        destruct h, d; try discriminate; try contradiction; reflexivity. }
      subst d.
      pose proof (conts_pop _ _ s Hq) as Hpop. cbn [is_cont_job handler] in Hpop.
      rewrite Hk in Hpop.
      destruct (cd_conts _ _ _ _ HC) as (Hle & Hzero).
      assert (Hpend : state_of pc s = Some Pending).
      { pose proof (cd_call _ _ _ _ HC) as Hr. unfold role_of in Hr. unfold state_of.
        destruct (heap s !! pc) as [pr|] eqn:Hl; [|discriminate]. simpl.
        destruct (pstate pr) as [|x] eqn:Hs; [reflexivity|].
        assert (conts s = 0%nat); [|lia].
        apply Hzero. exists x. unfold settled_as, state_of. rewrite Hl. simpl.
        rewrite Hs. reflexivity. }
      apply Conducted_orchestrator; auto.
      * lia.
      * apply (cd_quiet _ _ _ _ HC Hpend). lia.
      * intros Hb G. simpl. destruct (settled s) eqn:Hst; [|reflexivity].
        destruct (cd_single _ _ _ _ HC G Hst) as (_ & N2).
        specialize (N2 _ _ Hin). cbn [handler] in N2. congruence.
    + apply Conducted_plain_job; auto. intros r o' E. inversion E. subst r o'.
      split; [exact Hk | exact Hfact].
  - apply Conducted_plain_job; auto. intros r o E. discriminate.
Qed.

Lemma plain_rx_fact_forward this m g p s :
  p = body \/ p = deadline -> rx_fact this m g p (forward_to raced) s.
Proof.
  intros Hp. split; [exact I|]. cbn [handler forward_to].
  split; [discriminate|]. split; [discriminate | auto].
Qed.

Lemma Conducted_start this m : Conducted this m true (start this m).
Proof.
  destruct (truthy (Fjord.timeout this)) eqn:Ht.
  - rewrite (start_with_timeout this m Ht). split;
      unfold conts, awaited, has_deadline, rx, is_settled, settled_as, state_of, role_of;
      rewrite ?Ht; cbn [heap queue log settled].
    + reflexivity.
    + intros _. split; reflexivity.
    + intros p. split; intros Hp;
        destruct p as [|[|[|[|p]]]]; simpl in Hp; try discriminate; auto.
    + intros p r Hr.
      destruct p as [|[|[|[|p]]]]; simpl in Hr;
        try (inversion Hr; fail);
        apply list_elem_of_singleton in Hr; subst r.
      * apply plain_rx_fact_forward. auto.
      * apply plain_rx_fact_forward. auto.
      * split; [destruct m; reflexivity|].
        unfold awaited. rewrite Ht.
        split; [reflexivity|]. split; [destruct m; discriminate|].
        intros _. destruct m; discriminate.
    + intros r o Hr. inversion Hr.
    + intros p o Hp. destruct p as [|[|[|[|p]]]]; simpl in Hp; discriminate.
    + intros _ _. reflexivity.
    + unfold cont_rx, cont_jobs. destruct m; simpl; (split; [lia|]);
        intros (o & Ho); discriminate.
    + intros _ E. discriminate E.
    + intros E. discriminate E.
    + intros _ ps snap Hin. inversion Hin.
  - rewrite (start_no_timeout this m Ht). split;
      unfold conts, awaited, has_deadline, rx, is_settled, settled_as, state_of, role_of;
      rewrite ?Ht; cbn [heap queue log settled].
    + reflexivity.
    + intros E. discriminate E.
    + intros p. split; intros Hp;
        destruct p as [|[|p]]; simpl in Hp; discriminate.
    + intros p r Hr.
      destruct p as [|[|p]]; simpl in Hr;
        try (inversion Hr; fail);
        apply list_elem_of_singleton in Hr; subst r.
      split; [destruct m; reflexivity|].
      unfold awaited. rewrite Ht.
      split; [reflexivity|]. split; [destruct m; discriminate|].
      unfold has_deadline. rewrite Ht. intros E. discriminate E.
    + intros r o Hr. inversion Hr.
    + intros p o Hp. destruct p as [|[|p]]; simpl in Hp; discriminate.
    + intros _ _. reflexivity.
    + unfold cont_rx, cont_jobs. destruct m; simpl; (split; [lia|]);
        intros (o & Ho); discriminate.
    + intros _ E. discriminate E.
    + intros E. discriminate E.
    + intros _ ps snap Hin. inversion Hin.
Qed.

Lemma Conducted_step this m g a s s' :
  Typed s -> Conducted this m g s -> step this a s = Some s' ->
  Conducted this m (g && negb (is_settle a)) s'.
Proof.
  intros HT HC Hs. destruct a; simpl negb; rewrite ?andb_true_r, ?andb_false_r.
  - simpl in Hs. inversion Hs. apply safe_flow. exact HC.
  - simpl in Hs. inversion Hs. apply Conducted_settle; [|discriminate..].
    eapply Conducted_weaken; eauto.
  - simpl in Hs. destruct (caller_owned p s) eqn:Hc; inversion Hs.
    destruct (caller_owned_role p s Hc) as [Hr | Hr];
      eapply Conducted_settle_plain; eauto; discriminate.
  - simpl in Hs. destruct (queue s) as [|j q] eqn:Hq; inversion Hs.
    unfold bind, pop_job, modify. cbn [fst snd].
    eapply Conducted_tick; eauto.
  - simpl in Hs. destruct (queue s); [|discriminate].
    destruct (timers s) as [|tm rest] eqn:Htm; inversion Hs.
    unfold bind, pop_timer, modify. cbn [fst snd].
    destruct (callback tm) as [d] eqn:Hcb. simpl. unfold bind.
    unfold Estuary.freeze_token, modify. cbn [fst snd].
    assert (Hr : role_of d s = Some RDeadline).
    { apply (typed_timers s HT tm d); [|exact Hcb]. rewrite Htm. apply list_elem_of_here. }
    destruct (proj2 (cd_unique _ _ _ _ HC d) Hr) as (Hdl & ->).
    rewrite settle_promise_token. cbn [snd].
    assert (HC1 : Conducted this m g (with_timers tail s)).
    { apply (Conducted_same this m g (with_timers tail) s HC); auto.
      apply same_log_quiet. reflexivity. }
    apply Conducted_frozen.
    + apply Conducted_settle_promise; auto.
      * intros Hr'. change (role_of deadline s = Some RSettle) in Hr'. congruence.
      * split; [intros E; discriminate E|]. split; [intros _ E; discriminate E|].
        intros _ _. reflexivity.
      * intros E. discriminate E.
    + right. left. split; [exact Hdl|].
      apply (settle_promise_settles deadline _ RDeadline). exact Hr.
Qed.

Lemma Conducted_exec this m acts : forall g s s',
  Typed s -> Conducted this m g s -> exec this acts s = Some s' ->
  Conducted this m (g && settle_left_alone acts) s'.
Proof.
  induction acts as [|a acts IH]; simpl; intros g s s' HT HC He.
  - inversion He. subst. rewrite andb_true_r. exact HC.
  - destruct (step this a s) as [s1|] eqn:Hs; [|discriminate].
    rewrite andb_assoc. apply (IH _ s1); [eapply Typed_step; eauto | | exact He].
    eapply Conducted_step; eauto.
Qed.

Lemma Conducted_run this m acts s :
  exec this acts (start this m) = Some s ->
  Conducted this m (settle_left_alone acts) s.
Proof.
  intros He.
  exact (Conducted_exec this m acts true _ s (Typed_start this m)
           (Conducted_start this m) He).
Qed.
(** *** One continuation while the call is pending *)

Lemma conts_perform_then_ge p r s : (conts s <= conts (snd (perform_then p r s)))%nat.
Proof.
  unfold perform_then. destruct (heap s !! p) as [pr|] eqn:Hp; [|simpl; lia].
  destruct (pstate pr).
  - unfold conts. simpl.
    pose proof (heap_conts_insert (heap s) p pr
                  {| role := role pr; pstate := Pending; reactions := reactions pr ++ [r] |}
                  Hp) as H.
    simpl in H. rewrite cont_rx_app in H. lia.
  - rewrite conts_enqueue. lia.
Qed.

Lemma conts_perform_then_cont p r ρ s :
  role_of p s = Some ρ -> is_cont (handler r) = true ->
  conts (snd (perform_then p r s)) = S (conts s).
Proof.
  intros Hr Hc. unfold perform_then, role_of in *.
  destruct (heap s !! p) as [pr|] eqn:Hp; [|discriminate].
  destruct (pstate pr).
  - unfold conts. simpl.
    pose proof (heap_conts_insert (heap s) p pr
                  {| role := role pr; pstate := Pending; reactions := reactions pr ++ [r] |}
                  Hp) as H.
    simpl in H. rewrite cont_rx_app in H. unfold cont_rx at 3 in H. simpl in H.
    rewrite Hc in H. simpl in H. lia.
  - rewrite conts_enqueue. simpl. rewrite Hc. lia.
Qed.

#[export] Instance conts_grow_frame : FreezeFrame conts_grow.
Proof.
  split; [split|]; unfold keeps, conts_grow.
  - intros s. lia.
  - intros s1 s2 s3 H1 H2. lia.
  - intros r st s. rewrite conts_new_promise. lia.
  - intros j s. rewrite conts_enqueue. lia.
  - intros e s. unfold conts. simpl. lia.
  - intros ag s. unfold conts. simpl. lia.
  - intros a i o s. unfold count_down. destruct (aggs s !! a) as [ag|]; [|simpl; lia].
    destruct (values ag !! i) as [[x|]|]; unfold conts; simpl; lia.
  - intros p o s. rewrite conts_settle_promise. lia.
  - intros p r s. apply conts_perform_then_ge.
  - intros s. unfold conts. simpl. lia.
  - intros p s. unfold conts. simpl. lia.
  - intros s. unfold conts. simpl. lia.
Qed.

Lemma pending_before p s s' :
  evolves s s' -> (exists ρ, role_of p s = Some ρ) ->
  state_of p s' = Some Pending -> state_of p s = Some Pending.
Proof.
  intros He (ρ & Hr) Hp. unfold role_of in Hr. unfold state_of.
  destruct (heap s !! p) as [pr|] eqn:Hl; [|discriminate]. simpl.
  destruct (pstate pr) as [|o] eqn:Hs; [reflexivity|].
  assert (H : settled_as p o s').
  { apply (settled_as_evolves s); [exact He|].
    unfold settled_as, state_of. rewrite Hl. simpl. rewrite Hs. reflexivity. }
  unfold settled_as in H. congruence.
Qed.

Lemma busy_start this m : busy (start this m).
Proof.
  intros _. destruct (truthy (Fjord.timeout this)) eqn:Ht.
  - rewrite (start_with_timeout this m Ht). destruct m; reflexivity.
  - rewrite (start_no_timeout this m Ht). destruct m; reflexivity.
Qed.

Lemma settle_then_conts h s :
  is_cont h = true -> (1 <= conts (snd (settle_then h s)))%nat.
Proof.
  intros Hc. unfold settle_then, bind.
  pose proof (role_of_settle s) as Hr.
  destruct (Estuary.settle s) as [ps s1]. cbn [fst snd] in *.
  unfold await.
  rewrite (conts_perform_then_cont ps {| handler := h; derived := None |} RSettle s1 Hr Hc).
  lia.
Qed.

Lemma busy_step this m g a s s' :
  Typed s -> Conducted this m g s -> busy s -> step this a s = Some s' -> busy s'.
Proof.
  intros HT HC Hb Hs Hpend.
  pose proof (Conducted_step this m g a s s' HT HC Hs) as HC'.
  destruct (cd_conts _ _ _ _ HC') as (Hle & _).
  pose proof (step_keeps evolves this a s s' Hs) as He.
  assert (Hp : state_of pc s = Some Pending).
  { apply (pending_before pc s s' He); [|exact Hpend].
    eexists. exact (cd_call _ _ _ _ HC). }
  specialize (Hb Hp).
  assert (Hge : (1 <= conts s')%nat); [|lia].
  destruct a; simpl in Hs.
  - inversion Hs. subst s'.
    pose proof (keeps_flow conts_grow u (fun p x => le_n _) s) as H.
    unfold conts_grow in H. lia.
  - inversion Hs. subst s'. pose proof (keeps_settle conts_grow s) as H.
    unfold conts_grow in H. lia.
  - destruct (caller_owned p s); inversion Hs. subst s'.
    rewrite conts_settle_promise. lia.
  - destruct (queue s) as [|j q] eqn:Hq; inversion Hs. subst s'. clear Hs.
    unfold bind, pop_job, modify in *. cbn [fst snd] in *.
    pose proof (conts_pop j q s Hq) as Hpop.
    pose proof (keeps_run_job conts_grow this j (with_queue tail s)) as Hgrow.
    unfold conts_grow in Hgrow.
    destruct (is_cont_job j) eqn:Hk; [|lia].
    destruct j as [[h d] o | t src]; [|discriminate]. cbn [is_cont_job handler] in Hk.
    assert (Hin : JReact {| handler := h; derived := d |} o ∈ queue s).
    { rewrite Hq. apply list_elem_of_here. }
    destruct (cd_jobs _ _ _ _ HC _ _ Hin) as (Hpl & _ & Haf & _). cbn [handler] in *.
    assert (Hd : d = None).
    { pose proof (typed_queue s HT _ Hin) as Hj.
      unfold job_ok in Hj. cbn [handler derived] in Hj.
      destruct h, d; try discriminate; try contradiction; reflexivity. }
    subst d.
    assert (Hset : forall x s0,
              role_of pc s0 = Some RCall ->
              state_of pc (snd (settle_promise pc x s0)) <> Some Pending).
    { intros x s0 Hr Hpd.
      destruct (settle_promise_settles pc x RCall s0 Hr) as (y & Hy).
      unfold settled_as in Hy. congruence. }
    pose proof (cd_call _ _ _ _ HC) as Hcall.
    destruct h; try discriminate.
    + destruct o as [v|e].
      * rewrite cascade_success_eq. apply settle_then_conts. reflexivity.
      * rewrite (failure_entry_eq this Cascade). apply settle_then_conts. reflexivity.
    + destruct (Haf eq_refl) as (-> & _).
      rewrite (success_return_eq this _ pc0 _ VUndefined) in Hpend
        by (left; reflexivity).
      simpl in Hpl. destruct Hpl as (Hh & _).
      assert (pc0 = pc) by (destruct m; inversion Hh; reflexivity). subst pc0.
      apply Hset in Hpend; [destruct Hpend | exact Hcall].
    + destruct (Haf eq_refl) as (-> & _).
      simpl in Hpl. destruct Hpl as (Hh & _).
      assert (pc0 = pc) by (destruct m; inversion Hh; reflexivity). subst pc0.
      rewrite (failure_exit_eq this Cascade pc _ VUndefined), rethrow_eq in Hpend.
      apply Hset in Hpend; [destruct Hpend | exact Hcall].
    + destruct o as [v|e].
      * rewrite tributary_success_eq. apply settle_then_conts. reflexivity.
      * rewrite (failure_entry_eq this Tributary). apply settle_then_conts. reflexivity.
    + destruct (Haf eq_refl) as (-> & _).
      rewrite (success_return_eq this _ pc0 _ VUndefined) in Hpend
        by (right; reflexivity).
      simpl in Hpl. destruct Hpl as (Hh & _).
      assert (pc0 = pc) by (destruct m; inversion Hh; reflexivity). subst pc0.
      apply Hset in Hpend; [destruct Hpend | exact Hcall].
    + destruct (Haf eq_refl) as (-> & _).
      simpl in Hpl. destruct Hpl as (Hh & _).
      assert (pc0 = pc) by (destruct m; inversion Hh; reflexivity). subst pc0.
      rewrite (failure_exit_eq this Tributary pc _ VUndefined), rethrow_eq in Hpend.
      apply Hset in Hpend; [destruct Hpend | exact Hcall].
  - destruct (queue s); [|discriminate].
    destruct (timers s) as [|tm rest]; inversion Hs. subst s'.
    unfold bind, pop_timer, modify. cbn [fst snd].
    pose proof (keeps_run_timer conts_grow this (callback tm) (with_timers tail s)) as H.
    unfold conts_grow in H. change (conts (with_timers tail s)) with (conts s) in H. lia.
Qed.

Lemma busy_exec this m acts : forall g s s',
  Typed s -> Conducted this m g s -> busy s -> exec this acts s = Some s' -> busy s'.
Proof.
  induction acts as [|a acts IH]; simpl; intros g s s' HT HC Hb He.
  - inversion He. subst. exact Hb.
  - destruct (step this a s) as [s1|] eqn:Hs; [|discriminate].
    apply (IH (g && negb (is_settle a)) s1);
      [eapply Typed_step; eauto | eapply Conducted_step; eauto
      | eapply busy_step; eauto | exact He].
Qed.

(** ** What a call answers *)





(** ** A call returns after the wait *)

(** X7: the structured guarantee.  In a run in which caller code never
    calls [estuary.settle] itself, once the call's promise is settled the
    orchestrator's call of [settle] has waited and returned: every
    operation that was tracked when it was called has settled and is no
    longer tracked, and every operation still tracked was launched after
    that call. *)
Theorem call_returns_after_the_wait (this : Fjord.t) (m : Mode) acts s :
  exec this acts (start this m) = Some s ->
  settle_left_alone acts = true ->
  is_settled pc s ->
  exists ps snap,
    EvWait ps snap ∈ log s /\ is_settled ps s
    /\ (forall fp, fp ∈ snap -> is_settled fp s /\ fp ∉ flows s)
    /\ (forall fp, fp ∈ flows s -> (ps < fp)%nat).
Proof.
  intros He Hg (o & Ho). pose proof (Conducted_run this m acts s He) as HC.
  rewrite Hg in HC.
  pose proof (Typed_exec this acts _ s (Typed_start this m) He) as HT.
  pose proof (Ordered_exec this acts _ s (Typed_start this m) (Ordered_start this m) He)
    as HO.
  destruct (cd_settled _ _ _ _ HC pc o Ho) as (Hv & _).
  destruct (Hv eq_refl) as (_ & Hw). destruct (Hw eq_refl) as (ps & snap & Hin & Hps).
  exists ps, snap. split; [exact Hin|]. split; [exact Hps|].
  destruct (ord_wait s HO ps snap Hin) as (_ & ag & Ha & Hel & Hfin).
  specialize (Hfin Hps).
  assert (Hdone : forall fp, fp ∈ snap -> is_settled fp s /\ fp ∉ flows s).
  { intros fp Hfp. destruct (Hfin fp Hfp) as ((x & Hx) & Hfl).
    split.
    - destruct (ord_remaining s HO _ ag Ha) as (_ & _ & Hrole).
      rewrite <- Hel in Hfp. specialize (Hrole fp Hfp).
      apply state_of_lookup in Hx. destruct Hx as (pr & Hl & Hst).
      pose proof (typed_settled s HT (S fp) pr x Hl Hst) as Hok.
      apply role_of_lookup in Hrole. destruct Hrole as (pr' & Hl' & Hr').
      assert (pr' = pr) by congruence. subst pr'. rewrite Hr' in Hok.
      exists x. exact (proj1 Hok).
    - destruct Hfl as [Hfl | Hq]; [exact Hfl | destruct (finally_queued_0 _ _ Hq)]. }
  split; [exact Hdone|].
  intros fp Hfp. destruct (ord_since s HO ps snap fp Hin Hfp) as [Hsn | Hlt]; [|exact Hlt].
  destruct (proj2 (Hdone fp Hsn) Hfp).
Qed.

Lemma call_returns_after_the_wait_witness :
  exists s,
    exec plain launch_and_return (start plain Cascade) = Some s
    /\ exists ps snap,
         EvWait ps snap ∈ log s /\ is_settled ps s
         /\ (forall fp, fp ∈ snap -> is_settled fp s /\ fp ∉ flows s)
         /\ (forall fp, fp ∈ flows s -> (ps < fp)%nat).
Proof.
  destruct (exec plain launch_and_return (start plain Cascade)) as [s|] eqn:He;
    [|vm_compute in He; discriminate].
  exists s. split; [reflexivity|].
  apply (call_returns_after_the_wait plain Cascade launch_and_return s He eq_refl).
  exists (Ful (VNum 2)). vm_compute in He. inversion He. reflexivity.
Defined.

(** X9: a call that closes its scope returns with an empty scope.  In a
    run in which caller code never calls [estuary.settle] itself, once a
    tributary call has returned, or a cascade call has failed, the token
    is armed and no operation is tracked any more. *)
Theorem closed_scope_is_empty_at_return (this : Fjord.t) (m : Mode) acts s o :
  exec this acts (start this m) = Some s ->
  settle_left_alone acts = true ->
  settled_as pc o s ->
  m = Tributary \/ (exists x, o = Rej x) ->
  frozen s = true /\ flows s = [].
Proof.
  intros He Hg Ho Hcl. pose proof (Conducted_run this m acts s He) as HC.
  rewrite Hg in HC.
  pose proof (Ordered_exec this acts _ s (Typed_start this m) (Ordered_start this m) He)
    as HO.
  destruct (cd_settled _ _ _ _ HC pc o Ho) as (Hv & _).
  destruct (Hv eq_refl) as (Hvd & Hw). destruct (Hw eq_refl) as (ps & snap & Hin & Hps).
  assert (Hsl : sealed this m s).
  { destruct Hcl as [Hm | (x & ->)]; [left; exact Hm|].
    simpl in Hvd. destruct Hvd as (_ & e & H & _). right. exists e. exact H. }
  destruct (cd_late _ _ _ _ HC eq_refl ps snap Hin) as (_ & Hlate).
  destruct (Hlate Hsl) as (Hf & Hsub). split; [exact Hf|].
  destruct (ord_wait s HO ps snap Hin) as (_ & ag & _ & _ & Hfin).
  specialize (Hfin Hps).
  destruct (flows s) as [|fp l] eqn:Hfl; [reflexivity|].
  assert (Hfp : fp ∈ flows s) by (rewrite Hfl; apply list_elem_of_here).
  rewrite <- Hfl in Hsub.
  destruct (Hfin fp (Hsub fp Hfp)) as (_ & [Hn | Hq]).
  - destruct (Hn Hfp).
  - destruct (finally_queued_0 _ _ Hq).
Qed.

Lemma closed_scope_is_empty_at_return_witness :
  exists s,
    exec plain launch_and_return (start plain Tributary) = Some s
    /\ frozen s = true /\ flows s = [].
Proof.
  destruct (exec plain launch_and_return (start plain Tributary)) as [s|] eqn:He;
    [|vm_compute in He; discriminate].
  exists s. split; [reflexivity|].
  apply (closed_scope_is_empty_at_return plain Tributary launch_and_return s
           (Ful (VNum 2)) He eq_refl); [|left; reflexivity].
  vm_compute in He. inversion He. reflexivity.
Defined.


(** ** Promises the library never settles *)

Lemma settle_spares p o q ρp ρ s :
  role_of p s = Some ρp -> role_of q s = Some ρ -> ρp <> ρ ->
  state_of q (snd (settle_promise p o s)) = state_of q s.
Proof.
  intros Hp Hq Hne.
  destruct (settle_promise_calm p o s) as (_ & _ & _ & _ & H & _).
  apply H. intros ->. congruence.
Qed.

Lemma new_promise_spares r st q ρ s :
  role_of q s = Some ρ -> state_of q (snd (new_promise r st s)) = state_of q s.
Proof.
  intros Hq. destruct (new_promise_view r st s) as (_ & Vs & _).
  apply Vs. apply role_of_lt in Hq. lia.
Qed.

Lemma settle_then_spares h q ρ s :
  role_of q s = Some ρ -> state_of q (snd (settle_then h s)) = state_of q s.
Proof.
  intros Hq. unfold settle_then, bind.
  destruct (settle_tame s) as (_ & _ & Vs).
  destruct (Estuary.settle s) as [ps s1]. cbn [fst snd] in *.
  destruct (perform_then_calm ps {| handler := h; derived := None |} s1)
    as (_ & _ & _ & _ & Vs1 & _).
  unfold await. rewrite Vs1. apply Vs. eapply role_of_lt; eauto.
Qed.

(** No callback settles a promise of caller code. *)
Lemma run_job_spares this j q ρ s :
  Typed s -> job_ok s j -> role_of q s = Some ρ -> callers ρ ->
  state_of q (snd (run_job this j s)) = state_of q s.
Proof.
  intros HT Hj Hq Hc.
  assert (Hne : forall p ρp o s0,
            heap s0 = heap s -> role_of p s = Some ρp ->
            ρp <> ROperation -> ρp <> RBody ->
            state_of q (snd (settle_promise p o s0)) = state_of q s).
  { intros p ρp o s0 Hh Hp N1 N2.
    transitivity (state_of q s0); [|unfold state_of; rewrite Hh; reflexivity].
    apply (settle_spares p o q ρp ρ); unfold role_of; rewrite ?Hh; auto.
    destruct Hc as [-> | ->]; assumption. }
  destruct j as [[h d] o | t src].
  - unfold job_ok in Hj. cbn [handler derived] in Hj.
    destruct h, d; try contradiction.
    + (* HInvoke *)
      simpl. unfold bind, log_event, modify. cbn [fst snd].
      destruct u as [[v|e]|]; simpl; unfold bind; simpl.
      * apply (Hne n RFlow); auto; discriminate.
      * apply (Hne n RFlow); auto; discriminate.
      * change (state_of q (snd (new_promise ROperation Pending
                                   (with_log (fun l => l ++ [EvInvoke UAsync]) s)))
                = state_of q s).
        exact (new_promise_spares ROperation Pending q ρ
                 (with_log (fun l => l ++ [EvInvoke UAsync]) s) Hq).
    + (* HFlowThen *)
      destruct Hj as (fp & Hr & _). simpl. unfold bind. destruct o as [v|e]; simpl.
      * apply (Hne n (RFlowThen fp)); auto; discriminate.
      * unfold bind, Estuary.freeze_token, modify. cbn [fst snd].
        apply (Hne n (RFlowThen fp)); auto; discriminate.
    + (* HFlowFinally *)
      simpl. unfold bind, Estuary.flows_delete, modify. cbn [fst snd].
      set (s1 := with_flows _ s).
      assert (Hq1 : role_of q s1 = Some ρ) by exact Hq.
      pose proof (new_promise_spares RFinallyUnit (Settled (Ful VUndefined)) q ρ s1 Hq1)
        as V2.
      pose proof (role_of_evolves _ _ q ρ
                    (frame_new_promise (R := evolves) RFinallyUnit
                       (Settled (Ful VUndefined)) s1) Hq1) as Hq2.
      destruct (new_promise RFinallyUnit _ s1) as [a s2]. cbn [fst snd] in *.
      unfold then_, bind.
      pose proof (new_promise_spares (RFinallyValue flowPromise) Pending q ρ s2 Hq2) as V3.
      destruct (new_promise (RFinallyValue flowPromise) Pending s2) as [b s3].
      cbn [fst snd] in *.
      destruct (perform_then_calm a {| handler := HValueThunk o; derived := Some b |} s3)
        as (_ & _ & _ & _ & V4 & _).
      destruct (perform_then a _ s3) as [u4 s4]. cbn [fst snd] in *.
      change (state_of q s4 = state_of q s). rewrite V4, V3, V2. reflexivity.
    + (* HValueThunk *)
      destruct Hj as (fp & Hr & _). simpl. unfold bind.
      destruct o0 as [v|e]; simpl; apply (Hne n (RFinallyValue fp)); auto; discriminate.
    + (* HForward *)
      destruct Hj as (Ht & _). simpl. unfold bind.
      assert (H : state_of q (snd (settle_promise target o s)) = state_of q s).
      { destruct Ht as [Hr | [Hr | (fp & Hr)]]; eapply Hne; eauto; discriminate. }
      destruct (settle_promise target o s) as [u s1]. exact H.
    + (* HElement *)
      simpl. unfold bind.
      destruct (Typed_count_down agg index o s HT) as (_ & Hr1).
      assert (Hh : heap (snd (count_down agg index o s)) = heap s).
      { unfold count_down. destruct (aggs s !! agg) as [ag|]; [|reflexivity].
        destruct (values ag !! index) as [[x|]|]; reflexivity. }
      destruct (count_down agg index o s) as [[ag|] s1]; unfold ret; cbn [fst snd] in *;
        [|unfold state_of; rewrite Hh; reflexivity].
      specialize (Hr1 ag eq_refl).
      assert (Hq1 : role_of q s1 = Some ρ) by (unfold role_of; rewrite Hh; exact Hq).
      assert (Hs1 : state_of q s1 = state_of q s) by (unfold state_of; rewrite Hh; reflexivity).
      destruct (decide (remaining ag = 0%nat)); unfold ret; cbn [fst snd]; [|exact Hs1].
      assert (Hr0 : role_of (result ag) s = Some RAllSettled).
      { unfold role_of in *. rewrite <- Hh. exact Hr1. }
      pose proof (Hne (result ag) RAllSettled (Ful (VArray (length (elements ag)))) s1
                    Hh Hr0 ltac:(discriminate) ltac:(discriminate)) as H2.
      destruct (settle_promise (result ag) _ s1) as [u s2]. exact H2.
    + (* HSettleResume *)
      simpl. unfold bind.
      pose proof (Hne ps RSettle (Ful VUndefined) s eq_refl Hj
                    ltac:(discriminate) ltac:(discriminate)) as H1.
      destruct (settle_promise ps _ s) as [u s1]. exact H1.
    + (* HCascadeBody *)
      destruct o as [v|e].
      * rewrite cascade_success_eq. eapply settle_then_spares; eauto.
      * rewrite (failure_entry_eq this Cascade).
        exact (settle_then_spares _ q ρ (with_token TideToken.freeze s) Hq).
    + (* HCascadeSettled *)
      destruct o as [x|e].
      * rewrite (success_return_eq this _ pc0 _ x) by (left; reflexivity).
        apply (Hne pc0 RCall); auto; discriminate.
      * rewrite (settled_rejected_eq this Cascade).
        exact (settle_then_spares _ q ρ (with_token TideToken.freeze s) Hq).
    + (* HCascadeCaught *)
      destruct o as [x|e].
      * rewrite (failure_exit_eq this Cascade pc0 _ x), rethrow_eq.
        apply (Hne pc0 RCall); auto; discriminate.
      * rewrite (caught_rejected_eq this Cascade).
        apply (Hne pc0 RCall); auto; discriminate.
    + (* HTributaryBody *)
      destruct o as [v|e].
      * rewrite tributary_success_eq.
        exact (settle_then_spares _ q ρ (with_token TideToken.freeze s) Hq).
      * rewrite (failure_entry_eq this Tributary).
        exact (settle_then_spares _ q ρ (with_token TideToken.freeze s) Hq).
    + (* HTributarySettled *)
      destruct o as [x|e].
      * rewrite (success_return_eq this _ pc0 _ x) by (right; reflexivity).
        apply (Hne pc0 RCall); auto; discriminate.
      * rewrite (settled_rejected_eq this Tributary).
        exact (settle_then_spares _ q ρ (with_token TideToken.freeze s) Hq).
    + (* HTributaryCaught *)
      destruct o as [x|e].
      * rewrite (failure_exit_eq this Tributary pc0 _ x), rethrow_eq.
        apply (Hne pc0 RCall); auto; discriminate.
      * rewrite (caught_rejected_eq this Tributary).
        apply (Hne pc0 RCall); auto; discriminate.
  - simpl.
    destruct (perform_then_calm src {| handler := HForward t; derived := None |} s)
      as (_ & _ & _ & _ & V & _).
    apply V.
Qed.

Lemma step_spares this a q ρ s s' :
  Typed s -> step this a s = Some s' -> role_of q s = Some ρ -> callers ρ ->
  (forall o, a <> AResolve q o) ->
  state_of q s' = state_of q s.
Proof.
  intros HT Hs Hq Hc Hne. destruct a; simpl in Hs.
  - inversion Hs. subst s'. destruct (frozen s) eqn:Hf.
    + rewrite (flow_frozen u s Hf). cbn [snd].
      exact (new_promise_spares RClosed (Settled (Rej Estuary.ScopeClosed)) q ρ s Hq).
    + destruct (flow_view u s Hf) as (V & _).
      apply V. eapply role_of_lt; eauto.
  - inversion Hs. subst s'. destruct (settle_tame s) as (_ & _ & V).
    apply V. eapply role_of_lt; eauto.
  - destruct (caller_owned p s) eqn:Hown; inversion Hs. subst s'.
    destruct (settle_promise_calm p o s) as (_ & _ & _ & _ & V & _).
    apply V. intros ->. exact (Hne o eq_refl).
  - destruct (queue s) as [|j rest] eqn:Hque; inversion Hs. subst s'.
    unfold bind, pop_job, modify. cbn [fst snd].
    assert (He : evolves s (with_queue tail s)) by (apply evolves_same_heap; auto).
    apply (run_job_spares this j q ρ (with_queue tail s)); auto.
    + apply Typed_pop. exact HT.
    + apply (job_ok_evolves s); [exact He|].
      apply (typed_queue s HT). rewrite Hque. apply list_elem_of_here.
  - destruct (queue s); [|discriminate].
    destruct (timers s) as [|tm rest] eqn:Htm; inversion Hs. subst s'.
    unfold bind, pop_timer, modify. cbn [fst snd].
    destruct (callback tm) as [d] eqn:Hcb. simpl. unfold bind.
    unfold Estuary.freeze_token, modify. cbn [fst snd].
    assert (Hr : role_of d s = Some RDeadline).
    { apply (typed_timers s HT tm d); [|exact Hcb]. rewrite Htm. apply list_elem_of_here. }
    refine (settle_spares d _ q RDeadline ρ
              (with_token TideToken.freeze (with_timers tail s)) Hr Hq _).
    destruct Hc as [-> | ->]; discriminate.
Qed.

Lemma exec_spares this acts : forall q ρ s s',
  Typed s -> exec this acts s = Some s' -> role_of q s = Some ρ -> callers ρ ->
  left_alone q acts ->
  state_of q s' = state_of q s.
Proof.
  induction acts as [|a acts IH]; simpl; intros q ρ s s' HT He Hq Hc Hla.
  - inversion He. reflexivity.
  - destruct (step this a s) as [s1|] eqn:Hs; [|discriminate].
    rewrite (IH q ρ s1 s'); auto.
    + apply (step_spares this a q ρ s s1); auto.
      intros o ->. apply (Hla o). apply list_elem_of_here.
    + eapply Typed_step; eauto.
    + eapply role_of_evolves; [|exact Hq]. exact (step_keeps evolves this a s s1 Hs).
    + intros o Hin. apply (Hla o). apply list_elem_of_further. exact Hin.
Qed.

(** X8: nothing is cancelled.  Between two moments of a run of a call,
    a promise of caller code, the body's or the one an async undertaking
    returned, on which caller code did not act is in the same state:
    neither a failure of another operation, nor the deadline, nor an
    armed token, nor the settlement settles it. *)
Theorem operations_are_never_cancelled (this : Fjord.t) (m : Mode)
    acts1 acts2 s1 s2 q ρ :
  exec this acts1 (start this m) = Some s1 ->
  exec this acts2 s1 = Some s2 ->
  role_of q s1 = Some ρ -> callers ρ ->
  left_alone q acts2 ->
  state_of q s2 = state_of q s1.
Proof.
  intros He1 He2 Hq Hc Hla.
  apply (exec_spares this acts2 q ρ s1 s2); auto.
  exact (Typed_exec this acts1 _ s1 (Typed_start this m) He1).
Qed.

Lemma operations_are_never_cancelled_witness :
  exists s1 s2,
    exec plain launch_pending (start plain Cascade) = Some s1
    /\ exec plain fail_around s1 = Some s2
    /\ state_of 6%nat s2 = state_of 6%nat s1.
Proof.
  destruct (exec plain launch_pending (start plain Cascade)) as [s1|] eqn:He1;
    [|vm_compute in He1; discriminate].
  destruct (exec plain fail_around s1) as [s2|] eqn:He2.
  - exists s1, s2. split; [reflexivity|]. split; [exact He2|].
    apply (operations_are_never_cancelled plain Cascade launch_pending fail_around
             s1 s2 6%nat ROperation He1 He2).
    + vm_compute in He1. inversion He1. reflexivity.
    + left. reflexivity.
    + intros o Hin. unfold fail_around in Hin.
      repeat (apply elem_of_cons in Hin; destruct Hin as [Hin | Hin]; [discriminate|]).
      inversion Hin.
  - vm_compute in He1. inversion He1. subst s1. vm_compute in He2. discriminate.
Defined.
(** ** The wait of [settle] makes progress *)

#[export] Instance aggs_kept_frame : Frame aggs_kept.
Proof.
  assert (Same : forall s s', aggs s' = aggs s -> aggs_kept s s').
  { intros s s' H a ag Ha. exists ag. rewrite H. auto. }
  split; unfold keeps.
  - intros s. apply Same. reflexivity.
  - intros s1 s2 s3 H1 H2 a ag Ha.
    destruct (H1 a ag Ha) as (ag2 & Ha2 & E2 & R2 & V2).
    destruct (H2 a ag2 Ha2) as (ag3 & Ha3 & E3 & R3 & V3).
    exists ag3. split; [exact Ha3|]. split; [congruence|]. split; [congruence|]. auto.
  - intros r st s. apply Same. reflexivity.
  - intros j s. apply Same. reflexivity.
  - intros e s. apply Same. reflexivity.
  - intros ag s a ag0 Ha. exists ag0. simpl.
    split; [apply lookup_app_l_Some; exact Ha | auto].
  - intros a i o s. unfold count_down.
    destruct (aggs s !! a) as [ag|] eqn:Ha; [|apply Same; reflexivity].
    destruct (values ag !! i) as [[x|]|] eqn:Hv; try (apply Same; reflexivity).
    intros a0 ag0 Ha0. simpl. destruct (decide (a = a0)) as [->|Hne].
    + rewrite list_lookup_insert_eq by (eapply lookup_lt_Some; eauto).
      eexists. split; [reflexivity|]. simpl.
      assert (ag0 = ag) by congruence. subst ag0.
      split; [reflexivity|]. split; [reflexivity|].
      intros i0 o0 Hi0. destruct (decide (i = i0)) as [->|Hi]; [congruence|].
      rewrite list_lookup_insert_ne by exact Hi. exact Hi0.
    + rewrite list_lookup_insert_ne by exact Hne. exists ag0. auto.
  - intros p o s. apply Same. apply (settle_promise_calm p o s).
  - intros p r s. apply Same. apply (perform_then_calm p r s).
  - intros s. apply Same. reflexivity.
  - intros p s. apply Same. reflexivity.
Qed.

#[export] Instance aggs_kept_host : HostFrame aggs_kept.
Proof.
  assert (Same : forall s s', aggs s' = aggs s -> aggs_kept s s').
  { intros s s' H a ag Ha. exists ag. rewrite H. auto. }
  split; [split; [apply _|] | | |].
  - intros s. apply Same. reflexivity.
  - intros u. apply keeps_flow; [apply _|]. intros p s. apply Same. reflexivity.
  - intros s. apply Same. reflexivity.
  - intros s. apply Same. reflexivity.
Qed.

Lemma stable_filled this i : stable this (filled i).
Proof.
  intros a s s' _ _ (ag & o & Ha & Hv) Hs.
  destruct (step_keeps aggs_kept this a s s' Hs 0%nat ag Ha) as (ag' & Ha' & _ & _ & Hv').
  exists ag', o. auto.
Qed.

Lemma yields_element this i o :
  yields this (JReact (element_reaction i) o) (filled i).
Proof.
  intros q s HT HO Hq.
  assert (Hhead : queue s !! 0%nat = Some (JReact (element_reaction i) o)).
  { rewrite Hq. reflexivity. }
  pose proof (ord_jobs s HO _ _ Hhead) as Hj. simpl in Hj.
  destruct Hj as (ag & fp & Ha & Hel & _).
  destruct (ord_remaining s HO 0%nat ag Ha) as (_ & Hlen & _).
  assert (Hlt : (i < length (values ag))%nat).
  { rewrite Hlen. eapply lookup_lt_Some; eauto. }
  destruct (lookup_lt_is_Some_2 _ _ Hlt) as (x & Hx).
  unfold filled. cbn [aggs with_queue].
  simpl. unfold bind.
  assert (Hcd : exists ag' o', aggs (snd (count_down 0 i o s)) !! 0%nat = Some ag'
                               /\ values ag' !! i = Some (Some o')).
  { unfold count_down. rewrite Ha, Hx. destruct x as [o'|]; simpl.
    - exists ag, o'. auto.
    - eexists _, o. rewrite list_lookup_insert_eq by (eapply lookup_lt_Some; eauto).
      split; [reflexivity|]. simpl. apply list_lookup_insert_eq. exact Hlt. }
  destruct (count_down 0 i o s) as [[c|] s1]; cbn [fst snd] in *.
  - destruct (decide (remaining c = 0%nat)); unfold ret; cbn [fst snd]; [|exact Hcd].
    destruct (settle_promise_calm (result c) (Ful (VArray (length (elements c)))) s1)
      as (Va & _).
    destruct (settle_promise (result c) _ s1) as [u s2]. cbn [fst snd] in *.
    rewrite Va. exact Hcd.
  - exact Hcd.
Qed.

Lemma yields_resume this ps o :
  yields this (JReact (resume_reaction ps) o) (is_settled ps).
Proof.
  intros q s HT HO Hq. apply is_settled_pop.
  assert (Hj : job_ok s (JReact (resume_reaction ps) o)).
  { apply (typed_queue s HT). rewrite Hq. apply list_elem_of_here. }
  simpl in Hj. simpl. unfold bind.
  pose proof (settle_promise_settles ps (Ful VUndefined) RSettle s Hj) as H.
  destruct (settle_promise ps _ s) as [u s1]. exact H.
Qed.

(** A callback that is neither an element function nor a continuation
    of the call leaves the records of [allSettled] as they are and logs
    no wait. *)
Lemma ordinary_job_view this j s :
  Typed s -> job_ok s j -> ordinary j ->
  let s' := snd (run_job this j s) in
  aggs s' = aggs s
  /\ forall ps snap, EvWait ps snap ∈ log s' -> EvWait ps snap ∈ log s.
Proof.
  intros HT Hj Ho s'. subst s'.
  assert (Calm : forall s0 s1 : State,
            aggs s1 = aggs s0 -> log s1 = log s0 ->
            aggs s0 = aggs s ->
            (forall ps snap, EvWait ps snap ∈ log s0 -> EvWait ps snap ∈ log s) ->
            aggs s1 = aggs s
            /\ forall ps snap, EvWait ps snap ∈ log s1 -> EvWait ps snap ∈ log s).
  { intros s0 s1 Ha Hl Ha0 Hl0. split; [congruence|]. rewrite Hl. exact Hl0. }
  assert (Settle : forall p o s0,
            aggs s0 = aggs s ->
            (forall ps snap, EvWait ps snap ∈ log s0 -> EvWait ps snap ∈ log s) ->
            aggs (snd (settle_promise p o s0)) = aggs s
            /\ forall ps snap, EvWait ps snap ∈ log (snd (settle_promise p o s0)) ->
                               EvWait ps snap ∈ log s).
  { intros p o s0 Ha0 Hl0.
    destruct (settle_promise_calm p o s0) as (Va & _ & Vl & _).
    apply (Calm s0); auto. }
  assert (Refl : forall ps snap, EvWait ps snap ∈ log s -> EvWait ps snap ∈ log s) by auto.
  destruct j as [[h d] o | t src].
  - unfold job_ok in Hj. cbn [handler derived] in Hj. simpl in Ho.
    destruct h, d; try contradiction; try discriminate.
    + (* HInvoke *)
      simpl. unfold bind, log_event, modify. cbn [fst snd].
      assert (Hl1 : forall ps snap,
                EvWait ps snap ∈ log (with_log (fun l => l ++ [EvInvoke u]) s) ->
                EvWait ps snap ∈ log s).
      { intros ps snap Hin. simpl in Hin. apply elem_of_app in Hin.
        destruct Hin as [Hin | Hin]; [exact Hin|].
        apply list_elem_of_singleton in Hin. discriminate. }
      destruct u as [[v|e]|]; simpl; unfold bind; simpl.
      * apply Settle; auto.
      * apply Settle; auto.
      * split; [reflexivity | exact Hl1].
    + (* HFlowThen *)
      simpl. unfold bind. destruct o as [v|e]; simpl.
      * apply Settle; auto.
      * unfold bind, Estuary.freeze_token, modify. cbn [fst snd]. apply Settle; auto.
    + (* HFlowFinally *)
      simpl. unfold bind, Estuary.flows_delete, modify. cbn [fst snd].
      set (s1 := with_flows _ s).
      destruct (new_promise RFinallyUnit (Settled (Ful VUndefined)) s1) as [a s2] eqn:E2.
      assert (H2 : aggs s2 = aggs s /\ log s2 = log s).
      { unfold new_promise in E2. inversion E2. split; reflexivity. }
      cbn [fst snd]. unfold then_, bind.
      destruct (new_promise (RFinallyValue flowPromise) Pending s2) as [b s3] eqn:E3.
      assert (H3 : aggs s3 = aggs s2 /\ log s3 = log s2).
      { unfold new_promise in E3. inversion E3. split; reflexivity. }
      cbn [fst snd].
      destruct (perform_then_calm a {| handler := HValueThunk o; derived := Some b |} s3)
        as (Va4 & _ & Vl4 & _).
      destruct (perform_then a _ s3) as [u4 s4]. cbn [fst snd] in *.
      simpl. destruct H2, H3. split; [congruence|].
      intros ps snap. rewrite Vl4. intros Hin. congruence.
    + (* HValueThunk *)
      simpl. unfold bind. destruct o0 as [v|e]; simpl; apply Settle; auto.
    + (* HForward *)
      simpl. unfold bind.
      pose proof (Settle target o s eq_refl Refl) as H.
      destruct (settle_promise target o s) as [u s1]. exact H.
    + (* HSettleResume *)
      simpl. unfold bind.
      pose proof (Settle ps (Ful VUndefined) s eq_refl Refl) as H.
      destruct (settle_promise ps _ s) as [u s1]. exact H.
  - simpl.
    destruct (perform_then_calm src {| handler := HForward t; derived := None |} s)
      as (Va & _ & Vl & _).
    apply (Calm s); auto.
Qed.
(** ** Every wait of [settle] is under way *)

Lemma stable_waiting this ps snap : stable this (waiting ps snap).
Proof.
  intros a s s' HT HO (ag & Ha & He & Hsl & Hre) Hs.
  destruct (step_keeps aggs_kept this a s s' Hs 0%nat ag Ha) as (ag' & Ha' & He' & Hr' & _).
  exists ag'. split; [exact Ha'|]. split; [congruence|]. split.
  - intros i fp Hi.
    apply (reaction_alive_stable this (element_reaction i) fp (filled i)
             (stable_filled this i) (fun o => yields_element this i o) a s s'); auto.
  - rewrite Hr'.
    apply (reaction_alive_stable this (resume_reaction ps) (result ag) (is_settled ps)
             (stable_is_settled this ps) (fun o => yields_resume this ps o) a s s'); auto.
Qed.

Lemma calm_refl s : calm s s.
Proof.
  split; [apply frame_refl|]. split; [apply frame_refl|]. auto.
Qed.

Lemma calm_trans s1 s2 s3 : calm s1 s2 -> calm s2 s3 -> calm s1 s3.
Proof.
  intros (P1 & E1 & A1 & L1) (P2 & E2 & A2 & L2).
  split; [eapply frame_trans; eauto|]. split; [eapply frame_trans; eauto|].
  split; [congruence | auto].
Qed.

Lemma calm_settle_promise p o s : calm s (snd (settle_promise p o s)).
Proof.
  destruct (settle_promise_calm p o s) as (Va & _ & Vl & _).
  split; [apply frame_settle_promise|]. split; [apply frame_settle_promise|].
  split; [exact Va|]. intros ps snap. rewrite Vl. auto.
Qed.

Lemma calm_perform_then p r s : calm s (snd (perform_then p r s)).
Proof.
  destruct (perform_then_calm p r s) as (Va & _ & Vl & _).
  split; [apply frame_perform_then|]. split; [apply frame_perform_then|].
  split; [exact Va|]. intros ps snap. rewrite Vl. auto.
Qed.

Lemma calm_new_promise r st s : calm s (snd (new_promise r st s)).
Proof.
  split; [apply frame_new_promise|]. split; [apply frame_new_promise|].
  split; [reflexivity|]. auto.
Qed.

Lemma calm_freeze s : calm s (with_token TideToken.freeze s).
Proof.
  split; [apply (frame_freeze_token (R := persists))|].
  split; [apply (frame_freeze_token (R := evolves))|].
  split; [reflexivity|]. auto.
Qed.

Lemma calm_rethrow this error tag pcx s : calm s (snd (Fjord.rethrow this error tag pcx s)).
Proof.
  split; [apply keeps_rethrow; apply _|]. split; [apply keeps_rethrow; apply _|].
  unfold Fjord.rethrow, Fjord.report, bind.
  assert (Hev : forall s0 : State,
            let s1 := with_log (fun l => l ++ [EvObserver error tag]) s0 in
            aggs s1 = aggs s0
            /\ forall ps snap, EvWait ps snap ∈ log s1 -> EvWait ps snap ∈ log s0).
  { intros s0. split; [reflexivity|]. intros ps snap Hin. simpl in Hin.
    apply elem_of_app in Hin. destruct Hin as [Hin | Hin]; [exact Hin|].
    apply list_elem_of_singleton in Hin. discriminate. }
  destruct (Fjord.onError this) as [observer|].
  - destruct (instanceof_Error error).
    + unfold log_event, modify, ret. cbn [fst snd].
      destruct (Hev s) as (A1 & L1).
      destruct (observer error tag) as [x|].
      * destruct (settle_promise_calm pcx (Rej x) (with_log (fun l => l ++ [EvObserver error tag]) s))
          as (Va & _ & Vl & _).
        split; [rewrite Va; exact A1|]. intros ps snap. rewrite Vl. apply L1.
      * destruct (settle_promise_calm pcx (Rej error) (with_log (fun l => l ++ [EvObserver error tag]) s))
          as (Va & _ & Vl & _).
        split; [rewrite Va; exact A1|]. intros ps snap. rewrite Vl. apply L1.
    + unfold ret. cbn [fst snd].
      destruct (settle_promise_calm pcx (Rej error) s) as (Va & _ & Vl & _).
      split; [exact Va|]. intros ps snap. rewrite Vl. auto.
  - unfold ret. cbn [fst snd].
    destruct (settle_promise_calm pcx (Rej error) s) as (Va & _ & Vl & _).
    split; [exact Va|]. intros ps snap. rewrite Vl. auto.
Qed.

Lemma alive_calm r d (P : State -> Prop) s s' :
  persists s s' -> (P s -> P s') ->
  reaction_alive r d P s -> reaction_alive r d P s'.
Proof.
  intros ((l & Hq) & Hp) HP [Hr | [(o & Hj) | H]].
  - destruct (Hp d r Hr) as [H | H]; [left; exact H | right; left; exact H].
  - right; left. exists o. rewrite Hq. apply elem_of_app. left. exact Hj.
  - right; right. auto.
Qed.

Lemma filled_same i s s' : aggs s' = aggs s -> filled i s -> filled i s'.
Proof. intros Ha (ag & o & H1 & H2). exists ag, o. rewrite Ha. auto. Qed.

Lemma waiting_calm ps snap s s' : calm s s' -> waiting ps snap s -> waiting ps snap s'.
Proof.
  intros (Hp & He & Ha & _) (ag & H1 & H2 & H3 & H4).
  exists ag. rewrite Ha. split; [exact H1|]. split; [exact H2|]. split.
  - intros i fp Hi. apply (alive_calm _ _ _ s s' Hp); [apply filled_same; exact Ha | auto].
  - apply (alive_calm _ _ _ s s' Hp); [apply is_settled_evolves; exact He | exact H4].
Qed.

Lemma drained_calm s s' : evolves s s' -> aggs s' = aggs s -> drained s -> drained s'.
Proof.
  intros He Ha Hd ag H1 H2. rewrite Ha in H1.
  eapply is_settled_evolves; [exact He | eauto].
Qed.

Lemma Waiting_calm s s' : calm s s' -> Waiting s -> Waiting s'.
Proof.
  intros Hc [Hd Hw]. split.
  - destruct Hc as (_ & He & Ha & _). eapply drained_calm; eauto.
  - intros ps snap Hin. apply (waiting_calm ps snap s s' Hc).
    apply Hw. destruct Hc as (_ & _ & _ & Hl). auto.
Qed.

Lemma alive_pop r d (P : State -> Prop) j q s :
  queue s = j :: q -> (forall o, j <> JReact r o) ->
  (P s -> P (with_queue tail s)) ->
  reaction_alive r d P s -> reaction_alive r d P (with_queue tail s).
Proof.
  intros Hq Hne HP [Hr | [(o & Hj) | H]].
  - left. exact Hr.
  - right; left. exists o. simpl. rewrite Hq in *. simpl.
    apply elem_of_cons in Hj. destruct Hj as [Hj | Hj]; [|exact Hj].
    exfalso. apply (Hne o). symmetry. exact Hj.
  - right; right. auto.
Qed.

Lemma Waiting_pop r o q s :
  queue s = JReact r o :: q -> is_cont (handler r) = true ->
  Waiting s -> Waiting (with_queue tail s).
Proof.
  intros Hq Hc [Hd Hw]. split; [exact Hd|].
  intros ps snap Hin. destruct (Hw ps snap Hin) as (ag & H1 & H2 & H3 & H4).
  exists ag. split; [exact H1|]. split; [exact H2|]. split.
  - intros i fp Hi. apply (alive_pop _ _ _ _ q s Hq); [|auto|auto].
    intros o' E. inversion E. subst r. discriminate.
  - apply (alive_pop _ _ _ _ q s Hq); [|auto|auto].
    intros o' E. inversion E. subst r. discriminate.
Qed.

(** The loop of [allSettled] leaves an element function on every
    element, or queues it. *)
Lemma register_alive a ps : forall k s,
  (forall p, p ∈ ps -> (p < length (heap s))%nat) ->
  forall i fp, ps !! i = Some fp ->
    let r := {| handler := HElement a (k + i); derived := None |} in
    let s' := snd (register_elements a k ps s) in
    r ∈ rx fp s' \/ exists o, JReact r o ∈ queue s'.
Proof.
  induction ps as [|p ps IH]; intros k s Hb i fp Hi; [discriminate|].
  simpl. unfold bind.
  assert (Hh : forall q, (q < length (heap s))%nat ->
               (q < length (heap (snd (perform_then p {| handler := HElement a k; derived := None |} s))))%nat).
  { intros q Hq0.
    destruct (perform_then_calm p {| handler := HElement a k; derived := None |} s)
      as (_ & _ & _ & _ & Vs & _).
    destruct (state_of q s) as [st|] eqn:Hst.
    - apply (state_of_lt q st). rewrite Vs. exact Hst.
    - unfold state_of in Hst. destruct (heap s !! q) eqn:Hl; [discriminate|].
      apply lookup_ge_None in Hl. lia. }
  destruct i as [|i].
  - simpl in Hi. inversion Hi. subst p. replace (k + 0)%nat with k by lia.
    pose proof (keeps_register_elements persists a ps (S k)
                  (snd (perform_then fp {| handler := HElement a k; derived := None |} s)))
      as ((l & Hq) & Hp).
    assert (Hnow : {| handler := HElement a k; derived := None |}
                     ∈ rx fp (snd (perform_then fp {| handler := HElement a k; derived := None |} s))
                   \/ exists o, JReact {| handler := HElement a k; derived := None |} o
                                  ∈ queue (snd (perform_then fp {| handler := HElement a k; derived := None |} s))).
    { destruct (state_of_cases fp s) as [Hpe | [(o & Hse) | Hno]].
      - left. destruct (perform_then_pending_view fp {| handler := HElement a k; derived := None |} s Hpe)
          as (Vx & _).
        rewrite Vx. destruct (decide (fp = fp)); [|contradiction].
        apply elem_of_app. right. apply list_elem_of_here.
      - right. exists o. rewrite (perform_then_settled fp _ o s Hse). simpl.
        apply elem_of_app. right. apply list_elem_of_here.
      - exfalso. unfold state_of in Hno. destruct (heap s !! fp) eqn:Hl; [discriminate|].
        apply lookup_ge_None in Hl.
        assert (fp < length (heap s))%nat by (apply Hb; apply list_elem_of_here). lia. }
    destruct (perform_then fp _ s) as [u s1]. cbn [fst snd] in *.
    destruct Hnow as [Hr | (o & Hj)].
    + destruct (Hp fp _ Hr) as [H | H]; [left; exact H | right; exact H].
    + right. exists o. rewrite Hq. apply elem_of_app. left. exact Hj.
  - simpl in Hi.
    destruct (perform_then p _ s) as [u s1]. cbn [fst snd] in *.
    replace (k + S i)%nat with (S k + i)%nat by lia.
    apply (IH (S k) s1); [|exact Hi].
    intros p0 Hp0. apply Hh. apply Hb. apply list_elem_of_further. exact Hp0.
Qed.
(** ** [settle] starts its wait *)

Lemma bind_run {A B} (m : M A) (k : A -> M B) s :
  bind m k s = k (fst (m s)) (snd (m s)).
Proof. unfold bind. destruct (m s); reflexivity. Qed.

(** The first call of [settle] on a scope, state by state. *)
Lemma settle_unfold s :
  settled s = false ->
  let ps := length (heap s) in
  let s1 := snd (new_promise RSettle Pending s) in
  let s2 := with_settled true s1 in
  let r := length (heap s2) in
  let s3 := snd (new_promise RAllSettled Pending s2) in
  let ag := {| elements := flows s; values := replicate (length (flows s)) None;
               remaining := length (flows s); result := r |} in
  let s4 := snd (aggs_push ag s3) in
  let s5 := snd (register_elements (length (aggs s)) 0 (flows s) s4) in
  let s6 := snd ((if decide (length (flows s) = 0%nat)
                  then settle_promise r (Ful (VArray 0)) else ret tt) s5) in
  let s7 := snd (perform_then r {| handler := HSettleResume ps; derived := None |} s6) in
  Estuary.settle s = (ps, with_log (fun l => l ++ [EvWait ps (flows s)]) s7).
Proof.
  intros Hs. cbv zeta. unfold Estuary.settle.
  rewrite bind_run. cbv beta. rewrite bind_run. cbv beta.
  unfold get at 1 2. cbn [fst snd].
  change (settled (snd (new_promise RSettle Pending s))) with (settled s).
  rewrite Hs. unfold Promise_allSettled, await.
  repeat (rewrite bind_run; cbv beta).
  reflexivity.
Qed.

Lemma Waiting_settle s :
  fresh s -> bounded s -> Waiting s -> Waiting (snd (Estuary.settle s)).
Proof.
  intros Hf Hb HW.
  destruct (settled s) eqn:Hs.
  - (* the scope was settled before *)
    unfold Estuary.settle. rewrite bind_run.
    pose proof (calm_new_promise RSettle Pending s) as C1.
    change (fst (new_promise RSettle Pending s)) with (length (heap s)).
    set (ps := length (heap s)) in *.
    set (s1 := snd (new_promise RSettle Pending s)) in *.
    rewrite bind_run. unfold get at 1 2. cbn [fst snd].
    change (settled s1) with (settled s). rewrite Hs.
    rewrite bind_run. unfold ret. cbn [fst snd].
    apply (Waiting_calm s); [|exact HW].
    eapply calm_trans; [exact C1 | apply calm_settle_promise].
  - destruct (Hf Hs) as (Hag & Hno).
    rewrite (settle_unfold s Hs). cbv zeta. rewrite Hag. cbn [length snd].
    set (ps := length (heap s)).
    set (s1 := snd (new_promise RSettle Pending s)).
    set (s2 := with_settled true s1).
    set (fl := flows s).
    set (r := length (heap s2)).
    set (s3 := snd (new_promise RAllSettled Pending s2)).
    set (ag := {| elements := fl; values := replicate (length fl) None;
                  remaining := length fl; result := r |}).
    set (s4 := snd (aggs_push ag s3)).
    assert (Ha4 : aggs s4 = [ag]).
    { subst s4 s3 s2 s1. simpl. rewrite Hag. reflexivity. }
    assert (Hr4 : state_of r s4 = Some Pending /\ role_of r s4 = Some RAllSettled).
    { destruct (new_promise_view RAllSettled Pending s2) as (_ & _ & _ & V1 & V2 & _).
      split; [exact V1 | exact V2]. }
    assert (Hb4 : forall p, p ∈ fl -> (p < length (heap s4))%nat).
    { intros p Hp. apply Hb in Hp. subst s4 s3 s2 s1. simpl.
      rewrite !length_app. simpl. lia. }
    pose proof (register_alive 0 fl 0 s4 Hb4) as Hreg.
    destruct (register_elements_calm 0 fl 0 s4) as (Va5 & _ & Vl5 & _ & Vs5 & Vr5).
    set (s5 := snd (register_elements 0 0 fl s4)) in *.
    set (m6 := if decide (length fl = 0%nat)
               then settle_promise r (Ful (VArray 0)) else ret tt).
    assert (C6 : calm s5 (snd (m6 s5))).
    { subst m6. destruct (decide (length fl = 0%nat));
        [apply calm_settle_promise | apply calm_refl]. }
    assert (D6 : length fl = 0%nat -> is_settled r (snd (m6 s5))).
    { intros E. subst m6. destruct (decide (length fl = 0%nat)); [|contradiction].
      apply (settle_promise_settles r _ RAllSettled). rewrite Vr5. apply Hr4. }
    assert (R6 : exists st, state_of r (snd (m6 s5)) = Some st).
    { destruct C6 as (_ & Hev & _).
      assert (Hrole : role_of r (snd (m6 s5)) = Some RAllSettled).
      { apply (role_of_evolves s5); [exact Hev|]. rewrite Vr5. apply Hr4. }
      unfold role_of in Hrole. unfold state_of.
      destruct (heap (snd (m6 s5)) !! r) as [pr|]; [|discriminate].
      eexists. reflexivity. }
    set (s6 := snd (m6 s5)) in *.
    set (rr := {| handler := HSettleResume ps; derived := None |}).
    pose proof (calm_perform_then r rr s6) as C7.
    assert (A7 : rr ∈ rx r (snd (perform_then r rr s6))
                 \/ exists o, JReact rr o ∈ queue (snd (perform_then r rr s6))).
    { destruct R6 as ([|o] & Hst).
      - left. destruct (perform_then_pending_view r rr s6 Hst) as (Vx & _).
        rewrite Vx. destruct (decide (r = r)); [|contradiction].
        apply elem_of_app. right. apply list_elem_of_here.
      - right. exists o. rewrite (perform_then_settled r rr o s6 Hst). simpl.
        apply elem_of_app. right. apply list_elem_of_here. }
    set (s7 := snd (perform_then r rr s6)) in *.
    assert (C57 : calm s5 s7) by (eapply calm_trans; eauto).
    assert (Ha7 : aggs s7 = [ag]).
    { destruct C57 as (_ & _ & Ha & _). rewrite Ha, Va5. exact Ha4. }
    assert (Hl7 : log s7 = log s).
    { destruct (perform_then_calm r rr s6) as (_ & _ & Vl7 & _). fold s7 in Vl7.
      rewrite Vl7. subst s6 m6. destruct (decide (length fl = 0%nat)).
      - destruct (settle_promise_calm r (Ful (VArray 0)) s5) as (_ & _ & Vl6 & _).
        rewrite Vl6, Vl5. reflexivity.
      - unfold ret. cbn [snd]. rewrite Vl5. reflexivity. }
    split.
    + intros ag0 H0 Hrem. change (aggs s7 !! 0%nat = Some ag0) in H0.
      rewrite Ha7 in H0. inversion H0. subst ag0.
      change (is_settled r s7).
      apply (is_settled_evolves s6); [apply C7 | apply D6; exact Hrem].
    + intros ps' snap Hin. cbn [log with_log] in Hin. rewrite Hl7 in Hin.
      apply elem_of_app in Hin. destruct Hin as [Hin | Hin]; [destruct (Hno _ _ Hin)|].
      apply list_elem_of_singleton in Hin. inversion Hin. subst ps' snap.
      exists ag. split; [change (aggs s7 !! 0%nat = Some ag); rewrite Ha7; reflexivity|].
      split; [reflexivity|]. split.
      * intros i fp Hi.
        assert (Hal : reaction_alive (element_reaction i) fp (filled i) s5).
        { destruct (Hreg i fp Hi) as [H | H]; [left; exact H | right; left; exact H]. }
        destruct C57 as (P57 & _ & A57 & _).
        apply (alive_calm _ _ _ s5 s7 P57 (filled_same i s5 s7 A57)) in Hal.
        destruct Hal as [H | [H | H]]; [left; exact H | right; left; exact H
                                        | right; right; exact H].
      * destruct A7 as [H | H]; [left; exact H | right; left; exact H].
Qed.

Lemma Waiting_settle_then h s :
  fresh s -> bounded s -> Waiting s -> Waiting (snd (settle_then h s)).
Proof.
  intros Hf Hb HW. unfold settle_then. rewrite bind_run. unfold await.
  apply (Waiting_calm (snd (Estuary.settle s))); [apply calm_perform_then|].
  apply Waiting_settle; assumption.
Qed.

Lemma Waiting_catch m e pcx s :
  fresh s -> bounded s -> Waiting s ->
  Waiting (snd (match m with
                | Cascade => Fjord.cascade_catch e pcx
                | Tributary => Fjord.tributary_catch e pcx
                end s)).
Proof.
  intros Hf Hb HW.
  assert (HW' : Waiting (with_token TideToken.freeze s)).
  { apply (Waiting_calm s); [apply calm_freeze | exact HW]. }
  destruct m.
  - exact (Waiting_settle_then (HCascadeCaught e pcx) (with_token TideToken.freeze s) Hf Hb HW').
  - exact (Waiting_settle_then (HTributaryCaught e pcx) (with_token TideToken.freeze s) Hf Hb HW').
Qed.

(** The continuations of [cascade] and [tributary] keep every wait
    under way and start the wait of the [settle] they call. *)
Lemma Waiting_orchestrator this h o s :
  is_cont h = true -> fresh s -> bounded s -> Waiting s ->
  Waiting (snd (run_handler this h o s)).
Proof.
  intros Hc Hf Hb HW.
  assert (HW' : Waiting (with_token TideToken.freeze s)).
  { apply (Waiting_calm s); [apply calm_freeze | exact HW]. }
  destruct h; try discriminate Hc; simpl; rewrite bind_run; unfold ret; cbn [fst snd];
    destruct o as [v|e].
  - exact (Waiting_settle_then _ s Hf Hb HW).
  - exact (Waiting_catch Cascade e _ s Hf Hb HW).
  - apply (Waiting_calm s); [apply calm_settle_promise | exact HW].
  - exact (Waiting_catch Cascade e _ s Hf Hb HW).
  - apply (Waiting_calm s); [apply calm_rethrow | exact HW].
  - apply (Waiting_calm s); [apply calm_settle_promise | exact HW].
  - exact (Waiting_settle_then _ (with_token TideToken.freeze s) Hf Hb HW').
  - exact (Waiting_catch Tributary e _ s Hf Hb HW).
  - apply (Waiting_calm s); [apply calm_settle_promise | exact HW].
  - exact (Waiting_catch Tributary e _ s Hf Hb HW).
  - apply (Waiting_calm s); [apply calm_rethrow | exact HW].
  - apply (Waiting_calm s); [apply calm_settle_promise | exact HW].
Qed.

Lemma Waiting_cont_job this r o s :
  is_cont (handler r) = true -> fresh s -> bounded s -> Waiting s ->
  Waiting (snd (run_job this (JReact r o) s)).
Proof.
  intros Hc Hf Hb HW. simpl. rewrite bind_run.
  pose proof (Waiting_orchestrator this (handler r) o s Hc Hf Hb HW) as H.
  destruct (derived r) as [d|]; [|exact H].
  unfold resolve_with.
  destruct (fst (run_handler this (handler r) o s)) as [v|e|q].
  - apply (Waiting_calm _ _ (calm_settle_promise _ _ _) H).
  - apply (Waiting_calm _ _ (calm_settle_promise _ _ _) H).
  - apply (Waiting_calm (snd (run_handler this (handler r) o s))); [|exact H].
    split; [apply frame_enqueue|]. split; [apply frame_enqueue|]. split; [reflexivity|]. auto.
Qed.
(** ** The waits of a run *)

Lemma Waiting_quiet this a s s' :
  Typed s -> Ordered s -> Waiting s -> step this a s = Some s' ->
  drained s' -> (forall ps snap, EvWait ps snap ∈ log s' -> EvWait ps snap ∈ log s) ->
  Waiting s'.
Proof.
  intros HT HO [Hd Hw] Hs Hd' Hl. split; [exact Hd'|].
  intros ps snap Hin. apply (stable_waiting this ps snap a s s'); auto.
Qed.

(** An element function resolves the promise of [allSettled] when it
    fills the last slot. *)
Lemma element_drained this a i o s :
  Typed s -> drained s ->
  let s' := snd (run_job this (JReact {| handler := HElement a i; derived := None |} o) s) in
  drained s' /\ log s' = log s.
Proof.
  intros HT Hd. simpl. rewrite bind_run. rewrite bind_run.
  unfold count_down.
  destruct (aggs s !! a) as [ag|] eqn:Ha; [|unfold ret; cbn [fst snd]; auto].
  destruct (values ag !! i) as [[x|]|] eqn:Hv; try (unfold ret; cbn [fst snd]; auto).
  set (ag' := {| elements := elements ag; values := <[i:=Some o]> (values ag);
                 remaining := pred (remaining ag); result := result ag |}).
  set (s1 := with_aggs <[a:=ag']> s).
  assert (Hlt : (a < length (aggs s))%nat) by (eapply lookup_lt_Some; eauto).
  assert (Hold : forall ag0, a <> 0%nat -> aggs s1 !! 0%nat = Some ag0 -> remaining ag0 = 0%nat ->
                             is_settled (result ag0) s1).
  { intros ag0 Hne H0 Hrem. subst s1. cbn [aggs with_aggs] in H0.
    rewrite list_lookup_insert_ne in H0 by exact Hne. exact (Hd ag0 H0 Hrem). }
  assert (Hnew : a = 0%nat -> aggs s1 !! 0%nat = Some ag').
  { intros ->. subst s1. cbn [aggs with_aggs]. apply list_lookup_insert_eq. exact Hlt. }
  cbn [fst snd]. rewrite bind_run.
  destruct (decide (remaining ag' = 0%nat)) as [Hz|Hnz].
  - destruct (settle_promise_calm (result ag') (Ful (VArray (length (elements ag')))) s1)
      as (Va & _ & Vl & _).
    pose proof (frame_settle_promise (R := evolves) (result ag')
                  (Ful (VArray (length (elements ag')))) s1) as Hev.
    assert (Hset : is_settled (result ag')
                     (snd (settle_promise (result ag') (Ful (VArray (length (elements ag')))) s1))).
    { apply (settle_promise_settles _ _ RAllSettled).
      exact (typed_aggs s HT a ag Ha). }
    unfold ret; cbn [fst snd].
    set (s2 := snd (settle_promise (result ag') (Ful (VArray (length (elements ag')))) s1)) in *.
    split; [|rewrite Vl; reflexivity].
    intros ag0 H0 Hrem. rewrite Va in H0.
    destruct (decide (a = 0%nat)) as [E|Hne].
    + rewrite (Hnew E) in H0. inversion H0. subst ag0. exact Hset.
    + apply (is_settled_evolves s1); [exact Hev|]. apply Hold; auto.
  - unfold ret; cbn [fst snd]. split; [|reflexivity].
    intros ag0 H0 Hrem. destruct (decide (a = 0%nat)) as [E|Hne].
    + rewrite (Hnew E) in H0. inversion H0. subst ag0. contradiction.
    + apply Hold; auto.
Qed.

Lemma fresh_ordered s : Ordered s -> fresh s.
Proof. intros HO Hs. exact (proj2 (ord_once s HO) Hs). Qed.

Lemma bounded_ordered s : Ordered s -> bounded s.
Proof.
  intros HO fp Hin. destruct (ord_tracked s HO fp Hin) as (Hr & _).
  apply role_of_lt in Hr. lia.
Qed.

Lemma flow_quiet u s :
  aggs (snd (Estuary.flow u s)) = aggs s /\ log (snd (Estuary.flow u s)) = log s.
Proof.
  destruct (frozen s) eqn:Hf.
  - rewrite (flow_frozen u s Hf). auto.
  - destruct (flow_view u s Hf) as (_ & _ & _ & _ & _ & _ & _ & _ & _ & Ha & Hl & _). auto.
Qed.

Lemma Waiting_tick_cont this r o q s s' :
  Ordered s -> Waiting s -> queue s = JReact r o :: q ->
  is_cont (handler r) = true ->
  step this ATick s = Some s' -> Waiting s'.
Proof.
  intros HO HW Hq Hc Hs. unfold step in Hs. rewrite Hq in Hs.
  rewrite bind_run in Hs. injection Hs as E. rewrite <- E.
  change (snd (pop_job s)) with (with_queue tail s).
  apply Waiting_cont_job; [exact Hc | | |].
  - exact (fresh_ordered s HO).
  - exact (bounded_ordered s HO).
  - apply (Waiting_pop r o q s Hq Hc HW).
Qed.

(** No step of a run loses a wait. *)
Lemma Waiting_step this : stable this Waiting.
Proof.
  intros a s s' HT HO HW Hs.
  assert (Quiet : aggs s' = aggs s -> log s' = log s -> Waiting s').
  { intros Ha Hl. apply (Waiting_quiet this a s s'); auto.
    - apply (drained_calm s); [eapply step_keeps; [apply _ | exact Hs] | exact Ha|].
      apply HW.
    - intros ps snap. rewrite Hl. auto. }
  destruct a as [u| |p o0| |].
  - (* a launch *)
    simpl in Hs. inversion Hs. subst s'.
    destruct (flow_quiet u s) as (Ha & Hl). apply Quiet; auto.
  - (* settle, called by the caller *)
    simpl in Hs. inversion Hs. subst s'.
    apply Waiting_settle; [apply fresh_ordered | apply bounded_ordered |]; auto.
  - (* an operation settles *)
    simpl in Hs. destruct (caller_owned p s); inversion Hs. subst s'.
    apply (Waiting_calm s); [apply calm_settle_promise | exact HW].
  - (* a job *)
    destruct (queue s) as [|j q] eqn:Hq; [simpl in Hs; rewrite Hq in Hs; discriminate|].
    assert (Hj : job_ok s j).
    { apply (typed_queue s HT). rewrite Hq. apply list_elem_of_here. }
    assert (Plain : ordinary j -> Waiting s').
    { intros Ho. pose proof Hs as Hs'.
      rewrite (tick_eq this j q s Hq) in Hs'. injection Hs' as E.
      destruct (ordinary_job_view this j s HT Hj Ho) as (Ha & Hl).
      apply (Waiting_quiet this ATick s s'); auto.
      - rewrite <- E. apply (drained_calm s); [|exact Ha|apply HW].
        apply (keeps_run_job evolves this j s).
      - rewrite <- E. exact Hl. }
    destruct j as [[h d] o | t src]; [|apply Plain; exact I].
    destruct h as [| | | | |a i| | | | | | |]; try (apply Plain; reflexivity).
    + (* an element function *)
      unfold job_ok in Hj. cbn [handler derived] in Hj.
      destruct d as [d|]; [contradiction|].
      pose proof Hs as Hs'.
      rewrite (tick_eq this _ q s Hq) in Hs'. injection Hs' as E.
      destruct (element_drained this a i o s HT (wt_drained s HW)) as (Hd & Hl).
      apply (Waiting_quiet this ATick s s'); auto.
      * rewrite <- E. exact Hd.
      * rewrite <- E. intros ps snap Hin. rewrite <- Hl. exact Hin.
    + exact (Waiting_tick_cont this _ o q s s' HO HW Hq eq_refl Hs).
    + exact (Waiting_tick_cont this _ o q s s' HO HW Hq eq_refl Hs).
    + exact (Waiting_tick_cont this _ o q s s' HO HW Hq eq_refl Hs).
    + exact (Waiting_tick_cont this _ o q s s' HO HW Hq eq_refl Hs).
    + exact (Waiting_tick_cont this _ o q s s' HO HW Hq eq_refl Hs).
    + exact (Waiting_tick_cont this _ o q s s' HO HW Hq eq_refl Hs).
  - (* the timer *)
    simpl in Hs. destruct (queue s); [|discriminate].
    destruct (timers s) as [|tm rest] eqn:Htm; [discriminate|]. injection Hs as E.
    assert (Hcalm : aggs s' = aggs s /\ log s' = log s).
    { subst s'. rewrite bind_run. destruct (callback tm) as [d]. simpl.
      rewrite bind_run.
      destruct (settle_promise_calm d (Rej (Fjord.timeout_error this))
                  (snd (Estuary.freeze_token (snd (pop_timer s))))) as (Va & _ & Vl & _).
      split; [exact Va | exact Vl]. }
    apply Quiet; apply Hcalm.
Qed.
(** ** [settle] returns *)

Lemma Waiting_start this m : Waiting (start this m).
Proof.
  assert (Hs : settled (start this m) = false).
  { destruct (truthy (Fjord.timeout this)) eqn:Ht.
    - rewrite (start_with_timeout this m Ht). destruct m; reflexivity.
    - rewrite (start_no_timeout this m Ht). destruct m; reflexivity. }
  destruct (proj2 (ord_once _ (Ordered_start this m)) Hs) as (Ha & Hl).
  split.
  - intros ag H0. rewrite Ha in H0. discriminate.
  - intros ps snap Hin. destruct (Hl _ _ Hin).
Qed.

Lemma Waiting_exec this m acts s :
  exec this acts (start this m) = Some s -> Waiting s.
Proof.
  intros He.
  apply (stable_exec this Waiting acts (start this m) s (Waiting_step this));
    [apply Typed_start | apply Ordered_start | apply Waiting_start | exact He].
Qed.

Lemma empty_slots_full vs :
  (forall i, (i < length vs)%nat -> exists o, vs !! i = Some (Some o)) ->
  empty_slots vs = 0%nat.
Proof.
  induction vs as [|v vs IH]; intros H; [reflexivity|].
  destruct (H 0%nat) as (o & Ho); [simpl; lia|]. simpl in Ho. inversion Ho. subst v.
  simpl. apply IH. intros i Hi. apply (H (S i)). simpl. lia.
Qed.

Lemma stable_ripe this ps snap : stable this (ripe ps snap).
Proof.
  intros a s s' HT HO (HW & Hl & Hs) Hst. split; [|split].
  - apply (Waiting_step this a s s'); auto.
  - apply (step_keeps log_grows this a s s' Hst). exact Hl.
  - intros fp Hin. apply (stable_is_settled this fp a s s'); auto.
Qed.

(** The element functions of a ripe wait run one after the other. *)
Lemma ripe_fills this ps snap : forall k s,
  Typed s -> Ordered s -> ripe ps snap s ->
  eventually this
    (fun s' => (forall i, (i < k)%nat -> (i < length snap)%nat -> filled i s')
               /\ ripe ps snap s' /\ Typed s' /\ Ordered s') s.
Proof.
  induction k as [|k IH]; intros s HT HO HR.
  - apply eventually_now. split; [intros i Hi; lia | auto].
  - apply (eventually_then this _ _ s (IH s HT HO HR)).
    intros s1 (Hk & HR1 & HT1 & HO1).
    destruct (snap !! k) as [fp|] eqn:Hfp.
    + destruct HR1 as (HW1 & Hl1 & Hs1).
      destruct (wt_waits s1 HW1 ps snap Hl1) as (ag & _ & _ & Hsl & _).
      assert (Hev : eventually this (filled k) s1).
      { apply (reaction_alive_served this (element_reaction k) fp); auto.
        - intros o. apply yields_element.
        - apply Hs1. eapply list_elem_of_lookup_2; eauto. }
      pose proof (eventually_keep this (filled k)
                    (fun x => (forall i, (i < k)%nat -> (i < length snap)%nat -> filled i x)
                              /\ ripe ps snap x) s1) as Hkeep.
      eapply (eventually_then this _ _ s1).
      * apply Hkeep; auto.
        -- apply stable_and; [|apply stable_ripe].
           intros a x x' HTx HOx Hx Hst i Hi Hlen.
           apply (stable_filled this i a x x'); auto.
        -- split; [exact Hk|]. split; [exact HW1|]. split; [exact Hl1 | exact Hs1].
      * intros s2 (Hf & (Hk2 & HR2) & HT2 & HO2). apply eventually_now.
        split; [|auto]. intros i Hi Hlen.
        destruct (decide (i = k)) as [->|Hne]; [exact Hf | apply Hk2; [lia | exact Hlen]].
    + apply eventually_now. split; [|auto]. intros i Hi Hlen.
      apply lookup_ge_None in Hfp. apply Hk; lia.
Qed.

(** A ripe wait ends: the continuation of [settle] runs. *)
Lemma ripe_returns this ps snap s :
  Typed s -> Ordered s -> ripe ps snap s -> eventually this (is_settled ps) s.
Proof.
  intros HT HO HR.
  apply (eventually_then this _ _ s (ripe_fills this ps snap (length snap) s HT HO HR)).
  intros s1 (Hf & (HW1 & Hl1 & Hs1) & HT1 & HO1).
  destruct (wt_waits s1 HW1 ps snap Hl1) as (ag & Ha & Hel & _ & Hre).
  destruct (ord_remaining s1 HO1 0%nat ag Ha) as (Hrem & Hlen & _).
  assert (Hz : remaining ag = 0%nat).
  { rewrite Hrem. apply empty_slots_full. intros i Hi.
    rewrite Hlen, Hel in Hi. destruct (Hf i Hi Hi) as (ag' & o & Ha' & Hv).
    rewrite Ha in Ha'. inversion Ha'. subst ag'. exists o. exact Hv. }
  apply (reaction_alive_served this (resume_reaction ps) (result ag)); auto.
  - intros o. apply yields_resume.
  - exact (wt_drained s1 HW1 ag Ha Hz).
Qed.

(** X11: [settle] returns.  In every run, once the operations a call of
    [settle] is waiting for have all settled, the promise the call
    returned is settled after finitely many jobs of the host. *)
Theorem settle_completes (this : Fjord.t) (m : Mode) acts s ps snap :
  exec this acts (start this m) = Some s ->
  EvWait ps snap ∈ log s ->
  (forall fp, fp ∈ snap -> is_settled fp s) ->
  eventually this (is_settled ps) s.
Proof.
  intros He Hl Hs. apply (ripe_returns this ps snap s).
  - eapply Typed_exec; [apply Typed_start | exact He].
  - eapply Ordered_exec; [apply Typed_start | apply Ordered_start | exact He].
  - split; [eapply Waiting_exec; eauto | auto].
Qed.

Lemma settle_completes_witness :
  exists s,
    exec plain settle_early (start plain Cascade) = Some s
    /\ eventually plain (is_settled 6) s.
Proof.
  destruct (exec plain settle_early (start plain Cascade)) as [s|] eqn:He;
    [|vm_compute in He; discriminate].
  exists s. split; [reflexivity|].
  apply (settle_completes plain Cascade settle_early s 6%nat [3%nat] He).
  - vm_compute in He. inversion He. apply list_elem_of_here.
  - intros fp Hfp. apply list_elem_of_singleton in Hfp. subst fp.
    vm_compute in He. inversion He. eexists. reflexivity.
Defined.
(** ** The call returns *)

Lemma tick_stable_exec this P n : forall s s',
  tick_stable this P -> Typed s -> Ordered s -> P s ->
  exec this (repeat ATick n) s = Some s' -> P s'.
Proof.
  induction n as [|n IH]; simpl; intros s s' HP HT HO Hp He.
  - inversion He. subst. exact Hp.
  - destruct (queue s) as [|j q] eqn:Hq; [discriminate|].
    assert (Hs : step this ATick s
                 = Some (snd ((pop_job ;; run_job this j) s))).
    { unfold step. rewrite Hq. reflexivity. }
    apply (IH (snd ((pop_job ;; run_job this j) s))); auto.
    + eapply Typed_step; eauto.
    + eapply Ordered_step; eauto.
    + eapply HP; eauto.
Qed.

Lemma eventually_keep_tick this (P Q : State -> Prop) s :
  tick_stable this Q -> Typed s -> Ordered s -> Q s ->
  eventually this P s ->
  eventually this (fun s' => P s' /\ Q s' /\ Typed s' /\ Ordered s') s.
Proof.
  intros HQ HT HO Hq (n & s' & He & Hp). exists n, s'. split; [exact He|].
  split; [exact Hp|]. split; [eapply tick_stable_exec; eauto|].
  split; [eapply Typed_exec; eauto | eapply Ordered_exec; eauto].
Qed.

(** A continuation of the call is somewhere when one is counted. *)
Lemma cont_rx_find l :
  (1 <= cont_rx l)%nat -> exists r, r ∈ l /\ is_cont (handler r) = true.
Proof.
  unfold cont_rx. induction l as [|x l IH]; simpl; [lia|].
  destruct (is_cont (handler x)) eqn:Hc.
  - intros _. exists x. split; [apply list_elem_of_here | exact Hc].
  - intros H. destruct (IH H) as (r & Hin & Hr). exists r.
    split; [apply list_elem_of_further; exact Hin | exact Hr].
Qed.

Lemma cont_jobs_find q :
  (1 <= cont_jobs q)%nat -> exists r o, JReact r o ∈ q /\ is_cont (handler r) = true.
Proof.
  unfold cont_jobs. induction q as [|x q IH]; simpl; [lia|].
  destruct (is_cont_job x) eqn:Hc.
  - intros _. destruct x as [r o|t src]; [|discriminate].
    exists r, o. split; [apply list_elem_of_here | exact Hc].
  - intros H. destruct (IH H) as (r & o & Hin & Hr). exists r, o.
    split; [apply list_elem_of_further; exact Hin | exact Hr].
Qed.

Lemma heap_conts_find h :
  (1 <= heap_conts h)%nat ->
  exists p pr r, h !! p = Some pr /\ r ∈ reactions pr /\ is_cont (handler r) = true.
Proof.
  induction h as [|x h IH]; simpl; [lia|]. intros H.
  destruct (decide (1 <= cont_rx (reactions x))%nat) as [Hx|Hx].
  - destruct (cont_rx_find _ Hx) as (r & Hin & Hr). exists 0%nat, x, r. auto.
  - destruct IH as (p & pr & r & Hp & Hin & Hr); [lia|]. exists (S p), pr, r. auto.
Qed.

Lemma conts_find s :
  (1 <= conts s)%nat ->
  (exists p r, r ∈ rx p s /\ is_cont (handler r) = true)
  \/ (exists r o, JReact r o ∈ queue s /\ is_cont (handler r) = true).
Proof.
  unfold conts. intros H.
  destruct (decide (1 <= heap_conts (heap s))%nat) as [Hh|Hh].
  - left. destruct (heap_conts_find _ Hh) as (p & pr & r & Hp & Hin & Hr).
    exists p, r. split; [|exact Hr]. unfold rx. rewrite Hp. exact Hin.
  - right. apply cont_jobs_find. lia.
Qed.

(** The continuation after [await estuary.settle()] settles the promise
    of the call: with the result in the [try] block, with the error at
    the end of the [catch] block. *)
Lemma after_job_returns this m g r o q s :
  Typed s -> Conducted this m g s -> queue s = JReact r o :: q ->
  is_after (handler r) = true ->
  is_settled pc (with_queue tail (snd (run_job this (JReact r o) s))).
Proof.
  intros HT HC Hq Ha. apply is_settled_pop.
  assert (Hin : JReact r o ∈ queue s) by (rewrite Hq; apply list_elem_of_here).
  pose proof (typed_queue s HT _ Hin) as Hj.
  destruct (cd_jobs _ _ _ _ HC r o Hin) as (Hpl & _ & Hful & _).
  destruct (Hful Ha) as (-> & _).
  pose proof (cd_call _ _ _ _ HC) as Hcall.
  assert (Hrep : forall e tag, is_settled pc (snd (Fjord.rethrow this e tag pc s))).
  { intros e tag. unfold Fjord.rethrow. rewrite bind_run.
    assert (Hr : role_of pc (snd (Fjord.report this e tag s)) = Some RCall).
    { apply (role_of_evolves s); [apply keeps_report; apply _ | exact Hcall]. }
    destruct (fst (Fjord.report this e tag s)) as [x|];
      apply (settle_promise_settles pc _ RCall); exact Hr. }
  destruct r as [h d]. cbn [handler derived] in *. unfold job_ok in Hj.
  cbn [handler derived] in Hj.
  destruct h; try discriminate Ha; destruct d as [d|]; try contradiction;
    simpl in Hpl; destruct Hpl as (Hh & _); destruct m; try discriminate Hh;
    inversion Hh; subst; simpl; rewrite !bind_run; unfold ret; cbn [fst snd].
  - apply (settle_promise_settles pc _ RCall). exact Hcall.
  - apply Hrep.
  - apply (settle_promise_settles pc _ RCall). exact Hcall.
  - apply Hrep.
Qed.

(** The continuation after [await this._executeWithTimeout(...)] calls
    [estuary.settle]. *)
Lemma body_job_marks this r o s :
  job_ok s (JReact r o) -> is_body (handler r) = true ->
  settled (snd (run_job this (JReact r o) s)) = true.
Proof.
  intros Hj Hb. destruct r as [h d]. cbn [handler derived] in *.
  unfold job_ok in Hj. cbn [handler derived] in Hj.
  destruct h; try discriminate Hb; destruct d as [d|]; try contradiction;
    simpl; rewrite !bind_run; unfold ret; cbn [fst snd]; destruct o as [v|e].
  - exact (settle_then_marks _ s).
  - exact (settle_then_marks _ (with_token TideToken.freeze s)).
  - exact (settle_then_marks _ (with_token TideToken.freeze s)).
  - exact (settle_then_marks _ (with_token TideToken.freeze s)).
Qed.

Lemma after_alive_tick this m r p :
  is_after (handler r) = true ->
  tick_stable this (fun s => Conducted this m true s /\ after_alive r p s).
Proof.
  intros Ha s s' HT HO (HC & Hal) Hs.
  assert (HC' : Conducted this m true s').
  { exact (Conducted_step this m true ATick s s' HT HC Hs). }
  split; [exact HC'|].
  destruct (step_persists this ATick s s' Hs) as (j & q & Hq & E & (l & Hl) & Hp).
  assert (Hq' : queue s' = q ++ l).
  { rewrite E. simpl. rewrite Hl, Hq. reflexivity. }
  destruct Hal as [Hr | [Hj | Hd]].
  - destruct (Hp p r Hr) as [H | (o & H)].
    + left. rewrite E. exact H.
    + rewrite Hl, Hq in H. simpl in H. apply elem_of_cons in H. destruct H as [H | H].
      * right; right. subst j. rewrite E.
        apply (after_job_returns this m true r o q s HT HC Hq Ha).
      * assert (Hin : JReact r o ∈ queue s') by (rewrite Hq'; exact H).
        destruct (cd_jobs _ _ _ _ HC' r o Hin) as (_ & _ & Hful & _).
        destruct (Hful Ha) as (-> & _). right; left. exact Hin.
  - rewrite Hq in Hj. apply elem_of_cons in Hj. destruct Hj as [Hj | Hj].
    + right; right. subst j. rewrite E.
      apply (after_job_returns this m true r _ q s HT HC Hq Ha).
    + right; left. rewrite Hq'. apply elem_of_app. left. exact Hj.
  - right; right. apply (stable_is_settled this pc ATick s s'); auto.
Qed.

Global Instance no_new_flow_frame : Frame no_new_flow.
Proof.
  assert (Same : forall s s', flows s' = flows s -> no_new_flow s s').
  { intros s s' H fp. rewrite H. auto. }
  split; unfold keeps.
  - intros s. apply Same. reflexivity.
  - intros s1 s2 s3 H1 H2 fp Hin. auto.
  - intros r st s. apply Same. reflexivity.
  - intros j s. apply Same. reflexivity.
  - intros e s. apply Same. reflexivity.
  - intros ag s. apply Same. reflexivity.
  - intros a i o s. apply Same. unfold count_down.
    destruct (aggs s !! a) as [ag|]; [|reflexivity].
    destruct (values ag !! i) as [[x|]|]; reflexivity.
  - intros p o s. apply Same. apply (settle_promise_calm p o s).
  - intros p r s. apply Same. apply (perform_then_calm p r s).
  - intros s. apply Same. reflexivity.
  - intros p s fp. unfold Estuary.flows_delete, modify. simpl.
    intros Hin. apply list_elem_of_filter in Hin. apply Hin.
Qed.

Global Instance no_new_flow_freeze : FreezeFrame no_new_flow.
Proof. split; [apply _|]. intros s fp Hin. exact Hin. Qed.

Lemma settle_again_calm s : settled s = true -> calm s (snd (Estuary.settle s)).
Proof.
  intros Hs. unfold Estuary.settle. rewrite bind_run.
  pose proof (calm_new_promise RSettle Pending s) as C1.
  change (fst (new_promise RSettle Pending s)) with (length (heap s)).
  set (s1 := snd (new_promise RSettle Pending s)) in *.
  rewrite bind_run. unfold get at 1 2. cbn [fst snd].
  change (settled s1) with (settled s). rewrite Hs.
  rewrite bind_run. unfold ret. cbn [fst snd].
  eapply calm_trans; [exact C1 | apply calm_settle_promise].
Qed.

(** A wait that [settle] records is for what the scope tracks at the
    call. *)
Lemma settle_waits s ps snap :
  EvWait ps snap ∈ log (snd (Estuary.settle s)) ->
  EvWait ps snap ∈ log s \/ snap = flows s.
Proof.
  destruct (settled s) eqn:Hs.
  - destruct (settle_again_calm s Hs) as (_ & _ & _ & Hl). left. auto.
  - destruct (settle_first s Hs) as (_ & _ & _ & Hl & _). rewrite Hl.
    intros Hin. apply elem_of_app in Hin. destruct Hin as [Hin | Hin]; [left; exact Hin|].
    apply list_elem_of_singleton in Hin. inversion Hin. right. reflexivity.
Qed.

Lemma settle_then_waits h s ps snap :
  EvWait ps snap ∈ log (snd (settle_then h s)) ->
  EvWait ps snap ∈ log s \/ snap = flows s.
Proof.
  unfold settle_then. rewrite bind_run. unfold await.
  destruct (perform_then_calm (fst (Estuary.settle s)) {| handler := h; derived := None |}
              (snd (Estuary.settle s))) as (_ & _ & Vl & _).
  rewrite Vl. apply settle_waits.
Qed.

Lemma orchestrator_waits this h o s ps snap :
  is_cont h = true ->
  EvWait ps snap ∈ log (snd (run_handler this h o s)) ->
  EvWait ps snap ∈ log s \/ snap = flows s.
Proof.
  intros Hc.
  assert (Calm : forall s', calm s s' -> EvWait ps snap ∈ log s' ->
                            EvWait ps snap ∈ log s \/ snap = flows s).
  { intros s' (_ & _ & _ & Hl) Hin. left. auto. }
  destruct h; try discriminate Hc; simpl; rewrite bind_run; unfold ret; cbn [fst snd];
    destruct o as [v|e].
  - exact (settle_then_waits _ s ps snap).
  - exact (settle_then_waits _ (with_token TideToken.freeze s) ps snap).
  - apply Calm. apply calm_settle_promise.
  - exact (settle_then_waits _ (with_token TideToken.freeze s) ps snap).
  - apply Calm. apply calm_rethrow.
  - apply Calm. apply calm_settle_promise.
  - exact (settle_then_waits _ (with_token TideToken.freeze s) ps snap).
  - exact (settle_then_waits _ (with_token TideToken.freeze s) ps snap).
  - apply Calm. apply calm_settle_promise.
  - exact (settle_then_waits _ (with_token TideToken.freeze s) ps snap).
  - apply Calm. apply calm_rethrow.
  - apply Calm. apply calm_settle_promise.
Qed.

Lemma element_log this a i o s :
  log (snd (run_job this (JReact {| handler := HElement a i; derived := None |} o) s))
  = log s.
Proof.
  simpl. rewrite !bind_run.
  assert (H1 : log (snd (count_down a i o s)) = log s).
  { unfold count_down. destruct (aggs s !! a) as [ag|]; [|reflexivity].
    destruct (values ag !! i) as [[x|]|]; reflexivity. }
  destruct (fst (count_down a i o s)) as [ag|]; [|exact H1].
  rewrite bind_run. unfold ret. cbn [fst snd].
  destruct (decide (remaining ag = 0%nat)); [|exact H1].
  destruct (settle_promise_calm (result ag) (Ful (VArray (length (elements ag))))
              (snd (count_down a i o s))) as (_ & _ & Vl & _).
  rewrite Vl. exact H1.
Qed.

Lemma tick_waits this s s' ps snap :
  Typed s -> Ordered s -> step this ATick s = Some s' ->
  EvWait ps snap ∈ log s' -> EvWait ps snap ∈ log s \/ snap = flows s.
Proof.
  intros HT HO Hs.
  destruct (queue s) as [|j q] eqn:Hq; [simpl in Hs; rewrite Hq in Hs; discriminate|].
  assert (Hj : job_ok s j).
  { apply (typed_queue s HT). rewrite Hq. apply list_elem_of_here. }
  rewrite (tick_eq this j q s Hq) in Hs. injection Hs as E. rewrite <- E.
  change (log (with_queue tail (snd (run_job this j s))))
    with (log (snd (run_job this j s))).
  assert (Plain : ordinary j -> EvWait ps snap ∈ log (snd (run_job this j s)) ->
                  EvWait ps snap ∈ log s \/ snap = flows s).
  { intros Ho Hin. left.
    exact (proj2 (ordinary_job_view this j s HT Hj Ho) ps snap Hin). }
  destruct j as [[h d] o | t src]; [|apply Plain; exact I].
  unfold job_ok in Hj. cbn [handler derived] in Hj.
  destruct h as [| | | | |a i| | | | | | |]; try (apply Plain; reflexivity);
    (destruct d as [d|]; [contradiction|]).
  - rewrite element_log. auto.
  - unfold run_job. cbn [handler derived]. rewrite bind_run. unfold ret. cbn [snd].
    apply orchestrator_waits. reflexivity.
  - unfold run_job. cbn [handler derived]. rewrite bind_run. unfold ret. cbn [snd].
    apply orchestrator_waits. reflexivity.
  - unfold run_job. cbn [handler derived]. rewrite bind_run. unfold ret. cbn [snd].
    apply orchestrator_waits. reflexivity.
  - unfold run_job. cbn [handler derived]. rewrite bind_run. unfold ret. cbn [snd].
    apply orchestrator_waits. reflexivity.
  - unfold run_job. cbn [handler derived]. rewrite bind_run. unfold ret. cbn [snd].
    apply orchestrator_waits. reflexivity.
  - unfold run_job. cbn [handler derived]. rewrite bind_run. unfold ret. cbn [snd].
    apply orchestrator_waits. reflexivity.
Qed.

Lemma operations_settled_tick this : tick_stable this operations_settled.
Proof.
  intros s s' HT HO (Hf & Hw) Hs.
  pose proof (step_keeps evolves this ATick s s' Hs) as He.
  assert (Hfl : no_new_flow s s').
  { destruct (queue s) as [|j q] eqn:Hq; [simpl in Hs; rewrite Hq in Hs; discriminate|].
    rewrite (tick_eq this j q s Hq) in Hs. injection Hs as E. rewrite <- E.
    exact (keeps_run_job no_new_flow this j s). }
  split.
  - intros fp Hin. apply (is_settled_evolves s s' fp He). auto.
  - intros ps snap Hin fp Hfp. apply (is_settled_evolves s s' fp He).
    destruct (tick_waits this s s' ps snap HT HO Hs Hin) as [Hold | ->]; eauto.
Qed.

Lemma tending_tick this m : tick_stable this (tending this m).
Proof.
  intros s s' HT HO (HW & HC & HB & Hop) Hs.
  split; [apply (Waiting_step this ATick s s'); auto|].
  split; [exact (Conducted_step this m true ATick s s' HT HC Hs)|].
  split; [apply (busy_step this m true ATick s s'); auto|].
  apply (operations_settled_tick this s s'); auto.
Qed.

Lemma closing_tick this m : tick_stable this (closing this m).
Proof.
  intros s s' HT HO (Ht & Haw) Hs.
  split; [apply (tending_tick this m s s'); auto|].
  apply (stable_is_settled this _ ATick s s'); auto.
Qed.

(** A queued job is served while an invariant of the jobs holds. *)
Lemma job_served_under this (Inv : State -> Prop) j (P : State -> Prop) :
  tick_stable this Inv ->
  (forall q s, Typed s -> Ordered s -> Inv s -> queue s = j :: q ->
     P (with_queue tail (snd (run_job this j s)))) ->
  forall k s, Typed s -> Ordered s -> Inv s ->
    queue s !! k = Some j -> eventually this P s.
Proof.
  intros HI Hy. induction k as [|k IH]; intros s HT HO Hi Hk.
  - destruct (queue s) as [|j0 q] eqn:Hq; [discriminate|].
    simpl in Hk. inversion Hk. subst j0.
    exists 1%nat, (with_queue tail (snd (run_job this j s))).
    split; [|apply (Hy q s HT HO Hi Hq)].
    cbn [repeat]. rewrite exec_cons, (tick_eq this j q s Hq). reflexivity.
  - destruct (queue s) as [|j0 q] eqn:Hq; [discriminate|].
    simpl in Hk.
    set (s1 := with_queue tail (snd (run_job this j0 s))).
    assert (Hs : step this ATick s = Some s1) by exact (tick_eq this j0 q s Hq).
    destruct (keeps_run_job queue_grows this j0 s) as (l & Hl).
    assert (Hk1 : queue s1 !! k = Some j).
    { subst s1. simpl. rewrite Hl, Hq. simpl. apply lookup_app_l_Some. exact Hk. }
    destruct (IH s1) as (n & s2 & He & Hp); auto.
    + eapply Typed_step; eauto.
    + eapply Ordered_step; eauto.
    + eapply HI; eauto.
    + exists (S n), s2. split; [|exact Hp].
      cbn [repeat]. rewrite exec_cons, Hs. exact He.
Qed.

Section Closing.

Variables (this : Fjord.t) (m : Mode).

(** The queued continuation after [await estuary.settle()] ends the
    call. *)
Lemma after_job_served r o s :
  Typed s -> Ordered s -> Conducted this m true s ->
  JReact r o ∈ queue s -> is_after (handler r) = true ->
  eventually this (is_settled pc) s.
Proof.
  intros HT HO HC Hin Ha. apply list_elem_of_lookup in Hin. destruct Hin as (k & Hk).
  apply (job_served_under this (Conducted this m true) (JReact r o) _
           (fun s0 s1 HT0 _ HC0 Hs0 => Conducted_step this m true ATick s0 s1 HT0 HC0 Hs0))
    with (k := k); auto.
  intros q s0 HT0 _ HC0 Hq. exact (after_job_returns this m true r o q s0 HT0 HC0 Hq Ha).
Qed.

(** The registered continuation after [await estuary.settle()] ends the
    call once the wait is over. *)
Lemma after_reaction_served r p s :
  Typed s -> Ordered s -> closing this m s ->
  r ∈ rx p s -> is_after (handler r) = true ->
  eventually this (is_settled pc) s.
Proof.
  intros HT HO ((HW & HC & HB & (Hfl & Hsn)) & Haw) Hr Ha.
  destruct (cd_reactions _ _ _ _ HC p r Hr) as (_ & _ & Hafter & _).
  destruct (Hafter Ha) as (_ & Hwait). destruct (Hwait eq_refl) as (snap & Hlog).
  assert (HR : ripe p snap s).
  { split; [exact HW|]. split; [exact Hlog|]. intros fp Hfp. eauto. }
  pose proof (eventually_keep_tick this (is_settled p)
                (fun x => Conducted this m true x /\ after_alive r p x) s
                (after_alive_tick this m r p Ha) HT HO
                (conj HC (or_introl Hr)) (ripe_returns this p snap s HT HO HR)) as Hev.
  apply (eventually_then this _ _ s Hev).
  intros s1 (Hp & (HC1 & Hal) & HT1 & HO1).
  destruct Hal as [Hr1 | [Hj | Hd]].
  - rewrite (ord_quiet s1 HO1 p Hp) in Hr1. inversion Hr1.
  - apply (after_job_served r _ s1 HT1 HO1 HC1 Hj Ha).
  - apply eventually_now. exact Hd.
Qed.

(** Once the scope is marked, the one continuation of a pending call is
    the one after [await estuary.settle()]. *)
Lemma marked_returns s :
  Typed s -> Ordered s -> closing this m s -> settled s = true ->
  eventually this (is_settled pc) s.
Proof.
  intros HT HO Hcl Hs. pose proof Hcl as ((HW & HC & HB & Hop) & Haw).
  destruct (state_of_cases pc s) as [Hp | [Hp | Hp]].
  - destruct (cd_single _ _ _ _ HC eq_refl Hs) as (Hnr & Hnj).
    assert (H1 : (1 <= conts s)%nat) by (rewrite (HB Hp); lia).
    destruct (conts_find s H1) as [(p & r & Hr & Hc) | (r & o & Hj & Hc)].
    + apply (after_reaction_served r p s HT HO Hcl Hr).
      unfold is_cont in Hc. rewrite (Hnr p r Hr) in Hc. exact Hc.
    + apply (after_job_served r o s HT HO HC Hj).
      unfold is_cont in Hc. rewrite (Hnj r o Hj) in Hc. exact Hc.
  - apply eventually_now. exact Hp.
  - pose proof (cd_call _ _ _ _ HC) as Hr. apply role_of_lt in Hr.
    unfold state_of in Hp. destruct (heap s !! pc) eqn:Hl; [discriminate|].
    apply lookup_ge_None in Hl. lia.
Qed.

Lemma closing_returns s :
  Typed s -> Ordered s -> closing this m s -> eventually this (is_settled pc) s.
Proof.
  intros HT HO Hcl.
  destruct (settled s) eqn:Hs; [apply marked_returns; auto|].
  pose proof Hcl as ((HW & HC & HB & Hop) & Haw).
  destruct (state_of_cases pc s) as [Hp | [Hp | Hp]].
  - assert (H1 : (1 <= conts s)%nat) by (rewrite (HB Hp); lia).
    destruct (conts_find s H1) as [(p & r & Hr & Hc) | (r & o & Hj & Hc)].
    + destruct (is_body (handler r)) eqn:Hb.
      * destruct (cd_reactions _ _ _ _ HC p r Hr) as (_ & Hbody & _).
        rewrite (Hbody Hb) in Hr. rewrite (ord_quiet s HO _ Haw) in Hr. inversion Hr.
      * apply (after_reaction_served r p s HT HO Hcl Hr).
        unfold is_cont in Hc. rewrite Hb in Hc. exact Hc.
    + destruct (is_body (handler r)) eqn:Hb.
      * (* the continuation of the body is queued: it calls settle *)
        apply list_elem_of_lookup in Hj. destruct Hj as (k & Hk).
        assert (Hev : eventually this (fun x => settled x = true) s).
        { apply (job_served_under this (closing this m) (JReact r o) _ (closing_tick this m))
            with (k := k); auto.
          intros q s0 HT0 _ _ Hq.
          change (settled (snd (run_job this (JReact r o) s0)) = true).
          apply body_job_marks; [|exact Hb].
          apply (typed_queue s0 HT0). rewrite Hq. apply list_elem_of_here. }
        pose proof (eventually_keep_tick this _ (closing this m) s
                      (closing_tick this m) HT HO Hcl Hev) as Hev'.
        apply (eventually_then this _ _ s Hev').
        intros s1 (Hs1 & Hcl1 & HT1 & HO1). apply marked_returns; auto.
      * apply (after_job_served r o s HT HO HC Hj).
        unfold is_cont in Hc. rewrite Hb in Hc. exact Hc.
  - apply eventually_now. exact Hp.
  - pose proof (cd_call _ _ _ _ HC) as Hr. apply role_of_lt in Hr.
    unfold state_of in Hp. destruct (heap s !! pc) eqn:Hl; [discriminate|].
    apply lookup_ge_None in Hl. lia.
Qed.

End Closing.

(** The race against the deadline takes over what its first settled
    element settled with. *)
Lemma race_alive this m acts s :
  has_deadline this -> exec this acts (start this m) = Some s ->
  forwarding raced body s /\ forwarding raced deadline s.
Proof.
  intros Hd He.
  assert (H0 : forwarding raced body (start this m)
               /\ forwarding raced deadline (start this m)).
  { rewrite (start_with_timeout this m Hd).
    split; left; unfold rx; simpl; apply list_elem_of_here. }
  split.
  - apply (stable_exec this _ acts (start this m) s (stable_forwarding this raced body));
      [apply Typed_start | apply Ordered_start | apply H0 | exact He].
  - apply (stable_exec this _ acts (start this m) s (stable_forwarding this raced deadline));
      [apply Typed_start | apply Ordered_start | apply H0 | exact He].
Qed.

Lemma awaited_settles this m acts s :
  exec this acts (start this m) = Some s -> body_over this s ->
  eventually this (is_settled (awaited this)) s.
Proof.
  intros He Hover.
  assert (HT : Typed s) by (eapply Typed_exec; [apply Typed_start | exact He]).
  assert (HO : Ordered s).
  { eapply Ordered_exec; [apply Typed_start | apply Ordered_start | exact He]. }
  unfold awaited. destruct (truthy (Fjord.timeout this)) eqn:Hd.
  - destruct (race_alive this m acts s Hd He) as (Hb & Hdl).
    destruct Hover as [Hs | (_ & Hs)].
    + apply (reaction_alive_served this (forward_to raced) body); auto.
      intros o. apply yields_forward.
    + apply (reaction_alive_served this (forward_to raced) deadline); auto.
      intros o. apply yields_forward.
  - destruct Hover as [Hs | (Hd' & _)].
    + apply eventually_now. exact Hs.
    + unfold has_deadline in Hd'. congruence.
Qed.

(** X12: the call returns.  In a run in which caller code never calls
    [estuary.settle] itself, once the body's promise has settled or the
    timer has fired, and every operation launched so far has settled, the
    promise of the call is settled after finitely many jobs of the
    host. *)
Theorem orchestrator_returns (this : Fjord.t) (m : Mode) acts s :
  exec this acts (start this m) = Some s ->
  settle_left_alone acts = true ->
  is_settled body s \/ (has_deadline this /\ is_settled deadline s) ->
  (forall fp d, role_of d s = Some (RFlowThen fp) -> is_settled fp s) ->
  eventually this (is_settled pc) s.
Proof.
  intros He Hg Hover Hops.
  assert (HT : Typed s) by (eapply Typed_exec; [apply Typed_start | exact He]).
  assert (HO : Ordered s).
  { eapply Ordered_exec; [apply Typed_start | apply Ordered_start | exact He]. }
  assert (Htend : tending this m s).
  { split; [eapply Waiting_exec; eauto|].
    split; [rewrite <- Hg; apply Conducted_run; exact He|].
    split.
    { apply (busy_exec this m acts true (start this m) s);
        [apply Typed_start | apply Conducted_start | apply busy_start | exact He]. }
    split.
    - intros fp Hin. destruct (ord_tracked s HO fp Hin) as (Hr & _). eauto.
    - intros ps snap Hin fp Hfp.
      destruct (ord_wait s HO ps snap Hin) as (_ & ag & Ha & Hel & _).
      destruct (ord_remaining s HO 0%nat ag Ha) as (_ & _ & Hrole).
      rewrite <- Hel in Hfp. eauto. }
  pose proof (eventually_keep_tick this _ (tending this m) s
                (tending_tick this m) HT HO Htend
                (awaited_settles this m acts s He Hover)) as Hev.
  apply (eventually_then this _ _ s Hev).
  intros s1 (Haw & Ht1 & HT1 & HO1).
  apply (closing_returns this m s1 HT1 HO1). split; assumption.
Qed.

Lemma orchestrator_returns_witness :
  exists s,
    exec timed deadline_first (start timed Cascade) = Some s
    /\ eventually timed (is_settled pc) s.
Proof.
  destruct (exec timed deadline_first (start timed Cascade)) as [s|] eqn:He;
    [|vm_compute in He; discriminate].
  exists s. split; [reflexivity|].
  apply (orchestrator_returns timed Cascade deadline_first s He).
  - reflexivity.
  - right. split; [reflexivity|]. vm_compute in He. inversion He. eexists. reflexivity.
  - intros fp d Hr. vm_compute in He. inversion He. subst s.
    destruct d as [|[|[|[|[|[|[|[|[|[|d]]]]]]]]]]; simpl in Hr; try discriminate Hr.
    inversion Hr. eexists. reflexivity.
Defined.
(** ** Operations are called once, in the order of the launches *)

Lemma hushed_refl s : hushed s s.
Proof. intros H. auto. Qed.

Lemma hushed_trans s1 s2 s3 : hushed s1 s2 -> hushed s2 s3 -> hushed s1 s3.
Proof.
  intros H1 H2 Hn. destruct (H1 Hn) as (N2 & I2 & A2).
  destruct (H2 N2) as (N3 & I3 & A3). split; [exact N3|]. split; congruence.
Qed.

Lemma hushed_same s s' :
  heap s' = heap s -> queue s' = queue s -> log s' = log s -> hushed s s'.
Proof.
  intros Hh Hq Hl Hn. unfold invoked, awaiting. rewrite Hq, Hl.
  split; [|auto]. intros p r. rewrite (rx_same s s' p Hh). apply Hn.
Qed.

Lemma hush_bind {A B} (c : M A) (k : A -> M B) :
  keeps hushed c -> (forall a, keeps hushed (k a)) -> keeps hushed (bind c k).
Proof.
  intros Hc Hk s. rewrite bind_run.
  eapply hushed_trans; [apply Hc | apply Hk].
Qed.

Lemma hush_ret {A} (a : A) : keeps hushed (ret a).
Proof. intros s. apply hushed_refl. Qed.

Lemma hush_new_promise r st : keeps hushed (new_promise r st).
Proof.
  intros s Hn. split; [|auto]. intros p x.
  destruct (new_promise_view r st s) as (Vx & _). rewrite Vx. apply Hn.
Qed.

Lemma hush_enqueue j : invoke_of j = None -> keeps hushed (enqueue j).
Proof.
  intros Hj s Hn. split; [exact Hn|]. split; [reflexivity|].
  unfold awaiting. simpl. rewrite omap_app. simpl. rewrite Hj. apply app_nil_r.
Qed.

Lemma hush_log_event e : invoke_of_event e = None -> keeps hushed (log_event e).
Proof.
  intros He s Hn. split; [exact Hn|]. split; [|reflexivity].
  unfold invoked. simpl. rewrite omap_app. simpl. rewrite He. apply app_nil_r.
Qed.

Lemma omap_reactions_none (l : list Reaction) o :
  (forall r, r ∈ l -> invoke_of_handler (handler r) = None) ->
  omap invoke_of (map (fun r => JReact r o) l) = [].
Proof.
  induction l as [|x l IH]; intros H; [reflexivity|].
  simpl. rewrite (H x) by apply list_elem_of_here.
  apply IH. intros r Hr. apply H. apply list_elem_of_further. exact Hr.
Qed.

Lemma hush_settle_promise p o : keeps hushed (settle_promise p o).
Proof.
  intros s Hn. destruct (state_of_cases p s) as [Hp | Hp].
  - destruct (settle_promise_pending_view p o s Hp) as (Vx & _ & _ & Vq & _ & _ & Vl & _).
    split; [|split].
    + intros q r. rewrite Vx. destruct (decide (q = p)); [intros H; inversion H | apply Hn].
    + unfold invoked. rewrite Vl. reflexivity.
    + unfold awaiting. rewrite Vq, omap_app.
      rewrite (omap_reactions_none (rx p s) o (Hn p)). apply app_nil_r.
  - rewrite settle_promise_other; [apply hushed_refl; exact Hn|].
    destruct Hp as [(x & Hx) | Hx]; unfold settled_as in *; congruence.
Qed.

Lemma hush_perform_then p r :
  invoke_of_handler (handler r) = None -> keeps hushed (perform_then p r).
Proof.
  intros Hr s Hn. destruct (state_of_cases p s) as [Hp | [(o & Hp) | Hp]].
  - destruct (perform_then_pending_view p r s Hp) as (Vx & _ & _ & Vq & _ & _ & Vl & _).
    split; [|split].
    + intros q x. rewrite Vx. destruct (decide (q = p)) as [->|Hne]; [|apply Hn].
      intros Hin. apply elem_of_app in Hin. destruct Hin as [Hin | Hin]; [eapply Hn; eauto|].
      apply list_elem_of_singleton in Hin. subst x. exact Hr.
    + unfold invoked. rewrite Vl. reflexivity.
    + unfold awaiting. rewrite Vq. reflexivity.
  - rewrite (perform_then_settled p r o s Hp). apply hush_enqueue; [exact Hr | exact Hn].
  - rewrite (perform_then_none p r s Hp). apply hushed_refl. exact Hn.
Qed.

Lemma hush_count_down a i o : keeps hushed (count_down a i o).
Proof.
  intros s. unfold count_down. destruct (aggs s !! a) as [ag|]; [|apply hushed_refl].
  destruct (values ag !! i) as [[x|]|]; try apply hushed_refl.
  apply hushed_same; reflexivity.
Qed.

Ltac hush :=
  repeat first
    [ progress intros
    | simple apply hush_ret
    | simple apply hush_bind
    | apply hush_new_promise
    | apply hush_settle_promise
    | apply hush_count_down
    | apply hush_perform_then; reflexivity
    | apply hush_enqueue; reflexivity
    | apply hush_log_event; reflexivity
    | match goal with
      | |- keeps hushed (modify _) => intros ?; apply hushed_same; reflexivity
      | |- keeps hushed (get _) => intros ?; apply hushed_refl
      | |- keeps hushed (aggs_push _) => intros ?; apply hushed_same; reflexivity
      | |- keeps hushed (match ?x with _ => _ end) => destruct x
      | |- keeps hushed (if ?x then _ else _) => destruct x
      end ].

Lemma hush_register_elements a ps : forall i, keeps hushed (register_elements a i ps).
Proof. induction ps as [|p ps IH]; intros i; simpl; hush. apply IH. Qed.

Lemma hush_settle : keeps hushed Estuary.settle.
Proof.
  unfold Estuary.settle, Promise_allSettled, await, Estuary.mark_settled. hush.
  apply hush_register_elements.
Qed.

Lemma hush_rethrow this error tag pcx : keeps hushed (Fjord.rethrow this error tag pcx).
Proof. unfold Fjord.rethrow, Fjord.report. hush. Qed.

(** A callback other than the one that calls an operation calls
    none, and queues no such call. *)
Lemma hush_run_handler this h o :
  invoke_of_handler h = None -> keeps hushed (run_handler this h o).
Proof.
  intros Hh. destruct h; try discriminate Hh; simpl;
    unfold Fjord.cascade_catch, Fjord.tributary_catch, await, then_,
      Estuary.freeze_token, Estuary.flows_delete;
    hush; first [apply hush_settle | apply hush_rethrow].
Qed.

Lemma hush_resolve_with d c : keeps hushed (resolve_with d c).
Proof. unfold resolve_with. hush. Qed.

Lemma hush_run_job this j : invoke_of j = None -> keeps hushed (run_job this j).
Proof.
  intros Hj. destruct j as [r o | t src]; simpl.
  - hush; [apply hush_run_handler; exact Hj | apply hush_resolve_with].
  - hush.
Qed.

(** The callback that calls an operation calls this one, and queues no
    other call. *)
Lemma invoke_job_order this u d o s :
  no_invoke_rx s ->
  let s' := snd (run_job this (JReact {| handler := HInvoke u; derived := d |} o) s) in
  no_invoke_rx s' /\ invoked s' = invoked s ++ [u] /\ awaiting s' = awaiting s.
Proof.
  intros Hn. cbv zeta.
  set (s1 := with_log (fun l => l ++ [EvInvoke u]) s).
  assert (H1 : no_invoke_rx s1 /\ invoked s1 = invoked s ++ [u] /\ awaiting s1 = awaiting s).
  { split; [exact Hn|]. split; [|reflexivity]. unfold invoked. simpl.
    rewrite omap_app. reflexivity. }
  assert (H : hushed s1 (snd (run_job this (JReact {| handler := HInvoke u; derived := d |} o) s))).
  { unfold run_job. cbn [handler derived]. unfold run_handler.
    rewrite bind_run, bind_run. unfold log_event at 1 2, modify at 1 2. cbn [fst snd]. fold s1.
    set (x := match u with
              | USync (Ful v) => ret (Normal v)
              | USync (Rej e) => ret (Thrown e)
              | UAsync => q <- new_promise ROperation Pending ;; ret (Returned q)
              end).
    assert (Hx : keeps hushed x) by (subst x; hush).
    apply (hushed_trans s1 (snd (x s1))); [apply Hx|].
    destruct d as [d|]; [apply hush_resolve_with | apply hushed_refl]. }
  destruct H1 as (N1 & I1 & A1). destruct (H N1) as (N2 & I2 & A2).
  split; [exact N2|]. split; congruence.
Qed.

Lemma flow_order u s :
  no_invoke_rx s ->
  let s' := snd (Estuary.flow u s) in
  no_invoke_rx s' /\ invoked s' = invoked s
  /\ awaiting s' = awaiting s ++ (if frozen s then [] else [u]).
Proof.
  intros Hn. cbv zeta. destruct (frozen s) eqn:Hf.
  - rewrite (flow_frozen u s Hf). rewrite app_nil_r.
    exact (hush_new_promise RClosed (Settled (Rej Estuary.ScopeClosed)) s Hn).
  - destruct (flow_view u s Hf)
      as (Vold & _ & (V0 & _) & (V1 & _) & (V2 & _) & (V3 & _) & Vnew & Vq & _ & _ & Vl & _).
    split; [|split].
    + intros p r Hr.
      destruct (decide (p < length (heap s))%nat) as [Hlt|Hge].
      { rewrite (proj1 (Vold p Hlt)) in Hr. eapply Hn; eauto. }
      destruct (decide (p = length (heap s))) as [->|H0];
        [rewrite V0 in Hr; inversion Hr|].
      destruct (decide (p = S (length (heap s)))) as [->|H1].
      { rewrite V1 in Hr. apply list_elem_of_singleton in Hr. subst r. reflexivity. }
      destruct (decide (p = S (S (length (heap s))))) as [->|H2].
      { rewrite V2 in Hr. apply list_elem_of_singleton in Hr. subst r. reflexivity. }
      destruct (decide (p = S (S (S (length (heap s)))))) as [->|H3];
        [rewrite V3 in Hr; inversion Hr|].
      rewrite (proj1 (Vnew p ltac:(lia))) in Hr. inversion Hr.
    + unfold invoked. rewrite Vl. reflexivity.
    + unfold awaiting. rewrite Vq, omap_app. reflexivity.
Qed.

(** What one step adds to the operations called or about to be. *)
Lemma step_order this a s s' :
  no_invoke_rx s -> step this a s = Some s' ->
  no_invoke_rx s'
  /\ invoked s' ++ awaiting s'
     = invoked s ++ awaiting s
       ++ match a with
          | AFlow u => if frozen s then [] else [u]
          | _ => []
          end.
Proof.
  intros Hn Hs.
  assert (Hush : hushed s s' ->
                 no_invoke_rx s' /\ invoked s' ++ awaiting s' = invoked s ++ awaiting s ++ []).
  { intros H. destruct (H Hn) as (N & I1 & A1). split; [exact N|].
    rewrite I1, A1, app_nil_r. reflexivity. }
  destruct a as [u| |p o| |].
  - simpl in Hs. injection Hs as E. subst s'.
    destruct (flow_order u s Hn) as (N & I1 & A1). split; [exact N|].
    rewrite I1, A1. reflexivity.
  - simpl in Hs. injection Hs as E. subst s'. apply Hush. apply hush_settle.
  - simpl in Hs. destruct (caller_owned p s); [|discriminate].
    injection Hs as E. subst s'. apply Hush. apply hush_settle_promise.
  - destruct (queue s) as [|j q] eqn:Hq; [simpl in Hs; rewrite Hq in Hs; discriminate|].
    rewrite (tick_eq this j q s Hq) in Hs. injection Hs as E. subst s'.
    destruct (keeps_run_job queue_grows this j s) as (l & Hl).
    rewrite app_nil_r.
    destruct (invoke_of j) as [u|] eqn:Hj.
    + destruct j as [[h d] o | t src]; [|discriminate].
      destruct h; try discriminate Hj. simpl in Hj. inversion Hj. subst.
      destruct (invoke_job_order this u d o s Hn) as (N & I1 & A1).
      split; [exact N|].
      change (invoked (with_queue tail ?x)) with (invoked x). rewrite I1.
      unfold awaiting in A1 |- *. cbn [queue with_queue].
      rewrite Hl in A1 |- *. rewrite Hq in A1 |- *. simpl in A1 |- *.
      injection A1 as A1. change (omap invoke_of (q ++ l) = omap invoke_of q) in A1.
      rewrite A1, <- app_assoc. reflexivity.
    + destruct (hush_run_job this j Hj s Hn) as (N & I1 & A1).
      split; [exact N|].
      change (invoked (with_queue tail ?x)) with (invoked x). rewrite I1. f_equal.
      unfold awaiting in A1 |- *. cbn [queue with_queue].
      rewrite Hl in A1 |- *. rewrite Hq in A1 |- *. simpl in A1 |- *.
      rewrite Hj in A1 |- *. exact A1.
  - simpl in Hs. destruct (queue s); [|discriminate].
    destruct (timers s) as [|tm rest]; [discriminate|]. injection Hs as E. subst s'.
    apply Hush. rewrite bind_run. destruct (callback tm) as [d]. simpl. rewrite bind_run.
    apply (hushed_trans s (snd (Estuary.freeze_token (snd (pop_timer s))))).
    + apply hushed_same; reflexivity.
    + apply hush_settle_promise.
Qed.

Lemma exec_order this acts : forall s s',
  no_invoke_rx s -> exec this acts s = Some s' ->
  invoked s' ++ awaiting s' = invoked s ++ awaiting s ++ accepted this acts s.
Proof.
  induction acts as [|a acts IH]; simpl; intros s s' Hn He.
  - inversion He. rewrite app_nil_r. reflexivity.
  - destruct (step this a s) as [s1|] eqn:Hs; [|discriminate].
    destruct (step_order this a s s1 Hn Hs) as (N1 & E1).
    rewrite (IH s1 s' N1 He), app_assoc, E1.
    destruct a as [u| | | |]; rewrite ?app_nil_r, <- ?app_assoc; try reflexivity.
    destruct (frozen s); rewrite ?app_nil_r; reflexivity.
Qed.

Lemma no_invoke_rx_start this m : no_invoke_rx (start this m).
Proof.
  intros p r Hr. destruct (truthy (Fjord.timeout this)) eqn:Ht.
  - rewrite (start_with_timeout this m Ht) in Hr. unfold rx in Hr.
    destruct p as [|[|[|[|p]]]]; simpl in Hr;
      try (apply list_elem_of_singleton in Hr; subst r; destruct m; reflexivity);
      inversion Hr.
  - rewrite (start_no_timeout this m Ht) in Hr. unfold rx in Hr.
    destruct p as [|[|p]]; simpl in Hr;
      try (apply list_elem_of_singleton in Hr; subst r; destruct m; reflexivity);
      inversion Hr.
Qed.

(** X13: operations are called once, in the order of the launches.  In
    every run, the operations the host has called so far, followed by
    those whose call is waiting in the microtask queue, are exactly the
    operations launched while the token was not armed, in the order of
    the launches: none is called twice, dropped or overtaken. *)
Theorem launch_order (this : Fjord.t) (m : Mode) acts s :
  exec this acts (start this m) = Some s ->
  invoked s ++ awaiting s = accepted this acts (start this m).
Proof.
  intros He.
  rewrite (exec_order this acts (start this m) s (no_invoke_rx_start this m) He).
  destruct (truthy (Fjord.timeout this)) eqn:Ht.
  - rewrite (start_with_timeout this m Ht). reflexivity.
  - rewrite (start_no_timeout this m Ht). reflexivity.
Qed.

Lemma launch_order_witness :
  exists s,
    exec plain three_launches (start plain Cascade) = Some s
    /\ invoked s ++ awaiting s = [USync (Ful (VNum 1)); USync (Rej (VStr "no"))].
Proof.
  destruct (exec plain three_launches (start plain Cascade)) as [s|] eqn:He;
    [|vm_compute in He; discriminate].
  exists s. split; [reflexivity|].
  rewrite (launch_order plain Cascade three_launches s He). reflexivity.
Defined.
(** ** The presets *)




